(** * Bimap: an ordered bidirectional map on two treaps sharing their records

    A shallow embedding of [treap.h] and [bimap.h]: the pointer-linked
    records live in a heap (a finite map from addresses to cells), the
    member functions are programs of a small state-and-error monad, and
    loops and recursion over pointers carry fuel. *)

From stdpp Require Import gmap list sorting.
From Stdlib Require Import ZArith Lia.

Local Open Scope Z_scope.
Set Warnings "-clear-no-such-hyp".

(** ** Outcomes of running a member function *)

Inductive exn := out_of_range | bad_alloc.

(** [UB] is undefined behaviour (a null or dangling pointer is read or
    written); [Timeout] is the model running out of fuel. *)
Inductive outcome (S A : Type) :=
| Ok (a : A) (s : S)
| Throw (e : exn) (s : S)
| UB
| Timeout.
Arguments Ok {S A} a s.
Arguments Throw {S A} e s.
Arguments UB {S A}.
Arguments Timeout {S A}.

Definition M (S A : Type) := S → outcome S A.

Definition ret {S A} (a : A) : M S A := λ s, Ok a s.
Definition bind {S A B} (m : M S A) (k : A → M S B) : M S B :=
  λ s, match m s with
       | Ok a s' => k a s'
       | Throw e s' => Throw e s'
       | UB => UB
       | Timeout => Timeout
       end.
Definition throw {S A} (e : exn) : M S A := λ s, Throw e s.
Definition undefined {S A} : M S A := λ _, UB.
Definition timeout {S A} : M S A := λ _, Timeout.

Notation "'let*' x ':=' m 'in' k" := (bind m (λ x, k))
  (at level 10, x pattern, m at level 100, k at level 200).
Notation "m ';;' k" := (bind m (λ _, k))
  (at level 100, k at level 200, right associativity).

(** ** Records and the heap *)

(** Addresses. *)
Abbreviation ptr := positive.

Inductive tag := tag_left | tag_right.

Global Instance tag_eq_dec : EqDecision tag.
Proof. solve_decision. Defined.

Definition tag_other (tg : tag) : tag :=
  match tg with tag_left => tag_right | tag_right => tag_left end.

(** [node_tree<T, Tag>]: links are navigation only; [None] is [nullptr]. *)
Record node_tree := NodeTree {
  parent : option ptr;
  left : option ptr;
  right : option ptr;
  priority : Z
}.

Definition with_parent (v : option ptr) (n : node_tree) : node_tree :=
  NodeTree v (left n) (right n) (priority n).
Definition with_left (v : option ptr) (n : node_tree) : node_tree :=
  NodeTree (parent n) v (right n) (priority n).
Definition with_right (v : option ptr) (n : node_tree) : node_tree :=
  NodeTree (parent n) (left n) v (priority n).
Definition with_priority (v : Z) (n : node_tree) : node_tree :=
  NodeTree (parent n) (left n) (right n) v.

Definition INT_MAX : Z := 2147483647.
Definition SIZE_MOD : Z := 2 ^ 64.
Definition addr_limit : positive := (2 ^ 64)%positive.

Section Records.
Context {L R : Type}.

(** One allocation: [node_t_base] (the two sub-records [node_left] and
    [node_right]) and, for a [node_t], the two keys; the sentinel
    [end_node] is a bare [node_t_base] and has no keys. *)
Record cell := Cell {
  sub_left : node_tree;
  sub_right : node_tree;
  keys : option (L * R)
}.

Definition sub (tg : tag) (c : cell) : node_tree :=
  match tg with tag_left => sub_left c | tag_right => sub_right c end.

Definition with_sub (tg : tag) (n : node_tree) (c : cell) : cell :=
  match tg with
  | tag_left => Cell n (sub_right c) (keys c)
  | tag_right => Cell (sub_left c) n (keys c)
  end.

Definition key_left (c : cell) : option L := fst <$> keys c.
Definition key_right (c : cell) : option R := snd <$> keys c.

Local Abbreviation heap := (gmap ptr cell).

Definition load (p : ptr) : M heap cell :=
  λ h, match h !! p with Some c => Ok c h | None => UB end.

Definition store (p : ptr) (c : cell) : M heap unit :=
  λ h, match h !! p with Some _ => Ok tt (<[p := c]> h) | None => UB end.

(** [p->] on a pointer that may be null. *)
Definition deref (p : option ptr) : M heap ptr :=
  match p with Some q => ret q | None => undefined end.

Section View.
Variable tg : tag.

Definition get_parent (p : ptr) : M heap (option ptr) :=
  let* c := load p in ret (parent (sub tg c)).
Definition get_left (p : ptr) : M heap (option ptr) :=
  let* c := load p in ret (left (sub tg c)).
Definition get_right (p : ptr) : M heap (option ptr) :=
  let* c := load p in ret (right (sub tg c)).
Definition get_priority (p : ptr) : M heap Z :=
  let* c := load p in ret (priority (sub tg c)).

Definition put_parent (p : ptr) (v : option ptr) : M heap unit :=
  let* c := load p in store p (with_sub tg (with_parent v (sub tg c)) c).
Definition put_left (p : ptr) (v : option ptr) : M heap unit :=
  let* c := load p in store p (with_sub tg (with_left v (sub tg c)) c).
Definition put_right (p : ptr) (v : option ptr) : M heap unit :=
  let* c := load p in store p (with_sub tg (with_right v (sub tg c)) c).
Definition put_priority (p : ptr) (v : Z) : M heap unit :=
  let* c := load p in store p (with_sub tg (with_priority v (sub tg c)) c).

(** *** [node_tree::next] and [node_tree::prev] *)

Fixpoint next_climb (fuel : nat) (cur : ptr) (par : option ptr)
  : M heap (option ptr) :=
  match fuel with
  | O => timeout
  | S fuel' =>
      match par with
      | None => ret None
      | Some p =>
          let* r := get_right p in
          if decide (r = Some cur)
          then let* pp := get_parent p in next_climb fuel' p pp
          else ret (Some p)
      end
  end.

Fixpoint descend_left (fuel : nat) (cur : ptr) : M heap ptr :=
  match fuel with
  | O => timeout
  | S fuel' =>
      let* l := get_left cur in
      match l with
      | None => ret cur
      | Some l' => descend_left fuel' l'
      end
  end.

Definition next (fuel : nat) (this : ptr) : M heap (option ptr) :=
  let* r := get_right this in
  match r with
  | None => let* par := get_parent this in next_climb fuel this par
  | Some r' => let* res := descend_left fuel r' in ret (Some res)
  end.

Fixpoint prev_climb (fuel : nat) (cur : ptr) (par : option ptr)
  : M heap (option ptr) :=
  match fuel with
  | O => timeout
  | S fuel' =>
      match par with
      | None => ret None
      | Some p =>
          let* l := get_left p in
          if decide (l = Some cur)
          then let* pp := get_parent p in prev_climb fuel' p pp
          else ret (Some p)
      end
  end.

Fixpoint descend_right (fuel : nat) (cur : ptr) : M heap ptr :=
  match fuel with
  | O => timeout
  | S fuel' =>
      let* r := get_right cur in
      match r with
      | None => ret cur
      | Some r' => descend_right fuel' r'
      end
  end.

Definition prev (fuel : nat) (this : ptr) : M heap (option ptr) :=
  let* l := get_left this in
  match l with
  | None => let* par := get_parent this in prev_climb fuel this par
  | Some l' => let* res := descend_right fuel l' in ret (Some res)
  end.
End View.
End Records.

Arguments cell : clear implicits.

Abbreviation heap L R := (gmap ptr (cell L R)).

(** ** [treap<T, Comparator, Tag>] *)

(** [treap_storage]: the comparator (the base class) and the pointer to
    the common end record. *)
Record treap (K : Type) := Treap {
  cmp : K → K → bool;
  end_elem : option ptr
}.
Arguments Treap {K} cmp end_elem.
Arguments cmp {K} t.
Arguments end_elem {K} t.

Section Treap.
Context {L R K : Type}.
Variable tg : tag.
Variable getter : cell L R → option K.

Local Abbreviation heap := (heap L R).

Definition key_of (p : ptr) : M heap K :=
  let* c := load p in
  match getter c with Some k => ret k | None => undefined end.

Definition last (t : treap K) : option ptr := end_elem t.

Definition is_last (t : treap K) (node : option ptr) : bool :=
  bool_decide (last t = node).

Definition root (t : treap K) : M heap (option ptr) :=
  let* e := deref (last t) in get_left tg e.

Definition less (t : treap K) (key1 key2 : K) : bool := cmp t key1 key2.

Definition set_parent (child par : option ptr) : M heap unit :=
  match child with
  | Some c => put_parent tg c par
  | None => ret tt
  end.

Definition reconnect_end (t : treap K) : M heap unit :=
  let* e := deref (last t) in
  let* l := get_left tg e in
  set_parent l (last t).

Fixpoint split (fuel : nat) (t : treap K) (node : option ptr) (key : K)
  : M heap (option ptr * option ptr) :=
  match fuel with
  | O => timeout
  | S fuel' =>
      match node with
      | None => ret (None, None)
      | Some n =>
          let* k := key_of n in
          if less t k key then
            let* r := get_right tg n in
            let* split_r := split fuel' t r key in
            put_right tg n (fst split_r);;
            set_parent (fst split_r) (Some n);;
            set_parent (snd split_r) None;;
            ret (Some n, snd split_r)
          else
            let* l := get_left tg n in
            let* split_l := split fuel' t l key in
            put_left tg n (snd split_l);;
            set_parent (snd split_l) (Some n);;
            set_parent (fst split_l) None;;
            ret (fst split_l, Some n)
      end
  end.

Fixpoint merge (fuel : nat) (tree1 tree2 : option ptr)
  : M heap (option ptr) :=
  match fuel with
  | O => timeout
  | S fuel' =>
      match tree2 with
      | None => ret tree1
      | Some t2 =>
          match tree1 with
          | None => ret tree2
          | Some t1 =>
              let* p1 := get_priority tg t1 in
              let* p2 := get_priority tg t2 in
              if p2 <? p1 then
                let* r1 := get_right tg t1 in
                let* m := merge fuel' r1 tree2 in
                put_right tg t1 m;;
                let* r1' := get_right tg t1 in
                set_parent r1' tree1;;
                ret tree1
              else
                let* l2 := get_left tg t2 in
                let* m := merge fuel' tree1 l2 in
                put_left tg t2 m;;
                let* l2' := get_left tg t2 in
                set_parent l2' tree2;;
                ret tree2
          end
      end
  end.

Fixpoint insert_at (fuel : nat) (t : treap K) (tree : option ptr)
    (node : ptr) : M heap (option ptr) :=
  match fuel with
  | O => timeout
  | S fuel' =>
      match tree with
      | None => ret (Some node)
      | Some tr =>
          let* pn := get_priority tg node in
          let* pt := get_priority tg tr in
          if pt <? pn then
            let* kn := key_of node in
            let* split_tree := split fuel' t tree kn in
            put_left tg node (fst split_tree);;
            set_parent (fst split_tree) (Some node);;
            put_right tg node (snd split_tree);;
            set_parent (snd split_tree) (Some node);;
            ret (Some node)
          else
            let* kn := key_of node in
            let* kt := key_of tr in
            if less t kn kt then
              let* l := get_left tg tr in
              let* res := insert_at fuel' t l node in
              put_left tg tr res;;
              let* l' := get_left tg tr in
              let* lp := deref l' in
              put_parent tg lp tree;;
              ret tree
            else
              let* r := get_right tg tr in
              let* res := insert_at fuel' t r node in
              put_right tg tr res;;
              let* r' := get_right tg tr in
              let* rp := deref r' in
              put_parent tg rp tree;;
              ret tree
      end
  end.

Definition insert (fuel : nat) (t : treap K) (node : ptr) : M heap unit :=
  let* r := root t in
  let* res := insert_at fuel t r node in
  let* e := deref (last t) in
  put_left tg e res;;
  reconnect_end t.

Definition remove_at (fuel : nat) (t : treap K) (tree : option ptr)
    (node : ptr) : M heap (option ptr) :=
  let* par := get_parent tg node in
  let* l := get_left tg node in
  let* r := get_right tg node in
  let* res := merge fuel l r in
  set_parent res par;;
  if decide (par = last t) then
    let* p := deref par in
    put_left tg p res;;
    ret res
  else
    let* p := deref par in
    let* pr := get_right tg p in
    (if decide (pr = Some node)
     then put_right tg p res
     else put_left tg p res);;
    ret tree.

Definition remove (fuel : nat) (t : treap K) (node : ptr)
  : M heap (option ptr) :=
  let* res := next tg fuel node in
  let* r := root t in
  let* tree := remove_at fuel t r node in
  let* e := deref (last t) in
  put_left tg e tree;;
  reconnect_end t;;
  ret res.

Fixpoint find_from (fuel : nat) (t : treap K) (key : K)
    (node : option ptr) : M heap (option ptr) :=
  match fuel with
  | O => timeout
  | S fuel' =>
      match node with
      | None => ret (last t)
      | Some n =>
          let* k := key_of n in
          if less t k key then
            let* r := get_right tg n in find_from fuel' t key r
          else if less t key k then
            let* l := get_left tg n in find_from fuel' t key l
          else ret node
      end
  end.

Definition find (fuel : nat) (t : treap K) (key : K)
  : M heap (option ptr) :=
  let* r := root t in find_from fuel t key r.







Definition first (fuel : nat) (t : treap K) : M heap (option ptr) :=
  let* e := deref (last t) in
  let* res := descend_left tg fuel e in
  ret (Some res).

(** [treap_storage(Comparator, node_t_ *end)] *)
Definition treap_ctor (comparator : K → K → bool) (e : ptr)
  : M heap (treap K) :=
  put_left tg e None;;
  put_right tg e None;;
  put_parent tg e None;;
  put_priority tg e INT_MAX;;
  ret (Treap comparator (Some e)).

(** [treap_storage::swap]: the comparators and the two roots are
    exchanged; both end pointers are dereferenced. *)
Definition swap (this other : treap K) : M heap (treap K * treap K) :=
  let* e1 := deref (end_elem this) in
  let* e2 := deref (end_elem other) in
  let* l1 := get_left tg e1 in
  let* l2 := get_left tg e2 in
  put_left tg e1 l2;;
  put_left tg e2 l1;;
  ret (Treap (cmp other) (end_elem this), Treap (cmp this) (end_elem other)).

(** [treap(treap &&other)]: the new storage starts with the default
    member initialiser [end_elem = nullptr] and is then swapped. *)
Definition treap_move_ctor (other : treap K) (default_cmp : K → K → bool)
  : M heap (treap K * treap K) :=
  swap (Treap default_cmp None) other.

(** [treap &operator=(treap &&other)] *)
Definition treap_move_assign (this other : treap K)
  : M heap (treap K * treap K) :=
  swap this other.
End Treap.

(** ** [bimap<Left, Right, CompareLeft, CompareRight>] *)

(** Cursors: [iterator<Tag>] wraps a pointer to the [Tag] sub-record. *)
Record iterator (tg : tag) := Iterator { node : option ptr }.
Arguments Iterator {tg} node.
Arguments node {tg} i.

Definition flip {tg} (it : iterator tg) : iterator (tag_other tg) :=
  Iterator (node it).

Definition iter_eq {tg} (a b : iterator tg) : bool :=
  bool_decide (node a = node b).
Definition iter_ne {tg} (a b : iterator tg) : bool :=
  negb (iter_eq a b).

Definition left_iterator := iterator tag_left.
Definition right_iterator := iterator tag_right.

Section Bimap.
Context {L R : Type}.
(** [Left()] and [Right()], and [operator==] of the key types. *)
Variable default_left : L.
Variable default_right : R.
Variable eq_left : L → L → bool.
Variable eq_right : R → R → bool.

Local Abbreviation heap := (heap L R).
Local Abbreviation cell := (cell L R).

(** The process: the heap, the generator behind [random_priority]
    ([rand] is the sequence it will produce, [seed] the number of draws
    so far) and the number of allocations that will still succeed. *)
Record world := World {
  mem : heap;
  rand : nat → Z;
  seed : nat;
  allocs : nat
}.

Definition with_mem (h : heap) (w : world) : world :=
  World h (rand w) (seed w) (allocs w).

Definition lift {A} (m : M heap A) : M world A :=
  λ w, match m (mem w) with
       | Ok a h => Ok a (with_mem h w)
       | Throw e h => Throw e (with_mem h w)
       | UB => UB
       | Timeout => Timeout
       end.

Definition random_priority : M world Z :=
  λ w, Ok (rand w (seed w)) (World (mem w) (rand w) (S (seed w)) (allocs w)).

(** [operator new]: a free address below the end of the address space,
    or [std::bad_alloc]. *)
Definition operator_new : M world ptr :=
  λ w, let p := fresh (dom (mem w)) in
       match allocs w with
       | S n =>
           if decide (p < addr_limit)%positive
           then Ok p (World (mem w) (rand w) (seed w) n)
           else Throw bad_alloc w
       | O => Throw bad_alloc w
       end.

Definition construct (p : ptr) (c : cell) : M world unit :=
  λ w, Ok tt (with_mem (<[p := c]> (mem w)) w).

Definition operator_delete (p : ptr) : M world unit :=
  λ w, match mem w !! p with
       | Some _ => Ok tt (with_mem (delete p (mem w)) w)
       | None => UB
       end.

(** [node_tree()]: null links and a random priority. *)
Definition node_tree_ctor : M world node_tree :=
  let* pr := random_priority in ret (NodeTree None None None pr).

(** [new node_t(l, r)]: the base [node_left] is built before the base
    [node_right]. *)
Definition new_node_t (l : L) (r : R) : M world ptr :=
  let* p := operator_new in
  let* nl := node_tree_ctor in
  let* nr := node_tree_ctor in
  construct p (Cell nl nr (Some (l, r)));;
  ret p.

Record bimap := Bimap {
  treap_left : treap L;
  treap_right : treap R;
  size_ : Z;
  end_node : ptr
}.

Definition with_treap_left (t : treap L) (b : bimap) : bimap :=
  Bimap t (treap_right b) (size_ b) (end_node b).
Definition with_treap_right (t : treap R) (b : bimap) : bimap :=
  Bimap (treap_left b) t (size_ b) (end_node b).
Definition with_size (n : Z) (b : bimap) : bimap :=
  Bimap (treap_left b) (treap_right b) n (end_node b).

(** [key_getter<Tag>]: the record is read as a [node_t]. *)
Definition key_getter_left : cell → option L := key_left.
Definition key_getter_right : cell → option R := key_right.

(** *** Cursor operations *)

Definition star_left (it : left_iterator) : M world L :=
  lift (let* p := deref (node it) in key_of key_getter_left p).
Definition star_right (it : right_iterator) : M world R :=
  lift (let* p := deref (node it) in key_of key_getter_right p).

Definition incr {tg} (fuel : nat) (it : iterator tg) : M world (iterator tg) :=
  lift (let* p := deref (node it) in
        let* n := next tg fuel p in ret (Iterator n)).
Definition decr {tg} (fuel : nat) (it : iterator tg) : M world (iterator tg) :=
  lift (let* p := deref (node it) in
        let* n := prev tg fuel p in ret (Iterator n)).

(** *** Queries *)

Definition find_left (fuel : nat) (b : bimap) (l : L) : M world left_iterator :=
  lift (let* n := find tag_left key_getter_left fuel (treap_left b) l in
        ret (Iterator n)).
Definition find_right (fuel : nat) (b : bimap) (r : R) : M world right_iterator :=
  lift (let* n := find tag_right key_getter_right fuel (treap_right b) r in
        ret (Iterator n)).

Definition begin_left (fuel : nat) (b : bimap) : M world left_iterator :=
  lift (let* n := first tag_left fuel (treap_left b) in ret (Iterator n)).
Definition end_left (b : bimap) : left_iterator :=
  Iterator (last (treap_left b)).
Definition begin_right (fuel : nat) (b : bimap) : M world right_iterator :=
  lift (let* n := first tag_right fuel (treap_right b) in ret (Iterator n)).
Definition end_right (b : bimap) : right_iterator :=
  Iterator (last (treap_right b)).


(** [empty()] and [size()]; the plain names are stdpp's. *)
Definition bimap_empty (b : bimap) : bool := bool_decide (size_ b = 0).
Definition bimap_size (b : bimap) : Z := size_ b.

Definition contains_left (fuel : nat) (b : bimap) (l : L) : M world bool :=
  let* it := find_left fuel b l in ret (iter_ne it (end_left b)).
Definition contains_right (fuel : nat) (b : bimap) (r : R) : M world bool :=
  let* it := find_right fuel b r in ret (iter_ne it (end_right b)).

(** [at<Tag>]: the found record is flipped to the other view. *)
Definition at_left (fuel : nat) (b : bimap) (key : L) : M world R :=
  let* res := lift (find tag_left key_getter_left fuel (treap_left b) key) in
  if is_last (treap_left b) res then throw out_of_range
  else lift (let* p := deref res in key_of key_getter_right p).
Definition at_right (fuel : nat) (b : bimap) (key : R) : M world L :=
  let* res := lift (find tag_right key_getter_right fuel (treap_right b) key) in
  if is_last (treap_right b) res then throw out_of_range
  else lift (let* p := deref res in key_of key_getter_left p).

(** *** Member functions that change [*this]

    These run on the pair of the process and the object's members, so
    that a handler sees the members as they are when an exception is
    thrown. *)

Definition method (A : Type) := M (world * bimap) A.

Definition in_world {A} (m : M world A) : method A :=
  λ s, match m (fst s) with
       | Ok a w => Ok a (w, snd s)
       | Throw e w => Throw e (w, snd s)
       | UB => UB
       | Timeout => Timeout
       end.

Definition get_this : method bimap := λ s, Ok (snd s) s.
Definition set_this (b : bimap) : method unit := λ s, Ok tt (fst s, b).

(** A [const] member function called on [*this]. *)
Definition const_call {A} (f : bimap → M world A) : method A :=
  let* b := get_this in in_world (f b).

Definition insert_impl (fuel : nat) (l : L) (r : R) : method left_iterator :=
  let* cl := const_call (λ b, contains_left fuel b l) in
  let* cr := (if cl then ret true
              else const_call (λ b, contains_right fuel b r)) in
  if cl || cr then const_call (λ b, ret (end_left b))
  else
    let* nd := in_world (new_node_t l r) in
    let* b := get_this in
    in_world (lift (insert tag_left key_getter_left fuel (treap_left b) nd));;
    in_world (lift (insert tag_right key_getter_right fuel (treap_right b) nd));;
    set_this (with_size ((size_ b + 1) mod SIZE_MOD) b);;
    ret (Iterator (Some nd)).

Definition bimap_insert := insert_impl.

Definition erase_impl {tg} (fuel : nat) (iter : iterator tg)
  : method (iterator tg) :=
  let* p := in_world (lift (deref (node iter))) in
  let* b := get_this in
  let* res_r := in_world (lift (remove tag_right fuel (treap_right b) p)) in
  let* res_l := in_world (lift (remove tag_left fuel (treap_left b) p)) in
  in_world (operator_delete p);;
  set_this (with_size ((size_ b - 1) mod SIZE_MOD) b);;
  match tg with
  | tag_left => ret (Iterator res_l)
  | tag_right => ret (Iterator res_r)
  end.

Definition erase_left (fuel : nat) (it : left_iterator)
  : method left_iterator := erase_impl fuel it.
Definition erase_right (fuel : nat) (it : right_iterator)
  : method right_iterator := erase_impl fuel it.

Definition erase_left_key (fuel : nat) (l : L) : method bool :=
  let* b := get_this in
  let* nd := in_world (lift (find tag_left key_getter_left fuel (treap_left b) l)) in
  if is_last (treap_left b) nd then ret false
  else erase_impl (tg := tag_left) fuel (Iterator nd);; ret true.
Definition erase_right_key (fuel : nat) (r : R) : method bool :=
  let* b := get_this in
  let* nd := in_world (lift (find tag_right key_getter_right fuel (treap_right b) r)) in
  if is_last (treap_right b) nd then ret false
  else erase_impl (tg := tag_right) fuel (Iterator nd);; ret true.

Fixpoint erase_range_loop {tg} (n fuel : nat) (first last : iterator tg)
  : method (iterator tg) :=
  match n with
  | O => timeout
  | S n' =>
      if iter_ne first last then
        let* first' := erase_impl fuel first in
        erase_range_loop n' fuel first' last
      else ret last
  end.

Definition erase_range {tg} (fuel : nat) (first last : iterator tg)
  : method (iterator tg) :=
  erase_range_loop fuel fuel first last.

Definition erase_left_range := @erase_range tag_left.
Definition erase_right_range := @erase_range tag_right.

Definition erase_all (fuel : nat) : method unit :=
  let* first := const_call (begin_left fuel) in
  let* last := const_call (λ b, ret (end_left b)) in
  erase_left_range fuel first last;;
  ret tt.

(** A [const] reference to a key, as [at_or_default] is handed one: to
    an object that is no part of a record, or to a key kept in the
    record at an address (its left key, or its right key where both
    sides have the same type). Reading a reference into a record that
    has been deleted is undefined. *)
Inductive reference (K : Type) : Type :=
| ref_object (k : K)
| ref_key (p : ptr) (getter : cell → option K).
Global Arguments ref_object {K} k.
Global Arguments ref_key {K} p getter.

Definition read {K} (key : reference K) : M world K :=
  match key with
  | ref_object k => ret k
  | ref_key p getter => lift (key_of getter p)
  end.

(** [at_or_default<Tag>]: [key] is read by [contains], by [at] and, after
    the pair that holds the default has been erased, by [insert]. *)
Definition at_left_or_default (fuel : nat) (key : reference L) : method R :=
  let* c := (let* k := in_world (read key) in
             const_call (λ b, contains_left fuel b k)) in
  if c then
    let* k := in_world (read key) in const_call (λ b, at_left fuel b k)
  else
    let val := default_right in
    let* it := const_call (λ b, find_right fuel b val) in
    let* e := const_call (λ b, ret (end_right b)) in
    (if iter_ne it e then erase_impl fuel it;; ret tt else ret tt);;
    let* res := (let* k := in_world (read key) in
                 bimap_insert fuel k val) in
    in_world (star_right (flip res)).

Definition at_right_or_default (fuel : nat) (key : reference R) : method L :=
  let* c := (let* k := in_world (read key) in
             const_call (λ b, contains_right fuel b k)) in
  if c then
    let* k := in_world (read key) in const_call (λ b, at_right fuel b k)
  else
    let val := default_left in
    let* it := const_call (λ b, find_left fuel b val) in
    let* e := const_call (λ b, ret (end_left b)) in
    (if iter_ne it e then erase_impl fuel it;; ret tt else ret tt);;
    let* res := (let* k := in_world (read key) in
                 bimap_insert fuel val k) in
    in_world (star_left res).

(** *** Construction, copy, move, destruction *)

Definition validate_end {K} (tg : tag) (base : ptr) (tree : treap K)
  : M heap (treap K) :=
  put_parent tg base None;;
  put_right tg base None;;
  let* r := root tg tree in
  put_left tg base r;;
  let tree' := Treap (cmp tree) (Some base) in
  let* r' := root tg tree' in
  set_parent tg r' (Some base);;
  ret tree'.

Definition validate_ends : method unit :=
  let* b := get_this in
  let* tl := in_world (lift (validate_end tag_left (end_node b) (treap_left b))) in
  let* tr := in_world (lift (validate_end tag_right (end_node b) (treap_right b))) in
  set_this (Bimap tl tr (size_ b) (end_node b)).

(** Storage for a [bimap] object: the address of its [end_node] member,
    whose bytes are indeterminate until the member is constructed. *)
Definition indeterminate : cell :=
  Cell (NodeTree None None None 0) (NodeTree None None None 0) None.

Definition place_object : M world ptr :=
  λ w, let p := fresh (dom (mem w)) in
       if decide (p < addr_limit)%positive
       then Ok p (with_mem (<[p := indeterminate]> (mem w)) w)
       else Throw bad_alloc w.

(** [node_t_base()] for the member [end_node]. *)
Definition node_t_base_ctor (p : ptr) : M world unit :=
  let* nl := node_tree_ctor in
  let* nr := node_tree_ctor in
  construct p (Cell nl nr None).

(** The storage of an object goes away when its lifetime ends. *)
Definition release_object (b : bimap) : M world unit :=
  operator_delete (end_node b).

(** The body of a constructor runs on the members; if it throws, the
    object never comes to life and its storage is released. *)
Definition construct_with {A} (members : bimap) (body : method A)
  : M world bimap :=
  λ w, match body (w, members) with
       | Ok _ s => Ok (snd s) (fst s)
       | Throw e s =>
           match release_object (snd s) (fst s) with
           | Ok _ w' => Throw e w'
           | Throw e' w' => Throw e' w'
           | UB => UB
           | Timeout => Timeout
           end
       | UB => UB
       | Timeout => Timeout
       end.

(** A member function called on an object other than [*this]. *)
Definition call_on {A} (b : bimap) (m : method A) : M world (A * bimap) :=
  λ w, match m (w, b) with
       | Ok a s => Ok (a, snd s) (fst s)
       | Throw e s => Throw e (fst s)
       | UB => UB
       | Timeout => Timeout
       end.

(** [bimap(CompareLeft, CompareRight)]: members are initialised in
    declaration order, [end_node] after the two treaps. *)
Definition bimap_ctor (compare_left : L → L → bool)
    (compare_right : R → R → bool) : M world bimap :=
  let* e := place_object in
  let* tl := lift (treap_ctor tag_left compare_left e) in
  let* tr := lift (treap_ctor tag_right compare_right e) in
  node_t_base_ctor e;;
  construct_with (Bimap tl tr 0 e) validate_ends.

Fixpoint insert_all_loop (n fuel : nat) (other : bimap)
    (iter : left_iterator) : method unit :=
  match n with
  | O => timeout
  | S n' =>
      if iter_ne iter (end_left other) then
        let* l := in_world (star_left iter) in
        let* r := in_world (star_right (flip iter)) in
        bimap_insert fuel l r;;
        let* iter' := in_world (incr fuel iter) in
        insert_all_loop n' fuel other iter'
      else ret tt
  end.

Definition insert_all (fuel : nat) (other : bimap) : method unit :=
  let* iter := in_world (begin_left fuel other) in
  insert_all_loop fuel fuel other iter.

(** [try { body } catch (...) { handler; throw; }] *)
Definition try_catch_rethrow {S A} (body : M S A) (handler : M S unit)
  : M S A :=
  λ s, match body s with
       | Throw e s' =>
           match handler s' with
           | Ok _ s'' => Throw e s''
           | Throw e' s'' => Throw e' s''
           | UB => UB
           | Timeout => Timeout
           end
       | r => r
       end.

(** [bimap(bimap const &other)] *)
Definition bimap_copy_ctor (fuel : nat) (other : bimap) : M world bimap :=
  let* e := place_object in
  let* tl := lift (treap_ctor tag_left (cmp (treap_left other)) e) in
  let* tr := lift (treap_ctor tag_right (cmp (treap_right other)) e) in
  node_t_base_ctor e;;
  construct_with (Bimap tl tr 0 e)
    (try_catch_rethrow
       (validate_ends;; insert_all fuel other)
       (erase_all fuel)).

(** [bimap(bimap &&other) noexcept]: returns the new object and what
    is left of [other]. *)
Definition bimap_move_ctor (other : bimap)
    (default_compare_left : L → L → bool)
    (default_compare_right : R → R → bool) : M world (bimap * bimap) :=
  let* e := place_object in
  let* tls := lift (treap_move_ctor tag_left (treap_left other)
                      default_compare_left) in
  let* trs := lift (treap_move_ctor tag_right (treap_right other)
                      default_compare_right) in
  node_t_base_ctor e;;
  let* this := construct_with (Bimap (fst tls) (fst trs) (size_ other) e)
                 validate_ends in
  let* other' := call_on (Bimap (snd tls) (snd trs) (size_ other)
                            (end_node other)) validate_ends in
  ret (this, snd other').

(** [bimap &operator=(bimap &&other) noexcept]: returns what is left
    of [other]. *)
Definition bimap_move_assign (other : bimap) : method bimap :=
  let* b := get_this in
  let* tls := in_world (lift (treap_move_assign tag_left
                                (treap_left b) (treap_left other))) in
  let* trs := in_world (lift (treap_move_assign tag_right
                                (treap_right b) (treap_right other))) in
  set_this (Bimap (fst tls) (fst trs) (size_ other) (end_node b));;
  ret (Bimap (snd tls) (snd trs) (size_ b) (end_node other)).

(** [~bimap()] *)
Definition bimap_dtor (fuel : nat) (b : bimap) : M world unit :=
  let* r := call_on b (erase_all fuel) in
  release_object (snd r).

(** [bimap &operator=(const bimap &other)]: the temporary [copied] is
    destroyed when the function returns. *)
Definition bimap_copy_assign (fuel : nat) (other : bimap) : method unit :=
  let* b := get_this in
  if decide (end_node other = end_node b) then ret tt
  else
    let* copied := in_world (bimap_copy_ctor fuel other) in
    let* copied' := bimap_move_assign copied in
    in_world (bimap_dtor fuel copied').

(** [operator==] *)
Fixpoint equal_loop (n fuel : nat) (map1 : bimap)
    (it1 it2 : left_iterator) : M world bool :=
  match n with
  | O => timeout
  | S n' =>
      if iter_ne it1 (end_left map1) then
        let* l1 := star_left it1 in
        let* l2 := star_left it2 in
        let* differ :=
          (if negb (eq_left l1 l2) then ret true
           else let* r1 := star_right (flip it1) in
                let* r2 := star_right (flip it2) in
                ret (negb (eq_right r1 r2))) in
        if differ : bool then ret false
        else
          let* it1' := incr fuel it1 in
          let* it2' := incr fuel it2 in
          equal_loop n' fuel map1 it1' it2'
      else ret true
  end.

Definition bimap_eq (fuel : nat) (map1 map2 : bimap) : M world bool :=
  if negb (bool_decide (bimap_size map1 = bimap_size map2)) then ret false
  else
    let* it1 := begin_left fuel map1 in
    let* it2 := begin_left fuel map2 in
    equal_loop fuel fuel map1 it1 it2.

Definition bimap_ne (fuel : nat) (map1 map2 : bimap) : M world bool :=
  let* e := bimap_eq fuel map1 map2 in ret (negb e).

(** *** Observing a bimap through its cursors

    The pairs met on the way from [begin] to [end] of a view. *)

Fixpoint collect_left (n fuel : nat) (b : bimap) (it : left_iterator)
  : M world (list (L * R)) :=
  match n with
  | O => timeout
  | S n' =>
      if iter_ne it (end_left b) then
        let* l := star_left it in
        let* r := star_right (flip it) in
        let* it' := incr fuel it in
        let* rest := collect_left n' fuel b it' in
        ret ((l, r) :: rest)
      else ret []
  end.

Definition view_left (fuel : nat) (b : bimap) : M world (list (L * R)) :=
  let* it := begin_left fuel b in collect_left fuel fuel b it.

Fixpoint collect_right (n fuel : nat) (b : bimap) (it : right_iterator)
  : M world (list (L * R)) :=
  match n with
  | O => timeout
  | S n' =>
      if iter_ne it (end_right b) then
        let* l := star_left (flip it) in
        let* r := star_right it in
        let* it' := incr fuel it in
        let* rest := collect_right n' fuel b it' in
        ret ((l, r) :: rest)
      else ret []
  end.

Definition view_right (fuel : nat) (b : bimap) : M world (list (L * R)) :=
  let* it := begin_right fuel b in collect_right fuel fuel b it.
End Bimap.

(** * Specification side: the tree a view's links draw in the heap *)

Inductive tree (K : Type) :=
| Leaf
| Node (l : tree K) (p : ptr) (k : K) (pr : Z) (r : tree K).
Arguments Leaf {K}.
Arguments Node {K} l p k pr r.

Section Trees.
Context {K : Type}.
Variable lt : K → K → bool.

Definition root_of (t : tree K) : option ptr :=
  match t with Leaf => None | Node _ p _ _ _ => Some p end.

Fixpoint inorder (t : tree K) : list (ptr * K) :=
  match t with
  | Leaf => []
  | Node l p k _ r => inorder l ++ (p, k) :: inorder r
  end.

Fixpoint tset (t : tree K) : gset ptr :=
  match t with
  | Leaf => ∅
  | Node l p _ _ r => {[p]} ∪ tset l ∪ tset r
  end.

Fixpoint distinct (t : tree K) : Prop :=
  match t with
  | Leaf => True
  | Node l p _ _ r =>
      (p ∉ tset l) ∧ (p ∉ tset r) ∧ (tset l ## tset r) ∧
      distinct l ∧ distinct r
  end.

Fixpoint height (t : tree K) : nat :=
  match t with
  | Leaf => O
  | Node l _ _ _ r => S (Nat.max (height l) (height r))
  end.

Fixpoint count (t : tree K) : nat :=
  match t with
  | Leaf => O
  | Node l _ _ _ r => S (count l + count r)
  end.

(** BST order, as the data model words it. *)
Fixpoint bst (t : tree K) : Prop :=
  match t with
  | Leaf => True
  | Node l _ k _ r =>
      (∀ e, e ∈ inorder l → lt e.2 k = true) ∧
      (∀ e, e ∈ inorder r → lt k e.2 = true) ∧
      bst l ∧ bst r
  end.

Definition root_prio_le (t : tree K) (m : Z) : Prop :=
  match t with Leaf => True | Node _ _ _ pr _ => pr ≤ m end.

(** Heap order: a record's priority is at least its children's. *)
Fixpoint heap_ordered (t : tree K) : Prop :=
  match t with
  | Leaf => True
  | Node l _ _ pr r =>
      root_prio_le l pr ∧ root_prio_le r pr ∧ heap_ordered l ∧ heap_ordered r
  end.

Definition sorted_keys (l : list (ptr * K)) : Prop :=
  StronglySorted (λ a b, lt a.2 b.2 = true) l.

Definition equiv_key (a b : K) : Prop := lt a b = false ∧ lt b a = false.

(** What [split], [merge], [insert] and [remove] do to the drawn tree. *)
Fixpoint split_t (t : tree K) (key : K) : tree K * tree K :=
  match t with
  | Leaf => (Leaf, Leaf)
  | Node l p k pr r =>
      if lt k key
      then (Node l p k pr (split_t r key).1, (split_t r key).2)
      else ((split_t l key).1, Node (split_t l key).2 p k pr r)
  end.

Fixpoint merge_t (t1 : tree K) : tree K → tree K :=
  match t1 with
  | Leaf => λ t2, t2
  | Node l1 p1 k1 pr1 r1 =>
      fix merge_with (t2 : tree K) : tree K :=
        match t2 with
        | Leaf => t1
        | Node l2 p2 k2 pr2 r2 =>
            if pr2 <? pr1
            then Node l1 p1 k1 pr1 (merge_t r1 t2)
            else Node (merge_with l2) p2 k2 pr2 r2
        end
  end.

Fixpoint insert_t (t : tree K) (p : ptr) (k : K) (pr : Z) : tree K :=
  match t with
  | Leaf => Node Leaf p k pr Leaf
  | Node l q kq prq r =>
      if prq <? pr
      then Node (split_t t k).1 p k pr (split_t t k).2
      else if lt k kq
           then Node (insert_t l p k pr) q kq prq r
           else Node l q kq prq (insert_t r p k pr)
  end.

Fixpoint remove_t (t : tree K) (x : ptr) : tree K :=
  match t with
  | Leaf => Leaf
  | Node l p k pr r =>
      if decide (p = x) then merge_t l r
      else Node (remove_t l x) p k pr (remove_t r x)
  end.

Fixpoint find_t (t : tree K) (key : K) : option ptr :=
  match t with
  | Leaf => None
  | Node l p k _ r =>
      if lt k key then find_t r key
      else if lt key k then find_t l key
      else Some p
  end.




(** The record after [x] in a sequence, [e] when [x] is the last. *)
Fixpoint successor (l : list (ptr * K)) (x e : ptr) : ptr :=
  match l with
  | [] => e
  | a :: l' =>
      if decide (a.1 = x)
      then match l' with [] => e | b :: _ => b.1 end
      else successor l' x e
  end.

(** A strict weak ordering, as [Compare] requires. *)
Record strict_weak_order : Prop := {
  swo_irrefl : ∀ a, lt a a = false;
  swo_trans : ∀ a b c, lt a b = true → lt b c = true → lt a c = true;
  swo_incomp : ∀ a b c, equiv_key a b → equiv_key b c → equiv_key a c
}.
End Trees.

Section Shape.
Context {L R K : Type}.
Variable tg : tag.
Variable getter : cell L R → option K.

Local Abbreviation heap := (heap L R).

Definition parent_is (h : heap) (t : tree K) (par : option ptr) : Prop :=
  match root_of t with
  | None => True
  | Some q => ∃ c, h !! q = Some c ∧ parent (sub tg c) = par
  end.

(** The links of view [tg] below the root of [t] draw [t]. The parent
    link of the root itself is stated apart, with [parent_is]. *)
Fixpoint shape (h : heap) (t : tree K) : Prop :=
  match t with
  | Leaf => True
  | Node l p k pr r =>
      (∃ c, h !! p = Some c ∧ getter c = Some k ∧
            priority (sub tg c) = pr ∧
            left (sub tg c) = root_of l ∧ right (sub tg c) = root_of r) ∧
      parent_is h l (Some p) ∧ parent_is h r (Some p) ∧
      shape h l ∧ shape h r
  end.

(** [h'] differs from [h] at most in the links of view [tg] of the
    records in [X]. *)
Definition links_only (X : gset ptr) (h h' : heap) : Prop :=
  ∀ p, match h !! p, h' !! p with
       | Some c, Some c' =>
           keys c = keys c' ∧
           sub (tag_other tg) c = sub (tag_other tg) c' ∧
           priority (sub tg c) = priority (sub tg c') ∧
           (p ∉ X → c = c')
       | None, None => True
       | _, _ => False
       end.

(** A view of a bimap: the sentinel [e] holds the root in its [left]
    link and is the root's parent. *)
Definition sentinel (h : heap) (e : ptr) (t : tree K) : Prop :=
  ∃ c, h !! e = Some c ∧ left (sub tg c) = root_of t ∧
       right (sub tg c) = None ∧ parent (sub tg c) = None.

Definition view_shape (h : heap) (e : ptr) (t : tree K) : Prop :=
  sentinel h e t ∧ shape h t ∧ parent_is h t (Some e) ∧
  distinct t ∧ (e ∉ tset t).

Definition view_inv (lt : K → K → bool) (h : heap) (e : ptr) (t : tree K)
  : Prop :=
  view_shape h e t ∧ sorted_keys lt (inorder t) ∧ heap_ordered t.

Definition upd_parent (v : option ptr) (c : cell L R) : cell L R :=
  with_sub tg (with_parent v (sub tg c)) c.
Definition upd_left (v : option ptr) (c : cell L R) : cell L R :=
  with_sub tg (with_left v (sub tg c)) c.
Definition upd_right (v : option ptr) (c : cell L R) : cell L R :=
  with_sub tg (with_right v (sub tg c)) c.

Definition head_ptr (l : list (ptr * K)) (e : ptr) : ptr :=
  match l with [] => e | a :: _ => a.1 end.
End Shape.

(** * The representation invariant of a bimap *)

Section Invariant.
Context {L R : Type}.

Local Abbreviation world := (@world L R).
Local Abbreviation bimap := (@bimap L R).

(** The two views draw the trees [tl] and [tr] over the same records;
    every record lies inside the address space. *)
Record inv (w : world) (b : bimap) (tl : tree L) (tr : tree R) : Prop := {
  inv_end_left : end_elem (treap_left b) = Some (end_node b);
  inv_end_right : end_elem (treap_right b) = Some (end_node b);
  inv_left : view_inv tag_left key_left (cmp (treap_left b))
               (mem w) (end_node b) tl;
  inv_right : view_inv tag_right key_right (cmp (treap_right b))
                (mem w) (end_node b) tr;
  inv_same : tset tl = tset tr;
  inv_size : size_ b = Z.of_nat (count tl);
  inv_swo_left : strict_weak_order (cmp (treap_left b));
  inv_swo_right : strict_weak_order (cmp (treap_right b));
  inv_addr : ∀ p, p ∈ {[end_node b]} ∪ tset tl → (p < addr_limit)%positive
}.

Definition wf (w : world) (b : bimap) : Prop := ∃ tl tr, inv w b tl tr.

(** The records an object owns: its sentinel and its pair records. *)
Definition footprint (b : bimap) (tl : tree L) : gset ptr :=
  {[end_node b]} ∪ tset tl.

Definition pair_at (h : heap L R) (p : ptr) : option (L * R) :=
  h !! p ≫= keys.

Definition pairs_of (h : heap L R) (ps : list ptr) : list (L * R) :=
  omap (pair_at h) ps.
End Invariant.

(** * Contracts of the public operations *)

Section Contracts.
Context {L R : Type}.

Local Abbreviation world := (@world L R).
Local Abbreviation bimap := (@bimap L R).

(** Fuel that lets every loop of an operation on [b] run to its end. *)
Definition enough (fuel : nat) (b : bimap) : Prop :=
  (Z.to_nat (size_ b) + 3 ≤ fuel)%nat.

(** [operator new] will find memory. *)
Definition allocation_succeeds (w : world) : Prop :=
  allocs w ≠ O ∧ (fresh (dom (mem w)) < addr_limit)%positive.

(** A valid cursor that is not the end cursor: it is the cursor its own
    key is found at, and it dereferences to the pair [(l, r)]. *)
Definition valid_left (fuel : nat) (w : world) (b : bimap)
    (it : left_iterator) (l : L) (r : R) : Prop :=
  iter_ne it (end_left b) = true ∧
  star_left it w = Ok l w ∧ star_right (flip it) w = Ok r w ∧
  find_left fuel b l w = Ok it w.

Definition valid_right (fuel : nat) (w : world) (b : bimap)
    (it : right_iterator) (l : L) (r : R) : Prop :=
  iter_ne it (end_right b) = true ∧
  star_left (flip it) w = Ok l w ∧ star_right it w = Ok r w ∧
  find_right fuel b r w = Ok it w.

(** A valid half-open range of cursors: [last] is met by stepping from
    [first]. *)
Inductive range_left (fuel : nat) (w : world) (b : bimap)
  : left_iterator → left_iterator → Prop :=
| range_left_end : range_left fuel w b (end_left b) (end_left b)
| range_left_here it l r :
    valid_left fuel w b it l r → range_left fuel w b it it
| range_left_step it it' last l r :
    valid_left fuel w b it l r → incr fuel it w = Ok it' w →
    range_left fuel w b it' last → range_left fuel w b it last.

Inductive range_right (fuel : nat) (w : world) (b : bimap)
  : right_iterator → right_iterator → Prop :=
| range_right_end : range_right fuel w b (end_right b) (end_right b)
| range_right_here it l r :
    valid_right fuel w b it l r → range_right fuel w b it it
| range_right_step it it' last l r :
    valid_right fuel w b it l r → incr fuel it w = Ok it' w →
    range_right fuel w b it' last → range_right fuel w b it last.

(** A member function has run to its end, by return or by exception. *)
Definition finished {A} (m : M (world * bimap) A)
    (w : world) (b : bimap) (w' : world) (b' : bimap) : Prop :=
  (∃ a, m (w, b) = Ok a (w', b')) ∨ (∃ e, m (w, b) = Throw e (w', b')).

(** What a step of an object may do to the heap: its new records are
    old ones or fresh, and the records of others are left alone. *)
Definition step_frame (w : world) (b : bimap) (tl : tree L)
    (w' : world) (b' : bimap) (tl' : tree L) : Prop :=
  end_node b' = end_node b ∧
  cmp (treap_left b') = cmp (treap_left b) ∧
  cmp (treap_right b') = cmp (treap_right b) ∧
  (∀ q, q ∈ footprint b' tl' → q ∈ footprint b tl ∨ q ∉ dom (mem w)) ∧
  (∀ q, q ∈ dom (mem w) → q ∉ footprint b tl → mem w' !! q = mem w !! q).
End Contracts.

(** * Changes of a view *)

Section Changes.
Context {A : Type}.

(** [after] is [before] without one occurrence of [x]; the others keep
    their places. *)
Definition removed (x : A) (before after : list A) : Prop :=
  ∃ pre post, before = pre ++ x :: post ∧ after = pre ++ post.

(** [after] is [before] with [x] put in at some place. *)
Definition added (x : A) (before after : list A) : Prop :=
  ∃ pre post, before = pre ++ post ∧ after = pre ++ x :: post.
End Changes.

Section Evolution.
Context {L R : Type}.

(** The object is in order again after a step, in a heap that differs
    from the old one only in the object's own records. *)
Definition evolves (w : @world L R) (b : @bimap L R) (tl : tree L)
    (w' : @world L R) (b' : @bimap L R) : Prop :=
  ∃ tl' tr', inv w' b' tl' tr' ∧ step_frame w b tl w' b' tl'.

(** A member function ends by return or by [std::bad_alloc], with the
    object in order. *)
Definition settles {A} (m : method A) (w : @world L R) (b : @bimap L R)
    (tl : tree L) : Prop :=
  ∃ w' b', ((∃ a, m (w, b) = Ok a (w', b')) ∨
            m (w, b) = Throw bad_alloc (w', b')) ∧
           evolves w b tl w' b'.
End Evolution.

Section Population.
Context {L R : Type}.

(** [insert] called on each pair of a list in turn. *)
Fixpoint insert_list (fuel : nat) (ps : list (L * R)) : @method L R unit :=
  match ps with
  | [] => ret tt
  | (l, r) :: ps' => insert_impl fuel l r;; insert_list fuel ps'
  end.
End Population.

Section Comparison.
Context {L R : Type}.
Variables (eq_left : L → L → bool) (eq_right : R → R → bool).

(** Two sequences of pairs agree place by place under [==]. *)
Fixpoint same_pairs (ps1 ps2 : list (L * R)) : bool :=
  match ps1, ps2 with
  | [], [] => true
  | x :: xs, y :: ys =>
      eq_left x.1 y.1 && eq_right x.2 y.2 && same_pairs xs ys
  | _, _ => false
  end.
End Comparison.

(** * A process that uses bimaps *)

Section Process.
Context {L R : Type}.
Variables (default_left : L) (default_right : R).

Local Abbreviation world := (@world L R).
Local Abbreviation bimap := (@bimap L R).

(** The public member functions that change a bimap, the assignment
    operators apart; [at_or_default] is handed its key by reference. *)
Inductive op : Type :=
| op_insert (l : L) (r : R)
| op_erase_left (it : left_iterator)
| op_erase_right (it : right_iterator)
| op_erase_left_key (l : L)
| op_erase_right_key (r : R)
| op_erase_left_range (first last : left_iterator)
| op_erase_right_range (first last : right_iterator)
| op_at_left_or_default (key : @reference L R L)
| op_at_right_or_default (key : @reference L R R).

Definition run_op (fuel : nat) (o : op) : method unit :=
  match o with
  | op_insert l r => bimap_insert fuel l r;; ret tt
  | op_erase_left it => erase_left fuel it;; ret tt
  | op_erase_right it => erase_right fuel it;; ret tt
  | op_erase_left_key l => erase_left_key fuel l;; ret tt
  | op_erase_right_key r => erase_right_key fuel r;; ret tt
  | op_erase_left_range first last =>
      erase_left_range fuel first last;; ret tt
  | op_erase_right_range first last =>
      erase_right_range fuel first last;; ret tt
  | op_at_left_or_default key =>
      at_left_or_default default_right fuel key;; ret tt
  | op_at_right_or_default key =>
      at_right_or_default default_left fuel key;; ret tt
  end.

(** What the caller owes: cursors passed to [erase] are valid. *)
Definition permitted (fuel : nat) (w : world) (b : bimap) (o : op) : Prop :=
  match o with
  | op_erase_left it => ∃ l r, valid_left fuel w b it l r
  | op_erase_right it => ∃ l r, valid_right fuel w b it l r
  | op_erase_left_range first last => range_left fuel w b first last
  | op_erase_right_range first last => range_right fuel w b first last
  | _ => True
  end.

(** The states of a process and the bimaps it holds: bimaps come from
    the constructor and the copy constructor, and change by the member
    functions above, which end by return or by exception. The
    assignment operators are no steps: move assignment, and copy
    assignment, which ends in one, leave their objects out of order. *)
Inductive reachable : world → list bimap → Prop :=
| reach_start w : reachable w []
| reach_ctor w bs compare_left compare_right b w' :
    reachable w bs →
    strict_weak_order compare_left → strict_weak_order compare_right →
    bimap_ctor compare_left compare_right w = Ok b w' →
    reachable w' (bs ++ [b])
| reach_copy w bs i other fuel b w' :
    reachable w bs → bs !! i = Some other → enough fuel other →
    bimap_copy_ctor fuel other w = Ok b w' →
    reachable w' (bs ++ [b])
| reach_copy_failed w bs i other fuel e w' :
    reachable w bs → bs !! i = Some other → enough fuel other →
    bimap_copy_ctor fuel other w = Throw e w' →
    reachable w' bs
| reach_call w bs i b fuel o w' b' :
    reachable w bs → bs !! i = Some b → enough fuel b →
    permitted fuel w b o →
    finished (run_op fuel o) w b w' b' →
    reachable w' (<[i := b']> bs).

(** All bimaps of a process are in order, and no two share a record. *)
Definition sys_inv (w : world) (bs : list bimap) : Prop :=
  ∃ ts : list (tree L * tree R),
    length ts = length bs ∧
    (∀ i b t, bs !! i = Some b → ts !! i = Some t → inv w b t.1 t.2) ∧
    (∀ i j b1 b2 t1 t2, i ≠ j →
       bs !! i = Some b1 → bs !! j = Some b2 →
       ts !! i = Some t1 → ts !! j = Some t2 →
       footprint b1 t1.1 ## footprint b2 t2.1).
End Process.

(** * What a cursor points at *)

Section Pointing.
Context {L R : Type}.



End Pointing.

(** * Runs on [bimap<int, int>] *)

Section Runs.
(** A computation returns the value [a]. *)
Definition returns {S A} (o : outcome S A) (a : A) : Prop :=
  match o with Ok x _ => x = a | _ => False end.

(** A process that holds nothing yet; the priorities it will draw. *)
Definition first_rand (n : nat) : Z := Z.of_nat (n * 5 mod 7).
Definition first_world : @world Z Z := World ∅ first_rand 0 64.

(** [bimap<int, int> b; b.insert(...); ...] *)
Definition populate (fuel : nat) (ps : list (Z * Z))
  : M (@world Z Z) (@bimap Z Z) :=
  let* b := bimap_ctor Z.ltb Z.ltb in
  let* r := call_on b (insert_list fuel ps) in
  ret (snd r).
End Runs.

Section Samples.
Definition no_bimap : @bimap Z Z :=
  Bimap (Treap Z.ltb None) (Treap Z.ltb None) 0 1%positive.

Definition world_of {A} (o : outcome (@world Z Z) A) : @world Z Z :=
  match o with Ok _ w => w | Throw _ w => w | _ => first_world end.
Definition bimap_of (o : outcome (@world Z Z) (@bimap Z Z)) : @bimap Z Z :=
  match o with Ok b _ => b | _ => no_bimap end.

(** [bimap<int, int> a; a.insert(1, 2); a.insert(5, 6);] *)
Definition two_pairs := populate 8 [(1, 2); (5, 6)] first_world.
Definition w_two : @world Z Z := world_of two_pairs.
Definition b_two : @bimap Z Z := bimap_of two_pairs.

(** ... and then [bimap<int, int> c; c.insert(3, 4);] *)
Definition one_more := populate 8 [(3, 4)] w_two.
Definition w_three : @world Z Z := world_of one_more.
Definition b_one : @bimap Z Z := bimap_of one_more.

End Samples.

Section Scenario.
(** [bimap<int, int> b; b.insert(1, 2); b.insert(2, 3);
    b.insert(42, 1000);] *)
Definition three_pairs :=
  populate 8 [(1, 2); (2, 3); (42, 1000)] first_world.
End Scenario.

(** * Auxiliary definitions of the proofs *)

Section ProofTerms.
Context {L R : Type}.

(** The record [new node_t(l, r)] puts into the heap. *)
Definition fresh_cell (w : @world L R) (l : L) (r : R) : cell L R :=
  Cell (NodeTree None None None (rand w (seed w)))
       (NodeTree None None None (rand w (S (seed w)))) (Some (l, r)).

(** The records of a view in its order. *)
Definition order (tg : tag) (tl : tree L) (tr : tree R) : list ptr :=
  match tg with
  | tag_left => (inorder tl).*1
  | tag_right => (inorder tr).*1
  end.

Definition hd_or (e : ptr) (l : list ptr) : ptr :=
  match l with [] => e | p :: _ => p end.

(** The sentinel as the constructors leave it, the heap with it, and
    the members of the new object. *)
Definition end_cell (w : @world L R) : cell L R :=
  Cell (NodeTree None None None (rand w (seed w)))
       (NodeTree None None None (rand w (S (seed w)))) None.

Definition born (w : @world L R) : @world L R :=
  World (<[fresh (dom (mem w)) := end_cell w]> (mem w))
        (rand w) (S (S (seed w))) (allocs w).

Definition newborn (cl : L → L → bool) (cr : R → R → bool)
    (w : @world L R) : @bimap L R :=
  Bimap (Treap cl (Some (fresh (dom (mem w)))))
        (Treap cr (Some (fresh (dom (mem w))))) 0 (fresh (dom (mem w))).

(** The copy under construction [b], beside the heap [h0] that the
    source [bo] lives in: [b] holds the pairs of the records [pre] of
    the source. *)
Definition copying (h0 : heap L R) (bo : @bimap L R) (tlo : tree L)
    (w : @world L R) (b : @bimap L R) (tl : tree L) (tr : tree R)
    (pre : list (ptr * L)) : Prop :=
  inv w b tl tr ∧
  footprint b tl ## dom h0 ∧
  dom (mem w) = dom h0 ∪ footprint b tl ∧
  (∀ q, q ∈ dom h0 → mem w !! q = h0 !! q) ∧
  cmp (treap_left b) = cmp (treap_left bo) ∧
  cmp (treap_right b) = cmp (treap_right bo) ∧
  (pre ⊆ inorder tlo ∧ (length pre ≤ count tlo)%nat) ∧
  pairs_of (mem w) (inorder tl).*1 ≡ₚ pairs_of h0 pre.*1.
End ProofTerms.

(** A bimap of integers under [<] that holds the pairs [ps]. *)
Definition holds (w : @world Z Z) (b : @bimap Z Z) (ps : list (Z * Z))
  : Prop :=
  ∃ tl tr, inv w b tl tr ∧
           cmp (treap_left b) = Z.ltb ∧ cmp (treap_right b) = Z.ltb ∧
           pairs_of (mem w) (inorder tl).*1 ≡ₚ ps.

(** * Runs with assignments on [bimap<int, int>] *)

Section Assigned.
(** What a call of a member function leaves: the process and [*this]. *)
Definition left_by {A} (o : outcome (@world Z Z * @bimap Z Z) A)
  : @world Z Z * @bimap Z Z :=
  match o with
  | Ok _ s => s
  | Throw _ s => s
  | _ => (first_world, no_bimap)
  end.

(** After [a] and [c] of [one_more]: [a = std::move(c);] *)
Definition moved := bimap_move_assign b_one (w_three, b_two).
Definition w_moved : @world Z Z := fst (left_by moved).
Definition a_moved : @bimap Z Z := snd (left_by moved).
Definition c_moved : @bimap Z Z :=
  match moved with Ok c _ => c | _ => no_bimap end.

(** The cursor [a.find_left(3)], and then
    [a.erase_left(a.find_left(3));] *)
Definition at_three : left_iterator := Iterator (Some 5%positive).
Definition erased := erase_left 8 at_three (w_moved, a_moved).
Definition w_gone : @world Z Z := fst (left_by erased).
Definition a_gone : @bimap Z Z := snd (left_by erased).

(** [bimap<int, int> b; b.insert(1, 0); b.insert(5, 6);] *)
Definition zero_pairs := populate 8 [(1, 0); (5, 6)] first_world.
Definition w_zero : @world Z Z := world_of zero_pairs.
Definition b_zero : @bimap Z Z := bimap_of zero_pairs.

(** The cursor [b.find_right(0)] and the key [*b.find_right(0)], a
    reference to the right key in the record of [(1, 0)]. *)
Definition at_zero : right_iterator := Iterator (Some 2%positive).
Definition key_at_zero : @reference Z Z Z :=
  ref_key 2%positive key_getter_right.

(** After [a] of [two_pairs]: [bimap<int, int> c; c.insert(3, 0);
    a = std::move(c);] *)
Definition zero_more := populate 8 [(3, 0)] w_two.
Definition w_more : @world Z Z := world_of zero_more.
Definition c_zero : @bimap Z Z := bimap_of zero_more.
Definition moved_zero := bimap_move_assign c_zero (w_more, b_two).
Definition w_moved_zero : @world Z Z := fst (left_by moved_zero).
Definition a_moved_zero : @bimap Z Z := snd (left_by moved_zero).

(** The statements of the repository's [TEST(bimap, copies)] that
    change something: [bimap<int, int> b; b.insert(3, 4);
    bimap<int, int> b1(b); b1.insert(4, 5); b1.insert(10, -10);] and
    then [b = b1;] *)
Definition copies_setup : M (@world Z Z) (@bimap Z Z * @bimap Z Z) :=
  let* b := populate 8 [(3, 4)] in
  let* b1 := bimap_copy_ctor 8 b in
  let* r := call_on b1 (insert_list 8 [(4, 5); (10, -10)]) in
  ret (b, snd r).

Definition copies : M (@world Z Z) (@bimap Z Z * @bimap Z Z) :=
  let* p := copies_setup in
  let* r := call_on (fst p) (bimap_copy_assign 8 (snd p)) in
  ret (snd r, snd p).

(** [bimap<int, int> b1; b1.insert(3, 4); bimap<int, int> b; b = b1;]
    gives [(b, b1)]. *)
Definition into_empty : M (@world Z Z) (@bimap Z Z * @bimap Z Z) :=
  let* b1 := populate 8 [(3, 4)] in
  let* b := bimap_ctor Z.ltb Z.ltb in
  let* r := call_on b (bimap_copy_assign 8 b1) in
  ret (snd r, b1).
Definition assigned := into_empty first_world.
Definition w_assigned : @world Z Z := world_of assigned.
Definition b_assigned : @bimap Z Z :=
  match assigned with Ok p _ => fst p | _ => no_bimap end.
Definition b_source : @bimap Z Z :=
  match assigned with Ok p _ => snd p | _ => no_bimap end.
End Assigned.

(** * Proofs *)

Set Default Proof Using "Type".

(** * Facts about the monad and the heap primitives *)

Arguments bind : simpl never.
Arguments ret : simpl never.

Section MonadFacts.
Context {S : Type}.

Lemma bind_ret {A B} (a : A) (k : A → M S B) (s : S) :
  bind (ret a) k s = k a s.
Proof. reflexivity. Qed.

Lemma bind_ok {A B} {m : M S A} {k : A → M S B} {s s' : S} {a : A} :
  m s = Ok a s' → bind m k s = k a s'.
Proof. intros H. unfold bind. by rewrite H. Qed.

Lemma bind_throw {A B} (m : M S A) (k : A → M S B) (s s' : S) e :
  m s = Throw e s' → bind m k s = Throw e s'.
Proof. intros H. unfold bind. by rewrite H. Qed.

Lemma bind_ub {A B} (m : M S A) (k : A → M S B) (s : S) :
  m s = UB → bind m k s = UB.
Proof. intros H. unfold bind. by rewrite H. Qed.

Lemma bind_assoc {A B C} (m : M S A) (k : A → M S B) (k' : B → M S C) s :
  bind (bind m k) k' s = bind m (λ a, bind (k a) k') s.
Proof. unfold bind. by destruct (m s). Qed.
End MonadFacts.

Section CellFacts.
Context {L R : Type}.
Implicit Types c : cell L R.

Lemma sub_with_sub tg n c : sub tg (with_sub tg n c) = n.
Proof. by destruct tg. Qed.

Lemma sub_other_with_sub tg n c :
  sub (tag_other tg) (with_sub tg n c) = sub (tag_other tg) c.
Proof. by destruct tg. Qed.

Lemma keys_with_sub tg n c : keys (with_sub tg n c) = keys c.
Proof. by destruct tg. Qed.

Lemma key_left_with_sub tg n c : key_left (with_sub tg n c) = key_left c.
Proof. by destruct tg. Qed.

Lemma key_right_with_sub tg n c : key_right (with_sub tg n c) = key_right c.
Proof. by destruct tg. Qed.

Lemma tag_other_involutive tg : tag_other (tag_other tg) = tg.
Proof. by destruct tg. Qed.
End CellFacts.

Set Default Proof Using "Type".

Section HeapFacts.
Context {L R : Type}.
Variable tg : tag.
Local Abbreviation heap := (heap L R).
Implicit Types (h : heap) (c : cell L R) (p : ptr).


Lemma run_load {B p c h} {k : cell L R → M heap B} :
  h !! p = Some c → (let* x := load p in k x) h = k c h.
Proof. intros H. unfold bind, load. by rewrite H. Qed.

Lemma run_get_parent {B p c h} {k : option ptr → M heap B} :
  h !! p = Some c → (let* x := get_parent tg p in k x) h = k (parent (sub tg c)) h.
Proof. intros H. unfold get_parent. rewrite bind_assoc, (run_load H). done. Qed.

Lemma run_get_left {B p c h} {k : option ptr → M heap B} :
  h !! p = Some c → (let* x := get_left tg p in k x) h = k (left (sub tg c)) h.
Proof. intros H. unfold get_left. rewrite bind_assoc, (run_load H). done. Qed.

Lemma run_get_right {B p c h} {k : option ptr → M heap B} :
  h !! p = Some c → (let* x := get_right tg p in k x) h = k (right (sub tg c)) h.
Proof. intros H. unfold get_right. rewrite bind_assoc, (run_load H). done. Qed.

Lemma run_get_priority {B p c h} {k : Z → M heap B} :
  h !! p = Some c → (let* x := get_priority tg p in k x) h = k (priority (sub tg c)) h.
Proof. intros H. unfold get_priority. rewrite bind_assoc, (run_load H). done. Qed.

Lemma put_parent_ok p c v h :
  h !! p = Some c → put_parent tg p v h = Ok tt (<[p := upd_parent tg v c]> h).
Proof. intros H. unfold put_parent, bind, load, store. by rewrite H, H. Qed.

Lemma put_left_ok p c v h :
  h !! p = Some c → put_left tg p v h = Ok tt (<[p := upd_left tg v c]> h).
Proof. intros H. unfold put_left, bind, load, store. by rewrite H, H. Qed.

Lemma put_right_ok p c v h :
  h !! p = Some c → put_right tg p v h = Ok tt (<[p := upd_right tg v c]> h).
Proof. intros H. unfold put_right, bind, load, store. by rewrite H, H. Qed.

Lemma run_put_parent {B p c v h} {k : unit → M heap B} :
  h !! p = Some c →
  (let* x := put_parent tg p v in k x) h = k tt (<[p := upd_parent tg v c]> h).
Proof.
  intros H. unfold put_parent. rewrite bind_assoc, (run_load H).
  unfold bind, store. by rewrite H.
Qed.

Lemma run_put_left {B p c v h} {k : unit → M heap B} :
  h !! p = Some c →
  (let* x := put_left tg p v in k x) h = k tt (<[p := upd_left tg v c]> h).
Proof.
  intros H. unfold put_left. rewrite bind_assoc, (run_load H).
  unfold bind, store. by rewrite H.
Qed.

Lemma run_put_right {B p c v h} {k : unit → M heap B} :
  h !! p = Some c →
  (let* x := put_right tg p v in k x) h = k tt (<[p := upd_right tg v c]> h).
Proof.
  intros H. unfold put_right. rewrite bind_assoc, (run_load H).
  unfold bind, store. by rewrite H.
Qed.
End HeapFacts.

Section TreeFacts.
Context {K : Type}.
Implicit Types t l r : tree K.

Lemma root_in_tset t p : root_of t = Some p → p ∈ tset t.
Proof. destruct t; simpl; [done|]. intros [= ->]. set_solver. Qed.

Lemma tset_inorder t p : p ∈ tset t ↔ ∃ k, (p, k) ∈ inorder t.
Proof.
  induction t as [|l IHl q k pr r IHr]; simpl.
  - split; [set_solver|]. intros [k Hk]. by apply elem_of_nil in Hk.
  - rewrite !elem_of_union, elem_of_singleton, IHl, IHr. split.
    + intros [[->|[k' Hk']]|[k' Hk']].
      * exists k. set_solver.
      * exists k'. set_solver.
      * exists k'. set_solver.
    + intros [k' Hk']. rewrite elem_of_app, elem_of_cons in Hk'.
      destruct Hk' as [Hk'|[[= -> ->]|Hk']]; eauto.
Qed.

Lemma merge_t_leaf_r t : merge_t t Leaf = t.
Proof. by destruct t. Qed.

Lemma merge_t_tset t1 t2 : tset (merge_t t1 t2) = tset t1 ∪ tset t2.
Proof.
  revert t2. induction t1 as [|l1 IHl1 p1 k1 pr1 r1 IHr1]; intros t2.
  - simpl. set_solver.
  - induction t2 as [|l2 IHl2 p2 k2 pr2 r2 IHr2].
    + simpl. set_solver.
    + simpl. destruct (pr2 <? pr1); simpl.
      * rewrite IHr1. simpl. set_solver.
      * simpl in IHl2. rewrite IHl2. set_solver.
Qed.

Lemma merge_t_inorder t1 t2 :
  inorder (merge_t t1 t2) = inorder t1 ++ inorder t2.
Proof.
  revert t2. induction t1 as [|l1 IHl1 p1 k1 pr1 r1 IHr1]; intros t2.
  - done.
  - induction t2 as [|l2 IHl2 p2 k2 pr2 r2 IHr2].
    + simpl. by rewrite app_nil_r.
    + simpl. destruct (pr2 <? pr1); simpl.
      * rewrite IHr1. simpl. by rewrite <- app_assoc.
      * simpl in IHl2. rewrite IHl2. simpl. by rewrite <- !app_assoc.
Qed.

Lemma merge_t_distinct t1 t2 :
  distinct t1 → distinct t2 → tset t1 ## tset t2 → distinct (merge_t t1 t2).
Proof.
  revert t2. induction t1 as [|l1 IHl1 p1 k1 pr1 r1 IHr1]; intros t2.
  - done.
  - induction t2 as [|l2 IHl2 p2 k2 pr2 r2 IHr2]; [done|].
    intros D1 D2 Hd. simpl. destruct (pr2 <? pr1); simpl.
    + rewrite merge_t_tset. simpl in *.
      destruct D1 as (?&?&?&?&?). split_and!; [set_solver..|done|].
      apply IHr1; [done|done|set_solver].
    + pose proof (merge_t_tset (Node l1 p1 k1 pr1 r1) l2) as Ht.
      simpl in Ht, IHl2. rewrite Ht. simpl in *.
      destruct D2 as (?&?&?&?&?). split_and!; [set_solver..| |done].
      apply IHl2; [done|done|set_solver].
Qed.

Lemma height_le_count t : (height t ≤ count t)%nat.
Proof. induction t; simpl; lia. Qed.

Lemma inorder_length t : length (inorder t) = count t.
Proof. induction t; simpl; [done|]. rewrite length_app. simpl. lia. Qed.

Lemma distinct_NoDup t : distinct t → NoDup (inorder t).*1.
Proof.
  induction t as [|l IHl q k pr r IHr]; simpl; [constructor|].
  intros (Hl & Hr & Hlr & Dl & Dr).
  rewrite fmap_app, fmap_cons. simpl.
  apply NoDup_app. split; [by apply IHl|]. split.
  - intros x Hx Hx'. apply list_elem_of_fmap in Hx as [[x' k'] [-> Hx]].
    simpl in *. assert (x' ∈ tset l) by (apply tset_inorder; eauto).
    apply elem_of_cons in Hx' as [->|Hx']; [done|].
    apply list_elem_of_fmap in Hx' as [[x'' k''] [? Hx']]. simpl in *. subst.
    assert (x'' ∈ tset r) by (apply tset_inorder; eauto). set_solver.
  - apply NoDup_cons. split; [|by apply IHr].
    intros Hx'. apply list_elem_of_fmap in Hx' as [[x'' k''] [? Hx']].
    simpl in *. subst. apply Hr. apply tset_inorder; eauto.
Qed.

Lemma tset_fst t p : p ∈ tset t ↔ p ∈ (inorder t).*1.
Proof.
  rewrite tset_inorder, list_elem_of_fmap. split.
  - intros [k Hk]. exists (p, k). done.
  - intros [[p' k] [-> Hk]]. eauto.
Qed.

Lemma successor_app_l (l1 l2 : list (ptr * K)) a x e :
  x ∈ l1.*1 → successor (l1 ++ a :: l2) x e = successor l1 x a.1.
Proof.
  induction l1 as [|b l1 IH]; simpl; [by intros ?%elem_of_nil|].
  intros Hx. destruct (decide (b.1 = x)) as [Heq|Hne].
  - by destruct l1.
  - apply IH. apply elem_of_cons in Hx as [?|?]; [done|done].
Qed.

Lemma successor_app_r (l1 l2 : list (ptr * K)) x e :
  x ∉ l1.*1 → successor (l1 ++ l2) x e = successor l2 x e.
Proof.
  induction l1 as [|b l1 IH]; simpl; [done|].
  intros Hx. rewrite decide_False by set_solver. apply IH. set_solver.
Qed.

Lemma successor_notin (l : list (ptr * K)) x e :
  x ∉ l.*1 → successor l x e = e.
Proof.
  induction l as [|b l IH]; simpl; [done|].
  intros Hx. rewrite decide_False by set_solver. apply IH. set_solver.
Qed.
End TreeFacts.

Section SplitFacts.
Context {K : Type}.
Implicit Types t l r : tree K.
Variable lt : K → K → bool.

Lemma split_t_inorder t key :
  inorder (split_t lt t key).1 ++ inorder (split_t lt t key).2 = inorder t.
Proof.
  induction t as [|l IHl q k pr r IHr]; simpl; [done|].
  destruct (lt k key); simpl.
  - by rewrite <- app_assoc, <- app_comm_cons, IHr.
  - by rewrite app_assoc, IHl.
Qed.

Lemma split_t_tset t key :
  tset (split_t lt t key).1 ∪ tset (split_t lt t key).2 = tset t.
Proof.
  induction t as [|l IHl q k pr r IHr]; simpl; [set_solver|].
  destruct (lt k key); simpl; set_solver.
Qed.

Lemma split_t_distinct t key :
  distinct t →
  distinct (split_t lt t key).1 ∧ distinct (split_t lt t key).2 ∧
  tset (split_t lt t key).1 ## tset (split_t lt t key).2.
Proof.
  induction t as [|l IHl q k pr r IHr]; simpl; [set_solver|].
  intros (Hl & Hr & Hlr & Dl & Dr).
  specialize (IHl Dl). specialize (IHr Dr).
  pose proof (split_t_tset l key). pose proof (split_t_tset r key).
  destruct (lt k key); simpl; set_solver.
Qed.

Lemma split_t_height t key :
  (height (split_t lt t key).1 ≤ height t)%nat ∧
  (height (split_t lt t key).2 ≤ height t)%nat.
Proof.
  induction t as [|l IHl q k pr r IHr]; simpl; [lia|].
  destruct (lt k key); simpl; lia.
Qed.


Lemma insert_t_root t p k pr : is_Some (root_of (insert_t lt t p k pr)).
Proof.
  destruct t as [|l q kq prq r]; simpl; [eauto|].
  destruct (prq <? pr); [eauto|]. destruct (lt k kq); eauto.
Qed.

Lemma insert_t_tset t p k pr : tset (insert_t lt t p k pr) = {[p]} ∪ tset t.
Proof.
  induction t as [|l IHl q kq prq r IHr]; simpl; [set_solver|].
  destruct (prq <? pr).
  - pose proof (split_t_tset (Node l q kq prq r) k) as Hs. simpl in *.
    rewrite <- Hs. set_solver.
  - destruct (lt k kq); simpl; set_solver.
Qed.

Lemma insert_t_distinct t p k pr :
  distinct t → p ∉ tset t → distinct (insert_t lt t p k pr).
Proof.
  induction t as [|l IHl q kq prq r IHr]; simpl; [set_solver|].
  intros (?&?&?&?&?) Hp. destruct (prq <? pr).
  - pose proof (split_t_tset (Node l q kq prq r) k) as Hs.
    pose proof (split_t_distinct (Node l q kq prq r) k) as Hs'.
    simpl in Hs, Hs'. destruct Hs' as (?&?&?); [done|].
    simpl. split_and!; [set_solver|set_solver|done|done|done].
  - destruct (lt k kq); simpl; rewrite ?insert_t_tset.
    + split_and!; [set_solver|set_solver|set_solver| |done].
      apply IHl; [done|set_solver].
    + split_and!; [set_solver|set_solver|set_solver|done|].
      apply IHr; [done|set_solver].
Qed.
End SplitFacts.

Section LinkFacts.
Context {L R K : Type}.
Variable tg : tag.

Local Abbreviation heap := (heap L R).
Implicit Types (h : heap) (c : cell L R) (p q : ptr) (t : tree K).

Lemma parent_is_agree h h' t par :
  (∀ p, p ∈ tset t → h' !! p = h !! p) →
  parent_is tg h t par → parent_is tg h' t par.
Proof.
  unfold parent_is. intros Hag. destruct (root_of t) as [q|] eqn:E; [|done].
  rewrite (Hag q); [done|]. by apply root_in_tset.
Qed.

Lemma links_only_refl X h : links_only tg X h h.
Proof. intros p. by destruct (h !! p). Qed.

Lemma links_only_trans X h1 h2 h3 :
  links_only tg X h1 h2 → links_only tg X h2 h3 → links_only tg X h1 h3.
Proof.
  intros H12 H23 p. specialize (H12 p). specialize (H23 p).
  destruct (h1 !! p), (h2 !! p), (h3 !! p); try done.
  destruct H12 as (?&?&?&E1), H23 as (?&?&?&E2).
  split_and!; [congruence..|]. intros Hp. rewrite (E1 Hp). by apply E2.
Qed.

Lemma links_only_mono X Y h h' :
  X ⊆ Y → links_only tg X h h' → links_only tg Y h h'.
Proof.
  intros HXY H p. specialize (H p).
  destruct (h !! p), (h' !! p); try done.
  destruct H as (?&?&?&?). split_and!; try done. intros; set_solver.
Qed.

Lemma links_only_agree X h h' p :
  links_only tg X h h' → p ∉ X → h' !! p = h !! p.
Proof.
  intros H Hp. specialize (H p).
  destruct (h !! p), (h' !! p); try done.
  destruct H as (?&?&?&Heq). by rewrite Heq.
Qed.

Lemma links_only_insert X h p c c' :
  h !! p = Some c → p ∈ X →
  keys c = keys c' → sub (tag_other tg) c = sub (tag_other tg) c' →
  priority (sub tg c) = priority (sub tg c') →
  links_only tg X h (<[p := c']> h).
Proof.
  intros Hp HX ? ? ? q. destruct (decide (q = p)) as [->|Hne].
  - rewrite Hp, lookup_insert_eq. done.
  - rewrite lookup_insert_ne by done. destruct (h !! q); done.
Qed.

Lemma links_only_dom X h h' : links_only tg X h h' → dom h' = dom h.
Proof.
  intros H. apply set_eq. intros p. rewrite !elem_of_dom.
  specialize (H p). destruct (h !! p), (h' !! p); try done.
Qed.

Lemma parent_is_links X h h' t par :
  links_only tg X h h' → X ## tset t →
  parent_is tg h t par → parent_is tg h' t par.
Proof.
  intros H Hd. apply parent_is_agree. intros p Hp.
  eapply links_only_agree; [done|set_solver].
Qed.

Lemma links_upd_parent X h p c v :
  h !! p = Some c → p ∈ X → links_only tg X h (<[p := upd_parent tg v c]> h).
Proof.
  intros. eapply links_only_insert; eauto; unfold upd_parent.
  - by rewrite keys_with_sub.
  - by rewrite sub_other_with_sub.
  - by rewrite sub_with_sub.
Qed.

Lemma links_upd_left X h p c v :
  h !! p = Some c → p ∈ X → links_only tg X h (<[p := upd_left tg v c]> h).
Proof.
  intros. eapply links_only_insert; eauto; unfold upd_left.
  - by rewrite keys_with_sub.
  - by rewrite sub_other_with_sub.
  - by rewrite sub_with_sub.
Qed.

Lemma links_upd_right X h p c v :
  h !! p = Some c → p ∈ X → links_only tg X h (<[p := upd_right tg v c]> h).
Proof.
  intros. eapply links_only_insert; eauto; unfold upd_right.
  - by rewrite keys_with_sub.
  - by rewrite sub_other_with_sub.
  - by rewrite sub_with_sub.
Qed.

Lemma run_set_parent {B h h' o par} {k' : unit → M heap B} :
  set_parent tg o par h = Ok tt h' →
  (let* x := set_parent tg o par in k' x) h = k' tt h'.
Proof. intros H. by rewrite (bind_ok H). Qed.

Lemma links_only_lookup X h h' p c :
  links_only tg X h h' → p ∉ X → h !! p = Some c → h' !! p = Some c.
Proof. intros H Hp <-. by eapply links_only_agree. Qed.

Variable getter : cell L R → option K.

Lemma run_key_of {B p c k h} {k' : K → M heap B} :
  h !! p = Some c → getter c = Some k →
  (let* x := key_of getter p in k' x) h = k' k h.
Proof.
  intros H Hk. unfold key_of. rewrite bind_assoc, (run_load H).
  by rewrite Hk.
Qed.

Lemma shape_agree h h' t :
  (∀ p, p ∈ tset t → h' !! p = h !! p) →
  shape tg getter h t → shape tg getter h' t.
Proof.
  induction t as [|l IHl q k pr r IHr]; simpl; [done|].
  intros Hag (Hc & Hpl & Hpr & Hl & Hr).
  split_and!.
  - rewrite Hag; [done|set_solver].
  - eapply parent_is_agree; [|done]. intros; apply Hag; set_solver.
  - eapply parent_is_agree; [|done]. intros; apply Hag; set_solver.
  - apply IHl; [|done]. intros; apply Hag; set_solver.
  - apply IHr; [|done]. intros; apply Hag; set_solver.
Qed.

Lemma shape_links X h h' t :
  links_only tg X h h' → X ## tset t →
  shape tg getter h t → shape tg getter h' t.
Proof.
  intros H Hd. apply shape_agree. intros p Hp.
  eapply links_only_agree; [done|set_solver].
Qed.

Lemma shape_root_lookup h t p :
  root_of t = Some p → shape tg getter h t → is_Some (h !! p).
Proof.
  destruct t; [done|]. simpl. intros [= ->] ((c & ? & _) & _). eauto.
Qed.

End LinkFacts.

Section ShapeFacts.
Context {L R K : Type}.
Variable tg : tag.
Variable getter : cell L R → option K.
Hypothesis getter_keys : ∀ c c', keys c = keys c' → getter c = getter c'.
Set Default Proof Using "Type*".

Local Abbreviation heap := (heap L R).
Implicit Types (h : heap) (c : cell L R) (p q : ptr) (t : tree K).

(** Writing the parent link of the root keeps the tree below it. *)
Lemma shape_upd_root_parent h t p c v :
  root_of t = Some p → distinct t → h !! p = Some c →
  shape tg getter h t →
  shape tg getter (<[p := upd_parent tg v c]> h) t ∧
  parent_is tg (<[p := upd_parent tg v c]> h) t v.
Proof.
  destruct t as [|l q k pr r]; [done|]. simpl.
  intros [= ->] (Hl & Hr & Hlr & Dl & Dr) Hp (Hc & Hpl & Hpr & Sl & Sr).
  destruct Hc as (c0 & Hc0 & ? & ? & ? & ?). simplify_eq.
  split.
  - split_and!.
    + exists (upd_parent tg v c). rewrite lookup_insert_eq. unfold upd_parent.
      rewrite sub_with_sub. split_and!; try done.
      erewrite getter_keys; [done|]. by rewrite keys_with_sub.
    + eapply parent_is_agree; [|done]. intros. rewrite lookup_insert_ne; set_solver.
    + eapply parent_is_agree; [|done]. intros. rewrite lookup_insert_ne; set_solver.
    + eapply shape_agree; [|done]. intros. rewrite lookup_insert_ne; set_solver.
    + eapply shape_agree; [|done]. intros. rewrite lookup_insert_ne; set_solver.
  - unfold parent_is. simpl. exists (upd_parent tg v c).
    rewrite lookup_insert_eq. unfold upd_parent. by rewrite sub_with_sub.
Qed.

Lemma set_parent_tree h t par :
  shape tg getter h t → distinct t →
  ∃ h', set_parent tg (root_of t) par h = Ok tt h' ∧
        shape tg getter h' t ∧ parent_is tg h' t par ∧
        links_only tg (tset t) h h'.
Proof.
  intros Hs Hd. destruct (root_of t) as [p|] eqn:E; simpl.
  - destruct (shape_root_lookup tg getter _ _ _ E Hs) as [c Hc].
    exists (<[p := upd_parent tg par c]> h).
    destruct (shape_upd_root_parent h t p c par E Hd Hc Hs).
    split_and!; try done.
    + by apply put_parent_ok.
    + apply links_upd_parent; [exact Hc|]. by apply root_in_tset.
  - exists h. destruct t; [|done]. split_and!; try done.
    apply links_only_refl.
Qed.

End ShapeFacts.

Ltac sets :=
  repeat match goal with
    | H : shape _ _ _ _ |- _ => clear H
    | H : parent_is _ _ _ _ |- _ => clear H
    | H : links_only _ _ _ _ |- _ => clear H
    | H : _ !! _ = _ |- _ => clear H
    | H : _ = Ok _ _ |- _ => clear H
    | H : _ = Some _ |- _ => clear H
    | H : (_ < _)%nat |- _ => clear H
    | H : (_ ≤ _)%nat |- _ => clear H
    end;
  set_solver.

Ltac frame :=
  repeat first
    [ eassumption
    | (eapply shape_links; [eassumption|sets|])
    | (eapply parent_is_links; [eassumption|sets|]) ].

Ltac frame_lookup :=
  repeat first
    [ eassumption
    | apply lookup_insert_eq
    | (eapply links_only_lookup; [eassumption|sets|]) ].

Ltac links :=
  first
    [ apply links_only_refl
    | (eapply links_only_mono; [|eassumption]; sets)
    | (eapply links_only_trans;
       [|eapply links_only_mono; [|eassumption]; sets]; links) ].


Section TreapFacts.
Context {L R K : Type}.
Variable tg : tag.
Variable getter : cell L R → option K.
Hypothesis getter_keys : ∀ c c', keys c = keys c' → getter c = getter c'.
Set Default Proof Using "Type*".

Local Abbreviation heap := (heap L R).
Implicit Types (h : heap) (c : cell L R) (p q : ptr) (t : tree K).

Lemma split_spec (tr : treap K) t : ∀ fuel h key,
  shape tg getter h t → distinct t → (height t < fuel)%nat →
  ∃ h', split tg getter fuel tr (root_of t) key h
          = Ok (root_of (split_t (cmp tr) t key).1,
                root_of (split_t (cmp tr) t key).2) h' ∧
        shape tg getter h' (split_t (cmp tr) t key).1 ∧
        shape tg getter h' (split_t (cmp tr) t key).2 ∧
        links_only tg (tset t) h h'.
Proof.
  induction t as [|l IHl n k pr r IHr]; intros fuel h key Hs Hd Hf.
  - destruct fuel; [simpl in Hf; lia|]. exists h. simpl.
    split_and!; try done. apply links_only_refl.
  - destruct fuel as [|fuel]; [simpl in Hf; lia|].
    simpl in Hs, Hd, Hf.
    destruct Hs as ((c & Hc & Hk & Hpr & Hcl & Hcr) & Hpl & Hpr' & Sl & Sr).
    destruct Hd as (Hnl & Hnr & Hlr & Dl & Dr).
    simpl. rewrite (run_key_of getter Hc Hk). unfold less.
    destruct (cmp tr k key) eqn:Hlt; simpl.
    + destruct (IHr fuel h key Sr Dr ltac:(lia)) as (h1 & Hrun & Sa & Sb & Hl1).
      clear IHl IHr.
      pose proof (split_t_tset (cmp tr) r key) as Hts.
      destruct (split_t_distinct (cmp tr) r key Dr) as (Da & Db & Dab).
      set (a := (split_t (cmp tr) r key).1) in *.
      set (b := (split_t (cmp tr) r key).2) in *.
      rewrite (run_get_right tg Hc), Hcr.
      rewrite (bind_ok Hrun). simpl.
      assert (h1 !! n = Some c) as Hc1 by frame_lookup.
      rewrite (run_put_right tg Hc1).
      set (h2 := <[n := upd_right tg (root_of a) c]> h1).
      assert (links_only tg {[n]} h1 h2) as Hl2.
      { apply links_upd_right; [done|set_solver]. }
      assert (shape tg getter h2 a) as Sa2 by frame.
      destruct (set_parent_tree tg getter getter_keys h2 a (Some n) Sa2 Da)
        as (h3 & Hrun3 & Sa3 & Pa3 & Hl3).
      rewrite (run_set_parent tg Hrun3).
      assert (shape tg getter h3 b) as Sb3 by frame.
      destruct (set_parent_tree tg getter getter_keys h3 b None Sb3 Db)
        as (h4 & Hrun4 & Sb4 & Pb4 & Hl4).
      rewrite (run_set_parent tg Hrun4).
      exists h4. split; [done|]. split; [|split; [done|]].
      * simpl. split_and!.
        -- exists (upd_right tg (root_of a) c). split_and!.
           ++ frame_lookup.
           ++ erewrite getter_keys; [done|]. unfold upd_right. by rewrite keys_with_sub.
           ++ unfold upd_right. by rewrite sub_with_sub.
           ++ unfold upd_right. by rewrite sub_with_sub.
           ++ unfold upd_right. by rewrite sub_with_sub.
        -- frame.
        -- frame.
        -- frame.
        -- frame.
      * links.
    + destruct (IHl fuel h key Sl Dl ltac:(lia)) as (h1 & Hrun & Sa & Sb & Hl1).
      clear IHl IHr.
      pose proof (split_t_tset (cmp tr) l key) as Hts.
      destruct (split_t_distinct (cmp tr) l key Dl) as (Da & Db & Dab).
      set (a := (split_t (cmp tr) l key).1) in *.
      set (b := (split_t (cmp tr) l key).2) in *.
      rewrite (run_get_left tg Hc), Hcl.
      rewrite (bind_ok Hrun). simpl.
      assert (h1 !! n = Some c) as Hc1 by frame_lookup.
      rewrite (run_put_left tg Hc1).
      set (h2 := <[n := upd_left tg (root_of b) c]> h1).
      assert (links_only tg {[n]} h1 h2) as Hl2.
      { apply links_upd_left; [done|set_solver]. }
      assert (shape tg getter h2 b) as Sb2 by frame.
      destruct (set_parent_tree tg getter getter_keys h2 b (Some n) Sb2 Db)
        as (h3 & Hrun3 & Sb3 & Pb3 & Hl3).
      rewrite (run_set_parent tg Hrun3).
      assert (shape tg getter h3 a) as Sa3 by frame.
      destruct (set_parent_tree tg getter getter_keys h3 a None Sa3 Da)
        as (h4 & Hrun4 & Sa4 & Pa4 & Hl4).
      rewrite (run_set_parent tg Hrun4).
      exists h4. split; [done|]. split; [done|]. split.
      * simpl. split_and!.
        -- exists (upd_left tg (root_of b) c). split_and!.
           ++ frame_lookup.
           ++ erewrite getter_keys; [done|]. unfold upd_left. by rewrite keys_with_sub.
           ++ unfold upd_left. by rewrite sub_with_sub.
           ++ unfold upd_left. by rewrite sub_with_sub.
           ++ unfold upd_left. by rewrite sub_with_sub.
        -- frame.
        -- frame.
        -- frame.
        -- frame.
      * links.
Qed.

Lemma merge_spec t1 : ∀ t2 fuel h,
  shape tg getter h t1 → shape tg getter h t2 →
  distinct t1 → distinct t2 → tset t1 ## tset t2 →
  (height t1 + height t2 < fuel)%nat →
  ∃ h', merge tg fuel (root_of t1) (root_of t2) h
          = Ok (root_of (merge_t t1 t2)) h' ∧
        shape tg getter h' (merge_t t1 t2) ∧
        links_only tg (tset t1 ∪ tset t2) h h'.
Proof.
  induction t1 as [|l1 IHl1 p1 k1 pr1 r1 IHr1].
  - intros t2 fuel h _ S2 _ D2 _ Hf. destruct fuel; [lia|].
    exists h. simpl. split_and!; [by destruct t2|done|links].
  - induction t2 as [|l2 IHl2 p2 k2 pr2 r2 IHr2];
      intros fuel h S1 S2 D1 D2 Hd Hf.
    { destruct fuel; [lia|]. exists h. split_and!; [done|done|links]. }
    destruct fuel as [|fuel]; [lia|].
    pose proof S1 as S1'. pose proof S2 as S2'.
    pose proof D1 as D1'. pose proof D2 as D2'.
    simpl in S1', S2', D1', D2', Hf.
    destruct S1' as ((c1 & Hc1 & Hk1 & Hp1 & Hcl1 & Hcr1) & Hpl1 & Hpr1 & Sl1 & Sr1).
    destruct S2' as ((c2 & Hc2 & Hk2 & Hp2 & Hcl2 & Hcr2) & Hpl2 & Hpr2 & Sl2 & Sr2).
    destruct D1' as (Hnl1 & Hnr1 & Hlr1 & Dl1 & Dr1).
    destruct D2' as (Hnl2 & Hnr2 & Hlr2 & Dl2 & Dr2).
    cbn [merge root_of].
    rewrite (run_get_priority tg Hc1), (run_get_priority tg Hc2).
    rewrite Hp1, Hp2. cbn [merge_t]. destruct (pr2 <? pr1) eqn:Hlt.
    + set (t2 := Node l2 p2 k2 pr2 r2) in *.
      destruct (IHr1 t2 fuel h Sr1 S2 Dr1 D2 ltac:(set_solver) ltac:(simpl; lia))
        as (h1 & Hrun & Sm & Hl1).
      clear IHl1 IHr1 IHl2 IHr2.
      pose proof (merge_t_tset r1 t2) as Hts.
      assert (distinct (merge_t r1 t2)) as Dm.
      { apply merge_t_distinct; try done. set_solver. }
      rewrite (run_get_right tg Hc1), Hcr1.
      change (Some p2) with (root_of t2).
      rewrite (bind_ok Hrun).
      assert (h1 !! p1 = Some c1) as Hc11 by (frame_lookup).
      rewrite (run_put_right tg Hc11).
      set (h2 := <[p1 := upd_right tg (root_of (merge_t r1 t2)) c1]> h1).
      assert (links_only tg {[p1]} h1 h2) as Hl2.
      { apply links_upd_right; [done|set_solver]. }
      assert (h2 !! p1 = Some (upd_right tg (root_of (merge_t r1 t2)) c1)) as Hc12
        by apply lookup_insert_eq.
      rewrite (run_get_right tg Hc12). unfold upd_right at 1.
      rewrite sub_with_sub. cbn [right with_right].
      assert (shape tg getter h2 (merge_t r1 t2)) as Sm2 by frame.
      destruct (set_parent_tree tg getter getter_keys h2 _ (Some p1) Sm2 Dm) as (h3 & Hrun3 & Sm3 & Pm3 & Hl3).
      rewrite (run_set_parent tg Hrun3).
      exists h3. split; [done|]. split.
      * simpl. split_and!.
        -- exists (upd_right tg (root_of (merge_t r1 t2)) c1). split_and!.
           ++ frame_lookup.
           ++ erewrite getter_keys; [done|]. unfold upd_right. by rewrite keys_with_sub.
           ++ unfold upd_right. by rewrite sub_with_sub.
           ++ unfold upd_right. by rewrite sub_with_sub.
           ++ unfold upd_right. by rewrite sub_with_sub.
        -- frame.
        -- done.
        -- frame.
        -- done.
      * links.
    + set (t1 := Node l1 p1 k1 pr1 r1) in *.
      destruct (IHl2 fuel h S1 Sl2 D1 Dl2 ltac:(set_solver) ltac:(simpl; lia))
        as (h1 & Hrun & Sm & Hl1).
      clear IHl1 IHr1 IHl2 IHr2.
      pose proof (merge_t_tset t1 l2) as Hts.
      assert (distinct (merge_t t1 l2)) as Dm.
      { apply merge_t_distinct; try done. set_solver. }
      rewrite (run_get_left tg Hc2), Hcl2.
      change (Some p1) with (root_of t1).
      rewrite (bind_ok Hrun).
      assert (h1 !! p2 = Some c2) as Hc21 by (frame_lookup).
      rewrite (run_put_left tg Hc21).
      set (h2 := <[p2 := upd_left tg (root_of (merge_t t1 l2)) c2]> h1).
      assert (links_only tg {[p2]} h1 h2) as Hl2.
      { apply links_upd_left; [done|set_solver]. }
      assert (h2 !! p2 = Some (upd_left tg (root_of (merge_t t1 l2)) c2)) as Hc22
        by apply lookup_insert_eq.
      rewrite (run_get_left tg Hc22). unfold upd_left at 1.
      rewrite sub_with_sub. cbn [left with_left].
      assert (shape tg getter h2 (merge_t t1 l2)) as Sm2 by frame.
      destruct (set_parent_tree tg getter getter_keys h2 _ (Some p2) Sm2 Dm) as (h3 & Hrun3 & Sm3 & Pm3 & Hl3).
      rewrite (run_set_parent tg Hrun3).
      exists h3. split; [done|]. split.
      * change (merge_t t1 l2) with
          ((fix merge_with (t2 : tree K) : tree K :=
              match t2 with
              | Leaf => Node l1 p1 k1 pr1 r1
              | Node l2 p2 k2 pr2 r2 =>
                  if pr2 <? pr1 then Node l1 p1 k1 pr1 (merge_t r1 t2)
                  else Node (merge_with l2) p2 k2 pr2 r2
              end) l2) in *.
        simpl. split_and!.
        -- exists (upd_left tg (root_of (merge_t t1 l2)) c2). split_and!.
           ++ frame_lookup.
           ++ erewrite getter_keys; [done|]. unfold upd_left. by rewrite keys_with_sub.
           ++ unfold upd_left. by rewrite sub_with_sub.
           ++ unfold upd_left. by rewrite sub_with_sub.
           ++ unfold upd_left. by rewrite sub_with_sub.
        -- done.
        -- frame.
        -- done.
        -- frame.
      * links.
Qed.

Lemma insert_at_spec (tr : treap K) t : ∀ fuel h p cp k pr,
  shape tg getter h t → distinct t → p ∉ tset t →
  h !! p = Some cp → getter cp = Some k → priority (sub tg cp) = pr →
  left (sub tg cp) = None → right (sub tg cp) = None →
  (height t + 1 < fuel)%nat →
  ∃ h', insert_at tg getter fuel tr (root_of t) p h
          = Ok (root_of (insert_t (cmp tr) t p k pr)) h' ∧
        shape tg getter h' (insert_t (cmp tr) t p k pr) ∧
        links_only tg ({[p]} ∪ tset t) h h'.
Proof.
  induction t as [|l IHl q kq prq r IHr];
    intros fuel h p cp k pr St Dt Hp Hcp Hk Hpr Hcl Hcr Hf.
  - destruct fuel; [lia|]. exists h. split; [done|]. split; [|links].
    simpl. split_and!; try done. exists cp. done.
  - destruct fuel as [|fuel]; [lia|].
    pose proof St as St'. pose proof Dt as Dt'. simpl in St', Dt', Hf.
    destruct St' as ((c & Hc & Hkq & Hprq & Hcl' & Hcr') & Hpl & Hpr' & Sl & Sr).
    destruct Dt' as (Hnl & Hnr & Hlr & Dl & Dr).
    cbn [insert_at root_of].
    rewrite (run_get_priority tg Hcp), (run_get_priority tg Hc).
    rewrite Hpr, Hprq. cbn [insert_t]. destruct (prq <? pr) eqn:Hlt.
    + rewrite (run_key_of getter Hcp Hk).
      set (t := Node l q kq prq r) in *.
      destruct (split_spec tr t fuel h k St Dt ltac:(simpl; lia))
        as (h1 & Hrun & Sa & Sb & Hl1).
      clear IHl IHr.
      pose proof (split_t_tset (cmp tr) t k) as Hts.
      destruct (split_t_distinct (cmp tr) t k Dt) as (Da & Db & Dab).
      set (a := (split_t (cmp tr) t k).1) in *.
      set (b := (split_t (cmp tr) t k).2) in *.
      change (Some q) with (root_of t).
      rewrite (bind_ok Hrun). cbn [fst snd].
      assert (h1 !! p = Some cp) as Hcp1 by frame_lookup.
      rewrite (run_put_left tg Hcp1).
      set (h2 := <[p := upd_left tg (root_of a) cp]> h1).
      assert (links_only tg {[p]} h1 h2) as Hl2.
      { apply links_upd_left; [done|set_solver]. }
      assert (shape tg getter h2 a) as Sa2 by frame.
      destruct (set_parent_tree tg getter getter_keys h2 a (Some p) Sa2 Da) as (h3 & Hrun3 & Sa3 & Pa3 & Hl3).
      rewrite (run_set_parent tg Hrun3).
      assert (h3 !! p = Some (upd_left tg (root_of a) cp)) as Hcp3 by frame_lookup.
      rewrite (run_put_right tg Hcp3).
      set (cp' := upd_right tg (root_of b) (upd_left tg (root_of a) cp)).
      set (h4 := <[p := cp']> h3).
      assert (links_only tg {[p]} h3 h4) as Hl4.
      { apply links_upd_right; [done|set_solver]. }
      assert (shape tg getter h4 b) as Sb4 by frame.
      destruct (set_parent_tree tg getter getter_keys h4 b (Some p) Sb4 Db) as (h5 & Hrun5 & Sb5 & Pb5 & Hl5).
      rewrite (run_set_parent tg Hrun5).
      exists h5. split; [done|]. split.
      * simpl. split_and!.
        -- exists cp'. split_and!.
           ++ frame_lookup.
           ++ erewrite getter_keys; [exact Hk|]. unfold cp', upd_right, upd_left.
              by rewrite !keys_with_sub.
           ++ unfold cp', upd_right, upd_left. by rewrite !sub_with_sub.
           ++ unfold cp', upd_right, upd_left. by rewrite !sub_with_sub.
           ++ unfold cp', upd_right, upd_left. by rewrite !sub_with_sub.
        -- frame.
        -- done.
        -- frame.
        -- done.
      * links.
    + rewrite (run_key_of getter Hcp Hk), (run_key_of getter Hc Hkq).
      unfold less. destruct (cmp tr k kq) eqn:Hkk.
      * destruct (IHl fuel h p cp k pr Sl Dl ltac:(set_solver) Hcp Hk Hpr Hcl Hcr
                    ltac:(lia)) as (h1 & Hrun & Si & Hl1).
        clear IHl IHr. simpl in Hp.
        pose proof (insert_t_tset (cmp tr) l p k pr) as Hts.
        assert (distinct (insert_t (cmp tr) l p k pr)) as Di.
        { apply insert_t_distinct; [done|set_solver]. }
        destruct (insert_t_root (cmp tr) l p k pr) as [x Hx].
        set (ti := insert_t (cmp tr) l p k pr) in *.
        rewrite (run_get_left tg Hc), Hcl'.
        rewrite (bind_ok Hrun).
        assert (h1 !! q = Some c) as Hc1 by frame_lookup.
        rewrite (run_put_left tg Hc1).
        set (h2 := <[q := upd_left tg (root_of ti) c]> h1).
        assert (links_only tg {[q]} h1 h2) as Hl2.
        { apply links_upd_left; [done|set_solver]. }
        assert (h2 !! q = Some (upd_left tg (root_of ti) c)) as Hc2
          by apply lookup_insert_eq.
        rewrite (run_get_left tg Hc2). unfold upd_left at 1.
        rewrite sub_with_sub. cbn [left with_left]. rewrite Hx. cbn [deref].
        rewrite bind_ret.
        change (put_parent tg x (Some q)) with (@set_parent L R tg (Some x) (Some q)).
        rewrite <- Hx.
        assert (shape tg getter h2 ti) as Si2 by frame.
        destruct (set_parent_tree tg getter getter_keys h2 ti (Some q) Si2 Di) as (h3 & Hrun3 & Si3 & Pi3 & Hl3).
        rewrite (run_set_parent tg Hrun3).
        exists h3. split; [done|]. split.
        -- simpl. split_and!.
           ++ exists (upd_left tg (root_of ti) c). split_and!.
              ** frame_lookup.
              ** erewrite getter_keys; [done|]. unfold upd_left. by rewrite keys_with_sub.
              ** unfold upd_left. by rewrite sub_with_sub.
              ** unfold upd_left. by rewrite sub_with_sub.
              ** unfold upd_left. by rewrite sub_with_sub.
           ++ done.
           ++ frame.
           ++ done.
           ++ frame.
        -- links.
      * destruct (IHr fuel h p cp k pr Sr Dr ltac:(set_solver) Hcp Hk Hpr Hcl Hcr
                    ltac:(lia)) as (h1 & Hrun & Si & Hl1).
        clear IHl IHr. simpl in Hp.
        pose proof (insert_t_tset (cmp tr) r p k pr) as Hts.
        assert (distinct (insert_t (cmp tr) r p k pr)) as Di.
        { apply insert_t_distinct; [done|set_solver]. }
        destruct (insert_t_root (cmp tr) r p k pr) as [x Hx].
        set (ti := insert_t (cmp tr) r p k pr) in *.
        rewrite (run_get_right tg Hc), Hcr'.
        rewrite (bind_ok Hrun).
        assert (h1 !! q = Some c) as Hc1 by frame_lookup.
        rewrite (run_put_right tg Hc1).
        set (h2 := <[q := upd_right tg (root_of ti) c]> h1).
        assert (links_only tg {[q]} h1 h2) as Hl2.
        { apply links_upd_right; [done|set_solver]. }
        assert (h2 !! q = Some (upd_right tg (root_of ti) c)) as Hc2
          by apply lookup_insert_eq.
        rewrite (run_get_right tg Hc2). unfold upd_right at 1.
        rewrite sub_with_sub. cbn [right with_right]. rewrite Hx. cbn [deref].
        rewrite bind_ret.
        change (put_parent tg x (Some q)) with (@set_parent L R tg (Some x) (Some q)).
        rewrite <- Hx.
        assert (shape tg getter h2 ti) as Si2 by frame.
        destruct (set_parent_tree tg getter getter_keys h2 ti (Some q) Si2 Di) as (h3 & Hrun3 & Si3 & Pi3 & Hl3).
        rewrite (run_set_parent tg Hrun3).
        exists h3. split; [done|]. split.
        -- simpl. split_and!.
           ++ exists (upd_right tg (root_of ti) c). split_and!.
              ** frame_lookup.
              ** erewrite getter_keys; [done|]. unfold upd_right. by rewrite keys_with_sub.
              ** unfold upd_right. by rewrite sub_with_sub.
              ** unfold upd_right. by rewrite sub_with_sub.
              ** unfold upd_right. by rewrite sub_with_sub.
           ++ frame.
           ++ done.
           ++ frame.
           ++ done.
        -- links.
Qed.

End TreapFacts.

Section WalkFacts.
Context {L R K : Type}.
Variable tg : tag.
Variable getter : cell L R → option K.

Local Abbreviation heap := (heap L R).
Implicit Types (h : heap) (c : cell L R) (p q : ptr) (t : tree K).

(** *** Walking the links: [first], [next] *)


Lemma descend_left_spec t : ∀ fuel h p,
  shape tg getter h t → root_of t = Some p → (height t ≤ fuel)%nat →
  descend_left tg fuel p h = Ok (head_ptr (inorder t) p) h.
Proof.
  induction t as [|l IHl q k pr r IHr]; intros fuel h p St Hr Hf; [done|].
  simpl in Hr, St, Hf. simplify_eq.
  destruct St as ((c & Hc & Hk & Hpr & Hcl & Hcr) & Hpl & Hpr' & Sl & Sr).
  destruct fuel as [|fuel]; [lia|]. cbn [descend_left].
  rewrite (run_get_left tg Hc), Hcl.
  destruct l as [|ll lp lk lpr lr].
  - done.
  - cbn [root_of]. rewrite (IHl fuel h lp Sl eq_refl ltac:(simpl in *; lia)).
    simpl. by destruct (inorder ll).
Qed.

Lemma next_spec t : ∀ h par0 ex fuel0 x,
  shape tg getter h t → distinct t → x ∈ tset t →
  parent_is tg h t par0 →
  (∀ p f, root_of t = Some p → (fuel0 ≤ f)%nat →
          next_climb tg f p par0 h = Ok (Some ex) h) →
  ∀ fuel, (fuel0 + height t ≤ fuel)%nat →
  next tg fuel x h = Ok (Some (successor (inorder t) x ex)) h.
Proof.
  induction t as [|l IHl q k pr r IHr];
    intros h par0 ex fuel0 x St Dt Hx Hpar Hclimb fuel Hf; [set_solver|].
  pose proof St as St'. pose proof Dt as Dt'. simpl in St', Dt', Hf, Hx.
  destruct St' as ((c & Hc & Hk & Hpr & Hcl & Hcr) & Hpl & Hpr' & Sl & Sr).
  destruct Dt' as (Hnl & Hnr & Hlr & Dl & Dr).
  cbn [inorder].
  destruct (decide (x = q)) as [->|Hne].
  - rewrite successor_app_r by (by rewrite <- tset_fst).
    simpl. rewrite decide_True by done.
    unfold next. rewrite (run_get_right tg Hc), Hcr.
    destruct r as [|rl rp rk rpr rr]; cbn [root_of inorder].
    + rewrite (run_get_parent tg Hc).
      unfold parent_is in Hpar. simpl in Hpar.
      destruct Hpar as (c' & Hc' & <-). simplify_eq.
      apply Hclimb; [done|lia].
    + erewrite bind_ok; [|apply (descend_left_spec _ _ _ _ Sr eq_refl); lia].
      unfold ret. simpl. by destruct (inorder rl).
  - destruct (decide (x ∈ tset l)) as [Hxl|Hxl].
    + rewrite successor_app_l by (by rewrite <- tset_fst). simpl.
      eapply (IHl h (Some q) q 1%nat); try done; [|lia].
      intros p [|f] Hp Hf'; [lia|]. cbn [next_climb].
      rewrite (run_get_right tg Hc), Hcr.
      rewrite decide_False; [done|].
      intros Heq. apply root_in_tset in Hp, Heq. set_solver.
    + assert (x ∈ tset r) as Hxr by set_solver.
      rewrite successor_app_r by (by rewrite <- tset_fst).
      simpl. rewrite decide_False by done.
      eapply (IHr h (Some q) ex (S fuel0)); try done; [|lia].
      intros p [|f] Hp Hf'; [lia|]. cbn [next_climb].
      rewrite (run_get_right tg Hc), Hcr.
      rewrite decide_True by done.
      rewrite (run_get_parent tg Hc).
      unfold parent_is in Hpar. simpl in Hpar.
      destruct Hpar as (c' & Hc' & <-). simplify_eq.
      apply Hclimb; [done|lia].
Qed.
End WalkFacts.

Set Default Proof Using "Type".

Section RemoveFacts.
Context {K : Type}.
Implicit Types t l r : tree K.

Lemma remove_t_notin t x : x ∉ tset t → remove_t t x = t.
Proof.
  induction t as [|l IHl q k pr r IHr]; simpl; [done|].
  intros Hx. rewrite decide_False by set_solver.
  rewrite IHl, IHr by set_solver. done.
Qed.

Lemma remove_t_root t x :
  root_of t ≠ Some x → root_of (remove_t t x) = root_of t.
Proof.
  destruct t as [|l q k pr r]; simpl; [done|].
  intros Hx. rewrite decide_False by congruence. done.
Qed.

Lemma remove_t_tset t x : distinct t → tset (remove_t t x) = tset t ∖ {[x]}.
Proof.
  induction t as [|l IHl q k pr r IHr]; simpl; [set_solver|].
  intros (Hl & Hr & Hlr & Dl & Dr). destruct (decide (q = x)) as [->|Hne].
  - rewrite merge_t_tset. set_solver.
  - simpl. rewrite IHl, IHr by done. set_solver.
Qed.

Lemma remove_t_distinct t x : distinct t → distinct (remove_t t x).
Proof.
  induction t as [|l IHl q k pr r IHr]; simpl; [done|].
  intros (Hl & Hr & Hlr & Dl & Dr). destruct (decide (q = x)) as [->|Hne].
  - by apply merge_t_distinct.
  - simpl. rewrite !remove_t_tset by done.
    split_and!; [set_solver|set_solver|set_solver|by apply IHl|by apply IHr].
Qed.

Lemma remove_t_inorder t x :
  distinct t →
  inorder (remove_t t x) = filter (λ e, e.1 ≠ x) (inorder t).
Proof.
  induction t as [|l IHl q k pr r IHr]; simpl; [done|].
  intros (Hl & Hr & Hlr & Dl & Dr).
  rewrite filter_app, filter_cons. simpl.
  destruct (decide (q = x)) as [->|Hne].
  - rewrite decide_False by (intros ?; done).
    rewrite merge_t_inorder.
    rewrite <- IHl, <- IHr by done. by rewrite !remove_t_notin.
  - rewrite decide_True by done. simpl. by rewrite IHl, IHr.
Qed.

Lemma filter_ne_all (l : list (ptr * K)) x :
  x ∉ l.*1 → filter (λ e, e.1 ≠ x) l = l.
Proof.
  induction l as [|b l IH]; [done|]. intros Hx.
  rewrite filter_cons. rewrite decide_True by set_solver.
  f_equal. apply IH. set_solver.
Qed.

Lemma filter_ne_length (l : list (ptr * K)) x :
  NoDup l.*1 → x ∈ l.*1 →
  S (length (filter (λ e, e.1 ≠ x) l)) = length l.
Proof.
  induction l as [|a l IH]; simpl; [by intros _ ?%elem_of_nil|].
  intros [Ha Hd]%NoDup_cons Hx. rewrite filter_cons.
  destruct (decide (a.1 ≠ x)) as [Hne|Heq].
  - simpl. f_equal. apply IH; [done|set_solver].
  - assert (a.1 = x) as <- by (by destruct (decide (a.1 = x))).
    by rewrite filter_ne_all.
Qed.

Lemma remove_t_count t x :
  distinct t → x ∈ tset t → S (count (remove_t t x)) = count t.
Proof.
  intros Hd Hx. rewrite <- !inorder_length, remove_t_inorder by done.
  apply filter_ne_length; [by apply distinct_NoDup|by apply tset_fst].
Qed.
End RemoveFacts.

Section RemoveSpec.
Context {L R K : Type}.
Variable tg : tag.
Variable getter : cell L R → option K.
Hypothesis getter_keys : ∀ c c', keys c = keys c' → getter c = getter c'.
Set Default Proof Using "Type*".

Local Abbreviation heap := (heap L R).
Implicit Types (h : heap) (c : cell L R) (p q x : ptr) (t l r lx rx : tree K).

Lemma run_root {B} (tr : treap K) {h e ce} {k' : option ptr → M heap B} :
  last tr = Some e → h !! e = Some ce →
  (let* o := root tg tr in k' o) h = k' (left (sub tg ce)) h.
Proof using Type.
  intros Hlast Hce. unfold root. rewrite Hlast. cbn [deref].
  rewrite bind_assoc, bind_ret. by rewrite (run_get_left tg Hce).
Qed.

Lemma parent_is_node h l q k pr r par c :
  h !! q = Some c → parent (sub tg c) = par →
  parent_is tg h (Node l q k pr r) par.
Proof using Type. intros. exists c. done. Qed.

Lemma parent_is_node_inv h l q k pr r par c :
  h !! q = Some c → parent_is tg h (Node l q k pr r) par →
  parent (sub tg c) = par.
Proof using Type. intros Hc (c' & Hc' & <-). by simplify_eq. Qed.

Lemma remove_at_left_child (tr : treap K) lx x kx prx rx q k pr r h tree fuel :
  let l := Node lx x kx prx rx in
  shape tg getter h (Node l q k pr r) → distinct (Node l q k pr r) →
  last tr ≠ Some q → (count (Node l q k pr r) ≤ fuel)%nat →
  ∃ h', remove_at tg fuel tr tree x h = Ok tree h' ∧
        shape tg getter h' (Node (merge_t lx rx) q k pr r) ∧
        links_only tg (tset (Node l q k pr r) ∖ {[x]}) h h' ∧
        (∀ par, parent_is tg h (Node l q k pr r) par →
                parent_is tg h' (Node (merge_t lx rx) q k pr r) par).
Proof.
  intros l St Dt Hlast Hf. subst l. simpl in St, Dt, Hf.
  destruct St as ((c & Hc & Hk & Hpr & Hcl & Hcr) & Hpl & Hpr' & Sl & Sr).
  destruct Sl as ((cx & Hcx & Hkx & Hprx & Hclx & Hcrx) & Hplx & Hprx' & Slx & Srx).
  destruct Dt as (Hnl & Hnr & Hlr & (Hxl & Hxr & Hlrx & Dlx & Drx) & Dr).
  pose proof (parent_is_node_inv _ _ _ _ _ _ _ _ Hcx Hpl) as Hpx.
  unfold remove_at.
  rewrite (run_get_parent tg Hcx), (run_get_left tg Hcx), (run_get_right tg Hcx).
  rewrite Hpx, Hclx, Hcrx.
  pose proof (height_le_count lx). pose proof (height_le_count rx).
  destruct (merge_spec tg getter getter_keys lx rx fuel h Slx Srx Dlx Drx Hlrx
              ltac:(lia)) as (h1 & Hrun & Sm & Hl1).
  pose proof (merge_t_tset lx rx) as Hts.
  assert (distinct (merge_t lx rx)) as Dm by (by apply merge_t_distinct).
  set (m := merge_t lx rx) in *.
  rewrite (bind_ok Hrun).
  destruct (set_parent_tree tg getter getter_keys h1 m (Some q) Sm Dm)
    as (h2 & Hrun2 & Sm2 & Pm2 & Hl2).
  rewrite (run_set_parent tg Hrun2).
  rewrite decide_False by done. cbn [deref]. rewrite bind_ret.
  assert (h2 !! q = Some c) as Hc2 by frame_lookup.
  rewrite (run_get_right tg Hc2), Hcr.
  rewrite decide_False.
  2:{ intros Heq. apply root_in_tset in Heq. set_solver. }
  rewrite (run_put_left tg Hc2).
  set (h3 := <[q := upd_left tg (root_of m) c]> h2).
  assert (links_only tg {[q]} h2 h3) as Hl3.
  { apply links_upd_left; [done|set_solver]. }
  assert (h3 !! q = Some (upd_left tg (root_of m) c)) as Hc3
    by apply lookup_insert_eq.
  exists h3. split; [done|]. split; [|split].
  - simpl. split_and!.
    + exists (upd_left tg (root_of m) c). split_and!; [done|..].
      * erewrite getter_keys; [done|]. unfold upd_left. by rewrite keys_with_sub.
      * unfold upd_left. by rewrite sub_with_sub.
      * unfold upd_left. by rewrite sub_with_sub.
      * unfold upd_left. by rewrite sub_with_sub.
    + frame.
    + frame.
    + frame.
    + frame.
  - simpl. links.
  - intros par Hpar. eapply parent_is_node; [done|].
    unfold upd_left. rewrite sub_with_sub. simpl.
    exact (parent_is_node_inv _ _ _ _ _ _ _ _ Hc Hpar).
Qed.

Lemma remove_at_right_child (tr : treap K) rx' x kx prx rx q k pr l h tree fuel :
  let r := Node rx' x kx prx rx in
  shape tg getter h (Node l q k pr r) → distinct (Node l q k pr r) →
  last tr ≠ Some q → (count (Node l q k pr r) ≤ fuel)%nat →
  ∃ h', remove_at tg fuel tr tree x h = Ok tree h' ∧
        shape tg getter h' (Node l q k pr (merge_t rx' rx)) ∧
        links_only tg (tset (Node l q k pr r) ∖ {[x]}) h h' ∧
        (∀ par, parent_is tg h (Node l q k pr r) par →
                parent_is tg h' (Node l q k pr (merge_t rx' rx)) par).
Proof.
  intros r St Dt Hlast Hf. subst r. simpl in St, Dt, Hf.
  destruct St as ((c & Hc & Hk & Hpr & Hcl & Hcr) & Hpl & Hpr' & Sl & Sr).
  destruct Sr as ((cx & Hcx & Hkx & Hprx & Hclx & Hcrx) & Hplx & Hprx' & Slx & Srx).
  destruct Dt as (Hnl & Hnr & Hlr & Dl & (Hxl & Hxr & Hlrx & Dlx & Drx)).
  pose proof (parent_is_node_inv _ _ _ _ _ _ _ _ Hcx Hpr') as Hpx.
  unfold remove_at.
  rewrite (run_get_parent tg Hcx), (run_get_left tg Hcx), (run_get_right tg Hcx).
  rewrite Hpx, Hclx, Hcrx.
  pose proof (height_le_count rx'). pose proof (height_le_count rx).
  destruct (merge_spec tg getter getter_keys rx' rx fuel h Slx Srx Dlx Drx Hlrx
              ltac:(lia)) as (h1 & Hrun & Sm & Hl1).
  pose proof (merge_t_tset rx' rx) as Hts.
  assert (distinct (merge_t rx' rx)) as Dm by (by apply merge_t_distinct).
  set (m := merge_t rx' rx) in *.
  rewrite (bind_ok Hrun).
  destruct (set_parent_tree tg getter getter_keys h1 m (Some q) Sm Dm)
    as (h2 & Hrun2 & Sm2 & Pm2 & Hl2).
  rewrite (run_set_parent tg Hrun2).
  rewrite decide_False by done. cbn [deref]. rewrite bind_ret.
  assert (h2 !! q = Some c) as Hc2 by frame_lookup.
  rewrite (run_get_right tg Hc2), Hcr. simpl.
  rewrite decide_True by done.
  rewrite (run_put_right tg Hc2).
  set (h3 := <[q := upd_right tg (root_of m) c]> h2).
  assert (links_only tg {[q]} h2 h3) as Hl3.
  { apply links_upd_right; [done|set_solver]. }
  assert (h3 !! q = Some (upd_right tg (root_of m) c)) as Hc3
    by apply lookup_insert_eq.
  exists h3. split; [done|]. split; [|split].
  - simpl. split_and!.
    + exists (upd_right tg (root_of m) c). split_and!; [done|..].
      * erewrite getter_keys; [done|]. unfold upd_right. by rewrite keys_with_sub.
      * unfold upd_right. by rewrite sub_with_sub.
      * unfold upd_right. by rewrite sub_with_sub.
      * unfold upd_right. by rewrite sub_with_sub.
    + frame.
    + frame.
    + frame.
    + frame.
  - simpl. links.
  - intros par Hpar. eapply parent_is_node; [done|].
    unfold upd_right. rewrite sub_with_sub. simpl.
    exact (parent_is_node_inv _ _ _ _ _ _ _ _ Hc Hpar).
Qed.

Lemma remove_at_inner (tr : treap K) t : ∀ h x tree fuel,
  shape tg getter h t → distinct t → x ∈ tset t → root_of t ≠ Some x →
  (∀ y, y ∈ tset t → last tr ≠ Some y) → (count t ≤ fuel)%nat →
  ∃ h', remove_at tg fuel tr tree x h = Ok tree h' ∧
        shape tg getter h' (remove_t t x) ∧
        links_only tg (tset t ∖ {[x]}) h h' ∧
        (∀ par, parent_is tg h t par → parent_is tg h' (remove_t t x) par).
Proof.
  induction t as [|l IHl q k pr r IHr];
    intros h x tree fuel St Dt Hx Hroot Hlast Hf; [set_solver|].
  pose proof St as St'. pose proof Dt as Dt'. simpl in St', Dt', Hx, Hf.
  destruct St' as ((c & Hc & Hk & Hpr & Hcl & Hcr) & Hpl & Hpr' & Sl & Sr).
  destruct Dt' as (Hnl & Hnr & Hlr & Dl & Dr).
  assert (q ≠ x) as Hqx by (simpl in Hroot; congruence).
  cbn [remove_t]. rewrite decide_False by done.
  destruct (decide (x ∈ tset l)) as [Hxl|Hxl].
  - rewrite (remove_t_notin r x) by set_solver.
    destruct (decide (root_of l = Some x)) as [Hrl|Hrl].
    + destruct l as [|lx y ky pry rx]; [done|]. simpl in Hrl. simplify_eq.
      cbn [remove_t]. rewrite decide_True by done.
      apply remove_at_left_child; try done. apply Hlast. set_solver.
    + destruct (IHl h x tree fuel Sl Dl Hxl Hrl) as (h1 & Hrun & S1 & Hl1 & Hp1).
      { intros y Hy. apply Hlast. set_solver. }
      { lia. }
      clear IHl IHr. pose proof (remove_t_tset l x Dl) as Hts.
      exists h1. split; [done|]. split; [|split].
      * simpl. split_and!.
        -- exists c. split_and!; try done; [frame_lookup|].
           by rewrite remove_t_root.
        -- by apply Hp1.
        -- frame.
        -- done.
        -- frame.
      * simpl. links.
      * intros par Hpar. eapply parent_is_node; [frame_lookup|].
        exact (parent_is_node_inv _ _ _ _ _ _ _ _ Hc Hpar).
  - assert (x ∈ tset r) as Hxr by set_solver.
    rewrite (remove_t_notin l x) by set_solver.
    destruct (decide (root_of r = Some x)) as [Hrl|Hrl].
    + destruct r as [|lx y ky pry rx]; [done|]. simpl in Hrl. simplify_eq.
      cbn [remove_t]. rewrite decide_True by done.
      apply remove_at_right_child; try done. apply Hlast. set_solver.
    + destruct (IHr h x tree fuel Sr Dr Hxr Hrl) as (h1 & Hrun & S1 & Hl1 & Hp1).
      { intros y Hy. apply Hlast. set_solver. }
      { lia. }
      clear IHl IHr. pose proof (remove_t_tset r x Dr) as Hts.
      exists h1. split; [done|]. split; [|split].
      * simpl. split_and!.
        -- exists c. split_and!; try done; [frame_lookup|].
           by rewrite remove_t_root.
        -- frame.
        -- by apply Hp1.
        -- frame.
        -- done.
      * simpl. links.
      * intros par Hpar. eapply parent_is_node; [frame_lookup|].
        exact (parent_is_node_inv _ _ _ _ _ _ _ _ Hc Hpar).
Qed.

Lemma remove_at_root (tr : treap K) l x k pr r h e ce tree fuel :
  shape tg getter h (Node l x k pr r) → distinct (Node l x k pr r) →
  parent_is tg h (Node l x k pr r) (Some e) →
  last tr = Some e → h !! e = Some ce → e ∉ tset (Node l x k pr r) →
  (count (Node l x k pr r) ≤ fuel)%nat →
  ∃ h1 h', remove_at tg fuel tr tree x h = Ok (root_of (merge_t l r)) h' ∧
        h' = <[e := upd_left tg (root_of (merge_t l r)) ce]> h1 ∧
        h1 !! e = Some ce ∧
        shape tg getter h' (merge_t l r) ∧
        parent_is tg h' (merge_t l r) (Some e) ∧
        links_only tg ({[e]} ∪ tset (Node l x k pr r) ∖ {[x]}) h h'.
Proof.
  intros St Dt Hpar Hlast Hce He Hf. simpl in St, Dt, Hf, He.
  destruct St as ((c & Hc & Hk & Hpr & Hcl & Hcr) & Hpl & Hpr' & Sl & Sr).
  destruct Dt as (Hnl & Hnr & Hlr & Dl & Dr).
  pose proof (parent_is_node_inv _ _ _ _ _ _ _ _ Hc Hpar) as Hpx.
  unfold remove_at.
  rewrite (run_get_parent tg Hc), (run_get_left tg Hc), (run_get_right tg Hc).
  rewrite Hpx, Hcl, Hcr.
  pose proof (height_le_count l). pose proof (height_le_count r).
  destruct (merge_spec tg getter getter_keys l r fuel h Sl Sr Dl Dr Hlr
              ltac:(lia)) as (h1 & Hrun & Sm & Hl1).
  pose proof (merge_t_tset l r) as Hts.
  assert (distinct (merge_t l r)) as Dm by (by apply merge_t_distinct).
  set (m := merge_t l r) in *.
  rewrite (bind_ok Hrun).
  destruct (set_parent_tree tg getter getter_keys h1 m (Some e) Sm Dm)
    as (h2 & Hrun2 & Sm2 & Pm2 & Hl2).
  rewrite (run_set_parent tg Hrun2).
  rewrite decide_True by done. cbn [deref]. rewrite bind_ret.
  assert (h2 !! e = Some ce) as Hc2 by frame_lookup.
  rewrite (run_put_left tg Hc2).
  set (h3 := <[e := upd_left tg (root_of m) ce]> h2).
  assert (links_only tg {[e]} h2 h3) as Hl3.
  { apply links_upd_left; [done|set_solver]. }
  exists h2, h3. split; [done|]. split; [done|]. split; [done|].
  split; [frame|]. split; [frame|]. simpl. links.
Qed.

(** *** The member functions of a treap on a whole view *)

Lemma sentinel_upd_left h e ce t :
  right (sub tg ce) = None → parent (sub tg ce) = None →
  sentinel tg (<[e := upd_left tg (root_of t) ce]> h) e t.
Proof using Type.
  intros Hr Hp. exists (upd_left tg (root_of t) ce).
  rewrite lookup_insert_eq. unfold upd_left. rewrite sub_with_sub. done.
Qed.

Lemma sentinel_links X h h' e t :
  links_only tg X h h' → e ∉ X → sentinel tg h e t → sentinel tg h' e t.
Proof using Type.
  intros Hl He (c & Hc & ?). exists c. split; [|done].
  by eapply links_only_lookup.
Qed.

Lemma reconnect_end_spec (tr : treap K) h e t :
  last tr = Some e → sentinel tg h e t → shape tg getter h t →
  distinct t → e ∉ tset t →
  ∃ h', reconnect_end tg tr h = Ok tt h' ∧
        view_shape tg getter h' e t ∧ links_only tg (tset t) h h'.
Proof.
  intros Hlast Hs St Dt He. pose proof Hs as (ce & Hce & Hl & Hr & Hp).
  unfold reconnect_end. rewrite ?Hlast. cbn [deref]. rewrite ?bind_ret.
  rewrite (run_get_left tg Hce), Hl.
  destruct (set_parent_tree tg getter getter_keys h t (Some e) St Dt)
    as (h1 & Hrun & S1 & P1 & Hl1).
  exists h1. split; [done|]. split; [|done].
  split; [|done]. eapply sentinel_links; [done|done|done].
Qed.

Lemma remove_spec (tr : treap K) t h e x fuel :
  view_shape tg getter h e t → last tr = Some e → x ∈ tset t →
  (count t + 1 ≤ fuel)%nat →
  ∃ h', remove tg fuel tr x h
          = Ok (Some (successor (inorder t) x e)) h' ∧
        view_shape tg getter h' e (remove_t t x) ∧
        links_only tg ({[e]} ∪ tset t ∖ {[x]}) h h'.
Proof.
  intros (Hs & St & Hpar & Dt & He) Hlast Hx Hf.
  pose proof Hs as (ce & Hce & Hel & Her & Hep).
  pose proof (height_le_count t) as Hh.
  unfold remove.
  erewrite bind_ok.
  2:{ eapply (next_spec tg getter t h (Some e) e 1%nat); try done; [|lia].
      intros p [|f] Hp Hf'; [lia|]. cbn [next_climb].
      rewrite (run_get_right tg Hce), Her. by rewrite decide_False. }
  rewrite (run_root tr Hlast Hce), Hel.
  pose proof (remove_t_tset t x Dt) as Hts.
  pose proof (remove_t_distinct t x Dt) as Dt'.
  destruct (decide (root_of t = Some x)) as [Hroot|Hroot].
  - destruct t as [|l y k pr r]; [done|]. simpl in Hroot. simplify_eq.
    destruct (remove_at_root tr l x k pr r h e ce (Some x) fuel St Dt Hpar
                Hlast Hce He ltac:(lia))
      as (h0 & h1 & Hrun & Hh1 & Hce0 & Sm & Pm & Hl1).
    rewrite (bind_ok Hrun).
    cbn [remove_t] in *. rewrite decide_True in * by done.
    set (m := merge_t l r) in *.
    assert (h1 !! e = Some (upd_left tg (root_of m) ce)) as Hce1.
    { rewrite Hh1. apply lookup_insert_eq. }
    rewrite ?Hlast. cbn [deref]. rewrite ?bind_ret.
    rewrite ?Hlast. cbn [deref]. rewrite ?bind_ret.
  rewrite (run_put_left tg Hce1).
    set (h2 := <[e := _]> h1).
    assert (links_only tg {[e]} h1 h2) as Hl2.
    { apply links_upd_left; [done|set_solver]. }
    assert (sentinel tg h2 e m) as Hs2.
    { apply sentinel_upd_left; unfold upd_left; by rewrite sub_with_sub. }
    assert (shape tg getter h2 m) as Sm2 by frame.
    destruct (reconnect_end_spec tr h2 e m Hlast Hs2 Sm2 Dt' ltac:(set_solver))
      as (h3 & Hrun3 & V3 & Hl3).
    rewrite (bind_ok Hrun3).
    exists h3. split; [done|]. split; [done|]. links.
  - destruct (remove_at_inner tr t h x (root_of t) fuel St Dt Hx Hroot)
      as (h1 & Hrun & S1 & Hl1 & Hp1).
    { intros y Hy. rewrite Hlast. intros [= ->]. done. }
    { lia. }
    rewrite (bind_ok Hrun).
    assert (h1 !! e = Some ce) as Hce1 by frame_lookup.
    rewrite ?Hlast. cbn [deref]. rewrite ?bind_ret.
    rewrite ?Hlast. cbn [deref]. rewrite ?bind_ret.
  rewrite (run_put_left tg Hce1).
    set (h2 := <[e := _]> h1).
    assert (links_only tg {[e]} h1 h2) as Hl2.
    { apply links_upd_left; [done|set_solver]. }
    assert (sentinel tg h2 e (remove_t t x)) as Hs2.
    { subst h2. rewrite <- (remove_t_root t x Hroot). by apply sentinel_upd_left. }
    assert (shape tg getter h2 (remove_t t x)) as Sm2 by frame.
    destruct (reconnect_end_spec tr h2 e _ Hlast Hs2 Sm2 Dt' ltac:(set_solver))
      as (h3 & Hrun3 & V3 & Hl3).
    rewrite (bind_ok Hrun3).
    exists h3. split; [done|]. split; [done|]. links.
Qed.

Lemma insert_spec (tr : treap K) t h e p cp k pr fuel :
  view_shape tg getter h e t → last tr = Some e →
  p ∉ tset t → p ≠ e →
  h !! p = Some cp → getter cp = Some k → priority (sub tg cp) = pr →
  left (sub tg cp) = None → right (sub tg cp) = None →
  (height t + 1 < fuel)%nat →
  ∃ h', insert tg getter fuel tr p h = Ok tt h' ∧
        view_shape tg getter h' e (insert_t (cmp tr) t p k pr) ∧
        links_only tg ({[e; p]} ∪ tset t) h h'.
Proof.
  intros (Hs & St & Hpar & Dt & He) Hlast Hp Hpe Hcp Hk Hpr Hcl Hcr Hf.
  pose proof Hs as (ce & Hce & Hel & Her & Hep).
  unfold insert. rewrite (run_root tr Hlast Hce), Hel.
  destruct (insert_at_spec tg getter getter_keys tr t fuel h p cp k pr
              St Dt Hp Hcp Hk Hpr Hcl Hcr Hf) as (h1 & Hrun & S1 & Hl1).
  pose proof (insert_t_tset (cmp tr) t p k pr) as Hts.
  pose proof (insert_t_distinct (cmp tr) t p k pr Dt Hp) as Dt'.
  set (t' := insert_t (cmp tr) t p k pr) in *.
  rewrite (bind_ok Hrun).
  assert (h1 !! e = Some ce) as Hce1 by frame_lookup.
  rewrite ?Hlast. cbn [deref]. rewrite ?bind_ret.
  rewrite (run_put_left tg Hce1).
  set (h2 := <[e := _]> h1).
  assert (links_only tg {[e]} h1 h2) as Hl2.
  { apply links_upd_left; [done|set_solver]. }
  assert (sentinel tg h2 e t') as Hs2 by (by apply sentinel_upd_left).
  assert (shape tg getter h2 t') as Sm2 by frame.
  destruct (reconnect_end_spec tr h2 e t' Hlast Hs2 Sm2 Dt' ltac:(set_solver))
    as (h3 & Hrun3 & V3 & Hl3).
  exists h3. split; [done|]. split; [done|]. links.
Qed.
End RemoveSpec.

Section ReadFacts.
Context {L R K : Type}.
Variable tg : tag.
Variable getter : cell L R → option K.

Local Abbreviation heap := (heap L R).
Implicit Types (h : heap) (c : cell L R) (p q x : ptr) (t l r : tree K).

Lemma first_spec (tr : treap K) t h e fuel :
  view_shape tg getter h e t → last tr = Some e →
  (height t + 1 ≤ fuel)%nat →
  first tg fuel tr h = Ok (Some (head_ptr (inorder t) e)) h.
Proof.
  intros (Hs & St & Hpar & Dt & He) Hlast Hf.
  destruct Hs as (ce & Hce & Hel & Her & Hep).
  unfold first. rewrite ?Hlast. cbn [deref]. rewrite ?bind_ret.
  destruct fuel as [|fuel]; [lia|]. cbn [descend_left].
  rewrite bind_assoc, (run_get_left tg Hce), Hel.
  destruct t as [|l q k pr r]; [done|]. cbn [root_of].
  erewrite bind_ok;
    [|apply (descend_left_spec tg getter _ _ _ _ St eq_refl); lia].
  unfold ret. simpl. by destruct (inorder l).
Qed.

Lemma find_from_spec (tr : treap K) t : ∀ h fuel key,
  shape tg getter h t → (height t < fuel)%nat →
  find_from tg getter fuel tr key (root_of t) h
    = Ok (match find_t (cmp tr) t key with
          | Some p => Some p
          | None => last tr
          end) h.
Proof.
  induction t as [|l IHl q k pr r IHr]; intros h fuel key St Hf.
  - destruct fuel; [lia|]. done.
  - destruct fuel as [|fuel]; [lia|]. simpl in St, Hf.
    destruct St as ((c & Hc & Hk & Hpr & Hcl & Hcr) & Hpl & Hpr' & Sl & Sr).
    cbn [find_from root_of find_t]. rewrite (run_key_of getter Hc Hk).
    unfold less. destruct (cmp tr k key).
    + rewrite (run_get_right tg Hc), Hcr. apply IHr; [done|lia].
    + destruct (cmp tr key k); [|done].
      rewrite (run_get_left tg Hc), Hcl. apply IHl; [done|lia].
Qed.

Lemma find_spec (tr : treap K) t h e fuel key :
  view_shape tg getter h e t → last tr = Some e →
  (height t < fuel)%nat →
  find tg getter fuel tr key h
    = Ok (Some (default e (find_t (cmp tr) t key))) h.
Proof.
  intros (Hs & St & Hpar & Dt & He) Hlast Hf.
  destruct Hs as (ce & Hce & Hel & Her & Hep).
  unfold find. rewrite (run_root tg tr Hlast Hce), Hel.
  rewrite (find_from_spec tr t h fuel key St Hf), Hlast.
  by destruct (find_t (cmp tr) t key).
Qed.





Lemma next_view_spec t h e x fuel :
  view_shape tg getter h e t → x ∈ tset t → (height t + 1 ≤ fuel)%nat →
  next tg fuel x h = Ok (Some (successor (inorder t) x e)) h.
Proof.
  intros (Hs & St & Hpar & Dt & He) Hx Hf.
  destruct Hs as (ce & Hce & Hel & Her & Hep).
  eapply (next_spec tg getter t h (Some e) e 1%nat); try done; [|lia].
  intros p [|f] Hp Hf'; [lia|]. cbn [next_climb].
  rewrite (run_get_right tg Hce), Her. by rewrite decide_False.
Qed.
End ReadFacts.

Set Default Proof Using "Type".

Section HeapOrderFacts.
Context {K : Type}.
Implicit Types t l r : tree K.

Lemma root_prio_le_trans t m m' : root_prio_le t m → m ≤ m' → root_prio_le t m'.
Proof. destruct t; simpl; [done|lia]. Qed.

Lemma merge_t_root_prio t1 t2 m :
  root_prio_le t1 m → root_prio_le t2 m → root_prio_le (merge_t t1 t2) m.
Proof.
  destruct t1 as [|l1 p1 k1 pr1 r1]; [done|].
  destruct t2 as [|l2 p2 k2 pr2 r2]; [done|].
  simpl. by destruct (pr2 <? pr1).
Qed.

Lemma merge_t_heap t1 t2 :
  heap_ordered t1 → heap_ordered t2 → heap_ordered (merge_t t1 t2).
Proof.
  revert t2. induction t1 as [|l1 IHl1 p1 k1 pr1 r1 IHr1]; intros t2; [done|].
  induction t2 as [|l2 IHl2 p2 k2 pr2 r2 IHr2]; [done|].
  intros H1 H2. pose proof H1 as (?&?&?&?). pose proof H2 as (?&?&?&?).
  simpl. destruct (pr2 <? pr1) eqn:E.
  - simpl. split_and!; try done.
    + apply merge_t_root_prio; [done|]. simpl. lia.
    + by apply IHr1.
  - simpl. split_and!; try done.
    + apply (merge_t_root_prio (Node l1 p1 k1 pr1 r1)); [simpl; lia|done].
    + by apply IHl2.
Qed.

Lemma remove_t_heap t x : heap_ordered t → heap_ordered (remove_t t x).
Proof.
  induction t as [|l IHl q k pr r IHr]; [done|].
  intros (Hl & Hr & Hol & Hor). simpl. destruct (decide (q = x)).
  - by apply merge_t_heap.
  - simpl. split_and!; [| |by apply IHl|by apply IHr].
    + destruct l as [|ll lq lk lpr lr]; [done|]. simpl.
      destruct (decide (lq = x)); [|done].
      destruct Hol as (?&?&?&?). apply merge_t_root_prio.
      * eapply root_prio_le_trans; [done|]. simpl in Hl. lia.
      * eapply root_prio_le_trans; [done|]. simpl in Hl. lia.
    + destruct r as [|rl rq rk rpr rr]; [done|]. simpl.
      destruct (decide (rq = x)); [|done].
      destruct Hor as (?&?&?&?). apply merge_t_root_prio.
      * eapply root_prio_le_trans; [done|]. simpl in Hr. lia.
      * eapply root_prio_le_trans; [done|]. simpl in Hr. lia.
Qed.

Variable lt : K → K → bool.

Lemma split_t_heap t key m :
  heap_ordered t → root_prio_le t m →
  heap_ordered (split_t lt t key).1 ∧ root_prio_le (split_t lt t key).1 m ∧
  heap_ordered (split_t lt t key).2 ∧ root_prio_le (split_t lt t key).2 m.
Proof.
  revert m. induction t as [|l IHl q k pr r IHr]; intros m; [done|].
  intros (Hl & Hr & Hol & Hor) Hm. simpl in Hm. simpl.
  destruct (lt k key); simpl.
  - destruct (IHr pr Hor Hr) as (?&?&?&?). split_and!; try done.
    eapply root_prio_le_trans; done.
  - destruct (IHl pr Hol Hl) as (?&?&?&?). split_and!; try done.
    eapply root_prio_le_trans; done.
Qed.

Lemma insert_t_root_prio t p k pr m :
  root_prio_le t m → pr ≤ m → root_prio_le (insert_t lt t p k pr) m.
Proof.
  destruct t as [|l q kq prq r]; [done|]. simpl. intros ? ?.
  destruct (prq <? pr); [done|]. by destruct (lt k kq).
Qed.

Lemma insert_t_heap t p k pr :
  heap_ordered t → heap_ordered (insert_t lt t p k pr).
Proof.
  induction t as [|l IHl q kq prq r IHr]; [done|].
  intros Ht. pose proof Ht as (Hl & Hr & Hol & Hor). cbn [insert_t].
  destruct (prq <? pr) eqn:E.
  - destruct (split_t_heap (Node l q kq prq r) k prq Ht) as (?&?&?&?);
      [simpl; lia|].
    simpl. split_and!; try done.
    + eapply root_prio_le_trans; [done|lia].
    + eapply root_prio_le_trans; [done|lia].
  - destruct (lt k kq); simpl; split_and!; try done.
    + apply insert_t_root_prio; [done|lia].
    + by apply IHl.
    + apply insert_t_root_prio; [done|lia].
    + by apply IHr.
Qed.
End HeapOrderFacts.

Section OrderFacts.
Context {K : Type}.
Variable lt : K → K → bool.
Hypothesis swo : strict_weak_order lt.
Set Default Proof Using "Type*".
Implicit Types (t l r : tree K) (a b : ptr * K).

Lemma lt_asym x y : lt x y = true → lt y x = false.
Proof.
  intros Hxy. destruct (lt y x) eqn:Hyx; [|done].
  pose proof (swo_trans lt swo _ _ _ Hxy Hyx) as H.
  by rewrite (swo_irrefl lt swo) in H.
Qed.

Lemma lt_of_not_equiv x y :
  ¬ equiv_key lt x y → lt x y = false → lt y x = true.
Proof.
  intros Hne Hxy. destruct (lt y x) eqn:Hyx; [done|].
  destruct Hne. by split.
Qed.

Lemma equiv_key_sym x y : equiv_key lt x y → equiv_key lt y x.
Proof using Type. intros [? ?]. by split. Qed.

Lemma equiv_key_refl x : equiv_key lt x x.
Proof. split; apply (swo_irrefl lt swo). Qed.

Lemma lt_equiv_l x y z : equiv_key lt x y → lt x z = true → lt y z = true.
Proof.
  intros Hxy Hxz. destruct (lt y z) eqn:Hyz; [done|].
  destruct (lt z y) eqn:Hzy.
  - pose proof (swo_trans lt swo _ _ _ Hxz Hzy) as H.
    destruct Hxy. congruence.
  - assert (equiv_key lt x z) as [? ?].
    { eapply (swo_incomp lt swo); [done|]. by split. }
    congruence.
Qed.

Lemma lt_equiv_r x y z : equiv_key lt x y → lt z x = true → lt z y = true.
Proof.
  intros Hxy Hzx. destruct (lt z y) eqn:Hzy; [done|].
  destruct (lt y z) eqn:Hyz.
  - pose proof (swo_trans lt swo _ _ _ Hyz Hzx) as H.
    destruct Hxy. congruence.
  - assert (equiv_key lt z x) as [? ?].
    { eapply (swo_incomp lt swo); [|by apply equiv_key_sym]. by split. }
    congruence.
Qed.

Lemma sorted_node (l r : list (ptr * K)) a :
  sorted_keys lt (l ++ a :: r) ↔
  sorted_keys lt l ∧ sorted_keys lt r ∧
  (∀ x, x ∈ l → lt x.2 a.2 = true) ∧ (∀ y, y ∈ r → lt a.2 y.2 = true).
Proof.
  unfold sorted_keys. rewrite StronglySorted_app, StronglySorted_cons, Forall_forall.
  split.
  - intros (H1 & H2 & H3 & H4). split_and!; try done.
    intros x Hx. apply H1; [done|]. by left.
  - intros (H1 & H2 & H3 & H4). split_and!; try done.
    intros x y Hx [->|Hy]%elem_of_cons; [by apply H3|].
    eapply (swo_trans lt swo); [by apply H3|by apply H4].
Qed.

Lemma bst_sorted t : bst lt t ↔ sorted_keys lt (inorder t).
Proof.
  induction t as [|l IHl q k pr r IHr]; simpl.
  - split; [constructor|done].
  - rewrite sorted_node, IHl, IHr. simpl. naive_solver.
Qed.

Lemma sorted_filter (P : ptr * K → Prop) `{!∀ x, Decision (P x)} (l : list (ptr * K)) :
  sorted_keys lt l → sorted_keys lt (filter P l).
Proof using Type.
  unfold sorted_keys. induction l as [|a l IH]; [done|].
  rewrite StronglySorted_cons, Forall_forall. intros [Ha Hl].
  rewrite filter_cons. destruct (decide (P a)); [|by apply IH].
  apply StronglySorted_cons. split; [|by apply IH].
  apply Forall_forall. intros x [? ?]%list_elem_of_filter. by apply Ha.
Qed.

Lemma remove_t_sorted t x :
  distinct t → sorted_keys lt (inorder t) →
  sorted_keys lt (inorder (remove_t t x)).
Proof using Type.
  intros Hd Hs. rewrite remove_t_inorder by done. by apply sorted_filter.
Qed.

Lemma split_t_keys t key :
  sorted_keys lt (inorder t) →
  (∀ e, e ∈ inorder (split_t lt t key).1 → lt e.2 key = true) ∧
  (∀ e, e ∈ inorder (split_t lt t key).2 → lt e.2 key = false).
Proof.
  induction t as [|l IHl q k pr r IHr]; simpl.
  - intros _. split; intros e He; by apply elem_of_nil in He.
  - rewrite sorted_node. intros (Hsl & Hsr & Hl & Hr). simpl in *.
    destruct (lt k key) eqn:E; simpl.
    + destruct (IHr Hsr) as [H1 H2]. split; [|done].
      intros e [He|[->|He]%elem_of_cons]%elem_of_app; [|done|by apply H1].
      eapply (swo_trans lt swo); [by apply Hl|done].
    + destruct (IHl Hsl) as [H1 H2]. split; [done|].
      intros e [He|[->|He]%elem_of_cons]%elem_of_app; [by apply H2|done|].
      destruct (lt e.2 key) eqn:E'; [|done].
      pose proof (swo_trans lt swo _ _ _ (Hr e He) E'). congruence.
Qed.

Lemma insert_t_inorder t p k pr :
  sorted_keys lt (inorder t) →
  (∀ e, e ∈ inorder t → ¬ equiv_key lt k e.2) →
  ∃ l1 l2 : list (ptr * K), inorder t = l1 ++ l2 ∧
           inorder (insert_t lt t p k pr) = l1 ++ (p, k) :: l2 ∧
           (∀ e, e ∈ l1 → lt e.2 k = true) ∧
           (∀ e, e ∈ l2 → lt k e.2 = true).
Proof.
  induction t as [|l IHl q kq prq r IHr].
  - intros _ _. exists [], []. split_and!; try done;
      intros e He; by apply elem_of_nil in He.
  - intros Hs Hne. pose proof Hs as Hs'. cbn [inorder] in Hs'.
    apply sorted_node in Hs' as (Hsl & Hsr & Hl & Hr). simpl in Hl, Hr.
    cbn [insert_t]. destruct (prq <? pr).
    + destruct (split_t_keys (Node l q kq prq r) k Hs) as [H1 H2].
      exists (inorder (split_t lt (Node l q kq prq r) k).1),
             (inorder (split_t lt (Node l q kq prq r) k).2).
      split_and!; [by rewrite split_t_inorder|done|done|].
      intros e He. apply lt_of_not_equiv; [|by apply H2].
      intros Heq. apply (Hne e); [|by apply equiv_key_sym].
      rewrite <- (split_t_inorder lt (Node l q kq prq r) k).
      apply elem_of_app. by right.
    + destruct (lt k kq) eqn:E.
      * destruct IHl as (l1 & l2 & E1 & E2 & H1 & H2); [done|..].
        { intros e He. apply Hne. simpl. set_solver. }
        exists l1, (l2 ++ (q, kq) :: inorder r). simpl.
        rewrite E1, E2. split_and!.
        -- by rewrite <- app_assoc.
        -- by rewrite <- app_assoc.
        -- done.
        -- intros e [He|[->|He]%elem_of_cons]%elem_of_app; [by apply H2|done|].
           eapply (swo_trans lt swo); [done|by apply Hr].
      * destruct IHr as (l1 & l2 & E1 & E2 & H1 & H2); [done|..].
        { intros e He. apply Hne. simpl. set_solver. }
        assert (lt kq k = true) as Hqk.
        { apply lt_of_not_equiv; [|done]. apply (Hne (q, kq)). simpl. set_solver. }
        exists (inorder l ++ (q, kq) :: l1), l2. simpl.
        rewrite E1, E2. split_and!.
        -- by rewrite <- app_assoc.
        -- by rewrite <- app_assoc.
        -- intros e [He|[->|He]%elem_of_cons]%elem_of_app; [|done|by apply H1].
           eapply (swo_trans lt swo); [by apply Hl|done].
        -- done.
Qed.

Lemma insert_t_sorted t p k pr :
  sorted_keys lt (inorder t) →
  (∀ e, e ∈ inorder t → ¬ equiv_key lt k e.2) →
  sorted_keys lt (inorder (insert_t lt t p k pr)).
Proof.
  intros Hs Hne.
  destruct (insert_t_inorder t p k pr Hs Hne) as (l1 & l2 & E1 & E2 & H1 & H2).
  rewrite E2. apply sorted_node. rewrite E1 in Hs.
  unfold sorted_keys in *. apply StronglySorted_app in Hs as (?&?&?).
  split_and!; done.
Qed.

Lemma find_t_in t key p :
  find_t lt t key = Some p →
  ∃ k, (p, k) ∈ inorder t ∧ equiv_key lt k key.
Proof using Type.
  clear swo.
  induction t as [|l IHl q k pr r IHr]; simpl; [done|].
  destruct (lt k key) eqn:E1.
  - intros (k' & ? & ?)%IHr. exists k'. split; [|done]. set_solver.
  - destruct (lt key k) eqn:E2.
    + intros (k' & ? & ?)%IHl. exists k'. split; [|done]. set_solver.
    + intros [= ->]. exists k. split; [|by split]. set_solver.
Qed.

Lemma find_t_complete t key p k :
  sorted_keys lt (inorder t) → (p, k) ∈ inorder t → equiv_key lt k key →
  find_t lt t key = Some p.
Proof.
  induction t as [|l IHl q kq pr r IHr]; simpl; [by intros _ ?%elem_of_nil|].
  rewrite sorted_node. intros (Hsl & Hsr & Hl & Hr) Hin Heq. simpl in *.
  apply elem_of_app in Hin as [Hin|[[= -> ->]|Hin]%elem_of_cons].
  - pose proof (Hl _ Hin) as Hlt. simpl in Hlt.
    pose proof (lt_equiv_l _ _ _ Heq Hlt) as Hkey.
    rewrite (lt_asym _ _ Hkey), Hkey. by apply IHl.
  - destruct Heq as [-> ->]. done.
  - pose proof (Hr _ Hin) as Hlt. simpl in Hlt.
    pose proof (lt_equiv_r _ _ _ Heq Hlt) as Hkey.
    rewrite Hkey. by apply IHr.
Qed.

Lemma find_t_none t key :
  sorted_keys lt (inorder t) →
  find_t lt t key = None ↔ ∀ e, e ∈ inorder t → ¬ equiv_key lt e.2 key.
Proof.
  intros Hs. split.
  - intros Hn [p k] Hin Heq. by rewrite (find_t_complete t key p k) in Hn.
  - intros Hall. destruct (find_t lt t key) as [p|] eqn:E; [|done].
    apply find_t_in in E as (k & Hin & Heq). by destruct (Hall _ Hin).
Qed.




End OrderFacts.

Set Default Proof Using "Type".

Section Plumbing.
Context {L R : Type}.
Local Abbreviation world := (@world L R).
Local Abbreviation bimap := (@bimap L R).
Implicit Types (w : world) (b : bimap).

Lemma with_mem_id w : with_mem (mem w) w = w.
Proof. by destruct w. Qed.

Lemma lift_ok {A} {m : M (heap L R) A} {w a h'} :
  m (mem w) = Ok a h' → lift m w = Ok a (with_mem h' w).
Proof. intros H. unfold lift. by rewrite H. Qed.

Lemma lift_ro {A} {m : M (heap L R) A} {w a} :
  m (mem w) = Ok a (mem w) → lift m w = Ok a w.
Proof. intros H. rewrite (lift_ok H). by rewrite with_mem_id. Qed.

Lemma in_world_ok {A} {m : M world A} {w b a w'} :
  m w = Ok a w' → in_world m (w, b) = Ok a (w', b).
Proof. intros H. unfold in_world. simpl. by rewrite H. Qed.

Lemma in_world_throw {A} {m : M world A} {w b e w'} :
  m w = Throw e w' → in_world m (w, b) = Throw e (w', b).
Proof. intros H. unfold in_world. simpl. by rewrite H. Qed.

Lemma const_call_eq {A} (f : bimap → M world A) w b :
  const_call f (w, b) = in_world (f b) (w, b).
Proof. reflexivity. Qed.

Lemma const_call_ok {A} {f : bimap → M world A} {w b a w'} :
  f b w = Ok a w' → const_call f (w, b) = Ok a (w', b).
Proof. intros H. rewrite const_call_eq. by apply in_world_ok. Qed.

Lemma key_left_keys (c c' : cell L R) : keys c = keys c' → key_left c = key_left c'.
Proof. unfold key_left. by intros ->. Qed.

Lemma key_right_keys (c c' : cell L R) : keys c = keys c' → key_right c = key_right c'.
Proof. unfold key_right. by intros ->. Qed.
End Plumbing.

Section ShapeLookup.
Context {L R K : Type}.
Variable tg : tag.
Variable getter : cell L R → option K.

Lemma shape_lookup (h : heap L R) (t : tree K) p k :
  shape tg getter h t → (p, k) ∈ inorder t →
  ∃ c, h !! p = Some c ∧ getter c = Some k.
Proof.
  induction t as [|l IHl q kq pr r IHr]; simpl; [by intros _ ?%elem_of_nil|].
  intros ((c & Hc & Hk & _) & _ & _ & Sl & Sr).
  intros [?|[[= -> ->]|?]%elem_of_cons]%elem_of_app; eauto.
Qed.

Lemma successor_split (pre post : list (ptr * K)) a e :
  NoDup (pre ++ a :: post).*1 →
  successor (pre ++ a :: post) a.1 e = head_ptr post e.
Proof.
  intros Hnd. rewrite successor_app_r.
  - simpl. rewrite decide_True by done. by destruct post.
  - rewrite fmap_app in Hnd. apply NoDup_app in Hnd as (_ & Hd & _).
    intros Hin. apply (Hd _ Hin). rewrite fmap_cons. set_solver.
Qed.

Lemma count_size (t : tree K) : distinct t → size (tset t) = count t.
Proof.
  induction t as [|l IHl q k pr r IHr]; simpl; [done|].
  intros (Hl & Hr & Hlr & Dl & Dr).
  rewrite !size_union by set_solver. rewrite size_singleton, IHl, IHr by done.
  lia.
Qed.
End ShapeLookup.

Lemma bounded_size (X : gset positive) (n : positive) :
  (∀ p, p ∈ X → (p < n)%positive) → Z.of_nat (size X) < Z.pos n.
Proof.
  intros HX.
  assert (length (Pos.to_nat <$> elements X) ≤ length (seq 1 (Pos.to_nat n - 1)))%nat as Hlen.
  { apply submseteq_length, NoDup_submseteq.
    - apply (NoDup_fmap_2 _), NoDup_elements.
    - intros x (p & -> & Hp%elem_of_elements)%list_elem_of_fmap.
      apply elem_of_seq. specialize (HX p Hp). lia. }
  rewrite length_fmap, length_seq in Hlen.
  unfold size, set_size. simpl. lia.
Qed.

Set Default Proof Using "Type".

Section Queries.
Context {L R : Type}.
Local Abbreviation world := (@world L R).
Local Abbreviation bimap := (@bimap L R).
Implicit Types (w : world) (b : bimap) (tl : tree L) (tr : tree R).

Lemma inv_count w b tl tr : inv w b tl tr → count tl = count tr.
Proof.
  intros I. destruct (inv_left _ _ _ _ I) as ((_ & _ & _ & Dl & _) & _).
  destruct (inv_right _ _ _ _ I) as ((_ & _ & _ & Dr & _) & _).
  rewrite <- (count_size tl), <- (count_size tr) by done.
  by rewrite (inv_same _ _ _ _ I).
Qed.

Lemma end_left_eq w b tl tr :
  inv w b tl tr → end_left b = Iterator (Some (end_node b)).
Proof. intros I. unfold end_left, last. by rewrite (inv_end_left _ _ _ _ I). Qed.

Lemma end_right_eq w b tl tr :
  inv w b tl tr → end_right b = Iterator (Some (end_node b)).
Proof. intros I. unfold end_right, last. by rewrite (inv_end_right _ _ _ _ I). Qed.

Lemma find_left_spec w b tl tr fuel l :
  inv w b tl tr → (count tl + 2 ≤ fuel)%nat →
  find_left fuel b l w
  = Ok (Iterator (Some (default (end_node b)
                          (find_t (cmp (treap_left b)) tl l)))) w.
Proof.
  intros I Hf. unfold find_left. apply lift_ro.
  pose proof (height_le_count tl).
  erewrite bind_ok; [done|].
  eapply find_spec; [apply I|apply I|lia].
Qed.

Lemma find_right_spec w b tl tr fuel r :
  inv w b tl tr → (count tl + 2 ≤ fuel)%nat →
  find_right fuel b r w
  = Ok (Iterator (Some (default (end_node b)
                          (find_t (cmp (treap_right b)) tr r)))) w.
Proof.
  intros I Hf. unfold find_right. apply lift_ro.
  pose proof (height_le_count tr). pose proof (inv_count _ _ _ _ I).
  erewrite bind_ok; [done|].
  eapply find_spec; [apply I|apply I|lia].
Qed.





Lemma begin_left_spec w b tl tr fuel :
  inv w b tl tr → (count tl + 2 ≤ fuel)%nat →
  begin_left fuel b w
  = Ok (Iterator (Some (head_ptr (inorder tl) (end_node b)))) w.
Proof.
  intros I Hf. unfold begin_left. apply lift_ro.
  pose proof (height_le_count tl).
  erewrite bind_ok; [done|].
  eapply first_spec; [apply I|apply I|lia].
Qed.

Lemma begin_right_spec w b tl tr fuel :
  inv w b tl tr → (count tl + 2 ≤ fuel)%nat →
  begin_right fuel b w
  = Ok (Iterator (Some (head_ptr (inorder tr) (end_node b)))) w.
Proof.
  intros I Hf. unfold begin_right. apply lift_ro.
  pose proof (height_le_count tr). pose proof (inv_count _ _ _ _ I).
  erewrite bind_ok; [done|].
  eapply first_spec; [apply I|apply I|lia].
Qed.

(** Every record of the left view is a record of the right view. *)
Lemma inv_partner_right w b tl tr p l :
  inv w b tl tr → (p, l) ∈ inorder tl → ∃ r, (p, r) ∈ inorder tr.
Proof.
  intros I Hin. apply tset_inorder. rewrite <- (inv_same _ _ _ _ I).
  apply tset_inorder. eauto.
Qed.

Lemma inv_partner_left w b tl tr p r :
  inv w b tl tr → (p, r) ∈ inorder tr → ∃ l, (p, l) ∈ inorder tl.
Proof.
  intros I Hin. apply tset_inorder. rewrite (inv_same _ _ _ _ I).
  apply tset_inorder. eauto.
Qed.

Lemma inv_pair_at w b tl tr p l r :
  inv w b tl tr → (p, l) ∈ inorder tl → (p, r) ∈ inorder tr →
  pair_at (mem w) p = Some (l, r).
Proof.
  intros I Hl Hr.
  destruct (inv_left _ _ _ _ I) as ((_ & Sl & _) & _).
  destruct (inv_right _ _ _ _ I) as ((_ & Sr & _) & _).
  destruct (shape_lookup _ _ _ _ _ _ Sl Hl) as (c & Hc & Hkl).
  destruct (shape_lookup _ _ _ _ _ _ Sr Hr) as (c' & Hc' & Hkr).
  simplify_eq. unfold pair_at. rewrite Hc. simpl.
  unfold key_left, key_right in *. destruct (keys c) as [[??]|]; by simplify_eq/=.
Qed.

Lemma star_left_spec w b tl tr p l :
  inv w b tl tr → (p, l) ∈ inorder tl →
  star_left (Iterator (Some p)) w = Ok l w.
Proof.
  intros I Hl. destruct (inv_left _ _ _ _ I) as ((_ & Sl & _) & _).
  destruct (shape_lookup _ _ _ _ _ _ Sl Hl) as (c & Hc & Hkl).
  unfold star_left. apply lift_ro. simpl. rewrite bind_ret.
  unfold key_of. rewrite (run_load Hc). unfold key_getter_left. by rewrite Hkl.
Qed.

Lemma star_right_spec w b tl tr p r :
  inv w b tl tr → (p, r) ∈ inorder tr →
  star_right (Iterator (Some p)) w = Ok r w.
Proof.
  intros I Hr. destruct (inv_right _ _ _ _ I) as ((_ & Sr & _) & _).
  destruct (shape_lookup _ _ _ _ _ _ Sr Hr) as (c & Hc & Hkr).
  unfold star_right. apply lift_ro. simpl. rewrite bind_ret.
  unfold key_of. rewrite (run_load Hc). unfold key_getter_right. by rewrite Hkr.
Qed.

Lemma incr_left_spec w b tl tr fuel p :
  inv w b tl tr → p ∈ tset tl → (count tl + 2 ≤ fuel)%nat →
  incr fuel (Iterator (tg:=tag_left) (Some p)) w
  = Ok (Iterator (Some (successor (inorder tl) p (end_node b)))) w.
Proof.
  intros I Hp Hf. unfold incr. apply lift_ro. simpl. rewrite bind_ret.
  pose proof (height_le_count tl).
  erewrite bind_ok; [done|].
  eapply next_view_spec; [apply I|done|lia].
Qed.

Lemma incr_right_spec w b tl tr fuel p :
  inv w b tl tr → p ∈ tset tr → (count tl + 2 ≤ fuel)%nat →
  incr fuel (Iterator (tg:=tag_right) (Some p)) w
  = Ok (Iterator (Some (successor (inorder tr) p (end_node b)))) w.
Proof.
  intros I Hp Hf. unfold incr. apply lift_ro. simpl. rewrite bind_ret.
  pose proof (height_le_count tr). pose proof (inv_count _ _ _ _ I).
  erewrite bind_ok; [done|].
  eapply next_view_spec; [apply I|done|lia].
Qed.

Lemma contains_left_spec w b tl tr fuel l :
  inv w b tl tr → (count tl + 2 ≤ fuel)%nat →
  contains_left fuel b l w
  = Ok (bool_decide (is_Some (find_t (cmp (treap_left b)) tl l))) w.
Proof.
  intros I Hf. unfold contains_left.
  rewrite (bind_ok (find_left_spec _ _ _ _ _ l I Hf)).
  rewrite (end_left_eq _ _ _ _ I). unfold ret. f_equal.
  unfold iter_ne, iter_eq. simpl.
  destruct (find_t _ tl l) as [p|] eqn:E; simpl.
  - rewrite bool_decide_eq_false_2; [done|].
    intros [= ->]. apply find_t_in in E as (k & Hin & _).
    destruct (inv_left _ _ _ _ I) as ((_ & _ & _ & _ & He) & _).
    apply He. apply tset_inorder. eauto.
  - by rewrite bool_decide_eq_true_2.
Qed.

Lemma contains_right_spec w b tl tr fuel r :
  inv w b tl tr → (count tl + 2 ≤ fuel)%nat →
  contains_right fuel b r w
  = Ok (bool_decide (is_Some (find_t (cmp (treap_right b)) tr r))) w.
Proof.
  intros I Hf. unfold contains_right.
  rewrite (bind_ok (find_right_spec _ _ _ _ _ r I Hf)).
  rewrite (end_right_eq _ _ _ _ I). unfold ret. f_equal.
  unfold iter_ne, iter_eq. simpl.
  destruct (find_t _ tr r) as [p|] eqn:E; simpl.
  - rewrite bool_decide_eq_false_2; [done|].
    intros [= ->]. apply find_t_in in E as (k & Hin & _).
    destruct (inv_right _ _ _ _ I) as ((_ & _ & _ & _ & He) & _).
    apply He. apply tset_inorder. eauto.
  - by rewrite bool_decide_eq_true_2.
Qed.
End Queries.

Set Default Proof Using "Type".

Section OtherView.
Context {L R K : Type}.
Variable tg : tag.
Variable getter : cell L R → option K.
Hypothesis getter_keys : ∀ c c', keys c = keys c' → getter c = getter c'.
Set Default Proof Using "Type*".
Implicit Types (h : heap L R) (t : tree K).

Lemma links_only_other_lookup X h h' p c :
  links_only tg X h h' → h !! p = Some c →
  ∃ c', h' !! p = Some c' ∧ keys c' = keys c ∧
        sub (tag_other tg) c' = sub (tag_other tg) c.
Proof using Type.
  intros Hl Hc. specialize (Hl p). rewrite Hc in Hl.
  destruct (h' !! p) as [c'|]; [|done]. destruct Hl as (?&?&?&?). eauto.
Qed.

Lemma parent_is_other X h h' t par :
  links_only tg X h h' →
  parent_is (tag_other tg) h t par → parent_is (tag_other tg) h' t par.
Proof using Type.
  unfold parent_is. intros Hl. destruct (root_of t) as [q|]; [|done].
  intros (c & Hc & Hp).
  destruct (links_only_other_lookup _ _ _ _ _ Hl Hc) as (c' & Hc' & _ & Hs).
  exists c'. by rewrite Hs.
Qed.

Lemma shape_other X h h' t :
  links_only tg X h h' →
  shape (tag_other tg) getter h t → shape (tag_other tg) getter h' t.
Proof.
  intros Hl. induction t as [|l IHl q k pr r IHr]; simpl; [done|].
  intros ((c & Hc & Hk & Hpr & Hcl & Hcr) & Hpl & Hpr' & Sl & Sr).
  destruct (links_only_other_lookup _ _ _ _ _ Hl Hc) as (c' & Hc' & Hkeys & Hs).
  split_and!; [|by eapply parent_is_other..|by apply IHl|by apply IHr].
  exists c'. rewrite Hs. split_and!; try done.
  by rewrite (getter_keys c' c).
Qed.

Lemma sentinel_other X h h' e t :
  links_only tg X h h' →
  sentinel (tag_other tg) h e t → sentinel (tag_other tg) h' e t.
Proof using Type.
  intros Hl (c & Hc & ?).
  destruct (links_only_other_lookup _ _ _ _ _ Hl Hc) as (c' & Hc' & _ & Hs).
  exists c'. by rewrite Hs.
Qed.

Lemma view_shape_other X h h' e t :
  links_only tg X h h' →
  view_shape (tag_other tg) getter h e t →
  view_shape (tag_other tg) getter h' e t.
Proof.
  intros Hl (Hs & St & Hp & Dt & He). split_and!; try done.
  - by eapply sentinel_other.
  - by eapply shape_other.
  - by eapply parent_is_other.
Qed.
End OtherView.

Section ViewFrame.
Context {L R K : Type}.
Variable tg : tag.
Variable getter : cell L R → option K.
Implicit Types (h : heap L R) (t : tree K).

Lemma shape_dom h t : shape tg getter h t → tset t ⊆ dom h.
Proof.
  induction t as [|l IHl q k pr r IHr]; simpl; [set_solver|].
  intros ((c & Hc & _) & _ & _ & Sl & Sr).
  specialize (IHl Sl). specialize (IHr Sr).
  assert (q ∈ dom h) by (apply elem_of_dom; eauto).
  clear Sl Sr Hc. set_solver.
Qed.

Lemma view_shape_dom h e t :
  view_shape tg getter h e t → {[e]} ∪ tset t ⊆ dom h.
Proof.
  intros ((c & Hc & _) & St & _). apply shape_dom in St.
  assert (e ∈ dom h) by (apply elem_of_dom; eauto).
  clear Hc. set_solver.
Qed.

Lemma view_shape_agree h h' e t :
  (∀ p, p ∈ {[e]} ∪ tset t → h' !! p = h !! p) →
  view_shape tg getter h e t → view_shape tg getter h' e t.
Proof.
  intros Hag (Hs & St & Hp & Dt & He). split_and!; try done.
  - destruct Hs as (c & Hc & ?). exists c. split; [|done].
    rewrite Hag; [done|set_solver].
  - eapply shape_agree; [|done]. intros; apply Hag; set_solver.
  - eapply parent_is_agree; [|done]. intros; apply Hag; set_solver.
Qed.
End ViewFrame.

Section InvFrame.
Context {L R : Type}.
Local Abbreviation world := (@world L R).
Local Abbreviation bimap := (@bimap L R).
Implicit Types (w : world) (b : bimap) (tl : tree L) (tr : tree R).

Lemma inv_footprint_dom w b tl tr :
  inv w b tl tr → footprint b tl ⊆ dom (mem w).
Proof. intros I. eapply view_shape_dom. apply I. Qed.

(** An object does not notice what happens outside its records. *)
Lemma inv_frame w w' b tl tr :
  inv w b tl tr →
  (∀ p, p ∈ footprint b tl → mem w' !! p = mem w !! p) →
  inv w' b tl tr.
Proof.
  intros I Hag. destruct I as [E1 E2 [Vl ?] [Vr ?] Hsame Hsz S1 S2 Ha].
  split; try done.
  - split; [|done]. eapply view_shape_agree; [|done]. done.
  - split; [|done]. eapply view_shape_agree; [|done].
    intros p Hp. apply Hag. unfold footprint. by rewrite Hsame.
Qed.
End InvFrame.

Set Default Proof Using "Type".

Section Insert.
Context {L R : Type}.
Local Abbreviation world := (@world L R).
Local Abbreviation bimap := (@bimap L R).
Implicit Types (w : world) (b : bimap) (tl : tree L) (tr : tree R).

Lemma new_node_t_ok w l r n :
  allocs w = S n → (fresh (dom (mem w)) < addr_limit)%positive →
  new_node_t l r w
  = Ok (fresh (dom (mem w)))
       (World (<[fresh (dom (mem w)) := fresh_cell w l r]> (mem w))
              (rand w) (S (S (seed w))) n).
Proof.
  intros Ha Hlt. unfold new_node_t, bind, operator_new. rewrite Ha.
  rewrite decide_True by done. reflexivity.
Qed.

Lemma new_node_t_throw w l r :
  allocs w = O ∨ ¬ (fresh (dom (mem w)) < addr_limit)%positive →
  new_node_t l r w = Throw bad_alloc w.
Proof.
  intros Ha. unfold new_node_t, bind, operator_new.
  destruct (allocs w); [done|]. destruct Ha as [?|?]; [done|].
  by rewrite decide_False.
Qed.

Lemma insert_reject w b tl tr fuel l r :
  inv w b tl tr → (count tl + 2 ≤ fuel)%nat →
  is_Some (find_t (cmp (treap_left b)) tl l) ∨
  is_Some (find_t (cmp (treap_right b)) tr r) →
  insert_impl fuel l r (w, b) = Ok (end_left b) (w, b).
Proof.
  intros I Hf Hex. unfold insert_impl.
  rewrite (bind_ok (const_call_ok (contains_left_spec _ _ _ _ _ l I Hf))).
  case_bool_decide as Hl; [done|].
  rewrite (bind_ok (const_call_ok (contains_right_spec _ _ _ _ _ r I Hf))).
  case_bool_decide as Hr; [done|]. by destruct Hex.
Qed.

Lemma insert_throw w b tl tr fuel l r :
  inv w b tl tr → (count tl + 2 ≤ fuel)%nat →
  find_t (cmp (treap_left b)) tl l = None →
  find_t (cmp (treap_right b)) tr r = None →
  allocs w = O ∨ ¬ (fresh (dom (mem w)) < addr_limit)%positive →
  insert_impl fuel l r (w, b) = Throw bad_alloc (w, b).
Proof.
  intros I Hf Hl Hr Ha. unfold insert_impl.
  rewrite (bind_ok (const_call_ok (contains_left_spec _ _ _ _ _ l I Hf))).
  rewrite Hl. rewrite bool_decide_eq_false_2 by (by intros [? ?]).
  rewrite (bind_ok (const_call_ok (contains_right_spec _ _ _ _ _ r I Hf))).
  rewrite Hr. rewrite bool_decide_eq_false_2 by (by intros [? ?]).
  cbn [orb]. erewrite bind_throw; [done|].
  apply in_world_throw. by apply new_node_t_throw.
Qed.

Lemma count_insert_t {K} (lt : K → K → bool) (t : tree K) p k pr :
  count (insert_t lt t p k pr) = S (count t).
Proof.
  induction t as [|l IHl q kq prq r IHr]; simpl; [done|].
  destruct (prq <? pr).
  - pose proof (split_t_inorder lt (Node l q kq prq r) k) as H.
    apply (f_equal length) in H. rewrite length_app, !inorder_length in H.
    simpl in *. lia.
  - destruct (lt k kq); simpl; lia.
Qed.

Lemma size_bound_fresh {K} (e p : ptr) (t : tree K) :
  distinct t → e ∉ tset t → p ∉ tset t → p ≠ e →
  (∀ q, q ∈ {[e]} ∪ tset t → (q < addr_limit)%positive) →
  (p < addr_limit)%positive →
  Z.of_nat (count t) + 2 < SIZE_MOD.
Proof.
  intros Dt He Hp Hpe Hall Hlt.
  assert (∀ q, q ∈ ({[p]} ∪ ({[e]} ∪ tset t) : gset ptr) →
               (q < addr_limit)%positive) as Hall'.
  { intros q [->%elem_of_singleton|Hq]%elem_of_union; [done|]. by apply Hall. }
  pose proof (bounded_size _ _ Hall') as Hb.
  rewrite size_union, size_singleton in Hb by set_solver.
  rewrite size_union, size_singleton in Hb by set_solver.
  rewrite (count_size t Dt) in Hb.
  change (Z.pos addr_limit) with SIZE_MOD in Hb.
  clear -Hb. lia.
Qed.

Lemma insert_success w b tl tr fuel l r n :
  inv w b tl tr → (count tl + 2 ≤ fuel)%nat →
  find_t (cmp (treap_left b)) tl l = None →
  find_t (cmp (treap_right b)) tr r = None →
  allocs w = S n → (fresh (dom (mem w)) < addr_limit)%positive →
  let p := fresh (dom (mem w)) in
  let tl' := insert_t (cmp (treap_left b)) tl p l (rand w (seed w)) in
  let tr' := insert_t (cmp (treap_right b)) tr p r (rand w (S (seed w))) in
  let b' := with_size ((size_ b + 1) mod SIZE_MOD) b in
  ∃ w', insert_impl fuel l r (w, b) = Ok (Iterator (Some p)) (w', b') ∧
        inv w' b' tl' tr' ∧
        size_ b' = size_ b + 1 ∧
        rand w' = rand w ∧ seed w' = S (S (seed w)) ∧ allocs w' = n ∧
        dom (mem w') = {[p]} ∪ dom (mem w) ∧
        (∀ q, q ∉ footprint b tl ∪ {[p]} → mem w' !! q = mem w !! q) ∧
        (∀ q, q ≠ p → pair_at (mem w') q = pair_at (mem w) q) ∧
        pair_at (mem w') p = Some (l, r).
Proof.
  intros I Hf Hl Hr Ha Hlt p tl' tr' b'.
  pose proof I as [E1 E2 [Vl [Sol Hol]] [Vr [Sor Hor]] Hsame Hsz S1 S2 Haddr].
  pose proof (inv_count _ _ _ _ I) as Hcnt.
  pose proof (inv_footprint_dom _ _ _ _ I) as Hdom.
  assert (p ∉ dom (mem w)) as Hp by apply is_fresh.
  assert (mem w !! p = None) as Hpn by (by apply not_elem_of_dom).
  unfold insert_impl.
  rewrite (bind_ok (const_call_ok (contains_left_spec _ _ _ _ _ l I Hf))).
  rewrite Hl. rewrite bool_decide_eq_false_2 by (by intros [? ?]).
  rewrite (bind_ok (const_call_ok (contains_right_spec _ _ _ _ _ r I Hf))).
  rewrite Hr. rewrite bool_decide_eq_false_2 by (by intros [? ?]).
  cbn [orb].
  rewrite (bind_ok (in_world_ok (new_node_t_ok _ l r _ Ha Hlt))).
  fold p. set (c0 := fresh_cell w l r). set (h1 := <[p := c0]> (mem w)).
  set (w1 := World h1 (rand w) (S (S (seed w))) n).
  change (bind get_this ?k (w1, b)) with (k b (w1, b)). cbv beta.
  unfold key_getter_left, key_getter_right.
  (* the views in the heap with the new record *)
  assert (view_shape tag_left key_left h1 (end_node b) tl) as Vl1.
  { eapply view_shape_agree; [|exact Vl]. intros q Hq.
    apply lookup_insert_ne. intros ->. apply Hp, Hdom. done. }
  assert (view_shape tag_right key_right h1 (end_node b) tr) as Vr1.
  { eapply view_shape_agree; [|exact Vr]. intros q Hq.
    apply lookup_insert_ne. intros ->. apply Hp, Hdom.
    unfold footprint. by rewrite Hsame. }
  assert (h1 !! p = Some c0) as Hc0 by apply lookup_insert_eq.
  assert (p ∉ tset tl) as Hptl.
  { intros Hin. apply Hp, Hdom. unfold footprint. set_solver. }
  assert (p ≠ end_node b) as Hpe.
  { intros ->. apply Hp, Hdom. unfold footprint. set_solver. }
  assert (height tl + 1 < fuel)%nat as Hf1.
  { pose proof (height_le_count tl) as Hh. clear -Hf Hh. lia. }
  destruct (insert_spec tag_left key_left key_left_keys (treap_left b) tl h1
              (end_node b) p c0 l (rand w (seed w)) fuel Vl1 E1 Hptl Hpe Hc0
              eq_refl eq_refl eq_refl eq_refl Hf1)
    as (h2 & Hrun2 & Vl2 & Hl2).
  rewrite (bind_ok (in_world_ok (b:=b) (lift_ok (w:=w1) Hrun2))).
  change (with_mem h2 w1) with (World h2 (rand w) (S (S (seed w))) n).
  assert (view_shape tag_right key_right h2 (end_node b) tr) as Vr2.
  { eapply (view_shape_other tag_left key_right key_right_keys); done. }
  destruct (links_only_other_lookup tag_left _ _ _ _ _ Hl2 Hc0)
    as (c2 & Hc2 & Hk2 & Hs2).
  simpl in Hs2.
  assert (p ∉ tset tr) as Hptr by (by rewrite <- Hsame).
  assert (key_right c2 = Some r) as Hkr by (unfold key_right; by rewrite Hk2).
  assert (priority (sub tag_right c2) = rand w (S (seed w))) as Hpr2
    by (simpl; by rewrite Hs2).
  assert (left (sub tag_right c2) = None) as Hl2' by (simpl; by rewrite Hs2).
  assert (right (sub tag_right c2) = None) as Hr2' by (simpl; by rewrite Hs2).
  assert (height tr + 1 < fuel)%nat as Hf2.
  { pose proof (height_le_count tr) as Hh. clear -Hf Hh Hcnt. lia. }
  destruct (insert_spec tag_right key_right key_right_keys (treap_right b) tr h2
              (end_node b) p c2 r (rand w (S (seed w))) fuel Vr2 E2
              Hptr Hpe Hc2 Hkr Hpr2 Hl2' Hr2' Hf2)
    as (h3 & Hrun3 & Vr3 & Hl3).
  rewrite (bind_ok (in_world_ok (b:=b) (lift_ok (w:=World h2 (rand w) (S (S (seed w))) n) Hrun3))).
  change (with_mem h3 _) with (World h3 (rand w) (S (S (seed w))) n).
  assert (view_shape tag_left key_left h3 (end_node b) tl') as Vl3.
  { eapply (view_shape_other tag_right key_left key_left_keys); done. }
  set (w3 := World h3 (rand w) (S (S (seed w))) n).
  (* the size does not wrap *)
  assert (Z.of_nat (count tl) + 2 < SIZE_MOD) as Hbound.
  { apply (size_bound_fresh (end_node b) p tl); try done.
    - apply Vl.
    - apply Vl. }
  assert ((size_ b + 1) mod SIZE_MOD = size_ b + 1) as Hmod.
  { apply Z.mod_small. rewrite Hsz. clear -Hbound. lia. }
  exists w3. split; [done|]. split; [|split_and!].
  - split; try done.
    + split; [done|]. split; [|by apply insert_t_heap].
      apply insert_t_sorted; [done|done|].
      intros e He Heq. apply (proj1 (find_t_none _ S1 tl l Sol) Hl e He).
      by apply equiv_key_sym.
    + split; [done|]. split; [|by apply insert_t_heap].
      apply insert_t_sorted; [done|done|].
      intros e He Heq. apply (proj1 (find_t_none _ S2 tr r Sor) Hr e He).
      by apply equiv_key_sym.
    + unfold tl', tr'. by rewrite !insert_t_tset, Hsame.
    + simpl. rewrite Hmod, Hsz. unfold tl'. rewrite count_insert_t. clear. lia.
    + intros q Hq. unfold tl' in Hq. rewrite insert_t_tset in Hq.
      destruct (decide (q = p)) as [->|Hne]; [done|].
      apply Haddr. set_solver.
  - simpl. done.
  - done.
  - done.
  - done.
  - simpl. rewrite (links_only_dom _ _ _ _ Hl3), (links_only_dom _ _ _ _ Hl2).
    unfold h1. by rewrite dom_insert_L.
  - intros q Hq. simpl.
    rewrite (links_only_agree _ _ _ _ q Hl3), (links_only_agree _ _ _ _ q Hl2).
    + unfold h1. apply lookup_insert_ne. set_solver.
    + unfold footprint in Hq. set_solver.
    + unfold footprint in Hq. rewrite <- Hsame. set_solver.
  - intros q Hq. simpl. unfold pair_at.
    assert (h1 !! q = mem w !! q) as Hq1 by (by apply lookup_insert_ne).
    rewrite <- Hq1. specialize (Hl2 q). specialize (Hl3 q).
    destruct (h1 !! q) as [c1|], (h2 !! q) as [c2'|], (h3 !! q) as [c3|];
      try done; simpl.
    destruct Hl2 as (->&_), Hl3 as (->&_). done.
  - simpl. unfold pair_at.
    specialize (Hl3 p). rewrite Hc2 in Hl3.
    destruct (h3 !! p) as [c3|]; [|done]. destruct Hl3 as (Hk3&_).
    simpl. by rewrite <- Hk3, Hk2.
Qed.
End Insert.

Set Default Proof Using "Type".

Section Erase.
Context {L R : Type}.
Local Abbreviation world := (@world L R).
Local Abbreviation bimap := (@bimap L R).
Implicit Types (w : world) (b : bimap) (tl : tree L) (tr : tree R).

Lemma size_bound {K} (e : ptr) (t : tree K) :
  distinct t → e ∉ tset t →
  (∀ q, q ∈ {[e]} ∪ tset t → (q < addr_limit)%positive) →
  Z.of_nat (count t) + 1 < SIZE_MOD.
Proof.
  intros Dt He Hall.
  pose proof (bounded_size _ _ Hall) as Hb.
  rewrite size_union, size_singleton in Hb by set_solver.
  rewrite (count_size t Dt) in Hb.
  change (Z.pos addr_limit) with SIZE_MOD in Hb.
  clear -Hb. lia.
Qed.

Lemma inv_size_range w b tl tr :
  inv w b tl tr → 0 ≤ size_ b ∧ size_ b + 1 < SIZE_MOD.
Proof.
  intros I. rewrite (inv_size _ _ _ _ I).
  destruct (inv_left _ _ _ _ I) as ((_ & _ & _ & Dl & He) & _).
  pose proof (size_bound (end_node b) tl Dl He (inv_addr _ _ _ _ I)) as Hb.
  clear -Hb. lia.
Qed.

Lemma count_pos {K} (t : tree K) p : p ∈ tset t → (0 < count t)%nat.
Proof. destruct t; simpl; [set_solver|lia]. Qed.

Lemma operator_delete_ok w p c :
  mem w !! p = Some c →
  operator_delete p w = Ok tt (with_mem (delete p (mem w)) w).
Proof. intros H. unfold operator_delete. by rewrite H. Qed.

Lemma erase_impl_spec (tg : tag) w b tl tr fuel p :
  inv w b tl tr → p ∈ tset tl → (count tl + 2 ≤ fuel)%nat →
  let tl' := remove_t tl p in
  let tr' := remove_t tr p in
  let b' := with_size ((size_ b - 1) mod SIZE_MOD) b in
  let res := match tg with
             | tag_left => successor (inorder tl) p (end_node b)
             | tag_right => successor (inorder tr) p (end_node b)
             end in
  ∃ w', erase_impl (tg:=tg) fuel (Iterator (Some p)) (w, b)
          = Ok (Iterator (Some res)) (w', b') ∧
        inv w' b' tl' tr' ∧
        size_ b' = size_ b - 1 ∧
        rand w' = rand w ∧ seed w' = seed w ∧ allocs w' = allocs w ∧
        dom (mem w') = dom (mem w) ∖ {[p]} ∧
        (∀ q, q ∉ footprint b tl → mem w' !! q = mem w !! q) ∧
        (∀ q, q ≠ p → pair_at (mem w') q = pair_at (mem w) q).
Proof.
  intros I Hp Hf tl' tr' b' res.
  pose proof I as [E1 E2 [Vl [Sol Hol]] [Vr [Sor Hor]] Hsame Hsz S1 S2 Haddr].
  pose proof (inv_count _ _ _ _ I) as Hcnt.
  pose proof (inv_size_range _ _ _ _ I) as Hrange.
  pose proof (count_pos tl p Hp) as Hpos.
  assert (p ∈ tset tr) as Hpr by (by rewrite <- Hsame).
  unfold erase_impl.
  change (bind (in_world (lift (deref (node (Iterator (Some p))))))
            ?k (w, b)) with (k p (w, b)). cbv beta.
  change (bind get_this ?k (w, b)) with (k b (w, b)). cbv beta.
  assert (count tr + 1 ≤ fuel)%nat as Hf2 by (clear -Hf Hcnt; lia).
  destruct (remove_spec tag_right key_right key_right_keys (treap_right b) tr
              (mem w) (end_node b) p fuel Vr E2 Hpr Hf2)
    as (h1 & Hrun1 & Vr1 & Hl1).
  rewrite (bind_ok (in_world_ok (b:=b) (lift_ok Hrun1))).
  assert (view_shape tag_left key_left h1 (end_node b) tl) as Vl1.
  { eapply (view_shape_other tag_right key_left key_left_keys); done. }
  assert (count tl + 1 ≤ fuel)%nat as Hf1 by (clear -Hf; lia).
  destruct (remove_spec tag_left key_left key_left_keys (treap_left b) tl
              h1 (end_node b) p fuel Vl1 E1 Hp Hf1)
    as (h2 & Hrun2 & Vl2 & Hl2).
  rewrite (bind_ok (in_world_ok (b:=b) (lift_ok (w:=with_mem h1 w) Hrun2))).
  assert (view_shape tag_right key_right h2 (end_node b) tr') as Vr2.
  { eapply (view_shape_other tag_left key_right key_right_keys); done. }
  change (with_mem h2 (with_mem h1 w)) with (with_mem h2 w).
  assert (is_Some (h2 !! p)) as [c2 Hc2].
  { apply elem_of_dom.
    rewrite (links_only_dom _ _ _ _ Hl2), (links_only_dom _ _ _ _ Hl1).
    apply (view_shape_dom _ _ _ _ _ Vl). set_solver. }
  rewrite (bind_ok (in_world_ok (b:=b)
             (operator_delete_ok (with_mem h2 w) p c2 Hc2))).
  change (bind (set_this ?x) ?k (?w0, b)) with (k tt (w0, x)). cbv beta.
  set (h3 := delete p h2).
  change (with_mem _ (with_mem h2 w)) with (with_mem h3 w).
  pose proof Vl as (_ & _ & _ & Dl & Hel).
  pose proof Vr as (_ & _ & _ & Dr & Her).
  pose proof (remove_t_tset tl p Dl) as Htl.
  pose proof (remove_t_tset tr p Dr) as Htr.
  assert ((size_ b - 1) mod SIZE_MOD = size_ b - 1) as Hmod.
  { apply Z.mod_small. rewrite Hsz in *. clear -Hrange Hpos. lia. }
  exists (with_mem h3 w). split; [by destruct tg|]. split; [|split_and!].
  - split; try done.
    + split; [|split; [by apply remove_t_sorted|by apply remove_t_heap]].
      eapply view_shape_agree; [|exact Vl2]. intros q Hq.
      apply lookup_delete_ne. fold tl' in Htl. set_solver.
    + split; [|split; [by apply remove_t_sorted|by apply remove_t_heap]].
      eapply view_shape_agree; [|exact Vr2]. intros q Hq.
      apply lookup_delete_ne. fold tr' in Htr. set_solver.
    + unfold tl', tr'. by rewrite Htl, Htr, Hsame.
    + simpl. rewrite Hmod, Hsz.
      pose proof (remove_t_count tl p Dl Hp) as Hc. fold tl' in Hc.
      clear -Hc. lia.
    + intros q Hq. apply Haddr. fold tl' in Htl. set_solver.
  - simpl. done.
  - done.
  - done.
  - done.
  - simpl. unfold h3. rewrite dom_delete_L.
    by rewrite (links_only_dom _ _ _ _ Hl2), (links_only_dom _ _ _ _ Hl1).
  - intros q Hq. simpl. unfold footprint in Hq.
    unfold h3. rewrite lookup_delete_ne by set_solver.
    rewrite (links_only_agree _ _ _ _ q Hl2), (links_only_agree _ _ _ _ q Hl1).
    + done.
    + rewrite <- Hsame. set_solver.
    + set_solver.
  - intros q Hq. simpl. unfold pair_at, h3.
    rewrite lookup_delete_ne by done.
    specialize (Hl1 q). specialize (Hl2 q).
    destruct (mem w !! q) as [c|], (h1 !! q) as [c1|], (h2 !! q) as [c2'|];
      try done; simpl.
    destruct Hl1 as (->&_), Hl2 as (->&_). done.
Qed.
End Erase.

Set Default Proof Using "Type".

Section Views.
Context {L R : Type}.
Local Abbreviation world := (@world L R).
Local Abbreviation bimap := (@bimap L R).
Implicit Types (w : world) (b : bimap) (tl : tree L) (tr : tree R).

Lemma pairs_of_app (h : heap L R) l1 l2 :
  pairs_of h (l1 ++ l2) = pairs_of h l1 ++ pairs_of h l2.
Proof. unfold pairs_of. apply omap_app. Qed.

Lemma pairs_of_cons (h : heap L R) p l x :
  pair_at h p = Some x → pairs_of h (p :: l) = x :: pairs_of h l.
Proof. intros H. unfold pairs_of. simpl. by rewrite H. Qed.

Lemma iter_ne_end_left w b tl tr p :
  inv w b tl tr → p ∈ tset tl →
  iter_ne (Iterator (tg:=tag_left) (Some p)) (end_left b) = true.
Proof.
  intros I Hp. rewrite (end_left_eq _ _ _ _ I). unfold iter_ne, iter_eq. simpl.
  rewrite bool_decide_eq_false_2; [done|]. intros [= ->].
  destruct (inv_left _ _ _ _ I) as ((_ & _ & _ & _ & He) & _). done.
Qed.

Lemma iter_ne_end_right w b tl tr p :
  inv w b tl tr → p ∈ tset tr →
  iter_ne (Iterator (tg:=tag_right) (Some p)) (end_right b) = true.
Proof.
  intros I Hp. rewrite (end_right_eq _ _ _ _ I). unfold iter_ne, iter_eq. simpl.
  rewrite bool_decide_eq_false_2; [done|]. intros [= ->].
  destruct (inv_right _ _ _ _ I) as ((_ & _ & _ & _ & He) & _). done.
Qed.

Lemma iter_ne_refl {tg} (it : iterator tg) : iter_ne it it = false.
Proof. unfold iter_ne, iter_eq. by rewrite bool_decide_eq_true_2. Qed.

Lemma collect_left_spec w b tl tr fuel (suf : list (ptr * L)) :
  inv w b tl tr → (count tl + 2 ≤ fuel)%nat →
  ∀ pre n, inorder tl = pre ++ suf → (length suf < n)%nat →
  collect_left n fuel b (Iterator (Some (head_ptr suf (end_node b)))) w
  = Ok (pairs_of (mem w) suf.*1) w.
Proof.
  intros I Hf. induction suf as [|a suf IH]; intros pre n Hio Hn.
  - destruct n; [simpl in Hn; lia|]. simpl.
    rewrite <- (end_left_eq _ _ _ _ I). by rewrite iter_ne_refl.
  - destruct n as [|n]; [simpl in Hn; lia|]. cbn [collect_left head_ptr].
    destruct a as [p l]. simpl.
    assert ((p, l) ∈ inorder tl) as Hin by (rewrite Hio; set_solver).
    assert (p ∈ tset tl) as Hp by (apply tset_inorder; eauto).
    destruct (inv_partner_right _ _ _ _ _ _ I Hin) as [r Hr].
    rewrite (iter_ne_end_left _ _ _ _ _ I Hp).
    rewrite (bind_ok (star_left_spec _ _ _ _ _ _ I Hin)).
    unfold flip. simpl.
    rewrite (bind_ok (star_right_spec _ _ _ _ _ _ I Hr)).
    rewrite (bind_ok (incr_left_spec _ _ _ _ _ _ I Hp Hf)).
    rewrite Hio.
    rewrite (successor_split pre suf (p, l)).
    2:{ rewrite <- Hio. apply distinct_NoDup. apply I. }
    rewrite (bind_ok (IH (pre ++ [(p, l)]) n ltac:(by rewrite <- app_assoc)
                        ltac:(simpl in Hn; lia))).
    unfold ret. f_equal.
    by rewrite (inv_pair_at _ _ _ _ _ _ _ I Hin Hr).
Qed.

Lemma view_left_spec w b tl tr fuel :
  inv w b tl tr → (count tl + 2 ≤ fuel)%nat →
  view_left fuel b w = Ok (pairs_of (mem w) (inorder tl).*1) w.
Proof.
  intros I Hf. unfold view_left.
  rewrite (bind_ok (begin_left_spec _ _ _ _ _ I Hf)).
  apply (collect_left_spec _ _ _ _ _ _ I Hf []); [done|].
  rewrite inorder_length. lia.
Qed.

Lemma collect_right_spec w b tl tr fuel (suf : list (ptr * R)) :
  inv w b tl tr → (count tl + 2 ≤ fuel)%nat →
  ∀ pre n, inorder tr = pre ++ suf → (length suf < n)%nat →
  collect_right n fuel b (Iterator (Some (head_ptr suf (end_node b)))) w
  = Ok (pairs_of (mem w) suf.*1) w.
Proof.
  intros I Hf. induction suf as [|a suf IH]; intros pre n Hio Hn.
  - destruct n; [simpl in Hn; lia|]. simpl.
    rewrite <- (end_right_eq _ _ _ _ I). by rewrite iter_ne_refl.
  - destruct n as [|n]; [simpl in Hn; lia|]. cbn [collect_right head_ptr].
    destruct a as [p r]. simpl.
    assert ((p, r) ∈ inorder tr) as Hin by (rewrite Hio; set_solver).
    assert (p ∈ tset tr) as Hp by (apply tset_inorder; eauto).
    destruct (inv_partner_left _ _ _ _ _ _ I Hin) as [l Hl].
    rewrite (iter_ne_end_right _ _ _ _ _ I Hp).
    unfold flip. simpl.
    rewrite (bind_ok (star_left_spec _ _ _ _ _ _ I Hl)).
    rewrite (bind_ok (star_right_spec _ _ _ _ _ _ I Hin)).
    rewrite (bind_ok (incr_right_spec _ _ _ _ _ _ I Hp Hf)).
    rewrite Hio.
    rewrite (successor_split pre suf (p, r)).
    2:{ rewrite <- Hio. apply distinct_NoDup. apply I. }
    rewrite (bind_ok (IH (pre ++ [(p, r)]) n ltac:(by rewrite <- app_assoc)
                        ltac:(simpl in Hn; lia))).
    unfold ret. f_equal.
    by rewrite (inv_pair_at _ _ _ _ _ _ _ I Hl Hin).
Qed.

Lemma view_right_spec w b tl tr fuel :
  inv w b tl tr → (count tl + 2 ≤ fuel)%nat →
  view_right fuel b w = Ok (pairs_of (mem w) (inorder tr).*1) w.
Proof.
  intros I Hf. unfold view_right.
  rewrite (bind_ok (begin_right_spec _ _ _ _ _ I Hf)).
  apply (collect_right_spec _ _ _ _ _ _ I Hf []); [done|].
  rewrite inorder_length, <- (inv_count _ _ _ _ I). lia.
Qed.

(** The pairs of a view, record by record. *)
Lemma pairs_of_left w b tl tr (s : list (ptr * L)) :
  inv w b tl tr → s ⊆ inorder tl →
  Forall2 (λ a x, x.1 = a.2 ∧ (a.1, x.2) ∈ inorder tr ∧
                  pair_at (mem w) a.1 = Some x)
          s (pairs_of (mem w) s.*1).
Proof.
  intros I. induction s as [|[p l] s IH]; intros Hs; [constructor|].
  assert ((p, l) ∈ inorder tl) as Hin by set_solver.
  destruct (inv_partner_right _ _ _ _ _ _ I Hin) as [r Hr].
  pose proof (inv_pair_at _ _ _ _ _ _ _ I Hin Hr) as Hp.
  rewrite fmap_cons. cbn [fst]. rewrite (pairs_of_cons _ _ _ _ Hp).
  constructor; [done|]. apply IH. set_solver.
Qed.

Lemma pairs_of_right w b tl tr (s : list (ptr * R)) :
  inv w b tl tr → s ⊆ inorder tr →
  Forall2 (λ a x, x.2 = a.2 ∧ (a.1, x.1) ∈ inorder tl ∧
                  pair_at (mem w) a.1 = Some x)
          s (pairs_of (mem w) s.*1).
Proof.
  intros I. induction s as [|[p r] s IH]; intros Hs; [constructor|].
  assert ((p, r) ∈ inorder tr) as Hin by set_solver.
  destruct (inv_partner_left _ _ _ _ _ _ I Hin) as [l Hl].
  pose proof (inv_pair_at _ _ _ _ _ _ _ I Hl Hin) as Hp.
  rewrite fmap_cons. cbn [fst]. rewrite (pairs_of_cons _ _ _ _ Hp).
  constructor; [done|]. apply IH. set_solver.
Qed.

Lemma pairs_of_left_keys w b tl tr :
  inv w b tl tr → (pairs_of (mem w) (inorder tl).*1).*1 = (inorder tl).*2.
Proof.
  intros I. pose proof (pairs_of_left _ _ _ _ (inorder tl) I ltac:(done)) as H.
  induction H as [|a x s xs (Hx & _) _ IH]; [done|].
  rewrite !fmap_cons. by rewrite Hx, IH.
Qed.

Lemma pairs_of_right_keys w b tl tr :
  inv w b tl tr → (pairs_of (mem w) (inorder tr).*1).*2 = (inorder tr).*2.
Proof.
  intros I. pose proof (pairs_of_right _ _ _ _ (inorder tr) I ltac:(done)) as H.
  induction H as [|a x s xs (Hx & _) _ IH]; [done|].
  rewrite !fmap_cons. by rewrite Hx, IH.
Qed.

Lemma pairs_of_length w b tl tr :
  inv w b tl tr → length (pairs_of (mem w) (inorder tl).*1) = count tl.
Proof.
  intros I. pose proof (pairs_of_left _ _ _ _ (inorder tl) I ltac:(done)) as H.
  apply Forall2_length in H. by rewrite <- H, inorder_length.
Qed.
End Views.

Set Default Proof Using "Type".

Section Cursors.
Context {L R : Type}.
Local Abbreviation world := (@world L R).
Local Abbreviation bimap := (@bimap L R).
Implicit Types (w : world) (b : bimap) (tl : tree L) (tr : tree R).

Lemma enough_count w b tl tr fuel :
  inv w b tl tr → enough fuel b → (count tl + 3 ≤ fuel)%nat.
Proof.
  intros I. unfold enough. rewrite (inv_size _ _ _ _ I), Nat2Z.id. done.
Qed.

Lemma inorder_functional {K} (t : tree K) p k k' :
  distinct t → (p, k) ∈ inorder t → (p, k') ∈ inorder t → k = k'.
Proof.
  intros Dt%distinct_NoDup H1 H2.
  apply list_elem_of_lookup in H1 as [i Hi], H2 as [j Hj].
  assert (i = j) as ->.
  { eapply NoDup_lookup; [done| |].
    - rewrite list_lookup_fmap, Hi. done.
    - rewrite list_lookup_fmap, Hj. done. }
  congruence.
Qed.

Lemma valid_left_intro w b tl tr fuel p l r :
  inv w b tl tr → (count tl + 2 ≤ fuel)%nat →
  (p, l) ∈ inorder tl → (p, r) ∈ inorder tr →
  valid_left fuel w b (Iterator (Some p)) l r.
Proof.
  intros I Hf Hl Hr. split_and!.
  - eapply iter_ne_end_left; [done|]. apply tset_inorder; eauto.
  - by eapply star_left_spec.
  - by eapply star_right_spec.
  - rewrite (find_left_spec _ _ _ _ _ l I Hf).
    erewrite find_t_complete; [done|apply I|apply I|done|].
    apply equiv_key_refl, I.
Qed.

Lemma valid_left_inv w b tl tr fuel it l r :
  inv w b tl tr → (count tl + 2 ≤ fuel)%nat →
  valid_left fuel w b it l r →
  ∃ p, it = Iterator (Some p) ∧ (p, l) ∈ inorder tl ∧ (p, r) ∈ inorder tr.
Proof.
  intros I Hf (Hne & Hsl & Hsr & Hfind).
  rewrite (find_left_spec _ _ _ _ _ l I Hf) in Hfind.
  injection Hfind as <-.
  destruct (find_t _ tl l) as [p|] eqn:E; simpl in *.
  2:{ rewrite <- (end_left_eq _ _ _ _ I) in Hne.
      by rewrite iter_ne_refl in Hne. }
  apply find_t_in in E as (k & Hin & Heq).
  rewrite (star_left_spec _ _ _ _ _ _ I Hin) in Hsl. injection Hsl as ->.
  destruct (inv_partner_right _ _ _ _ _ _ I Hin) as [r' Hr'].
  unfold flip in Hsr. simpl in Hsr.
  rewrite (star_right_spec _ _ _ _ _ _ I Hr') in Hsr. injection Hsr as ->.
  eauto.
Qed.

Lemma valid_right_intro w b tl tr fuel p l r :
  inv w b tl tr → (count tl + 2 ≤ fuel)%nat →
  (p, l) ∈ inorder tl → (p, r) ∈ inorder tr →
  valid_right fuel w b (Iterator (Some p)) l r.
Proof.
  intros I Hf Hl Hr. split_and!.
  - eapply iter_ne_end_right; [done|]. apply tset_inorder; eauto.
  - by eapply star_left_spec.
  - by eapply star_right_spec.
  - rewrite (find_right_spec _ _ _ _ _ r I Hf).
    erewrite find_t_complete; [done|apply I|apply I|done|].
    apply equiv_key_refl, I.
Qed.

Lemma valid_right_inv w b tl tr fuel it l r :
  inv w b tl tr → (count tl + 2 ≤ fuel)%nat →
  valid_right fuel w b it l r →
  ∃ p, it = Iterator (Some p) ∧ (p, l) ∈ inorder tl ∧ (p, r) ∈ inorder tr.
Proof.
  intros I Hf (Hne & Hsl & Hsr & Hfind).
  rewrite (find_right_spec _ _ _ _ _ r I Hf) in Hfind.
  injection Hfind as <-.
  destruct (find_t _ tr r) as [p|] eqn:E; simpl in *.
  2:{ rewrite <- (end_right_eq _ _ _ _ I) in Hne.
      by rewrite iter_ne_refl in Hne. }
  apply find_t_in in E as (k & Hin & Heq).
  rewrite (star_right_spec _ _ _ _ _ _ I Hin) in Hsr. injection Hsr as ->.
  destruct (inv_partner_left _ _ _ _ _ _ I Hin) as [l' Hl'].
  unfold flip in Hsl. simpl in Hsl.
  rewrite (star_left_spec _ _ _ _ _ _ I Hl') in Hsl. injection Hsl as ->.
  eauto.
Qed.

(** *** [at] *)

Lemma is_last_end {K} (t : treap K) e p :
  end_elem t = Some e → is_last t (Some p) = bool_decide (p = e).
Proof.
  intros H. unfold is_last, last. rewrite H.
  apply bool_decide_ext. split; [by intros [= ->]|by intros ->].
Qed.

Lemma at_left_found w b tl tr fuel key p r :
  inv w b tl tr → (count tl + 2 ≤ fuel)%nat →
  find_t (cmp (treap_left b)) tl key = Some p → (p, r) ∈ inorder tr →
  at_left fuel b key w = Ok r w.
Proof.
  intros I Hf Hfind Hr. unfold at_left.
  pose proof (height_le_count tl) as Hh.
  erewrite bind_ok.
  2:{ apply lift_ro. eapply find_spec; [apply I|apply I|lia]. }
  rewrite Hfind. simpl.
  rewrite (is_last_end _ _ _ (inv_end_left _ _ _ _ I)).
  rewrite bool_decide_eq_false_2.
  2:{ intros ->. apply find_t_in in Hfind as (k & Hin & _).
      destruct (inv_left _ _ _ _ I) as ((_ & _ & _ & _ & He) & _).
      apply He, tset_inorder. eauto. }
  exact (star_right_spec _ _ _ _ _ _ I Hr).
Qed.


Lemma at_right_found w b tl tr fuel key p l :
  inv w b tl tr → (count tl + 2 ≤ fuel)%nat →
  find_t (cmp (treap_right b)) tr key = Some p → (p, l) ∈ inorder tl →
  at_right fuel b key w = Ok l w.
Proof.
  intros I Hf Hfind Hl. unfold at_right.
  pose proof (height_le_count tr) as Hh. pose proof (inv_count _ _ _ _ I).
  erewrite bind_ok.
  2:{ apply lift_ro. eapply find_spec; [apply I|apply I|lia]. }
  rewrite Hfind. simpl.
  rewrite (is_last_end _ _ _ (inv_end_right _ _ _ _ I)).
  rewrite bool_decide_eq_false_2.
  2:{ intros ->. apply find_t_in in Hfind as (k & Hin & _).
      destruct (inv_right _ _ _ _ I) as ((_ & _ & _ & _ & He) & _).
      apply He, tset_inorder. eauto. }
  exact (star_left_spec _ _ _ _ _ _ I Hl).
Qed.

End Cursors.

Set Default Proof Using "Type".

Section ViewChange.
Context {L R : Type}.
Local Abbreviation world := (@world L R).
Local Abbreviation bimap := (@bimap L R).
Implicit Types (w : world) (b : bimap) (tl : tree L) (tr : tree R).

Lemma pairs_of_agree (h h' : heap L R) (ps : list ptr) :
  (∀ q, q ∈ ps → pair_at h' q = pair_at h q) →
  pairs_of h' ps = pairs_of h ps.
Proof.
  induction ps as [|q ps IH]; intros H; [done|].
  change (pairs_of h' (q :: ps))
    with (match pair_at h' q with
          | Some x => x :: pairs_of h' ps | None => pairs_of h' ps end).
  rewrite H by set_solver.
  rewrite IH; [done|]. intros; apply H. set_solver.
Qed.

Lemma filter_ne_split {K} (s : list (ptr * K)) p k :
  NoDup s.*1 → (p, k) ∈ s →
  ∃ s1 s2, s = s1 ++ (p, k) :: s2 ∧
           filter (λ e, e.1 ≠ p) s = s1 ++ s2 ∧
           (p ∉ s1.*1) ∧ (p ∉ s2.*1).
Proof.
  intros Hnd Hin. apply list_elem_of_split in Hin as (s1 & s2 & ->).
  exists s1, s2. rewrite fmap_app, fmap_cons in Hnd. simpl in Hnd.
  apply NoDup_app in Hnd as (_ & Hd & Hnd2).
  apply NoDup_cons in Hnd2 as [Hp2 _].
  assert (p ∉ s1.*1) as Hp1 by (intros Hx; apply (Hd _ Hx); left).
  split; [done|]. split; [|done].
  rewrite filter_app, filter_cons_False by (simpl; tauto).
  f_equal; by apply filter_ne_all.
Qed.

Lemma view_remove {K} (h h' : heap L R) (s : list (ptr * K)) p k x :
  NoDup s.*1 → (p, k) ∈ s → pair_at h p = Some x →
  (∀ q, q ≠ p → pair_at h' q = pair_at h q) →
  ∃ pre post, pairs_of h s.*1 = pre ++ x :: post ∧
              pairs_of h' (filter (λ e, e.1 ≠ p) s).*1 = pre ++ post.
Proof.
  intros Hnd Hin Hx Hag.
  destruct (filter_ne_split s p k Hnd Hin) as (s1 & s2 & -> & -> & H1 & H2).
  exists (pairs_of h s1.*1), (pairs_of h s2.*1).
  rewrite !fmap_app, fmap_cons, !pairs_of_app. change ((p, k).1) with p.
  rewrite (pairs_of_cons _ _ _ _ Hx). split; [done|].
  f_equal; apply pairs_of_agree; intros q Hq; apply Hag; by intros ->.
Qed.

Lemma view_insert {K} (h h' : heap L R) (s1 s2 : list (ptr * K)) p k x :
  (p ∉ (s1 ++ s2).*1) → pair_at h' p = Some x →
  (∀ q, q ≠ p → pair_at h' q = pair_at h q) →
  pairs_of h (s1 ++ s2).*1 = pairs_of h s1.*1 ++ pairs_of h s2.*1 ∧
  pairs_of h' (s1 ++ (p, k) :: s2).*1
  = pairs_of h s1.*1 ++ x :: pairs_of h s2.*1.
Proof.
  intros Hp Hx Hag. rewrite !fmap_app, fmap_cons, !pairs_of_app.
  change ((p, k).1) with p.
  rewrite (pairs_of_cons _ _ _ _ Hx). split; [done|].
  rewrite fmap_app in Hp.
  f_equal; [|f_equal]; apply pairs_of_agree; intros q Hq; apply Hag;
    intros ->; apply Hp; set_solver.
Qed.
End ViewChange.

Set Default Proof Using "Type".

Lemma fresh_bound (X : gset positive) (n : positive) :
  (fresh X ≤ n)%positive ↔ ∀ x, x ∈ X → (x < n)%positive.
Proof.
  unfold fresh, set_fresh, fresh, infinite_fresh. simpl.
  setoid_rewrite <- elem_of_elements.
  induction (elements X) as [|a l IH]; simpl.
  - split; [intros _ x Hx; by apply elem_of_nil in Hx|lia].
  - split.
    + intros H x [->|Hx]%elem_of_cons; [lia|]. apply IH; [lia|done].
    + intros H. assert (a < n)%positive by (apply H; left).
      assert (foldr (Pos.max ∘ Pos.succ) 1%positive l ≤ n)%positive.
      { apply IH. intros x Hx. apply H. by right. }
      lia.
Qed.

Lemma fresh_mono (X Y : gset positive) : X ⊆ Y → (fresh X ≤ fresh Y)%positive.
Proof.
  intros H. apply fresh_bound. intros x Hx.
  apply (proj1 (fresh_bound Y (fresh Y))); [lia|]. by apply H.
Qed.

Section FindFacts.
Context {K : Type} (lt : K → K → bool).
Hypothesis swo : strict_weak_order lt.
Set Default Proof Using "Type*".

Lemma find_t_remove (t : tree K) key p :
  distinct t → sorted_keys lt (inorder t) →
  find_t lt t key = Some p → find_t lt (remove_t t p) key = None.
Proof.
  intros Dt St Hf. apply find_t_none; [done|by apply remove_t_sorted|].
  intros e He Heq. rewrite remove_t_inorder in He by done.
  apply list_elem_of_filter in He as [Hne He]. destruct e as [q k].
  rewrite (find_t_complete lt swo t key q k St He Heq) in Hf.
  simpl in Hne. congruence.
Qed.

Lemma find_t_remove_none (t : tree K) key p :
  distinct t → sorted_keys lt (inorder t) →
  find_t lt t key = None → find_t lt (remove_t t p) key = None.
Proof.
  intros Dt St Hf. apply find_t_none; [done|by apply remove_t_sorted|].
  intros e He. rewrite remove_t_inorder in He by done.
  apply list_elem_of_filter in He as [_ He].
  by apply (proj1 (find_t_none lt swo t key St) Hf).
Qed.

Lemma find_t_self (t : tree K) p k :
  sorted_keys lt (inorder t) → (p, k) ∈ inorder t →
  find_t lt t k = Some p.
Proof.
  intros St Hin. eapply find_t_complete; [done|done|done|].
  by apply equiv_key_refl.
Qed.
End FindFacts.

Section Outcomes.
Context {L R : Type}.
Local Abbreviation world := (@world L R).
Local Abbreviation bimap := (@bimap L R).
Implicit Types (w : world) (b : bimap) (tl : tree L) (tr : tree R).

Lemma inv_distinct_left w b tl tr : inv w b tl tr → distinct tl.
Proof. intros I. by destruct (inv_left _ _ _ _ I) as ((_ & _ & _ & ? & _) & _). Qed.
Lemma inv_distinct_right w b tl tr : inv w b tl tr → distinct tr.
Proof. intros I. by destruct (inv_right _ _ _ _ I) as ((_ & _ & _ & ? & _) & _). Qed.
Lemma inv_sorted_left w b tl tr :
  inv w b tl tr → sorted_keys (cmp (treap_left b)) (inorder tl).
Proof. intros I. by destruct (inv_left _ _ _ _ I) as (_ & ? & _). Qed.
Lemma inv_sorted_right w b tl tr :
  inv w b tl tr → sorted_keys (cmp (treap_right b)) (inorder tr).
Proof. intros I. by destruct (inv_right _ _ _ _ I) as (_ & ? & _). Qed.

Lemma erase_obs (tg : tag) w b tl tr fuel p l r :
  inv w b tl tr → (count tl + 2 ≤ fuel)%nat →
  (p, l) ∈ inorder tl → (p, r) ∈ inorder tr →
  let res := match tg with
             | tag_left => successor (inorder tl) p (end_node b)
             | tag_right => successor (inorder tr) p (end_node b)
             end in
  ∃ w' b',
    erase_impl (tg:=tg) fuel (Iterator (Some p)) (w, b)
    = Ok (Iterator (Some res)) (w', b') ∧
    inv w' b' (remove_t tl p) (remove_t tr p) ∧
    step_frame w b tl w' b' (remove_t tl p) ∧
    size_ b' = size_ b - 1 ∧
    (rand w' = rand w ∧ seed w' = seed w ∧ allocs w' = allocs w) ∧
    dom (mem w') = dom (mem w) ∖ {[p]} ∧
    find_t (cmp (treap_left b')) (remove_t tl p) l = None ∧
    find_t (cmp (treap_right b')) (remove_t tr p) r = None ∧
    (∃ pre post,
        pairs_of (mem w) (inorder tl).*1 = pre ++ (l, r) :: post ∧
        pairs_of (mem w') (inorder (remove_t tl p)).*1 = pre ++ post) ∧
    (∃ pre post,
        pairs_of (mem w) (inorder tr).*1 = pre ++ (l, r) :: post ∧
        pairs_of (mem w') (inorder (remove_t tr p)).*1 = pre ++ post).
Proof.
  intros I Hf Hl Hr res.
  assert (p ∈ tset tl) as Hp by (apply tset_inorder; eauto).
  destruct (erase_impl_spec tg w b tl tr fuel p I Hp Hf)
    as (w' & He & I' & Hsz & Hrand & Hseed & Hal & Hdom & Hfr & Hpa).
  pose proof (inv_distinct_left _ _ _ _ I) as Dl.
  pose proof (inv_distinct_right _ _ _ _ I) as Dr.
  pose proof (inv_sorted_left _ _ _ _ I) as Sl.
  pose proof (inv_sorted_right _ _ _ _ I) as Sr.
  pose proof (inv_pair_at _ _ _ _ _ _ _ I Hl Hr) as Hx.
  exists w', (with_size ((size_ b - 1) mod SIZE_MOD) b).
  split; [exact He|]. split; [exact I'|]. split.
  { split; [done|]. split; [done|]. split; [done|]. split.
    - intros q Hq. left. unfold footprint in *.
      rewrite remove_t_tset in Hq by done.
      simpl in Hq. clear -Hq. set_solver.
    - intros q _ Hq. by apply Hfr. }
  split; [exact Hsz|]. split; [done|]. split; [exact Hdom|].
  split. { apply find_t_remove; [apply I|done|done|].
           apply find_t_self; [apply I|done|done]. }
  split. { apply find_t_remove; [apply I|done|done|].
           apply find_t_self; [apply I|done|done]. }
  split.
  - rewrite remove_t_inorder by done.
    exact (view_remove _ _ _ p l _ (distinct_NoDup _ Dl) Hl Hx Hpa).
  - rewrite remove_t_inorder by done.
    exact (view_remove _ _ _ p r _ (distinct_NoDup _ Dr) Hr Hx Hpa).
Qed.
End Outcomes.

Set Default Proof Using "Type".

Section InsertOutcome.
Context {L R : Type}.
Local Abbreviation world := (@world L R).
Local Abbreviation bimap := (@bimap L R).
Implicit Types (w : world) (b : bimap) (tl : tree L) (tr : tree R).

Lemma insert_view {K} (lt : K → K → bool) (t : tree K) (h h' : heap L R)
    p k pr x :
  strict_weak_order lt → sorted_keys lt (inorder t) →
  find_t lt t k = None → (p ∉ tset t) →
  pair_at h' p = Some x →
  (∀ q, q ≠ p → pair_at h' q = pair_at h q) →
  (p, k) ∈ inorder (insert_t lt t p k pr) ∧
  ∃ pre post,
    pairs_of h (inorder t).*1 = pre ++ post ∧
    pairs_of h' (inorder (insert_t lt t p k pr)).*1 = pre ++ x :: post.
Proof.
  intros swo St Hf Hp Hx Hag.
  destruct (insert_t_inorder lt swo t p k pr St) as (s1 & s2 & E1 & E2 & _).
  { intros e He Heq. apply (proj1 (find_t_none lt swo t k St) Hf e He).
    by apply equiv_key_sym. }
  rewrite E2. split; [set_solver|]. rewrite E1.
  exists (pairs_of h s1.*1), (pairs_of h s2.*1).
  apply view_insert; [|done|done].
  rewrite <- E1. by rewrite <- tset_fst.
Qed.

Lemma insert_obs w b tl tr fuel l r :
  inv w b tl tr → (count tl + 2 ≤ fuel)%nat →
  find_t (cmp (treap_left b)) tl l = None →
  find_t (cmp (treap_right b)) tr r = None →
  allocation_succeeds w →
  let p := fresh (dom (mem w)) in
  let tl' := insert_t (cmp (treap_left b)) tl p l (rand w (seed w)) in
  let tr' := insert_t (cmp (treap_right b)) tr p r (rand w (S (seed w))) in
  ∃ w' b',
    insert_impl fuel l r (w, b) = Ok (Iterator (Some p)) (w', b') ∧
    inv w' b' tl' tr' ∧
    step_frame w b tl w' b' tl' ∧
    size_ b' = size_ b + 1 ∧
    (rand w' = rand w ∧ seed w' = S (S (seed w)) ∧
     S (allocs w') = allocs w) ∧
    dom (mem w') = {[p]} ∪ dom (mem w) ∧
    (p, l) ∈ inorder tl' ∧ (p, r) ∈ inorder tr' ∧
    (∃ pre post,
        pairs_of (mem w) (inorder tl).*1 = pre ++ post ∧
        pairs_of (mem w') (inorder tl').*1 = pre ++ (l, r) :: post) ∧
    (∃ pre post,
        pairs_of (mem w) (inorder tr).*1 = pre ++ post ∧
        pairs_of (mem w') (inorder tr').*1 = pre ++ (l, r) :: post).
Proof.
  intros I Hf Hl Hr [Ha Hlt] p tl' tr'.
  destruct (allocs w) as [|n] eqn:Han; [done|].
  destruct (insert_success w b tl tr fuel l r n I Hf Hl Hr Han Hlt)
    as (w' & He & I' & Hsz & Hrand & Hseed & Hal & Hdom & Hfr & Hpa & Hpp).
  fold p in He, I', Hdom, Hfr, Hpa, Hpp. fold tl' tr' in I'.
  pose proof (inv_footprint_dom _ _ _ _ I) as Hfd.
  assert (p ∉ dom (mem w)) as Hp by apply is_fresh.
  assert (p ∉ tset tl) as Hptl.
  { intros Hx. apply Hp, Hfd. unfold footprint. clear -Hx. set_solver. }
  assert (p ∉ tset tr) as Hptr by (by rewrite <- (inv_same _ _ _ _ I)).
  destruct (insert_view (cmp (treap_left b)) tl (mem w) (mem w') p l
              (rand w (seed w)) (l, r) (inv_swo_left _ _ _ _ I)
              (inv_sorted_left _ _ _ _ I) Hl Hptl Hpp Hpa) as [Hin1 Hv1].
  destruct (insert_view (cmp (treap_right b)) tr (mem w) (mem w') p r
              (rand w (S (seed w))) (l, r) (inv_swo_right _ _ _ _ I)
              (inv_sorted_right _ _ _ _ I) Hr Hptr Hpp Hpa) as [Hin2 Hv2].
  exists w', (with_size ((size_ b + 1) mod SIZE_MOD) b).
  split; [exact He|]. split; [exact I'|]. split.
  { split; [done|]. split; [done|]. split; [done|]. split.
    - intros q Hq. unfold footprint in *. unfold tl' in Hq.
      rewrite insert_t_tset in Hq. simpl in Hq.
      destruct (decide (q = p)) as [->|Hne]; [by right|].
      left. clear -Hq Hne. set_solver.
    - intros q Hq1 Hq2. apply Hfr. clear -Hq1 Hq2 Hp. set_solver. }
  split; [exact Hsz|]. split; [by rewrite Hal|]. split; [exact Hdom|].
  done.
Qed.

(** Erasing by key. *)
Lemma erase_left_key_eq w b tl tr fuel l :
  inv w b tl tr → (count tl + 2 ≤ fuel)%nat →
  erase_left_key fuel l (w, b)
  = match find_t (cmp (treap_left b)) tl l with
    | Some p => (erase_impl (tg:=tag_left) fuel (Iterator (Some p));;
                 ret true) (w, b)
    | None => Ok false (w, b)
    end.
Proof.
  intros I Hf. unfold erase_left_key.
  change (bind get_this ?k (w, b)) with (k b (w, b)). cbv beta.
  pose proof (height_le_count tl) as Hh.
  erewrite bind_ok.
  2:{ apply (in_world_ok (w:=w) (w':=w)), lift_ro.
      eapply find_spec; [apply I|apply I|lia]. }
  rewrite (is_last_end _ _ _ (inv_end_left _ _ _ _ I)).
  destruct (find_t _ tl l) as [p|] eqn:E; simpl.
  - rewrite bool_decide_eq_false_2; [done|].
    intros ->. apply find_t_in in E as (k & Hin & _).
    destruct (inv_left _ _ _ _ I) as ((_ & _ & _ & _ & He) & _).
    apply He, tset_inorder. eauto.
  - by rewrite bool_decide_eq_true_2.
Qed.

Lemma erase_right_key_eq w b tl tr fuel r :
  inv w b tl tr → (count tl + 2 ≤ fuel)%nat →
  erase_right_key fuel r (w, b)
  = match find_t (cmp (treap_right b)) tr r with
    | Some p => (erase_impl (tg:=tag_right) fuel (Iterator (Some p));;
                 ret true) (w, b)
    | None => Ok false (w, b)
    end.
Proof.
  intros I Hf. unfold erase_right_key.
  change (bind get_this ?k (w, b)) with (k b (w, b)). cbv beta.
  pose proof (height_le_count tr) as Hh. pose proof (inv_count _ _ _ _ I).
  erewrite bind_ok.
  2:{ apply (in_world_ok (w:=w) (w':=w)), lift_ro.
      eapply find_spec; [apply I|apply I|lia]. }
  rewrite (is_last_end _ _ _ (inv_end_right _ _ _ _ I)).
  destruct (find_t _ tr r) as [p|] eqn:E; simpl.
  - rewrite bool_decide_eq_false_2; [done|].
    intros ->. apply find_t_in in E as (k & Hin & _).
    destruct (inv_right _ _ _ _ I) as ((_ & _ & _ & _ & He) & _).
    apply He, tset_inorder. eauto.
  - by rewrite bool_decide_eq_true_2.
Qed.
End InsertOutcome.

Set Default Proof Using "Type".

Section Frames.
Context {L R : Type}.
Local Abbreviation world := (@world L R).
Local Abbreviation bimap := (@bimap L R).
Implicit Types (w : world) (b : bimap) (tl : tree L) (tr : tree R).

Lemma step_frame_refl w b tl : step_frame w b tl w b tl.
Proof. repeat split; auto. Qed.

Lemma step_frame_trans w b tl w1 b1 tl1 w2 b2 tl2 :
  step_frame w b tl w1 b1 tl1 → step_frame w1 b1 tl1 w2 b2 tl2 →
  step_frame w b tl w2 b2 tl2.
Proof.
  intros (E1 & C1 & C1' & F1 & A1) (E2 & C2 & C2' & F2 & A2).
  assert (∀ q, q ∈ dom (mem w) → q ∉ footprint b tl →
               q ∈ dom (mem w1) ∧ q ∉ footprint b1 tl1) as Hk.
  { intros q Hq Hn. split.
    - apply elem_of_dom. rewrite (A1 q Hq Hn). by apply elem_of_dom.
    - intros Hx. destruct (F1 q Hx); done. }
  split; [congruence|]. split; [congruence|]. split; [congruence|]. split.
  - intros q Hq. destruct (F2 q Hq) as [Hx|Hx]; [by apply F1|].
    destruct (decide (q ∈ footprint b tl)); [by left|].
    destruct (decide (q ∈ dom (mem w))) as [Hd|]; [|by right].
    destruct (Hk q Hd); done.
  - intros q Hq Hn. destruct (Hk q Hq Hn) as [Hd Hn1].
    rewrite (A2 q Hd Hn1). by apply A1.
Qed.

Lemma filter_all {A} (P : A → Prop) `{!∀ x, Decision (P x)} (l : list A) :
  (∀ x, x ∈ l → P x) → filter P l = l.
Proof.
  induction l as [|a l IH]; intros Hall; [done|].
  rewrite filter_cons_True by (apply Hall; left).
  f_equal. apply IH. intros x Hx. apply Hall. by right.
Qed.

Lemma successor_fst {K K'} (s : list (ptr * K)) (s' : list (ptr * K')) x e :
  s.*1 = s'.*1 → successor s x e = successor s' x e.
Proof.
  revert s'. induction s as [|a s IH]; intros [|a' s'] H; try done.
  simpl in *. injection H as H1 H2. rewrite <- H1.
  destruct (decide (a.1 = x)).
  - destruct s, s'; try done. simpl in H2. by injection H2 as -> _.
  - by apply IH.
Qed.
End Frames.

Section Ranges.
Context {L R : Type}.
Local Abbreviation world := (@world L R).
Local Abbreviation bimap := (@bimap L R).
Implicit Types (w : world) (b : bimap) (tl : tree L) (tr : tree R).

Lemma successor_order {K} (s : list (ptr * K)) pre p rest e :
  NoDup s.*1 → s.*1 = pre ++ p :: rest →
  successor s p e = hd_or e rest.
Proof.
  intros Hnd Hs.
  apply fmap_app_inv in Hs as (s1 & s2' & -> & Hs2 & ->).
  symmetry in Hs2. apply fmap_cons_inv in Hs2 as (a & s2 & -> & -> & ->).
  rewrite (successor_split s1 s2 a e Hnd). by destruct s2.
Qed.

Lemma filter_order {K} (s : list (ptr * K)) pre p rest :
  NoDup s.*1 → s.*1 = pre ++ p :: rest →
  (filter (λ e, e.1 ≠ p) s).*1 = pre ++ rest.
Proof.
  intros Hnd Hs.
  apply fmap_app_inv in Hs as (s1 & s2' & -> & Hs2 & ->).
  symmetry in Hs2. apply fmap_cons_inv in Hs2 as (a & s2 & -> & -> & ->).
  destruct a as [q k]. simpl in *.
  destruct (filter_ne_split (s1 ++ (q, k) :: s2) q k Hnd) as
    (t1 & t2 & E & -> & H1 & H2); [set_solver|].
  rewrite fmap_app. 
  assert (q ∉ s1.*1 ∧ q ∉ s2.*1) as [Hq1 Hq2].
  { rewrite fmap_app, fmap_cons in Hnd. apply NoDup_app in Hnd as (_ & Hd & Hn2).
    apply NoDup_cons in Hn2 as [? _]. split; [|done].
    intros Hx. apply (Hd _ Hx). left. }
  assert (s1 = t1 ∧ s2 = t2) as [-> ->]; [|done].
  clear Hnd. revert t1 E H1. induction s1 as [|a s1 IH]; intros [|c t1] E H1.
  - by injection E as ->.
  - injection E as <- _. exfalso. apply H1. rewrite fmap_cons. left.
  - injection E as -> _. exfalso. apply Hq1. rewrite fmap_cons. left.
  - injection E as -> E. destruct (IH ltac:(set_solver) t1 E ltac:(set_solver)).
    by subst.
Qed.

Lemma order_NoDup tg w b tl tr : inv w b tl tr → NoDup (order tg tl tr).
Proof.
  intros I. destruct tg; simpl; apply distinct_NoDup.
  - exact (inv_distinct_left _ _ _ _ I).
  - exact (inv_distinct_right _ _ _ _ I).
Qed.

Lemma order_tset tg w b tl tr p :
  inv w b tl tr → p ∈ order tg tl tr ↔ p ∈ tset tl.
Proof.
  intros I. destruct tg; simpl.
  - by rewrite tset_fst.
  - by rewrite (inv_same _ _ _ _ I), tset_fst.
Qed.

Lemma erase_range_loop_S {tg} n fuel (f l : iterator tg) (s : world * bimap) :
  erase_range_loop (S n) fuel f l s
  = (if iter_ne f l
     then let* first' := erase_impl fuel f in
          erase_range_loop n fuel first' l
     else ret l) s.
Proof. done. Qed.

Lemma erase_range_loop_spec (tg : tag) fuel (mid : list ptr) :
  ∀ n w b tl tr pre post,
  inv w b tl tr → (count tl + 2 ≤ fuel)%nat →
  order tg tl tr = pre ++ mid ++ post → (length mid < n)%nat →
  ∃ w' b' tl' tr',
    erase_range_loop (tg:=tg) n fuel
      (Iterator (Some (hd_or (end_node b) (mid ++ post))))
      (Iterator (Some (hd_or (end_node b) post))) (w, b)
    = Ok (Iterator (Some (hd_or (end_node b) post))) (w', b') ∧
    inv w' b' tl' tr' ∧
    step_frame w b tl w' b' tl' ∧
    order tg tl' tr' = pre ++ post ∧
    inorder tl' = filter (λ e, e.1 ∉ mid) (inorder tl) ∧
    inorder tr' = filter (λ e, e.1 ∉ mid) (inorder tr) ∧
    size_ b' = size_ b - Z.of_nat (length mid) ∧
    (rand w' = rand w ∧ seed w' = seed w ∧ allocs w' = allocs w) ∧
    dom (mem w') = dom (mem w) ∖ list_to_set mid ∧
    (∀ q, q ∉ mid → pair_at (mem w') q = pair_at (mem w) q).
Proof.
  induction mid as [|p mid IH]; intros n w b tl tr pre post I Hf Ho Hn.
  - destruct n as [|n]; [simpl in Hn; lia|]. simpl.
    rewrite iter_ne_refl. exists w, b, tl, tr.
    split; [done|]. split; [done|]. split; [apply step_frame_refl|].
    split; [done|].
    split. { symmetry. apply filter_all. intros. apply not_elem_of_nil. }
    split. { symmetry. apply filter_all. intros. apply not_elem_of_nil. }
    split; [simpl; lia|]. split; [done|]. split; [set_solver|done].
  - destruct n as [|n]; [simpl in Hn; lia|]. simpl in Hn.
    pose proof (order_NoDup tg _ _ _ _ I) as Hnd.
    assert (p ∈ tset tl) as Hp.
    { apply (order_tset tg _ _ _ _ p I). rewrite Ho. set_solver. }
    assert (p ≠ hd_or (end_node b) post) as Hne.
    { rewrite Ho in Hnd. apply NoDup_app in Hnd as (_ & _ & Hnd).
      simpl in Hnd. apply NoDup_cons in Hnd as [Hp' _].
      destruct post as [|q post]; simpl.
      - intros ->. destruct (inv_left _ _ _ _ I) as ((_ & _ & _ & _ & He) & _).
        done.
      - intros ->. apply Hp'. set_solver. }
    rewrite erase_range_loop_S.
    change (hd_or (end_node b) ((p :: mid) ++ post)) with p.
    assert (iter_ne (Iterator (tg:=tg) (Some p))
              (Iterator (Some (hd_or (end_node b) post))) = true) as ->.
    { unfold iter_ne, iter_eq. simpl. rewrite bool_decide_eq_false_2; [done|].
      by intros [= ?]. }
    destruct (erase_impl_spec tg w b tl tr fuel p I Hp Hf)
      as (w1 & He & I1 & Hsz & Hrand & Hseed & Hal & Hdom & Hfr & Hpa).
    rewrite (bind_ok He).
    set (b1 := with_size ((size_ b - 1) mod SIZE_MOD) b) in *.
    pose proof (inv_distinct_left _ _ _ _ I) as Dl.
    pose proof (inv_distinct_right _ _ _ _ I) as Dr.
    assert (match tg with
            | tag_left => successor (inorder tl) p (end_node b)
            | tag_right => successor (inorder tr) p (end_node b)
            end = hd_or (end_node b) (mid ++ post)) as ->.
    { destruct tg; simpl in Ho;
        (eapply successor_order; [by apply distinct_NoDup|exact Ho]). }
    assert (order tg (remove_t tl p) (remove_t tr p) = pre ++ mid ++ post)
      as Ho1.
    { destruct tg; simpl in *; rewrite remove_t_inorder by done;
        (eapply filter_order; [by apply distinct_NoDup|exact Ho]). }
    assert (count (remove_t tl p) + 2 ≤ fuel)%nat as Hf1.
    { pose proof (remove_t_count tl p Dl Hp). clear -Hf H. lia. }
    destruct (IH n w1 b1 _ _ pre post I1 Hf1 Ho1 ltac:(clear -Hn; lia))
      as (w' & b' & tl' & tr' & Hrun & I' & Fr & Ho' & Hil & Hir & Hsz'
          & (Hr' & Hs' & Ha') & Hdom' & Hpa').
    exists w', b', tl', tr'. change (end_node b1) with (end_node b) in Hrun.
    split; [exact Hrun|]. split; [exact I'|]. split.
    { eapply step_frame_trans; [|exact Fr].
      split; [done|]. split; [done|]. split; [done|]. split.
      - intros q Hq. left. unfold footprint in *.
        rewrite remove_t_tset in Hq by done. simpl in Hq. clear -Hq.
        set_solver.
      - intros q _ Hq. by apply Hfr. }
    split; [exact Ho'|].
    split.
    { rewrite Hil, remove_t_inorder, list_filter_filter by done.
      apply list_filter_iff. intros [q k]. simpl. clear. set_solver. }
    split.
    { rewrite Hir, remove_t_inorder, list_filter_filter by done.
      apply list_filter_iff. intros [q k]. simpl. clear. set_solver. }
    split. { rewrite Hsz', Hsz. simpl. clear. lia. }
    split. { rewrite Hr', Hs', Ha'. done. }
    split. { rewrite Hdom', Hdom. clear. set_solver. }
    intros q Hq. rewrite Hpa' by set_solver. apply Hpa. set_solver.
Qed.
End Ranges.

Set Default Proof Using "Type".

Section Construction.
Context {L R : Type}.
Local Abbreviation world := (@world L R).
Local Abbreviation bimap := (@bimap L R).
Implicit Types (w : world) (b : bimap) (tl : tree L) (tr : tree R).

Lemma treap_ctor_ok {K} tg (comparator : K → K → bool) e (h : heap L R) c :
  h !! e = Some c →
  treap_ctor tg comparator e h
  = Ok (Treap comparator (Some e))
       (<[e := with_sub tg (NodeTree None None None INT_MAX) c]> h).
Proof.
  intros H. unfold treap_ctor.
  rewrite (run_put_left tg H).
  rewrite (run_put_right tg (lookup_insert_eq _ _ _)).
  rewrite (run_put_parent tg (lookup_insert_eq _ _ _)).
  unfold put_priority. rewrite bind_assoc.
  rewrite (run_load (lookup_insert_eq _ _ _)).
  unfold bind, store, ret. rewrite lookup_insert_eq.
  rewrite !insert_insert_eq. do 2 f_equal.
  by destruct tg, c as [[] [] ?].
Qed.

Lemma validate_end_fresh {K} tg (comparator : K → K → bool) e
    (h : heap L R) c :
  h !! e = Some c → left (sub tg c) = None →
  validate_end tg e (Treap comparator (Some e)) h
  = Ok (Treap comparator (Some e))
       (<[e := with_sub tg
                 (NodeTree None None None (priority (sub tg c))) c]> h).
Proof.
  intros H Hl. unfold validate_end.
  rewrite (run_put_parent tg H).
  rewrite (run_put_right tg (lookup_insert_eq _ _ _)).
  rewrite (run_root tg (Treap comparator (Some e)) eq_refl
             (lookup_insert_eq _ _ _)).
  rewrite (run_put_left tg (lookup_insert_eq _ _ _)).
  rewrite (run_root tg (Treap comparator (Some e)) eq_refl
             (lookup_insert_eq _ _ _)).
  unfold upd_left, upd_right, upd_parent. rewrite !sub_with_sub.
  simpl. rewrite Hl. simpl. rewrite bind_ret. unfold ret.
  rewrite !insert_insert_eq. do 2 f_equal.
  destruct tg, c as [[] [] ?]; simpl in *; by subst.
Qed.

Lemma ctor_prefix {A} cl cr w (full body : method A) :
  (fresh (dom (mem w)) < addr_limit)%positive →
  (∀ s s', validate_ends s = Ok tt s' → full s = body s') →
  (let* e := place_object in
   let* tpl := lift (treap_ctor tag_left cl e) in
   let* tpr := lift (treap_ctor tag_right cr e) in
   node_t_base_ctor e;;
   construct_with (Bimap tpl tpr 0 e) full) w
  = construct_with (newborn cl cr w) body (born w).
Proof.
  intros Hlt Hfull. set (e := fresh (dom (mem w))).
  assert (place_object w = Ok e (with_mem (<[e := indeterminate]> (mem w)) w))
    as Hp.
  { unfold place_object. fold e. by rewrite decide_True. }
  rewrite (bind_ok Hp).
  erewrite bind_ok.
  2:{ eapply lift_ok. apply treap_ctor_ok. simpl. apply lookup_insert_eq. }
  erewrite bind_ok.
  2:{ eapply lift_ok. apply treap_ctor_ok. simpl. apply lookup_insert_eq. }
  unfold node_t_base_ctor, node_tree_ctor, random_priority, construct.
  unfold bind at 1 2 3 4 5. unfold ret, with_mem. simpl.
  rewrite !insert_insert_eq.
  set (w1 := World _ _ _ _). set (b1 := Bimap _ _ _ _).
  assert (validate_ends (w1, b1) = Ok tt (born w, newborn cl cr w)) as Hv.
  { unfold validate_ends.
    change (bind get_this ?k (w1, b1)) with (k b1 (w1, b1)). cbv beta.
    erewrite bind_ok.
    2:{ eapply in_world_ok. eapply lift_ok. simpl.
        eapply validate_end_fresh; [apply lookup_insert_eq|done]. }
    erewrite bind_ok.
    2:{ eapply in_world_ok. eapply lift_ok. simpl.
        eapply validate_end_fresh; [apply lookup_insert_eq|done]. }
    unfold set_this, with_mem. simpl. rewrite !insert_insert_eq. done. }
  unfold construct_with. by rewrite (Hfull _ _ Hv).
Qed.

Lemma ctor_prefix_throw {A} cl cr w (full : method A) :
  ¬ (fresh (dom (mem w)) < addr_limit)%positive →
  (let* e := place_object in
   let* tpl := lift (treap_ctor tag_left cl e) in
   let* tpr := lift (treap_ctor tag_right cr e) in
   node_t_base_ctor e;;
   construct_with (Bimap tpl tpr 0 e) full) w
  = Throw bad_alloc w.
Proof.
  intros Hlt. apply bind_throw. unfold place_object.
  by rewrite decide_False.
Qed.

Lemma bimap_ctor_ok cl cr w :
  (fresh (dom (mem w)) < addr_limit)%positive →
  bimap_ctor cl cr w = Ok (newborn cl cr w) (born w).
Proof.
  intros Hlt. unfold bimap_ctor.
  rewrite (ctor_prefix cl cr w validate_ends (ret tt) Hlt); [done|].
  by intros s s' ->.
Qed.

Lemma bimap_ctor_throw cl cr w :
  ¬ (fresh (dom (mem w)) < addr_limit)%positive →
  bimap_ctor cl cr w = Throw bad_alloc w.
Proof. apply ctor_prefix_throw. Qed.

Lemma inv_born cl cr w :
  strict_weak_order cl → strict_weak_order cr →
  (fresh (dom (mem w)) < addr_limit)%positive →
  inv (born w) (newborn cl cr w) Leaf Leaf.
Proof.
  intros Sl Sr Hlt. split; try done.
  - split; [|split; [constructor|done]].
    split; [|done]. eexists. split; [apply lookup_insert_eq|done].
  - split; [|split; [constructor|done]].
    split; [|done]. eexists. split; [apply lookup_insert_eq|done].
  - intros p Hp. simpl in Hp.
    assert (p = fresh (dom (mem w))) as -> by set_solver. done.
Qed.

Lemma inorder_nil {K} (t : tree K) : inorder t = [] → t = Leaf.
Proof.
  destruct t; [done|]. simpl. intros H.
  by apply app_eq_nil in H as [_ ?].
Qed.

Lemma count_zero {K} (t : tree K) : count t = O → t = Leaf.
Proof. by destruct t. Qed.

Lemma erase_all_spec w b tl tr fuel :
  inv w b tl tr → (count tl + 2 ≤ fuel)%nat →
  ∃ w' b',
    erase_all fuel (w, b) = Ok tt (w', b') ∧
    inv w' b' Leaf Leaf ∧
    step_frame w b tl w' b' Leaf ∧
    size_ b' = 0 ∧
    (rand w' = rand w ∧ seed w' = seed w ∧ allocs w' = allocs w) ∧
    dom (mem w') = dom (mem w) ∖ tset tl.
Proof.
  intros I Hf. unfold erase_all.
  rewrite (bind_ok (const_call_ok (begin_left_spec _ _ _ _ _ I Hf))).
  rewrite (bind_ok (const_call_ok (f:=λ b, ret (end_left b))
                      (a:=end_left b) (w':=w) eq_refl)).
  rewrite (end_left_eq _ _ _ _ I).
  destruct (erase_range_loop_spec (L:=L) (R:=R) tag_left fuel
              (inorder tl).*1 fuel w b tl tr [] [] I Hf)
    as (w' & b' & tl' & tr' & Hrun & I' & Fr & Ho & Hil & Hir & Hsz
        & Hfacts & Hdom & Hpa).
  { simpl. by rewrite app_nil_r. }
  { rewrite length_fmap, inorder_length. lia. }
  simpl in Ho. apply fmap_nil_inv, inorder_nil in Ho. subst tl'.
  assert (tr' = Leaf) as ->.
  { apply count_zero. by rewrite <- (inv_count _ _ _ _ I'). }
  exists w', b'. rewrite app_nil_r in Hrun.
  assert (head_ptr (inorder tl) (end_node b)
          = hd_or (end_node b) (inorder tl).*1) as ->
      by (by destruct (inorder tl)).
  unfold erase_left_range, erase_range.
  simpl in Hrun. rewrite (bind_ok Hrun).
  split; [done|]. split; [done|]. split; [done|].
  split. { rewrite (inv_size _ _ _ _ I'). done. }
  split; [done|].
  rewrite Hdom. f_equal. apply set_eq. intros q.
  rewrite elem_of_list_to_set. symmetry. apply tset_fst.
Qed.
End Construction.

Set Default Proof Using "Type".

Section Defaults.
Context {L R : Type}.
Local Abbreviation world := (@world L R).
Local Abbreviation bimap := (@bimap L R).
Implicit Types (w : world) (b : bimap) (tl : tree L) (tr : tree R).

Lemma allocation_cases w :
  allocation_succeeds w ∨
  (allocs w = O ∨ ¬ (fresh (dom (mem w)) < addr_limit)%positive).
Proof.
  unfold allocation_succeeds.
  destruct (decide (allocs w = O)); [by right; left|].
  destruct (decide (fresh (dom (mem w)) < addr_limit)%positive);
    [by left|by right; right].
Qed.

Lemma find_t_is_Some_dec {K} (lt : K → K → bool) (t : tree K) k :
  find_t lt t k = None ∨ ∃ p, find_t lt t k = Some p.
Proof. destruct (find_t lt t k); eauto. Qed.

(** Reading a reference changes nothing, and goes wrong only when the
    record it points into is gone or holds no key. *)
Lemma read_cases {K} (key : reference K) w :
  (∃ k, read key w = Ok k w) ∨ read key w = UB.
Proof.
  destruct key as [k|p getter]; simpl; [left; by exists k|].
  unfold lift, key_of, bind, load.
  destruct (mem w !! p) as [c|]; [|by right].
  destruct (getter c) as [k|]; [|by right].
  left. exists k. unfold ret. by rewrite with_mem_id.
Qed.

Lemma read_first {K A} (key : reference K) (k : K) (f : K → method A) w b :
  read key w = Ok k w →
  (let* x := in_world (read key) in f x) (w, b) = f k (w, b).
Proof. intros H. by rewrite (bind_ok (in_world_ok H)). Qed.

Lemma read_first_ub {K A} (key : reference K) (f : K → method A) w b :
  read key w = UB →
  (let* x := in_world (read key) in f x) (w, b) = UB.
Proof. intros H. apply bind_ub. unfold in_world. simpl. by rewrite H. Qed.

(** [at_or_default] on a key that is there. *)
Lemma at_left_or_default_present d w b tl tr fuel key k p r :
  inv w b tl tr → (count tl + 2 ≤ fuel)%nat → read key w = Ok k w →
  find_t (cmp (treap_left b)) tl k = Some p → (p, r) ∈ inorder tr →
  at_left_or_default d fuel key (w, b) = Ok r (w, b).
Proof.
  intros I Hf Hk Hfind Hr. unfold at_left_or_default.
  rewrite bind_assoc, (read_first _ _ _ _ _ Hk).
  rewrite (bind_ok (const_call_ok (contains_left_spec _ _ _ _ _ k I Hf))).
  rewrite Hfind, bool_decide_eq_true_2 by eauto.
  rewrite (read_first _ _ _ _ _ Hk).
  apply const_call_ok. by eapply at_left_found.
Qed.

Lemma at_right_or_default_present d w b tl tr fuel key k p l :
  inv w b tl tr → (count tl + 2 ≤ fuel)%nat → read key w = Ok k w →
  find_t (cmp (treap_right b)) tr k = Some p → (p, l) ∈ inorder tl →
  at_right_or_default d fuel key (w, b) = Ok l (w, b).
Proof.
  intros I Hf Hk Hfind Hr. unfold at_right_or_default.
  rewrite bind_assoc, (read_first _ _ _ _ _ Hk).
  rewrite (bind_ok (const_call_ok (contains_right_spec _ _ _ _ _ k I Hf))).
  rewrite Hfind, bool_decide_eq_true_2 by eauto.
  rewrite (read_first _ _ _ _ _ Hk).
  apply const_call_ok. by eapply at_right_found.
Qed.

(** [at_or_default] on a key that is not there. *)
Lemma at_left_or_default_absent d w b tl tr fuel key k :
  inv w b tl tr → (count tl + 2 ≤ fuel)%nat → read key w = Ok k w →
  find_t (cmp (treap_left b)) tl k = None →
  at_left_or_default d fuel key (w, b)
  = ((match find_t (cmp (treap_right b)) tr d with
      | Some q => erase_impl (tg:=tag_right) fuel (Iterator (Some q));; ret tt
      | None => ret tt
      end);;
     let* res := (let* k' := in_world (read key) in insert_impl fuel k' d) in
     in_world (star_right (flip res))) (w, b).
Proof.
  intros I Hf Hk Hfind. unfold at_left_or_default.
  rewrite bind_assoc, (read_first _ _ _ _ _ Hk).
  rewrite (bind_ok (const_call_ok (contains_left_spec _ _ _ _ _ k I Hf))).
  rewrite Hfind, bool_decide_eq_false_2 by (by intros [? ?]).
  rewrite (bind_ok (const_call_ok (find_right_spec _ _ _ _ _ d I Hf))).
  rewrite (bind_ok (const_call_ok (f:=λ b, ret (end_right b))
                      (a:=end_right b) (w':=w) eq_refl)).
  unfold bimap_insert.
  destruct (find_t _ tr d) as [q|] eqn:E; simpl.
  - apply find_t_in in E as (k0 & Hin & _).
    rewrite (iter_ne_end_right _ _ _ _ _ I); [done|].
    apply tset_inorder. eauto.
  - rewrite <- (end_right_eq _ _ _ _ I), iter_ne_refl. done.
Qed.

Lemma at_right_or_default_absent d w b tl tr fuel key k :
  inv w b tl tr → (count tl + 2 ≤ fuel)%nat → read key w = Ok k w →
  find_t (cmp (treap_right b)) tr k = None →
  at_right_or_default d fuel key (w, b)
  = ((match find_t (cmp (treap_left b)) tl d with
      | Some q => erase_impl (tg:=tag_left) fuel (Iterator (Some q));; ret tt
      | None => ret tt
      end);;
     let* res := (let* k' := in_world (read key) in insert_impl fuel d k') in
     in_world (star_left res)) (w, b).
Proof.
  intros I Hf Hk Hfind. unfold at_right_or_default.
  rewrite bind_assoc, (read_first _ _ _ _ _ Hk).
  rewrite (bind_ok (const_call_ok (contains_right_spec _ _ _ _ _ k I Hf))).
  rewrite Hfind, bool_decide_eq_false_2 by (by intros [? ?]).
  rewrite (bind_ok (const_call_ok (find_left_spec _ _ _ _ _ d I Hf))).
  rewrite (bind_ok (const_call_ok (f:=λ b, ret (end_left b))
                      (a:=end_left b) (w':=w) eq_refl)).
  unfold bimap_insert.
  destruct (find_t _ tl d) as [q|] eqn:E; simpl.
  - apply find_t_in in E as (k0 & Hin & _).
    rewrite (iter_ne_end_left _ _ _ _ _ I); [done|].
    apply tset_inorder. eauto.
  - rewrite <- (end_left_eq _ _ _ _ I), iter_ne_refl. done.
Qed.
End Defaults.

Section DefaultOutcome.
Context {L R : Type}.
Local Abbreviation world := (@world L R).
Local Abbreviation bimap := (@bimap L R).
Implicit Types (w : world) (b : bimap) (tl : tree L) (tr : tree R).

Lemma allocation_after_erase w w1 :
  allocs w1 = allocs w → dom (mem w1) ⊆ dom (mem w) →
  allocation_succeeds w → allocation_succeeds w1.
Proof.
  intros Ha Hd [H1 H2]. split; [by rewrite Ha|].
  eapply Pos.le_lt_trans; [by apply fresh_mono|done].
Qed.

(** The first half of [at_left_or_default] on an absent key: the pair
    that holds the default on the right goes. *)
Lemma default_right_erased d w b tl tr fuel :
  inv w b tl tr → (count tl + 2 ≤ fuel)%nat →
  ∃ w1 b1 tl1 tr1 mid_l mid_r,
    (match find_t (cmp (treap_right b)) tr d with
     | Some q => erase_impl (tg:=tag_right) fuel (Iterator (Some q));; ret tt
     | None => ret tt
     end) (w, b) = Ok tt (w1, b1) ∧
    inv w1 b1 tl1 tr1 ∧ step_frame w b tl w1 b1 tl1 ∧
    (count tl1 ≤ count tl)%nat ∧
    allocs w1 = allocs w ∧ dom (mem w1) ⊆ dom (mem w) ∧
    find_t (cmp (treap_right b1)) tr1 d = None ∧
    (∀ k, find_t (cmp (treap_left b)) tl k = None →
          find_t (cmp (treap_left b1)) tl1 k = None) ∧
    mid_l = pairs_of (mem w1) (inorder tl1).*1 ∧
    mid_r = pairs_of (mem w1) (inorder tr1).*1 ∧
    match find_t (cmp (treap_right b)) tr d with
    | Some q =>
        ∃ l0 r0, equiv_key (cmp (treap_right b)) r0 d ∧
          removed (l0, r0) (pairs_of (mem w) (inorder tl).*1) mid_l ∧
          removed (l0, r0) (pairs_of (mem w) (inorder tr).*1) mid_r ∧
          size_ b1 = size_ b - 1
    | None =>
        mid_l = pairs_of (mem w) (inorder tl).*1 ∧
        mid_r = pairs_of (mem w) (inorder tr).*1 ∧ size_ b1 = size_ b
    end.
Proof.
  intros I Hf.
  pose proof (inv_distinct_left _ _ _ _ I) as Dl.
  pose proof (inv_distinct_right _ _ _ _ I) as Dr.
  pose proof (inv_sorted_left _ _ _ _ I) as Sl.
  pose proof (inv_sorted_right _ _ _ _ I) as Sr.
  destruct (find_t _ tr d) as [q|] eqn:E.
  - pose proof E as E'. apply find_t_in in E' as (r0 & Hr0 & Heq).
    destruct (inv_partner_left _ _ _ _ _ _ I Hr0) as [l0 Hl0].
    destruct (erase_obs tag_right w b tl tr fuel q l0 r0 I Hf Hl0 Hr0)
      as (w1 & b1 & He & I1 & Fr & Hsz & (_ & _ & Hal) & Hdom & Hfl & Hfr
          & Hvl & Hvr).
    exists w1, b1, (remove_t tl q), (remove_t tr q). eexists _, _.
    rewrite (bind_ok He).
    assert (cmp (treap_left b1) = cmp (treap_left b) ∧
            cmp (treap_right b1) = cmp (treap_right b)) as [Cl Cr]
        by (destruct Fr as (_ & ? & ? & _); done).
    split; [done|]. split; [done|]. split; [done|].
    split. { assert (q ∈ tset tl) by (apply tset_inorder; eauto).
             pose proof (remove_t_count tl q Dl H). lia. }
    split; [done|]. split; [rewrite Hdom; set_solver|].
    split. { rewrite Cr. apply find_t_remove; [apply I|done|done|done]. }
    split. { intros k Hk. rewrite Cl.
             apply find_t_remove_none; [apply I|done|done|done]. }
    split; [done|]. split; [done|].
    exists l0, r0. done.
  - exists w, b, tl, tr. eexists _, _.
    split; [done|]. split; [done|]. split; [apply step_frame_refl|].
    split; [done|]. split; [done|]. split; [done|]. split; [done|].
    split; [done|]. done.
Qed.

Lemma default_left_erased d w b tl tr fuel :
  inv w b tl tr → (count tl + 2 ≤ fuel)%nat →
  ∃ w1 b1 tl1 tr1 mid_l mid_r,
    (match find_t (cmp (treap_left b)) tl d with
     | Some q => erase_impl (tg:=tag_left) fuel (Iterator (Some q));; ret tt
     | None => ret tt
     end) (w, b) = Ok tt (w1, b1) ∧
    inv w1 b1 tl1 tr1 ∧ step_frame w b tl w1 b1 tl1 ∧
    (count tl1 ≤ count tl)%nat ∧
    allocs w1 = allocs w ∧ dom (mem w1) ⊆ dom (mem w) ∧
    find_t (cmp (treap_left b1)) tl1 d = None ∧
    (∀ k, find_t (cmp (treap_right b)) tr k = None →
          find_t (cmp (treap_right b1)) tr1 k = None) ∧
    mid_l = pairs_of (mem w1) (inorder tl1).*1 ∧
    mid_r = pairs_of (mem w1) (inorder tr1).*1 ∧
    match find_t (cmp (treap_left b)) tl d with
    | Some q =>
        ∃ l0 r0, equiv_key (cmp (treap_left b)) l0 d ∧
          removed (l0, r0) (pairs_of (mem w) (inorder tl).*1) mid_l ∧
          removed (l0, r0) (pairs_of (mem w) (inorder tr).*1) mid_r ∧
          size_ b1 = size_ b - 1
    | None =>
        mid_l = pairs_of (mem w) (inorder tl).*1 ∧
        mid_r = pairs_of (mem w) (inorder tr).*1 ∧ size_ b1 = size_ b
    end.
Proof.
  intros I Hf.
  pose proof (inv_distinct_left _ _ _ _ I) as Dl.
  pose proof (inv_distinct_right _ _ _ _ I) as Dr.
  pose proof (inv_sorted_left _ _ _ _ I) as Sl.
  pose proof (inv_sorted_right _ _ _ _ I) as Sr.
  destruct (find_t _ tl d) as [q|] eqn:E.
  - pose proof E as E'. apply find_t_in in E' as (l0 & Hl0 & Heq).
    destruct (inv_partner_right _ _ _ _ _ _ I Hl0) as [r0 Hr0].
    destruct (erase_obs tag_left w b tl tr fuel q l0 r0 I Hf Hl0 Hr0)
      as (w1 & b1 & He & I1 & Fr & Hsz & (_ & _ & Hal) & Hdom & Hfl & Hfr
          & Hvl & Hvr).
    exists w1, b1, (remove_t tl q), (remove_t tr q). eexists _, _.
    rewrite (bind_ok He).
    assert (cmp (treap_left b1) = cmp (treap_left b) ∧
            cmp (treap_right b1) = cmp (treap_right b)) as [Cl Cr]
        by (destruct Fr as (_ & ? & ? & _); done).
    split; [done|]. split; [done|]. split; [done|].
    split. { assert (q ∈ tset tl) by (apply tset_inorder; eauto).
             pose proof (remove_t_count tl q Dl H). lia. }
    split; [done|]. split; [rewrite Hdom; set_solver|].
    split. { rewrite Cl. apply find_t_remove; [apply I|done|done|done]. }
    split. { intros k Hk. rewrite Cr.
             apply find_t_remove_none; [apply I|done|done|done]. }
    split; [done|]. split; [done|].
    exists l0, r0. done.
  - exists w, b, tl, tr. eexists _, _.
    split; [done|]. split; [done|]. split; [apply step_frame_refl|].
    split; [done|]. split; [done|]. split; [done|]. split; [done|].
    split; [done|]. done.
Qed.
End DefaultOutcome.

Set Default Proof Using "Type".

Section DefaultFull.
Context {L R : Type}.
Local Abbreviation world := (@world L R).
Local Abbreviation bimap := (@bimap L R).
Implicit Types (w : world) (b : bimap) (tl : tree L) (tr : tree R).

Lemma at_left_or_default_obs d w b tl tr fuel k :
  inv w b tl tr → (count tl + 2 ≤ fuel)%nat →
  find_t (cmp (treap_left b)) tl k = None →
  allocation_succeeds w →
  ∃ w' b' tl' tr' mid_l mid_r,
    at_left_or_default d fuel (ref_object k) (w, b) = Ok d (w', b') ∧
    inv w' b' tl' tr' ∧ step_frame w b tl w' b' tl' ∧
    match find_t (cmp (treap_right b)) tr d with
    | Some q =>
        ∃ l0 r0, equiv_key (cmp (treap_right b)) r0 d ∧
          removed (l0, r0) (pairs_of (mem w) (inorder tl).*1) mid_l ∧
          removed (l0, r0) (pairs_of (mem w) (inorder tr).*1) mid_r ∧
          size_ b' = size_ b
    | None =>
        mid_l = pairs_of (mem w) (inorder tl).*1 ∧
        mid_r = pairs_of (mem w) (inorder tr).*1 ∧
        size_ b' = size_ b + 1
    end ∧
    added (k, d) mid_l (pairs_of (mem w') (inorder tl').*1) ∧
    added (k, d) mid_r (pairs_of (mem w') (inorder tr').*1).
Proof.
  intros I Hf Hk Ha.
  rewrite (at_left_or_default_absent d _ _ _ _ _ (ref_object k) k I Hf
             eq_refl Hk).
  destruct (default_right_erased d w b tl tr fuel I Hf)
    as (w1 & b1 & tl1 & tr1 & mid_l & mid_r & He & I1 & Fr1 & Hc & Hal
        & Hdom & Hfd & Hfk & -> & -> & Hcase).
  rewrite (bind_ok He).
  rewrite bind_assoc, (read_first (ref_object k) k _ _ _ eq_refl).
  assert (count tl1 + 2 ≤ fuel)%nat as Hf1 by lia.
  destruct (insert_obs w1 b1 tl1 tr1 fuel k d I1 Hf1 (Hfk k Hk) Hfd
              (allocation_after_erase _ _ Hal Hdom Ha))
    as (w' & b' & Hi & I' & Fr' & Hsz & _ & _ & Hinl & Hinr & Hvl & Hvr).
  rewrite (bind_ok Hi).
  eexists w', b', _, _, _, _.
  split. { apply in_world_ok. exact (star_right_spec _ _ _ _ _ _ I' Hinr). }
  split; [exact I'|].
  split; [by eapply step_frame_trans|].
  split; [|done].
  destruct (find_t _ tr d).
  - destruct Hcase as (l0 & r0 & ? & ? & ? & Hs). exists l0, r0.
    split; [done|]. split; [done|]. split; [done|]. lia.
  - destruct Hcase as (? & ? & Hs). split; [done|]. split; [done|]. lia.
Qed.

Lemma at_right_or_default_obs d w b tl tr fuel k :
  inv w b tl tr → (count tl + 2 ≤ fuel)%nat →
  find_t (cmp (treap_right b)) tr k = None →
  allocation_succeeds w →
  ∃ w' b' tl' tr' mid_l mid_r,
    at_right_or_default d fuel (ref_object k) (w, b) = Ok d (w', b') ∧
    inv w' b' tl' tr' ∧ step_frame w b tl w' b' tl' ∧
    match find_t (cmp (treap_left b)) tl d with
    | Some q =>
        ∃ l0 r0, equiv_key (cmp (treap_left b)) l0 d ∧
          removed (l0, r0) (pairs_of (mem w) (inorder tl).*1) mid_l ∧
          removed (l0, r0) (pairs_of (mem w) (inorder tr).*1) mid_r ∧
          size_ b' = size_ b
    | None =>
        mid_l = pairs_of (mem w) (inorder tl).*1 ∧
        mid_r = pairs_of (mem w) (inorder tr).*1 ∧
        size_ b' = size_ b + 1
    end ∧
    added (d, k) mid_l (pairs_of (mem w') (inorder tl').*1) ∧
    added (d, k) mid_r (pairs_of (mem w') (inorder tr').*1).
Proof.
  intros I Hf Hk Ha.
  rewrite (at_right_or_default_absent d _ _ _ _ _ (ref_object k) k I Hf
             eq_refl Hk).
  destruct (default_left_erased d w b tl tr fuel I Hf)
    as (w1 & b1 & tl1 & tr1 & mid_l & mid_r & He & I1 & Fr1 & Hc & Hal
        & Hdom & Hfd & Hfk & -> & -> & Hcase).
  rewrite (bind_ok He).
  rewrite bind_assoc, (read_first (ref_object k) k _ _ _ eq_refl).
  assert (count tl1 + 2 ≤ fuel)%nat as Hf1 by lia.
  destruct (insert_obs w1 b1 tl1 tr1 fuel d k I1 Hf1 Hfd (Hfk k Hk)
              (allocation_after_erase _ _ Hal Hdom Ha))
    as (w' & b' & Hi & I' & Fr' & Hsz & _ & _ & Hinl & Hinr & Hvl & Hvr).
  rewrite (bind_ok Hi).
  eexists w', b', _, _, _, _.
  split. { apply in_world_ok. exact (star_left_spec _ _ _ _ _ _ I' Hinl). }
  split; [exact I'|].
  split; [by eapply step_frame_trans|].
  split; [|done].
  destruct (find_t _ tl d).
  - destruct Hcase as (l0 & r0 & ? & ? & ? & Hs). exists l0, r0.
    split; [done|]. split; [done|]. split; [done|]. lia.
  - destruct Hcase as (? & ? & Hs). split; [done|]. split; [done|]. lia.
Qed.
End DefaultFull.

Section Settles.
Context {L R : Type}.
Local Abbreviation world := (@world L R).
Local Abbreviation bimap := (@bimap L R).
Implicit Types (w : world) (b : bimap) (tl : tree L) (tr : tree R).

Lemma evolves_refl w b tl tr : inv w b tl tr → evolves w b tl w b.
Proof. intros I. exists tl, tr. split; [done|apply step_frame_refl]. Qed.

Lemma insert_settles w b tl tr fuel l r :
  inv w b tl tr → (count tl + 2 ≤ fuel)%nat →
  settles (insert_impl fuel l r) w b tl.
Proof.
  intros I Hf.
  destruct (find_t_is_Some_dec (cmp (treap_left b)) tl l) as [Hl|[p Hl]].
  2:{ exists w, b. split; [|by eapply evolves_refl].
      left. eexists. eapply insert_reject; [done|done|]. left. eauto. }
  destruct (find_t_is_Some_dec (cmp (treap_right b)) tr r) as [Hr|[p Hr]].
  2:{ exists w, b. split; [|by eapply evolves_refl].
      left. eexists. eapply insert_reject; [done|done|]. right. eauto. }
  destruct (allocation_cases w) as [Ha|Ha].
  - destruct (insert_obs w b tl tr fuel l r I Hf Hl Hr Ha)
      as (w' & b' & Hi & I' & Fr' & _).
    exists w', b'. split; [left; eauto|]. eexists _, _. eauto.
  - exists w, b. split; [|by eapply evolves_refl].
    right. by eapply insert_throw.
Qed.

Lemma erase_settles tg w b tl tr fuel p :
  inv w b tl tr → (count tl + 2 ≤ fuel)%nat → p ∈ tset tl →
  settles (erase_impl (tg:=tg) fuel (Iterator (Some p))) w b tl.
Proof.
  intros I Hf Hp. apply tset_inorder in Hp as [l Hl].
  destruct (inv_partner_right _ _ _ _ _ _ I Hl) as [r Hr].
  destruct (erase_obs tg w b tl tr fuel p l r I Hf Hl Hr)
    as (w' & b' & He & I' & Fr & _).
  exists w', b'. split; [left; eauto|]. eexists _, _. eauto.
Qed.

Lemma erase_left_key_settles w b tl tr fuel l :
  inv w b tl tr → (count tl + 2 ≤ fuel)%nat →
  settles (erase_left_key fuel l) w b tl.
Proof.
  intros I Hf. unfold settles.
  rewrite (erase_left_key_eq _ _ _ _ _ l I Hf).
  destruct (find_t _ tl l) as [p|] eqn:E.
  - apply find_t_in in E as (k & Hin & _).
    destruct (erase_settles tag_left w b tl tr fuel p I Hf)
      as (w' & b' & [[a He]|He] & Ev); [apply tset_inorder; eauto| |].
    + exists w', b'. split; [|done]. left. exists true.
      by rewrite (bind_ok He).
    + exists w', b'. split; [|done]. right. by apply bind_throw.
  - exists w, b. split; [left; eauto|by eapply evolves_refl].
Qed.

Lemma erase_right_key_settles w b tl tr fuel r :
  inv w b tl tr → (count tl + 2 ≤ fuel)%nat →
  settles (erase_right_key fuel r) w b tl.
Proof.
  intros I Hf. unfold settles.
  rewrite (erase_right_key_eq _ _ _ _ _ r I Hf).
  destruct (find_t _ tr r) as [p|] eqn:E.
  - apply find_t_in in E as (k & Hin & _).
    destruct (erase_settles tag_right w b tl tr fuel p I Hf)
      as (w' & b' & [[a He]|He] & Ev).
    { rewrite (inv_same _ _ _ _ I). apply tset_inorder; eauto. }
    + exists w', b'. split; [|done]. left. exists true.
      by rewrite (bind_ok He).
    + exists w', b'. split; [|done]. right. by apply bind_throw.
  - exists w, b. split; [left; eauto|by eapply evolves_refl].
Qed.

Lemma star_left_cases (it : left_iterator) w :
  (∃ l, star_left it w = Ok l w) ∨ star_left (L:=L) (R:=R) it w = UB.
Proof.
  unfold star_left, lift, key_of, bind, load, deref.
  destruct (node it) as [p|]; [|by right]. unfold ret.
  destruct (mem w !! p) as [c|]; [|by right].
  destruct (key_getter_left c) as [k|]; [|by right].
  left. exists k. by rewrite with_mem_id.
Qed.

Lemma star_right_cases (it : right_iterator) w :
  (∃ r, star_right it w = Ok r w) ∨ star_right (L:=L) (R:=R) it w = UB.
Proof.
  unfold star_right, lift, key_of, bind, load, deref.
  destruct (node it) as [p|]; [|by right]. unfold ret.
  destruct (mem w !! p) as [c|]; [|by right].
  destruct (key_getter_right c) as [k|]; [|by right].
  left. exists k. by rewrite with_mem_id.
Qed.

Lemma in_world_ub {A} (m : M world A) w b :
  m w = UB → in_world m (w, b) = UB.
Proof. intros H. unfold in_world. simpl. by rewrite H. Qed.

(** [at_or_default] ends by return or by [std::bad_alloc] with the
    object in order, unless [key] is read when its record is gone. *)
Lemma at_left_or_default_settles d w b tl tr fuel key :
  inv w b tl tr → (count tl + 2 ≤ fuel)%nat →
  settles (at_left_or_default d fuel key) w b tl ∨
  at_left_or_default d fuel key (w, b) = UB.
Proof.
  intros I Hf.
  destruct (read_cases key w) as [[k Hrd]|Hrd].
  2:{ right. unfold at_left_or_default. apply bind_ub.
      by apply read_first_ub. }
  destruct (find_t_is_Some_dec (cmp (treap_left b)) tl k) as [Hk|[p Hk]].
  2:{ pose proof Hk as Hk'. apply find_t_in in Hk' as (l & Hl & _).
      destruct (inv_partner_right _ _ _ _ _ _ I Hl) as [r Hr].
      left. exists w, b. split; [|by eapply evolves_refl]. left. exists r.
      by eapply at_left_or_default_present. }
  unfold settles.
  rewrite (at_left_or_default_absent d _ _ _ _ _ key k I Hf Hrd Hk).
  destruct (default_right_erased d w b tl tr fuel I Hf)
    as (w1 & b1 & tl1 & tr1 & mid_l & mid_r & He & I1 & Fr1 & Hc & _).
  rewrite (bind_ok He).
  assert (count tl1 + 2 ≤ fuel)%nat as Hf1 by lia.
  destruct (read_cases key w1) as [[k' Hrd']|Hrd'].
  2:{ right. apply bind_ub. by apply read_first_ub. }
  rewrite bind_assoc, (read_first _ _ _ _ _ Hrd').
  destruct (insert_settles w1 b1 tl1 tr1 fuel k' d I1 Hf1)
    as (w' & b' & [[it Hi]|Hi] & (tl' & tr' & I' & Fr')).
  - rewrite (bind_ok Hi).
    destruct (star_right_cases (flip it) w') as [[r Hs]|Hs].
    + left. exists w', b'. split; [left; exists r; by apply in_world_ok|].
      exists tl', tr'. split; [done|]. by eapply step_frame_trans.
    + right. by apply in_world_ub.
  - left. exists w', b'. split; [right; by apply bind_throw|].
    exists tl', tr'. split; [done|]. by eapply step_frame_trans.
Qed.

Lemma at_right_or_default_settles d w b tl tr fuel key :
  inv w b tl tr → (count tl + 2 ≤ fuel)%nat →
  settles (at_right_or_default d fuel key) w b tl ∨
  at_right_or_default d fuel key (w, b) = UB.
Proof.
  intros I Hf.
  destruct (read_cases key w) as [[k Hrd]|Hrd].
  2:{ right. unfold at_right_or_default. apply bind_ub.
      by apply read_first_ub. }
  destruct (find_t_is_Some_dec (cmp (treap_right b)) tr k) as [Hk|[p Hk]].
  2:{ pose proof Hk as Hk'. apply find_t_in in Hk' as (r & Hr & _).
      destruct (inv_partner_left _ _ _ _ _ _ I Hr) as [l Hl].
      left. exists w, b. split; [|by eapply evolves_refl]. left. exists l.
      by eapply at_right_or_default_present. }
  unfold settles.
  rewrite (at_right_or_default_absent d _ _ _ _ _ key k I Hf Hrd Hk).
  destruct (default_left_erased d w b tl tr fuel I Hf)
    as (w1 & b1 & tl1 & tr1 & mid_l & mid_r & He & I1 & Fr1 & Hc & _).
  rewrite (bind_ok He).
  assert (count tl1 + 2 ≤ fuel)%nat as Hf1 by lia.
  destruct (read_cases key w1) as [[k' Hrd']|Hrd'].
  2:{ right. apply bind_ub. by apply read_first_ub. }
  rewrite bind_assoc, (read_first _ _ _ _ _ Hrd').
  destruct (insert_settles w1 b1 tl1 tr1 fuel d k' I1 Hf1)
    as (w' & b' & [[it Hi]|Hi] & (tl' & tr' & I' & Fr')).
  - rewrite (bind_ok Hi).
    destruct (star_left_cases it w') as [[l Hs]|Hs].
    + left. exists w', b'. split; [left; exists l; by apply in_world_ok|].
      exists tl', tr'. split; [done|]. by eapply step_frame_trans.
    + right. by apply in_world_ub.
  - left. exists w', b'. split; [right; by apply bind_throw|].
    exists tl', tr'. split; [done|]. by eapply step_frame_trans.
Qed.
End Settles.

Set Default Proof Using "Type".

Section SortedUnique.
Context {A : Type} (lt : A → A → Prop).
Hypothesis irrefl : ∀ x, ¬ lt x x.
Hypothesis trans : ∀ x y z, lt x y → lt y z → lt x z.
Set Default Proof Using "Type*".

Lemma sorted_perm_eq (l1 l2 : list A) :
  StronglySorted lt l1 → StronglySorted lt l2 → l1 ≡ₚ l2 → l1 = l2.
Proof.
  revert l2. induction l1 as [|a l1 IH]; intros l2 S1 S2 Hp.
  - by apply Permutation_nil_l in Hp.
  - destruct l2 as [|c l2]; [by apply Permutation_nil_r in Hp|].
    apply StronglySorted_inv in S1 as [S1 F1].
    apply StronglySorted_inv in S2 as [S2 F2].
    assert (a = c) as ->.
    { assert (a ∈ c :: l2) as Ha by (rewrite <- Hp; left).
      assert (c ∈ a :: l1) as Hc by (rewrite Hp; left).
      apply elem_of_cons in Ha as [->|Ha]; [done|].
      apply elem_of_cons in Hc as [->|Hc]; [done|].
      rewrite Forall_forall in F1, F2.
      exfalso. apply (irrefl a). eapply trans; [by apply F1|by apply F2]. }
    f_equal. apply IH; [done|done|]. by apply Permutation_cons_inv in Hp.
Qed.
End SortedUnique.

Section PairViews.
Context {L R : Type}.
Local Abbreviation world := (@world L R).
Local Abbreviation bimap := (@bimap L R).
Implicit Types (w : world) (b : bimap) (tl : tree L) (tr : tree R).

Lemma pairs_of_perm (h : heap L R) (l1 l2 : list ptr) :
  l1 ≡ₚ l2 → pairs_of h l1 ≡ₚ pairs_of h l2.
Proof. intros H. unfold pairs_of. by rewrite H. Qed.

Lemma order_perm w b tl tr :
  inv w b tl tr → (inorder tr).*1 ≡ₚ (inorder tl).*1.
Proof.
  intros I. apply NoDup_Permutation.
  - apply distinct_NoDup. exact (inv_distinct_right _ _ _ _ I).
  - apply distinct_NoDup. exact (inv_distinct_left _ _ _ _ I).
  - intros p. rewrite <- !tset_fst. by rewrite (inv_same _ _ _ _ I).
Qed.

(** The right view holds the pairs of the left view. *)
Lemma views_perm w b tl tr :
  inv w b tl tr →
  pairs_of (mem w) (inorder tr).*1 ≡ₚ pairs_of (mem w) (inorder tl).*1.
Proof. intros I. apply pairs_of_perm. by eapply order_perm. Qed.

Lemma Forall2_sorted {A B} (RA : A → A → Prop) (RB : B → B → Prop)
    (P : A → B → Prop) (l : list A) (k : list B) :
  (∀ a a' x x', P a x → P a' x' → RA a a' → RB x x') →
  Forall2 P l k → StronglySorted RA l → StronglySorted RB k.
Proof.
  intros Hmono H. induction H as [|a x l k Hax HF IH]; intros Hs;
    [constructor|].
  apply StronglySorted_inv in Hs as [Hs Fa]. constructor; [by apply IH|].
  clear IH Hs. induction HF as [|a' x' l k Ha' HF IH]; [constructor|].
  apply Forall_cons in Fa as [Haa Fa]. constructor; [|by apply IH].
  by eapply Hmono.
Qed.

Lemma view_left_sorted w b tl tr :
  inv w b tl tr →
  StronglySorted (λ x y, cmp (treap_left b) x.1 y.1 = true)
    (pairs_of (mem w) (inorder tl).*1).
Proof.
  intros I. pose proof (inv_sorted_left _ _ _ _ I) as Sl.
  pose proof (pairs_of_left _ _ _ _ (inorder tl) I ltac:(done)) as H.
  eapply Forall2_sorted; [|exact H|exact Sl].
  intros a a' x x' (-> & _) (-> & _). done.
Qed.

Lemma view_right_sorted w b tl tr :
  inv w b tl tr →
  StronglySorted (λ x y, cmp (treap_right b) x.2 y.2 = true)
    (pairs_of (mem w) (inorder tr).*1).
Proof.
  intros I. pose proof (inv_sorted_right _ _ _ _ I) as Sr.
  pose proof (pairs_of_right _ _ _ _ (inorder tr) I ltac:(done)) as H.
  eapply Forall2_sorted; [|exact H|exact Sr].
  intros a a' x x' (-> & _) (-> & _). done.
Qed.

(** A pair of the left view sits in a record of both trees. *)
Lemma view_left_elem w b tl tr l r :
  inv w b tl tr →
  (l, r) ∈ pairs_of (mem w) (inorder tl).*1 ↔
  ∃ p, (p, l) ∈ inorder tl ∧ (p, r) ∈ inorder tr.
Proof.
  intros I. pose proof (pairs_of_left _ _ _ _ (inorder tl) I ltac:(done)) as H.
  split.
  - intros Hin. apply list_elem_of_lookup_1 in Hin as [i Hi].
    destruct (Forall2_lookup_r _ _ _ _ _ H Hi) as ([p k] & Ha & Hk & Hr & _).
    simpl in *. subst k. exists p. split; [|done].
    by eapply list_elem_of_lookup_2.
  - intros (p & Hl & Hr). apply list_elem_of_lookup_1 in Hl as [i Hi].
    destruct (Forall2_lookup_l _ _ _ _ _ H Hi) as ([l' r'] & Hx & Hk & Hr' & _).
    simpl in *. subst l'.
    rewrite (inorder_functional tr p r r' (inv_distinct_right _ _ _ _ I) Hr Hr').
    by eapply list_elem_of_lookup_2.
Qed.
End PairViews.

Set Default Proof Using "Type".

Section CopyLoop.
Context {L R : Type}.
Local Abbreviation world := (@world L R).
Local Abbreviation bimap := (@bimap L R).
Implicit Types (w : world) (b : bimap) (tl : tree L) (tr : tree R).

Variables (w0 : world) (bo : bimap) (tlo : tree L) (tro : tree R).
Hypothesis Io : inv w0 bo tlo tro.

Lemma copying_source w b tl tr pre :
  copying (mem w0) bo tlo w b tl tr pre → inv w bo tlo tro.
Proof using Io.
  intros (_ & _ & _ & Hag & _). eapply inv_frame; [exact Io|].
  intros p Hp. apply Hag. by apply (inv_footprint_dom _ _ _ _ Io).
Qed.

Lemma source_pairs (pre : list (ptr * L)) l r :
  pre ⊆ inorder tlo →
  (l, r) ∈ pairs_of (mem w0) pre.*1 →
  ∃ p, (p, l) ∈ pre ∧ (p, r) ∈ inorder tro.
Proof using Io.
  intros Hs Hin.
  pose proof (pairs_of_left _ _ _ _ pre Io Hs) as H.
  apply list_elem_of_lookup_1 in Hin as [i Hi].
  destruct (Forall2_lookup_r _ _ _ _ _ H Hi) as ([p k] & Ha & Hk & Hr & _).
  simpl in *. subst k. exists p. split; [|done].
  by eapply list_elem_of_lookup_2.
Qed.

Lemma source_pairs_length (pre : list (ptr * L)) :
  pre ⊆ inorder tlo → length (pairs_of (mem w0) pre.*1) = length pre.
Proof using Io.
  intros Hs. pose proof (pairs_of_left _ _ _ _ pre Io Hs) as H.
  by apply Forall2_length in H.
Qed.

Lemma copying_count w b tl tr pre :
  copying (mem w0) bo tlo w b tl tr pre → count tl = length pre.
Proof using Io.
  intros (I & _ & _ & _ & _ & _ & [Hs _] & Hp).
  rewrite <- (pairs_of_length _ _ _ _ I), Hp. by apply source_pairs_length.
Qed.

(** The next pair of the source is new to the copy. *)
Lemma copying_absent w b tl tr pre p l r suf :
  copying (mem w0) bo tlo w b tl tr pre →
  inorder tlo = pre ++ (p, l) :: suf → (p, r) ∈ inorder tro →
  find_t (cmp (treap_left b)) tl l = None ∧
  find_t (cmp (treap_right b)) tr r = None.
Proof using Io.
  intros (I & _ & _ & _ & Cl & Cr & [Hs _] & Hp) Ho Hr.
  pose proof (inv_sorted_left _ _ _ _ Io) as Slo.
  pose proof (inv_sorted_right _ _ _ _ Io) as Sro.
  pose proof (inv_swo_left _ _ _ _ Io) as Wl.
  pose proof (inv_swo_right _ _ _ _ Io) as Wr.
  split.
  - apply find_t_none; [apply I|apply I|]. intros [q k] Hq [E1 E2].
    destruct (inv_partner_right _ _ _ _ _ _ I Hq) as [r' Hr'].
    assert ((k, r') ∈ pairs_of (mem w) (inorder tl).*1) as Hin
        by (apply (view_left_elem _ _ _ _ _ _ I); eauto).
    rewrite Hp in Hin. apply source_pairs in Hin as (p' & Hp' & _); [|done].
    rewrite Ho in Slo. unfold sorted_keys in Slo.
    pose proof (StronglySorted_app_1_elem_of _ _ _ _ _ Slo Hp'
                  ltac:(left)) as Hlt. simpl in *.
    rewrite Cl in E1. congruence.
  - apply find_t_none; [apply I|apply I|]. intros [q k'] Hq Heq.
    destruct (inv_partner_left _ _ _ _ _ _ I Hq) as [k Hk].
    assert ((k, k') ∈ pairs_of (mem w) (inorder tl).*1) as Hin
        by (apply (view_left_elem _ _ _ _ _ _ I); eauto).
    rewrite Hp in Hin. apply source_pairs in Hin as (p' & Hp' & Hr'); [|done].
    rewrite Cr in Heq. simpl in Heq.
    pose proof (find_t_complete _ Wr tro r p' k' Sro Hr' Heq) as F1.
    pose proof (find_t_self _ Wr tro p r Sro Hr) as F2.
    assert (p' = p) as -> by congruence.
    pose proof (distinct_NoDup _ (inv_distinct_left _ _ _ _ Io)) as Hnd.
    rewrite Ho, fmap_app, fmap_cons in Hnd.
    apply NoDup_app in Hnd as (_ & Hd & _).
    apply (Hd p); [|left]. apply list_elem_of_fmap. by exists (p, k).
Qed.
End CopyLoop.

Section CopyRun.
Context {L R : Type}.
Local Abbreviation world := (@world L R).
Local Abbreviation bimap := (@bimap L R).
Implicit Types (w : world) (b : bimap) (tl : tree L) (tr : tree R).

Variables (w0 : world) (bo : bimap) (tlo : tree L) (tro : tree R).
Hypothesis Io : inv w0 bo tlo tro.
Variable fuel : nat.
Hypothesis Hfuel : (count tlo + 2 ≤ fuel)%nat.

Lemma insert_all_loop_S n (it : left_iterator) (s : world * bimap) :
  insert_all_loop (S n) fuel bo it s
  = (if iter_ne it (end_left bo) then
       let* l := in_world (star_left it) in
       let* r := in_world (star_right (flip it)) in
       bimap_insert fuel l r;;
       let* iter' := in_world (incr fuel it) in
       insert_all_loop n fuel bo iter'
     else ret tt) s.
Proof. done. Qed.

Lemma copying_insert w b tl tr pre p l r suf :
  copying (mem w0) bo tlo w b tl tr pre →
  inorder tlo = pre ++ (p, l) :: suf → (p, r) ∈ inorder tro →
  allocation_succeeds w →
  ∃ w1 b1 tl1 tr1 it,
    insert_impl fuel l r (w, b) = Ok it (w1, b1) ∧
    copying (mem w0) bo tlo w1 b1 tl1 tr1 (pre ++ [(p, l)]).
Proof using Io Hfuel.
  intros C Ho Hr Ha.
  destruct (copying_absent w0 bo tlo tro Io _ _ _ _ _ _ _ _ _ C Ho Hr)
    as [Fl Fr].
  pose proof (copying_count w0 bo tlo tro Io _ _ _ _ _ C) as Hc.
  destruct C as (I & Hdis & Hdom & Hag & Cl & Cr & [Hs Hlen] & Hp).
  assert (count tl + 2 ≤ fuel)%nat as Hf.
  { rewrite Hc. rewrite <- (inorder_length tlo), Ho, length_app in Hfuel.
    clear -Hfuel. lia. }
  destruct (insert_obs w b tl tr fuel l r I Hf Fl Fr Ha)
    as (w1 & b1 & Hi & I1 & (E1 & C1 & C2 & F1 & A1) & _ & _ & Hd1 & _ & _
        & (pre1 & post1 & V1 & V2) & _).
  eexists w1, b1, _, _, _. split; [exact Hi|].
  assert (footprint b1 (insert_t (cmp (treap_left b)) tl
            (fresh (dom (mem w))) l (rand w (seed w)))
          = {[fresh (dom (mem w))]} ∪ footprint b tl) as Hfp.
  { unfold footprint. rewrite insert_t_tset, E1. clear. set_solver. }
  assert (fresh (dom (mem w)) ∉ dom (mem w0) ∪ footprint b tl) as Hfresh
      by (rewrite <- Hdom; apply is_fresh).
  split; [exact I1|]. split.
  { rewrite Hfp. clear -Hdis Hfresh. set_solver. }
  split. { rewrite Hd1, Hfp, Hdom. clear. set_solver. }
  split.
  { intros q Hq. rewrite <- (Hag q Hq). apply A1.
    - rewrite Hdom. clear -Hq. set_solver.
    - clear -Hq Hdis. set_solver. }
  split; [congruence|]. split; [congruence|]. split.
  { split; [rewrite Ho; clear; set_solver|].
    rewrite <- (inorder_length tlo), Ho, !length_app. simpl. clear. lia. }
  rewrite V2, fmap_app, pairs_of_app. change ([(p, l)].*1) with [p].
  rewrite (pairs_of_cons _ _ _ (l, r)).
  2:{ apply (inv_pair_at _ _ _ _ _ _ _ Io); [|done]. rewrite Ho.
      clear. set_solver. }
  rewrite <- Hp, V1. change (pairs_of (mem w0) []) with (@nil (L * R)).
  rewrite <- Permutation_middle. by rewrite <- Permutation_cons_append.
Qed.

Lemma insert_all_loop_spec (suf : list (ptr * L)) :
  ∀ n w b tl tr pre,
  inorder tlo = pre ++ suf →
  copying (mem w0) bo tlo w b tl tr pre → (length suf < n)%nat →
  insert_all_loop n fuel bo
    (Iterator (Some (head_ptr suf (end_node bo)))) (w, b)
  = insert_list fuel (pairs_of (mem w0) suf.*1) (w, b) ∧
  ((∃ w' b' tl' tr',
       insert_list fuel (pairs_of (mem w0) suf.*1) (w, b)
       = Ok tt (w', b') ∧
       copying (mem w0) bo tlo w' b' tl' tr' (pre ++ suf)) ∨
   (∃ w' b' tl' tr' pre',
       insert_list fuel (pairs_of (mem w0) suf.*1) (w, b)
       = Throw bad_alloc (w', b') ∧
       copying (mem w0) bo tlo w' b' tl' tr' pre')).
Proof using Io Hfuel.
  induction suf as [|[p l] suf IH]; intros n w b tl tr pre Ho C Hn.
  - destruct n as [|n]; [simpl in Hn; lia|]. rewrite insert_all_loop_S.
    simpl. rewrite <- (end_left_eq _ _ _ _ Io), iter_ne_refl.
    split; [done|]. left. exists w, b, tl, tr. rewrite app_nil_r. done.
  - destruct n as [|n]; [simpl in Hn; lia|]. rewrite insert_all_loop_S.
    pose proof (copying_source w0 bo tlo tro Io _ _ _ _ _ C) as Iw.
    assert ((p, l) ∈ inorder tlo) as Hl by (rewrite Ho; clear; set_solver).
    destruct (inv_partner_right _ _ _ _ _ _ Io Hl) as [r Hr].
    change (head_ptr ((p, l) :: suf) (end_node bo)) with p.
    rewrite (iter_ne_end_left _ _ _ _ _ Iw) by (apply tset_inorder; eauto).
    rewrite (bind_ok (in_world_ok (star_left_spec _ _ _ _ _ _ Iw Hl))).
    rewrite (bind_ok (in_world_ok (b:=b) (star_right_spec _ _ _ _ _ _ Iw Hr))).
    rewrite fmap_cons. change ((p, l).1) with p.
    rewrite (pairs_of_cons _ _ _ (l, r))
      by exact (inv_pair_at _ _ _ _ _ _ _ Io Hl Hr).
    change (insert_list fuel ((l, r) :: ?ps))
      with (insert_impl fuel l r;; insert_list fuel ps).
    unfold bimap_insert.
    destruct (allocation_cases w) as [Ha|Ha].
    + destruct (copying_insert w b tl tr pre p l r suf C Ho Hr Ha)
        as (w1 & b1 & tl1 & tr1 & it & Hi & C1).
      rewrite !(bind_ok Hi).
      pose proof (copying_source w0 bo tlo tro Io _ _ _ _ _ C1) as Iw1.
      assert (incr fuel (Iterator (tg:=tag_left) (Some p)) w1
              = Ok (Iterator (Some (head_ptr suf (end_node bo)))) w1) as Hinc.
      { rewrite (incr_left_spec _ _ _ _ fuel p Iw1);
          [|apply tset_inorder; eauto|done].
        rewrite Ho.
        rewrite (successor_split pre suf (p, l)); [done|].
        rewrite <- Ho. apply distinct_NoDup.
        exact (inv_distinct_left _ _ _ _ Io). }
      rewrite (bind_ok (in_world_ok (b:=b1) Hinc)).
      destruct (IH n w1 b1 tl1 tr1 (pre ++ [(p, l)])) as [E D];
        [by rewrite <- app_assoc|done|simpl in Hn; lia|].
      split; [exact E|].
      rewrite <- app_assoc in D. exact D.
    + destruct (copying_absent w0 bo tlo tro Io _ _ _ _ _ _ _ _ _ C Ho Hr)
        as [Fl Fr].
      pose proof (copying_count w0 bo tlo tro Io _ _ _ _ _ C) as Hc.
      assert (count tl + 2 ≤ fuel)%nat as Hf.
      { rewrite Hc. rewrite <- (inorder_length tlo), Ho, length_app in Hfuel.
        clear -Hfuel. lia. }
      destruct C as (I & C').
      pose proof (insert_throw w b tl tr fuel l r I Hf Fl Fr Ha) as Ht.
      rewrite !(bind_throw _ _ _ _ _ Ht). split; [done|].
      right. exists w, b, tl, tr, pre. split; [done|]. by split.
Qed.
End CopyRun.

Section CopyCtor.
Context {L R : Type}.
Local Abbreviation world := (@world L R).
Local Abbreviation bimap := (@bimap L R).
Implicit Types (w : world) (b : bimap) (tl : tree L) (tr : tree R).

Lemma copying_start w0 bo tlo tro :
  inv w0 bo tlo tro → (fresh (dom (mem w0)) < addr_limit)%positive →
  copying (mem w0) bo tlo (born w0)
    (newborn (cmp (treap_left bo)) (cmp (treap_right bo)) w0) Leaf Leaf [].
Proof.
  intros Io Hlt. pose proof (is_fresh (dom (mem w0))) as Hfr.
  split. { apply inv_born; [apply Io|apply Io|done]. }
  unfold footprint. simpl.
  split; [clear -Hfr; set_solver|].
  split. { rewrite dom_insert_L. clear. set_solver. }
  split. { intros q Hq. apply lookup_insert_ne. by intros <-. }
  split; [done|]. split; [done|]. split; [|done].
  split; [apply list_subseteq_nil|simpl; clear; lia].
Qed.

Lemma copying_done w0 bo tlo tro w b tl tr :
  inv w0 bo tlo tro →
  copying (mem w0) bo tlo w b tl tr (inorder tlo) →
  pairs_of (mem w) (inorder tl).*1 = pairs_of (mem w0) (inorder tlo).*1.
Proof.
  intros Io (I & _ & _ & _ & Cl & _ & _ & Hp).
  pose proof (inv_swo_left _ _ _ _ Io) as [Hirr Htr _].
  eapply (sorted_perm_eq (λ x y, cmp (treap_left bo) x.1 y.1 = true));
    [| | | |exact Hp].
  - intros x. by rewrite Hirr.
  - intros x y z. apply Htr.
  - rewrite <- Cl. by eapply view_left_sorted.
  - by eapply view_left_sorted.
Qed.

(** Giving up a half-built copy restores the heap. *)
Lemma copying_undone w0 bo tlo tro w b tl tr pre fuel :
  inv w0 bo tlo tro → (count tlo + 2 ≤ fuel)%nat →
  copying (mem w0) bo tlo w b tl tr pre →
  ∃ w2 b2 w3,
    erase_all fuel (w, b) = Ok tt (w2, b2) ∧
    release_object b2 w2 = Ok tt w3 ∧ mem w3 = mem w0.
Proof.
  intros Io Hfuel C.
  pose proof (copying_count w0 bo tlo tro Io _ _ _ _ _ C) as Hc.
  destruct C as (I & Hdis & Hdom & Hag & _ & _ & [_ Hlen] & _).
  assert (count tl + 2 ≤ fuel)%nat as Hf by lia.
  destruct (erase_all_spec w b tl tr fuel I Hf)
    as (w2 & b2 & He & I2 & (E & _ & _ & _ & A) & _ & _ & Hd2).
  assert (end_node b ∉ tset tl) as Hnt
      by (by destruct (inv_left _ _ _ _ I) as ((_ & _ & _ & _ & ?) & _)).
  assert (end_node b ∉ dom (mem w0)) as Hn0
      by (unfold footprint in Hdis; clear -Hdis; set_solver).
  assert (dom (mem w2) = dom (mem w0) ∪ {[end_node b]}) as Hd2'.
  { rewrite Hd2, Hdom. unfold footprint in *. clear -Hdis Hnt. set_solver. }
  assert (is_Some (mem w2 !! end_node b)) as [c Hc2].
  { apply elem_of_dom. rewrite Hd2'. clear. set_solver. }
  exists w2, b2, (with_mem (delete (end_node b) (mem w2)) w2).
  split; [exact He|]. split.
  { unfold release_object. rewrite E. by eapply operator_delete_ok. }
  simpl. apply map_eq. intros q.
  destruct (decide (q = end_node b)) as [->|Hne].
  - rewrite lookup_delete_eq. symmetry. by apply not_elem_of_dom.
  - rewrite lookup_delete_ne by done.
    destruct (decide (q ∈ dom (mem w0))) as [Hq|Hq].
    + rewrite <- (Hag q Hq). apply A.
      * rewrite Hdom. clear -Hq. set_solver.
      * clear -Hq Hdis. set_solver.
    + rewrite (proj1 (not_elem_of_dom (mem w0) q) Hq).
      apply not_elem_of_dom. rewrite Hd2'. clear -Hq Hne. set_solver.
Qed.
End CopyCtor.

Set Default Proof Using "Type".

Section CopyOutcome.
Context {L R : Type}.
Local Abbreviation world := (@world L R).
Local Abbreviation bimap := (@bimap L R).
Implicit Types (w : world) (b : bimap) (tl : tree L) (tr : tree R).

Lemma copy_ctor_body w0 bo fuel :
  (fresh (dom (mem w0)) < addr_limit)%positive →
  bimap_copy_ctor fuel bo w0
  = construct_with
      (newborn (cmp (treap_left bo)) (cmp (treap_right bo)) w0)
      (try_catch_rethrow (insert_all fuel bo) (erase_all fuel)) (born w0).
Proof.
  intros Hlt. unfold bimap_copy_ctor. apply ctor_prefix; [done|].
  intros s s' Hv. unfold try_catch_rethrow. by rewrite (bind_ok Hv).
Qed.

Lemma insert_all_eq w0 bo tlo tro fuel :
  inv w0 bo tlo tro → (count tlo + 2 ≤ fuel)%nat →
  (fresh (dom (mem w0)) < addr_limit)%positive →
  let b0 := newborn (cmp (treap_left bo)) (cmp (treap_right bo)) w0 in
  let ps := pairs_of (mem w0) (inorder tlo).*1 in
  insert_all fuel bo (born w0, b0) = insert_list fuel ps (born w0, b0) ∧
  ((∃ w' b' tl' tr',
       insert_list fuel ps (born w0, b0) = Ok tt (w', b') ∧
       copying (mem w0) bo tlo w' b' tl' tr' (inorder tlo)) ∨
   (∃ w' b' tl' tr' pre',
       insert_list fuel ps (born w0, b0) = Throw bad_alloc (w', b') ∧
       copying (mem w0) bo tlo w' b' tl' tr' pre')).
Proof.
  intros Io Hf Hlt b0 ps.
  pose proof (copying_start w0 bo tlo tro Io Hlt) as C0.
  pose proof (copying_source w0 bo tlo tro Io _ _ _ _ _ C0) as Iw.
  unfold insert_all.
  rewrite (bind_ok (in_world_ok (b:=b0) (begin_left_spec _ _ _ _ _ Iw Hf))).
  apply (insert_all_loop_spec w0 bo tlo tro Io fuel Hf (inorder tlo) fuel
           (born w0) b0 Leaf Leaf []); [done|done|].
  rewrite inorder_length. clear -Hf. lia.
Qed.

(** What the copy constructor does. *)
Lemma copy_ctor_obs w0 bo tlo tro fuel :
  inv w0 bo tlo tro → (count tlo + 2 ≤ fuel)%nat →
  (fresh (dom (mem w0)) < addr_limit)%positive →
  let b0 := newborn (cmp (treap_left bo)) (cmp (treap_right bo)) w0 in
  let ps := pairs_of (mem w0) (inorder tlo).*1 in
  (∃ w' b' tl' tr',
      insert_list fuel ps (born w0, b0) = Ok tt (w', b') ∧
      bimap_copy_ctor fuel bo w0 = Ok b' w' ∧
      inv w' b' tl' tr' ∧ inv w' bo tlo tro ∧
      footprint b' tl' ## dom (mem w0) ∧
      dom (mem w') = dom (mem w0) ∪ footprint b' tl' ∧
      (∀ q, q ∈ dom (mem w0) → mem w' !! q = mem w0 !! q) ∧
      cmp (treap_left b') = cmp (treap_left bo) ∧
      cmp (treap_right b') = cmp (treap_right bo) ∧
      pairs_of (mem w') (inorder tl').*1 = ps) ∨
  (∃ w1 b1 w',
      insert_list fuel ps (born w0, b0) = Throw bad_alloc (w1, b1) ∧
      bimap_copy_ctor fuel bo w0 = Throw bad_alloc w' ∧
      mem w' = mem w0).
Proof.
  intros Io Hf Hlt b0 ps.
  destruct (insert_all_eq w0 bo tlo tro fuel Io Hf Hlt) as [E D].
  fold b0 ps in E, D.
  rewrite (copy_ctor_body _ _ _ Hlt). fold b0.
  unfold construct_with, try_catch_rethrow. rewrite E.
  destruct D as [(w' & b' & tl' & tr' & Hr & C)
                |(w1 & b1 & tl1 & tr1 & pre' & Hr & C)].
  - left. exists w', b', tl', tr'. rewrite Hr. simpl.
    pose proof (copying_source w0 bo tlo tro Io _ _ _ _ _ C) as Iw.
    pose proof (copying_done _ _ _ _ _ _ _ _ Io C) as Hp.
    destruct C as (I & Hdis & Hdom & Hag & Cl & Cr & _ & _).
    done.
  - right.
    destruct (copying_undone _ _ _ _ _ _ _ _ _ fuel Io Hf C)
      as (w2 & b2 & w3 & He & Hrel & Hm).
    exists w1, b1, w3. rewrite Hr, He. simpl. rewrite Hrel. done.
Qed.

Lemma copy_ctor_no_room w0 bo fuel :
  ¬ (fresh (dom (mem w0)) < addr_limit)%positive →
  bimap_copy_ctor fuel bo w0 = Throw bad_alloc w0.
Proof. apply ctor_prefix_throw. Qed.
End CopyOutcome.

Set Default Proof Using "Type".

Section Equality.
Context {L R : Type}.
Local Abbreviation world := (@world L R).
Local Abbreviation bimap := (@bimap L R).
Implicit Types (w : world) (b : bimap) (tl : tree L) (tr : tree R).
Variables (eq_left : L → L → bool) (eq_right : R → R → bool).

Lemma equal_loop_S n fuel b (it1 it2 : left_iterator) (w : world) :
  equal_loop eq_left eq_right (S n) fuel b it1 it2 w
  = (if iter_ne it1 (end_left b) then
       let* l1 := star_left it1 in
       let* l2 := star_left it2 in
       let* differ :=
         (if negb (eq_left l1 l2) then ret true
          else let* r1 := star_right (flip it1) in
               let* r2 := star_right (flip it2) in
               ret (negb (eq_right r1 r2))) in
       if differ : bool then ret false
       else
         let* it1' := incr fuel it1 in
         let* it2' := incr fuel it2 in
         equal_loop eq_left eq_right n fuel b it1' it2'
     else ret true) w.
Proof. done. Qed.

Lemma equal_loop_spec w b1 tl1 tr1 b2 tl2 tr2 fuel :
  inv w b1 tl1 tr1 → inv w b2 tl2 tr2 →
  (count tl1 + 2 ≤ fuel)%nat → (count tl2 + 2 ≤ fuel)%nat →
  ∀ suf1 suf2 n pre1 pre2,
  inorder tl1 = pre1 ++ suf1 → inorder tl2 = pre2 ++ suf2 →
  length suf1 = length suf2 → (length suf1 < n)%nat →
  equal_loop eq_left eq_right n fuel b1
    (Iterator (Some (head_ptr suf1 (end_node b1))))
    (Iterator (Some (head_ptr suf2 (end_node b2)))) w
  = Ok (same_pairs eq_left eq_right (pairs_of (mem w) suf1.*1)
          (pairs_of (mem w) suf2.*1)) w.
Proof.
  intros I1 I2 Hf1 Hf2.
  induction suf1 as [|[p1 l1] suf1 IH];
    intros [|[p2 l2] suf2] n pre1 pre2 Ho1 Ho2 Hlen Hn; try done.
  - destruct n as [|n]; [simpl in Hn; lia|]. rewrite equal_loop_S. simpl.
    by rewrite <- (end_left_eq _ _ _ _ I1), iter_ne_refl.
  - destruct n as [|n]; [simpl in Hn; lia|]. rewrite equal_loop_S.
    assert ((p1, l1) ∈ inorder tl1) as Hl1 by (rewrite Ho1; clear; set_solver).
    assert ((p2, l2) ∈ inorder tl2) as Hl2 by (rewrite Ho2; clear; set_solver).
    destruct (inv_partner_right _ _ _ _ _ _ I1 Hl1) as [r1 Hr1].
    destruct (inv_partner_right _ _ _ _ _ _ I2 Hl2) as [r2 Hr2].
    change (head_ptr ((p1, l1) :: suf1) (end_node b1)) with p1.
    change (head_ptr ((p2, l2) :: suf2) (end_node b2)) with p2.
    rewrite (iter_ne_end_left _ _ _ _ _ I1) by (apply tset_inorder; eauto).
    rewrite (bind_ok (star_left_spec _ _ _ _ _ _ I1 Hl1)).
    rewrite (bind_ok (star_left_spec _ _ _ _ _ _ I2 Hl2)).
    rewrite !fmap_cons. change ((p1, l1).1) with p1. change ((p2, l2).1) with p2.
    rewrite (pairs_of_cons _ _ _ (l1, r1))
      by exact (inv_pair_at _ _ _ _ _ _ _ I1 Hl1 Hr1).
    rewrite (pairs_of_cons _ _ _ (l2, r2))
      by exact (inv_pair_at _ _ _ _ _ _ _ I2 Hl2 Hr2).
    cbn [same_pairs fst snd].
    destruct (eq_left l1 l2); cbn [negb andb]; [|by rewrite bind_ret].
    rewrite bind_assoc.
    unfold flip. cbn [node].
    rewrite (bind_ok (star_right_spec _ _ _ _ _ _ I1 Hr1)).
    rewrite bind_assoc.
    rewrite (bind_ok (star_right_spec _ _ _ _ _ _ I2 Hr2)).
    rewrite bind_ret.
    destruct (eq_right r1 r2); cbn [negb andb]; [|done].
    rewrite (bind_ok (incr_left_spec _ _ _ _ fuel p1 I1
                        ltac:(apply tset_inorder; eauto) Hf1)).
    rewrite (bind_ok (incr_left_spec _ _ _ _ fuel p2 I2
                        ltac:(apply tset_inorder; eauto) Hf2)).
    rewrite Ho1, Ho2.
    rewrite (successor_split pre1 suf1 (p1, l1)).
    2:{ rewrite <- Ho1. apply distinct_NoDup.
        exact (inv_distinct_left _ _ _ _ I1). }
    rewrite (successor_split pre2 suf2 (p2, l2)).
    2:{ rewrite <- Ho2. apply distinct_NoDup.
        exact (inv_distinct_left _ _ _ _ I2). }
    apply (IH suf2 n (pre1 ++ [(p1, l1)]) (pre2 ++ [(p2, l2)])).
    + by rewrite <- app_assoc.
    + by rewrite <- app_assoc.
    + simpl in Hlen. lia.
    + simpl in Hn. lia.
Qed.

Lemma bimap_eq_spec w b1 tl1 tr1 b2 tl2 tr2 fuel :
  inv w b1 tl1 tr1 → inv w b2 tl2 tr2 →
  (count tl1 + 2 ≤ fuel)%nat → (count tl2 + 2 ≤ fuel)%nat →
  bimap_eq eq_left eq_right fuel b1 b2 w
  = Ok (bool_decide (size_ b1 = size_ b2) &&
        same_pairs eq_left eq_right
          (pairs_of (mem w) (inorder tl1).*1)
          (pairs_of (mem w) (inorder tl2).*1)) w.
Proof.
  intros I1 I2 Hf1 Hf2. unfold bimap_eq, bimap_size.
  case_bool_decide as Hsz; cbn [negb andb]; [|done].
  rewrite (bind_ok (begin_left_spec _ _ _ _ _ I1 Hf1)).
  rewrite (bind_ok (begin_left_spec _ _ _ _ _ I2 Hf2)).
  apply (equal_loop_spec w b1 tl1 tr1 b2 tl2 tr2 fuel I1 I2 Hf1 Hf2
           (inorder tl1) (inorder tl2) fuel [] []); [done|done| |].
  - rewrite !inorder_length.
    rewrite (inv_size _ _ _ _ I1), (inv_size _ _ _ _ I2) in Hsz. lia.
  - rewrite inorder_length. lia.
Qed.

Lemma same_pairs_refl (ps : list (L * R)) :
  (∀ x, eq_left x x = true) → (∀ y, eq_right y y = true) →
  same_pairs eq_left eq_right ps ps = true.
Proof.
  intros Hl Hr. induction ps as [|x ps IH]; [done|].
  simpl. by rewrite Hl, Hr, IH.
Qed.

Lemma same_pairs_Forall2 (ps1 ps2 : list (L * R)) :
  same_pairs eq_left eq_right ps1 ps2 = true ↔
  Forall2 (λ x y, eq_left x.1 y.1 = true ∧ eq_right x.2 y.2 = true) ps1 ps2.
Proof.
  revert ps2. induction ps1 as [|x ps1 IH]; intros [|y ps2]; simpl.
  - split; [constructor|done].
  - split; [done|]. intros H. inversion H.
  - split; [done|]. intros H. inversion H.
  - rewrite !andb_true_iff, IH. split.
    + intros [[? ?] ?]. by constructor.
    + intros H. inversion H; subst. tauto.
Qed.
End Equality.

Set Default Proof Using "Type".

Lemma split_unique {A} (a b a' b' : list A) x :
  NoDup (a ++ x :: b) → a ++ x :: b = a' ++ x :: b' → a = a' ∧ b = b'.
Proof.
  revert a'. induction a as [|y a IH]; intros [|y' a'] Hnd E; simpl in *.
  - by injection E.
  - injection E as <- E. apply NoDup_cons in Hnd as [Hx _].
    exfalso. apply Hx. rewrite E. set_solver.
  - injection E as -> E. apply NoDup_cons in Hnd as [Hx _].
    exfalso. apply Hx. set_solver.
  - injection E as -> E. apply NoDup_cons in Hnd as [_ Hnd].
    destruct (IH a' Hnd E) as [-> ->]. done.
Qed.

Section RangeSplit.
Context {L R : Type}.
Local Abbreviation world := (@world L R).
Local Abbreviation bimap := (@bimap L R).
Implicit Types (w : world) (b : bimap) (tl : tree L) (tr : tree R).

(** Stepping a cursor of a view, on the records of the view alone. *)
Lemma ranges_split (e : ptr) (s : list ptr) p nxt :
  NoDup s → (e ∉ s) → p ∈ s →
  (∀ s1 s2, s = s1 ++ p :: s2 → nxt = hd_or e s2) →
  ∀ pre mid post, s = pre ++ mid ++ post →
    nxt = hd_or e (mid ++ post) →
    ∃ pre', pre = pre' ++ [p].
Proof.
  intros Hnd He Hp Hnxt pre mid post Hs Hn.
  apply list_elem_of_split in Hp as (s1 & s2 & Hs12).
  specialize (Hnxt s1 s2 Hs12). exists s1.
  destruct (mid ++ post) as [|x rest] eqn:E.
  - rewrite app_nil_r in Hs. simpl in Hn. subst nxt.
    destruct s2 as [|y s2].
    + by rewrite <- Hs, Hs12.
    + simpl in Hn. exfalso. apply He. rewrite Hs12, Hn. set_solver.
  - simpl in Hn. subst nxt. destruct s2 as [|y s2].
    + simpl in Hn. exfalso. apply He. rewrite Hs, <- Hn. set_solver.
    + simpl in Hn. subst y.
      assert (s = (s1 ++ [p]) ++ x :: s2) as Hs' by (by rewrite <- app_assoc).
      rewrite Hs in Hs'. rewrite Hs in Hnd.
      by destruct (split_unique _ _ _ _ _ Hnd Hs').
Qed.

Lemma range_left_split w b tl tr fuel first last :
  inv w b tl tr → (count tl + 2 ≤ fuel)%nat →
  range_left fuel w b first last →
  ∃ pre mid post,
    (inorder tl).*1 = pre ++ mid ++ post ∧
    first = Iterator (Some (hd_or (end_node b) (mid ++ post))) ∧
    last = Iterator (Some (hd_or (end_node b) post)).
Proof.
  intros I Hf Hr.
  pose proof (distinct_NoDup _ (inv_distinct_left _ _ _ _ I)) as Hnd.
  assert (end_node b ∉ (inorder tl).*1) as He.
  { rewrite <- tset_fst.
    by destruct (inv_left _ _ _ _ I) as ((_ & _ & _ & _ & ?) & _). }
  induction Hr as [|it l r Hv|it it' last l r Hv Hinc Hr IH].
  - exists (inorder tl).*1, [], []. rewrite !app_nil_r.
    by rewrite (end_left_eq _ _ _ _ I).
  - apply (valid_left_inv _ _ _ _ _ _ _ _ I Hf) in Hv as (p & -> & Hl & _).
    assert (p ∈ (inorder tl).*1) as Hp
        by (apply list_elem_of_fmap; by exists (p, l)).
    apply list_elem_of_split in Hp as (s1 & s2 & Hs).
    exists s1, [], (p :: s2). done.
  - apply (valid_left_inv _ _ _ _ _ _ _ _ I Hf) in Hv as (p & -> & Hl & _).
    assert (p ∈ tset tl) as Hpt by (apply tset_inorder; eauto).
    rewrite (incr_left_spec _ _ _ _ fuel p I Hpt Hf) in Hinc.
    injection Hinc as <-.
    destruct IH as (pre & mid & post & Hs & Hfirst & ->).
    injection Hfirst as Hfirst.
    destruct (ranges_split (end_node b) (inorder tl).*1 p
                (successor (inorder tl) p (end_node b)) Hnd He
                ltac:(by apply tset_fst)) with (pre:=pre) (mid:=mid)
                (post:=post) as [pre' ->]; [|done|done|].
    { intros s1 s2 Hs12. by eapply successor_order. }
    exists pre', (p :: mid), post. rewrite Hs, <- app_assoc. done.
Qed.

Lemma range_right_split w b tl tr fuel first last :
  inv w b tl tr → (count tl + 2 ≤ fuel)%nat →
  range_right fuel w b first last →
  ∃ pre mid post,
    (inorder tr).*1 = pre ++ mid ++ post ∧
    first = Iterator (Some (hd_or (end_node b) (mid ++ post))) ∧
    last = Iterator (Some (hd_or (end_node b) post)).
Proof.
  intros I Hf Hr.
  pose proof (distinct_NoDup _ (inv_distinct_right _ _ _ _ I)) as Hnd.
  assert (end_node b ∉ (inorder tr).*1) as He.
  { rewrite <- tset_fst.
    by destruct (inv_right _ _ _ _ I) as ((_ & _ & _ & _ & ?) & _). }
  induction Hr as [|it l r Hv|it it' last l r Hv Hinc Hr IH].
  - exists (inorder tr).*1, [], []. rewrite !app_nil_r.
    by rewrite (end_right_eq _ _ _ _ I).
  - apply (valid_right_inv _ _ _ _ _ _ _ _ I Hf) in Hv as (p & -> & _ & Hl).
    assert (p ∈ (inorder tr).*1) as Hp
        by (apply list_elem_of_fmap; by exists (p, r)).
    apply list_elem_of_split in Hp as (s1 & s2 & Hs).
    exists s1, [], (p :: s2). done.
  - apply (valid_right_inv _ _ _ _ _ _ _ _ I Hf) in Hv as (p & -> & _ & Hl).
    assert (p ∈ tset tr) as Hpt by (apply tset_inorder; eauto).
    rewrite (incr_right_spec _ _ _ _ fuel p I Hpt Hf) in Hinc.
    injection Hinc as <-.
    destruct IH as (pre & mid & post & Hs & Hfirst & ->).
    injection Hfirst as Hfirst.
    destruct (ranges_split (end_node b) (inorder tr).*1 p
                (successor (inorder tr) p (end_node b)) Hnd He
                ltac:(by apply tset_fst)) with (pre:=pre) (mid:=mid)
                (post:=post) as [pre' ->]; [|done|done|].
    { intros s1 s2 Hs12. by eapply successor_order. }
    exists pre', (p :: mid), post. rewrite Hs, <- app_assoc. done.
Qed.

Lemma erase_range_settles tg w b tl tr fuel pre mid post :
  inv w b tl tr → (count tl + 2 ≤ fuel)%nat →
  order tg tl tr = pre ++ mid ++ post →
  settles (erase_range (tg:=tg) fuel
             (Iterator (Some (hd_or (end_node b) (mid ++ post))))
             (Iterator (Some (hd_or (end_node b) post)))) w b tl.
Proof.
  intros I Hf Ho.
  destruct (erase_range_loop_spec tg fuel mid fuel w b tl tr pre post I Hf Ho)
    as (w' & b' & tl' & tr' & Hrun & I' & Fr & _).
  { assert (length (order tg tl tr) = count tl) as Hlen.
    { destruct tg; simpl; rewrite length_fmap, inorder_length; [done|].
      symmetry. by eapply inv_count. }
    rewrite Ho, !length_app in Hlen. lia. }
  exists w', b'. split; [left; eauto|]. by exists tl', tr'.
Qed.
End RangeSplit.

Set Default Proof Using "Type".

Section SystemFacts.
Context {L R : Type}.
Local Abbreviation world := (@world L R).
Local Abbreviation bimap := (@bimap L R).
Implicit Types (w : world) (b : bimap) (tl : tree L) (tr : tree R).

Lemma sys_inv_lookup w bs i b :
  sys_inv w bs → bs !! i = Some b → ∃ tl tr, inv w b tl tr.
Proof.
  intros (ts & Hlen & Hinv & _) Hb.
  destruct (lookup_lt_is_Some_2 ts i) as [t Ht].
  { rewrite Hlen. by eapply lookup_lt_Some. }
  exists t.1, t.2. by eapply Hinv.
Qed.

Lemma sys_inv_nil w : sys_inv w [].
Proof. exists []. split; [done|]. split; intros; by simplify_eq. Qed.

(** A new object beside the old ones. *)
Lemma sys_inv_new w bs w' b tl tr :
  sys_inv w bs → inv w' b tl tr →
  footprint b tl ## dom (mem w) →
  (∀ q, q ∈ dom (mem w) → mem w' !! q = mem w !! q) →
  sys_inv w' (bs ++ [b]).
Proof.
  intros (ts & Hlen & Hinv & Hdis) I Hfp Hag.
  exists (ts ++ [(tl, tr)]). split; [by rewrite !length_app, Hlen|].
  assert (∀ i b1 t1, bs !! i = Some b1 → ts !! i = Some t1 →
                     footprint b1 t1.1 ⊆ dom (mem w)) as Hsub.
  { intros i b1 t1 H1 H2. eapply inv_footprint_dom. by eapply Hinv. }
  split.
  - intros i b1 t1 Hb Ht.
    apply lookup_snoc_Some in Hb as [[Hi Hb]|[-> <-]].
    + rewrite lookup_app_l in Ht by (by rewrite Hlen).
      eapply inv_frame; [by eapply Hinv|].
      intros p Hp. apply Hag. by eapply Hsub.
    + rewrite <- Hlen in Ht. rewrite list_lookup_middle in Ht by done.
      by injection Ht as <-.
  - intros i j b1 b2 t1 t2 Hne Hb1 Hb2 Ht1 Ht2.
    apply lookup_snoc_Some in Hb1 as [[Hi Hb1]|[-> <-]];
      apply lookup_snoc_Some in Hb2 as [[Hj Hb2]|[-> <-]].
    + rewrite lookup_app_l in Ht1 by (by rewrite Hlen).
      rewrite lookup_app_l in Ht2 by (by rewrite Hlen).
      by eapply (Hdis i j).
    + rewrite lookup_app_l in Ht1 by (by rewrite Hlen).
      rewrite <- Hlen in Ht2. rewrite list_lookup_middle in Ht2 by done.
      injection Ht2 as <-. simpl.
      pose proof (Hsub _ _ _ Hb1 Ht1). set_solver.
    + rewrite lookup_app_l in Ht2 by (by rewrite Hlen).
      rewrite <- Hlen in Ht1. rewrite list_lookup_middle in Ht1 by done.
      injection Ht1 as <-. simpl.
      pose proof (Hsub _ _ _ Hb2 Ht2). set_solver.
    + done.
Qed.

(** A heap that kept every record. *)
Lemma sys_inv_same w bs w' :
  sys_inv w bs → mem w' = mem w → sys_inv w' bs.
Proof.
  intros (ts & Hlen & Hinv & Hdis) Hm. exists ts.
  split; [done|]. split; [|done].
  intros i b t Hb Ht. eapply inv_frame; [by eapply Hinv|].
  intros p _. by rewrite Hm.
Qed.

(** A step of one object. *)
Lemma sys_inv_step w bs i b w' b' :
  sys_inv w bs → bs !! i = Some b →
  (∀ tl tr, inv w b tl tr → evolves w b tl w' b') →
  sys_inv w' (<[i := b']> bs).
Proof.
  intros (ts & Hlen & Hinv & Hdis) Hb Hev.
  destruct (lookup_lt_is_Some_2 ts i) as [t Ht].
  { rewrite Hlen. by eapply lookup_lt_Some. }
  destruct (Hev t.1 t.2 (Hinv _ _ _ Hb Ht))
    as (tl' & tr' & I' & (E & _ & _ & Hfp & Hag)).
  pose proof (lookup_lt_Some _ _ _ Hb) as Hi.
  exists (<[i := (tl', tr')]> ts).
  split; [by rewrite !length_insert|].
  assert (∀ j bj tj, j ≠ i → bs !! j = Some bj → ts !! j = Some tj →
            footprint bj tj.1 ⊆ dom (mem w) ∧
            footprint bj tj.1 ## footprint b t.1) as Hother.
  { intros j bj tj Hne Hbj Htj. split.
    - eapply inv_footprint_dom. by eapply Hinv.
    - by eapply (Hdis j i). }
  split.
  - intros j bj tj Hbj Htj.
    destruct (decide (i = j)) as [<-|Hne].
    + rewrite list_lookup_insert_eq in Hbj by done.
      rewrite list_lookup_insert_eq in Htj by (by rewrite Hlen).
      by simplify_eq.
    + rewrite list_lookup_insert_ne in Hbj by done.
      rewrite list_lookup_insert_ne in Htj by done.
      destruct (Hother j bj tj ltac:(done) Hbj Htj) as [H1 H2].
      eapply inv_frame; [by eapply Hinv|].
      intros p Hp. apply Hag; [by apply H1|]. set_solver.
  - intros j k b1 b2 t1 t2 Hne Hb1 Hb2 Ht1 Ht2.
    destruct (decide (i = j)) as [<-|Hnj];
      destruct (decide (i = k)) as [<-|Hnk]; try done.
    + rewrite list_lookup_insert_eq in Hb1 by done.
      rewrite list_lookup_insert_eq in Ht1 by (by rewrite Hlen).
      rewrite list_lookup_insert_ne in Hb2 by done.
      rewrite list_lookup_insert_ne in Ht2 by done.
      simplify_eq. simpl.
      destruct (Hother k b2 t2 ltac:(done) Hb2 Ht2) as [H1 H2].
      intros q Hq1 Hq2. destruct (Hfp q Hq1) as [Hq|Hq].
      * by apply (H2 q).
      * apply Hq. by apply H1.
    + rewrite list_lookup_insert_eq in Hb2 by done.
      rewrite list_lookup_insert_eq in Ht2 by (by rewrite Hlen).
      rewrite list_lookup_insert_ne in Hb1 by done.
      rewrite list_lookup_insert_ne in Ht1 by done.
      simplify_eq. simpl.
      destruct (Hother j b1 t1 ltac:(done) Hb1 Ht1) as [H1 H2].
      intros q Hq1 Hq2. destruct (Hfp q Hq2) as [Hq|Hq].
      * by apply (H2 q).
      * apply Hq. by apply H1.
    + rewrite list_lookup_insert_ne in Hb1 by done.
      rewrite list_lookup_insert_ne in Ht1 by done.
      rewrite list_lookup_insert_ne in Hb2 by done.
      rewrite list_lookup_insert_ne in Ht2 by done.
      by eapply (Hdis j k).
Qed.
End SystemFacts.

Set Default Proof Using "Type".

Section Reachability.
Context {L R : Type}.
Variables (default_left : L) (default_right : R).
Local Abbreviation world := (@world L R).
Local Abbreviation bimap := (@bimap L R).
Implicit Types (w : world) (b : bimap) (tl : tree L) (tr : tree R).

Lemma settles_seq {A} (m : method A) w b tl :
  settles m w b tl → settles (m;; ret tt) w b tl.
Proof.
  intros (w' & b' & [[a H]|H] & Ev); exists w', b'; (split; [|done]).
  - left. exists tt. by rewrite (bind_ok H).
  - right. by apply bind_throw.
Qed.

Lemma settles_finished {A} (m : method A) w b tl w' b' :
  settles m w b tl → finished m w b w' b' → evolves w b tl w' b'.
Proof.
  intros (w1 & b1 & Hout & Ev) Hfin.
  assert ((w1, b1) = (w', b')) as E.
  { destruct Hout as [[a H]|H], Hfin as [[a' H']|[e' H']]; congruence. }
  by injection E as <- <-.
Qed.

Lemma seq_ub {A} (m : method A) w b :
  m (w, b) = UB → (m;; ret tt) (w, b) = UB.
Proof. intros H. by apply bind_ub. Qed.

(** A permitted call ends with the object in order; only
    [at_or_default] can go wrong, on a key whose record is gone. *)
Lemma op_settles fuel w b tl tr o :
  inv w b tl tr → enough fuel b →
  permitted fuel w b o →
  settles (run_op default_left default_right fuel o) w b tl ∨
  run_op default_left default_right fuel o (w, b) = UB.
Proof.
  intros I He Hp.
  pose proof (enough_count _ _ _ _ _ I He) as Hc.
  assert (count tl + 2 ≤ fuel)%nat as Hf by lia.
  destruct o; simpl in *.
  - left. apply settles_seq. by eapply insert_settles.
  - left. apply settles_seq. destruct Hp as (l & r & Hv).
    apply (valid_left_inv _ _ _ _ _ _ _ _ I Hf) in Hv as (p & -> & Hl & _).
    eapply erase_settles; [done|done|]. apply tset_inorder; eauto.
  - left. apply settles_seq. destruct Hp as (l & r & Hv).
    apply (valid_right_inv _ _ _ _ _ _ _ _ I Hf) in Hv as (p & -> & Hl & _).
    eapply erase_settles; [done|done|]. apply tset_inorder; eauto.
  - left. apply settles_seq. by eapply erase_left_key_settles.
  - left. apply settles_seq. by eapply erase_right_key_settles.
  - left. apply settles_seq.
    destruct (range_left_split _ _ _ _ _ _ _ I Hf Hp)
      as (pre & mid & post & Ho & -> & ->).
    by eapply (erase_range_settles tag_left).
  - left. apply settles_seq.
    destruct (range_right_split _ _ _ _ _ _ _ I Hf Hp)
      as (pre & mid & post & Ho & -> & ->).
    by eapply (erase_range_settles tag_right).
  - destruct (at_left_or_default_settles default_right w b tl tr fuel key
                I Hf) as [Hs|Hu].
    + left. by apply settles_seq.
    + right. by apply seq_ub.
  - destruct (at_right_or_default_settles default_left w b tl tr fuel key
                I Hf) as [Hs|Hu].
    + left. by apply settles_seq.
    + right. by apply seq_ub.
Qed.

Lemma reachable_sys_inv w bs :
  reachable default_left default_right w bs → sys_inv w bs.
Proof.
  induction 1 as [w|w bs cl cr b w' _ IH Sl Sr Hc
                 |w bs i bo fuel b w' _ IH Hi He Hc
                 |w bs i bo fuel e w' _ IH Hi He Hc
                 |w bs i b fuel o w' b' _ IH Hi He Hp Hfin].
  - apply sys_inv_nil.
  - destruct (decide (fresh (dom (mem w)) < addr_limit)%positive) as [Hlt|Hn].
    2:{ rewrite (bimap_ctor_throw _ _ _ Hn) in Hc. done. }
    pose proof (bimap_ctor_ok cl cr w Hlt) as E.
    assert (b = newborn cl cr w ∧ w' = born w) as [-> ->]
        by (split; congruence).
    clear E Hc.
    eapply sys_inv_new; [exact IH|exact (inv_born cl cr w Sl Sr Hlt)| |].
    + unfold footprint. simpl. pose proof (is_fresh (dom (mem w))) as Hfr.
      clear -Hfr. set_solver.
    + intros q Hq. simpl. apply lookup_insert_ne. intros <-.
      by apply (is_fresh (dom (mem w))).
  - destruct (sys_inv_lookup _ _ _ _ IH Hi) as (tlo & tro & Io).
    pose proof (enough_count _ _ _ _ _ Io He) as Hcn.
    assert (count tlo + 2 ≤ fuel)%nat as Hf by (clear -Hcn; lia).
    destruct (decide (fresh (dom (mem w)) < addr_limit)%positive) as [Hlt|Hn].
    2:{ rewrite (copy_ctor_no_room _ _ _ Hn) in Hc. done. }
    destruct (copy_ctor_obs w bo tlo tro fuel Io Hf Hlt)
      as [(w1 & b1 & tl1 & tr1 & _ & Hr & I1 & _ & Hdis & _ & Hag & _)
         |(w1 & b1 & w2 & _ & Hr & _)]; [|congruence].
    rewrite Hr in Hc. injection Hc as <- <-.
    by eapply sys_inv_new.
  - destruct (sys_inv_lookup _ _ _ _ IH Hi) as (tlo & tro & Io).
    pose proof (enough_count _ _ _ _ _ Io He) as Hcn.
    assert (count tlo + 2 ≤ fuel)%nat as Hf by (clear -Hcn; lia).
    destruct (decide (fresh (dom (mem w)) < addr_limit)%positive) as [Hlt|Hn].
    2:{ rewrite (copy_ctor_no_room _ _ _ Hn) in Hc. injection Hc as _ <-.
        done. }
    destruct (copy_ctor_obs w bo tlo tro fuel Io Hf Hlt)
      as [(w1 & b1 & tl1 & tr1 & _ & Hr & _)
         |(w1 & b1 & w2 & _ & Hr & Hm)]; [congruence|].
    rewrite Hr in Hc. injection Hc as _ <-.
    by eapply sys_inv_same.
  - eapply sys_inv_step; [exact IH|exact Hi|].
    intros tl tr I.
    destruct (op_settles fuel w b tl tr o I He Hp) as [Hs|Hu].
    + by eapply settles_finished.
    + destruct Hfin as [[a Hfin]|[e Hfin]]; congruence.
Qed.

Lemma reachable_wf w bs i b :
  reachable default_left default_right w bs → bs !! i = Some b →
  ∃ tl tr, inv w b tl tr.
Proof.
  intros Hr Hb. eapply sys_inv_lookup; [|exact Hb].
  by apply reachable_sys_inv.
Qed.
End Reachability.

Set Default Proof Using "Type".

Section ViewLevel.
Context {L R : Type}.
Local Abbreviation world := (@world L R).
Local Abbreviation bimap := (@bimap L R).
Implicit Types (w : world) (b : bimap) (tl : tree L) (tr : tree R).

Lemma view_right_elem w b tl tr l r :
  inv w b tl tr →
  (l, r) ∈ pairs_of (mem w) (inorder tr).*1 ↔
  ∃ p, (p, l) ∈ inorder tl ∧ (p, r) ∈ inorder tr.
Proof.
  intros I. rewrite (views_perm _ _ _ _ I). by eapply view_left_elem.
Qed.

(** A key is found exactly when the view holds an equivalent key. *)
Lemma find_left_view w b tl tr k :
  inv w b tl tr →
  find_t (cmp (treap_left b)) tl k = None ↔
  ∀ x, x ∈ pairs_of (mem w) (inorder tl).*1 →
       ¬ equiv_key (cmp (treap_left b)) x.1 k.
Proof.
  intros I.
  rewrite (find_t_none _ (inv_swo_left _ _ _ _ I) _ _ (inv_sorted_left _ _ _ _ I)).
  split.
  - intros H [l r] Hx. apply (view_left_elem _ _ _ _ _ _ I) in Hx as (p & Hl & _).
    exact (H _ Hl).
  - intros H [p l] Hl. destruct (inv_partner_right _ _ _ _ _ _ I Hl) as [r Hr].
    apply (H (l, r)). apply (view_left_elem _ _ _ _ _ _ I). eauto.
Qed.

Lemma find_right_view w b tl tr k :
  inv w b tl tr →
  find_t (cmp (treap_right b)) tr k = None ↔
  ∀ x, x ∈ pairs_of (mem w) (inorder tl).*1 →
       ¬ equiv_key (cmp (treap_right b)) x.2 k.
Proof.
  intros I.
  rewrite (find_t_none _ (inv_swo_right _ _ _ _ I) _ _ (inv_sorted_right _ _ _ _ I)).
  split.
  - intros H [l r] Hx. apply (view_left_elem _ _ _ _ _ _ I) in Hx as (p & _ & Hr).
    exact (H _ Hr).
  - intros H [p r] Hr. destruct (inv_partner_left _ _ _ _ _ _ I Hr) as [l Hl].
    apply (H (l, r)). apply (view_left_elem _ _ _ _ _ _ I). eauto.
Qed.










End ViewLevel.

Set Default Proof Using "Type".

Lemma sorted_NoDup {A} (lt : A → A → Prop) (l : list A) :
  (∀ x, ¬ lt x x) → StronglySorted lt l → NoDup l.
Proof.
  intros Hirr. induction 1 as [|a l Hs IH Ha]; constructor; [|done].
  intros Hin. rewrite Forall_forall in Ha. by apply (Hirr a), Ha.
Qed.

Section EraseFull.
Context {L R : Type}.
Local Abbreviation world := (@world L R).
Local Abbreviation bimap := (@bimap L R).
Implicit Types (w : world) (b : bimap) (tl : tree L) (tr : tree R).

Lemma view_left_NoDup w b tl tr :
  inv w b tl tr → NoDup (pairs_of (mem w) (inorder tl).*1).
Proof.
  intros I. eapply sorted_NoDup; [|by eapply view_left_sorted].
  intros x. simpl. by rewrite (swo_irrefl _ (inv_swo_left _ _ _ _ I)).
Qed.

Lemma view_right_NoDup w b tl tr :
  inv w b tl tr → NoDup (pairs_of (mem w) (inorder tr).*1).
Proof.
  intros I. eapply sorted_NoDup; [|by eapply view_right_sorted].
  intros x. simpl. by rewrite (swo_irrefl _ (inv_swo_right _ _ _ _ I)).
Qed.

(** The pair at the end of a view has no successor. *)
Lemma last_pair_left w b tl tr p l r pre :
  inv w b tl tr → (p, l) ∈ inorder tl → (p, r) ∈ inorder tr →
  pairs_of (mem w) (inorder tl).*1 = pre ++ [(l, r)] →
  successor (inorder tl) p (end_node b) = end_node b.
Proof.
  intros I Hl Hr Hv.
  pose proof (view_left_NoDup _ _ _ _ I) as Hnd.
  pose proof (distinct_NoDup _ (inv_distinct_left _ _ _ _ I)) as Hndp.
  pose proof (pairs_of_left _ _ _ _ (inorder tl) I ltac:(done)) as HF.
  apply list_elem_of_split in Hl as (s1 & s2 & Hs).
  rewrite Hs in Hndp |- *. rewrite (successor_split s1 s2 (p, l) _ Hndp).
  rewrite Hs in HF. apply Forall2_app_inv_l in HF as (v1 & v2' & _ & HF2 & E).
  apply Forall2_cons_inv_l in HF2 as ([l' r'] & v2 & (Hk & Hr' & _) & HF2 & ->).
  simpl in *. subst l'.
  rewrite (inorder_functional tr p r' r (inv_distinct_right _ _ _ _ I) Hr' Hr)
    in E.
  rewrite Hs, E in Hv. rewrite Hs, E in Hnd.
  destruct (split_unique _ _ _ _ _ Hnd Hv) as [_ ->].
  apply Forall2_nil_inv_r in HF2 as ->. done.
Qed.

Lemma last_pair_right w b tl tr p l r pre :
  inv w b tl tr → (p, l) ∈ inorder tl → (p, r) ∈ inorder tr →
  pairs_of (mem w) (inorder tr).*1 = pre ++ [(l, r)] →
  successor (inorder tr) p (end_node b) = end_node b.
Proof.
  intros I Hl Hr Hv.
  pose proof (view_right_NoDup _ _ _ _ I) as Hnd.
  pose proof (distinct_NoDup _ (inv_distinct_right _ _ _ _ I)) as Hndp.
  pose proof (pairs_of_right _ _ _ _ (inorder tr) I ltac:(done)) as HF.
  apply list_elem_of_split in Hr as (s1 & s2 & Hs).
  rewrite Hs in Hndp |- *. rewrite (successor_split s1 s2 (p, r) _ Hndp).
  rewrite Hs in HF. apply Forall2_app_inv_l in HF as (v1 & v2' & _ & HF2 & E).
  apply Forall2_cons_inv_l in HF2 as ([l' r'] & v2 & (Hk & Hl' & _) & HF2 & ->).
  simpl in *. subst r'.
  rewrite (inorder_functional tl p l' l (inv_distinct_left _ _ _ _ I) Hl' Hl)
    in E.
  rewrite Hs, E in Hv. rewrite Hs, E in Hnd.
  destruct (split_unique _ _ _ _ _ Hnd Hv) as [_ ->].
  apply Forall2_nil_inv_r in HF2 as ->. done.
Qed.

Lemma erase_left_full w b tl tr fuel it l r :
  inv w b tl tr → (count tl + 2 ≤ fuel)%nat →
  valid_left fuel w b it l r →
  ∃ w' b' nxt tl' tr',
    erase_left fuel it (w, b) = Ok nxt (w', b') ∧
    inv w' b' tl' tr' ∧ (count tl' + 2 ≤ fuel)%nat ∧
    incr fuel it w = Ok nxt w ∧
    find_left fuel b' l w' = Ok (end_left b') w' ∧
    find_right fuel b' r w' = Ok (end_right b') w' ∧
    size_ b' = size_ b - 1 ∧
    removed (l, r) (pairs_of (mem w) (inorder tl).*1)
                   (pairs_of (mem w') (inorder tl').*1) ∧
    removed (l, r) (pairs_of (mem w) (inorder tr).*1)
                   (pairs_of (mem w') (inorder tr').*1) ∧
    (∀ pre, pairs_of (mem w) (inorder tl).*1 = pre ++ [(l, r)] →
            nxt = end_left b').
Proof.
  intros I Hf Hv.
  apply (valid_left_inv _ _ _ _ _ _ _ _ I Hf) in Hv as (p & -> & Hl & Hr).
  assert (p ∈ tset tl) as Hp by (apply tset_inorder; eauto).
  destruct (erase_obs tag_left w b tl tr fuel p l r I Hf Hl Hr)
    as (w' & b' & He & I' & Fr & Hsz & _ & _ & Hfl & Hfr & Hvl & Hvr).
  pose proof (remove_t_count tl p (inv_distinct_left _ _ _ _ I) Hp) as Hc.
  assert (count (remove_t tl p) + 2 ≤ fuel)%nat as Hf' by lia.
  eexists w', b', _, _, _. split; [exact He|]. split; [exact I'|].
  split; [exact Hf'|].
  split; [by eapply incr_left_spec|].
  split. { rewrite (find_left_spec _ _ _ _ _ l I' Hf'), Hfl. simpl.
           by rewrite (end_left_eq _ _ _ _ I'). }
  split. { rewrite (find_right_spec _ _ _ _ _ r I' Hf'), Hfr. simpl.
           by rewrite (end_right_eq _ _ _ _ I'). }
  split; [exact Hsz|]. split; [exact Hvl|]. split; [exact Hvr|].
  intros pre Hpre. rewrite (last_pair_left _ _ _ _ _ _ _ _ I Hl Hr Hpre).
  rewrite (end_left_eq _ _ _ _ I'). destruct Fr as (-> & _). done.
Qed.

Lemma erase_right_full w b tl tr fuel it l r :
  inv w b tl tr → (count tl + 2 ≤ fuel)%nat →
  valid_right fuel w b it l r →
  ∃ w' b' nxt tl' tr',
    erase_right fuel it (w, b) = Ok nxt (w', b') ∧
    inv w' b' tl' tr' ∧ (count tl' + 2 ≤ fuel)%nat ∧
    incr fuel it w = Ok nxt w ∧
    find_left fuel b' l w' = Ok (end_left b') w' ∧
    find_right fuel b' r w' = Ok (end_right b') w' ∧
    size_ b' = size_ b - 1 ∧
    removed (l, r) (pairs_of (mem w) (inorder tl).*1)
                   (pairs_of (mem w') (inorder tl').*1) ∧
    removed (l, r) (pairs_of (mem w) (inorder tr).*1)
                   (pairs_of (mem w') (inorder tr').*1) ∧
    (∀ pre, pairs_of (mem w) (inorder tr).*1 = pre ++ [(l, r)] →
            nxt = end_right b').
Proof.
  intros I Hf Hv.
  apply (valid_right_inv _ _ _ _ _ _ _ _ I Hf) in Hv as (p & -> & Hl & Hr).
  assert (p ∈ tset tl) as Hp by (apply tset_inorder; eauto).
  assert (p ∈ tset tr) as Hp' by (apply tset_inorder; eauto).
  destruct (erase_obs tag_right w b tl tr fuel p l r I Hf Hl Hr)
    as (w' & b' & He & I' & Fr & Hsz & _ & _ & Hfl & Hfr & Hvl & Hvr).
  pose proof (remove_t_count tl p (inv_distinct_left _ _ _ _ I) Hp) as Hc.
  assert (count (remove_t tl p) + 2 ≤ fuel)%nat as Hf' by lia.
  eexists w', b', _, _, _. split; [exact He|]. split; [exact I'|].
  split; [exact Hf'|].
  split; [by eapply incr_right_spec|].
  split. { rewrite (find_left_spec _ _ _ _ _ l I' Hf'), Hfl. simpl.
           by rewrite (end_left_eq _ _ _ _ I'). }
  split. { rewrite (find_right_spec _ _ _ _ _ r I' Hf'), Hfr. simpl.
           by rewrite (end_right_eq _ _ _ _ I'). }
  split; [exact Hsz|]. split; [exact Hvl|]. split; [exact Hvr|].
  intros pre Hpre. rewrite (last_pair_right _ _ _ _ _ _ _ _ I Hl Hr Hpre).
  rewrite (end_right_eq _ _ _ _ I'). destruct Fr as (-> & _). done.
Qed.
End EraseFull.

Set Default Proof Using "Type".

Section ClaimLemmas.
Context {L R : Type}.
Local Abbreviation world := (@world L R).
Local Abbreviation bimap := (@bimap L R).
Implicit Types (w : world) (b : bimap) (tl : tree L) (tr : tree R).

Lemma enough_fuel w b tl tr fuel :
  inv w b tl tr → enough fuel b → (count tl + 2 ≤ fuel)%nat.
Proof. intros I He. pose proof (enough_count _ _ _ _ _ I He). lia. Qed.

End ClaimLemmas.

Set Default Proof Using "Type".

(** * The claims *)

Section Claims.
Context {L R : Type}.
Variables (default_left : L) (default_right : R).
Local Abbreviation world := (@world L R).
Local Abbreviation bimap := (@bimap L R).
Local Abbreviation reachable := (reachable default_left default_right).

(** Where no bimap has been assigned to: in every state reached by
    construction, copy construction, [insert], [erase] and
    [at_or_default], [erase_left] on a valid cursor [it] at the pair [(l, r)] returns the cursor that
    [++it] gave before the erasure, the end cursor when [(l, r)] was
    the last pair of the left view; afterwards [find_left l] and
    [find_right r] give the end cursors, [size] is one less, and both
    views are the old ones without [(l, r)], every other pair in its
    place. [erase_right] on a cursor of the right view does the same
    with the roles of the views exchanged. *)
Lemma erase_cursor_removes_the_pair w bs i b fuel :
  reachable w bs → bs !! i = Some b → enough fuel b →
  (∀ it l r, valid_left fuel w b it l r →
     ∃ w' b' nxt vl vr vl' vr',
       erase_left fuel it (w, b) = Ok nxt (w', b') ∧
       incr fuel it w = Ok nxt w ∧
       find_left fuel b' l w' = Ok (end_left b') w' ∧
       find_right fuel b' r w' = Ok (end_right b') w' ∧
       bimap_size b' = bimap_size b - 1 ∧
       view_left fuel b w = Ok vl w ∧ view_left fuel b' w' = Ok vl' w' ∧
       removed (l, r) vl vl' ∧
       view_right fuel b w = Ok vr w ∧ view_right fuel b' w' = Ok vr' w' ∧
       removed (l, r) vr vr' ∧
       (∀ pre, vl = pre ++ [(l, r)] → nxt = end_left b')) ∧
  (∀ it l r, valid_right fuel w b it l r →
     ∃ w' b' nxt vl vr vl' vr',
       erase_right fuel it (w, b) = Ok nxt (w', b') ∧
       incr fuel it w = Ok nxt w ∧
       find_left fuel b' l w' = Ok (end_left b') w' ∧
       find_right fuel b' r w' = Ok (end_right b') w' ∧
       bimap_size b' = bimap_size b - 1 ∧
       view_left fuel b w = Ok vl w ∧ view_left fuel b' w' = Ok vl' w' ∧
       removed (l, r) vl vl' ∧
       view_right fuel b w = Ok vr w ∧ view_right fuel b' w' = Ok vr' w' ∧
       removed (l, r) vr vr' ∧
       (∀ pre, vr = pre ++ [(l, r)] → nxt = end_right b')).
Proof.
  intros Hre Hb He.
  destruct (reachable_wf _ _ _ _ _ _ Hre Hb) as (tl & tr & I).
  pose proof (enough_fuel _ _ _ _ _ I He) as Hf.
  split; intros it l r Hv.
  - destruct (erase_left_full w b tl tr fuel it l r I Hf Hv)
      as (w' & b' & nxt & tl' & tr' & H1 & I' & Hf' & H2 & H3 & H4 & H5
          & H6 & H7 & H8).
    exists w', b', nxt. eexists _, _, _, _.
    split; [exact H1|]. split; [exact H2|]. split; [exact H3|].
    split; [exact H4|]. split; [exact H5|].
    split; [by eapply view_left_spec|]. split; [by eapply view_left_spec|].
    split; [exact H6|].
    split; [by eapply view_right_spec|]. split; [by eapply view_right_spec|].
    split; [exact H7|exact H8].
  - destruct (erase_right_full w b tl tr fuel it l r I Hf Hv)
      as (w' & b' & nxt & tl' & tr' & H1 & I' & Hf' & H2 & H3 & H4 & H5
          & H6 & H7 & H8).
    exists w', b', nxt. eexists _, _, _, _.
    split; [exact H1|]. split; [exact H2|]. split; [exact H3|].
    split; [exact H4|]. split; [exact H5|].
    split; [by eapply view_left_spec|]. split; [by eapply view_left_spec|].
    split; [exact H6|].
    split; [by eapply view_right_spec|]. split; [by eapply view_right_spec|].
    split; [exact H7|exact H8].
Qed.


(** Where no bimap has been assigned to: every bimap of a state reached
    by construction, copy construction, [insert], [erase] and
    [at_or_default] is drawn in the heap as two trees over the same records, each a binary search tree under the
    comparator of its view, each with every record's priority at
    least its children's; [size] is the number of records; walking
    the left view from [begin_left] to [end_left] gives [size] pairs
    with strictly increasing left keys, and the right view gives the
    same pairs with strictly increasing right keys. *)
Lemma reached_bimaps_are_ordered w bs i b :
  reachable w bs → bs !! i = Some b →
  ∃ tl tr,
    view_shape tag_left key_left (mem w) (end_node b) tl ∧
    view_shape tag_right key_right (mem w) (end_node b) tr ∧
    tset tl = tset tr ∧
    bst (cmp (treap_left b)) tl ∧ bst (cmp (treap_right b)) tr ∧
    heap_ordered tl ∧ heap_ordered tr ∧
    bimap_size b = Z.of_nat (count tl) ∧
    ∀ fuel, enough fuel b →
      ∃ vl vr,
        view_left fuel b w = Ok vl w ∧ view_right fuel b w = Ok vr w ∧
        Z.of_nat (length vl) = bimap_size b ∧ vr ≡ₚ vl ∧
        StronglySorted (λ x y, cmp (treap_left b) x.1 y.1 = true) vl ∧
        StronglySorted (λ x y, cmp (treap_right b) x.2 y.2 = true) vr.
Proof.
  intros Hre Hb.
  destruct (reachable_wf _ _ _ _ _ _ Hre Hb) as (tl & tr & I).
  exists tl, tr.
  pose proof (inv_left _ _ _ _ I) as (Vl & Sl & Ol).
  pose proof (inv_right _ _ _ _ I) as (Vr & Sr & Or).
  split; [exact Vl|]. split; [exact Vr|]. split; [apply I|].
  split; [by apply (bst_sorted _ (inv_swo_left _ _ _ _ I))|].
  split; [by apply (bst_sorted _ (inv_swo_right _ _ _ _ I))|].
  split; [exact Ol|]. split; [exact Or|]. split; [apply I|].
  intros fuel He. pose proof (enough_fuel _ _ _ _ _ I He) as Hf.
  eexists _, _.
  split; [by eapply view_left_spec|]. split; [by eapply view_right_spec|].
  split. { rewrite (pairs_of_length _ _ _ _ I). symmetry. apply I. }
  split; [by eapply views_perm|].
  split; [by eapply view_left_sorted|by eapply view_right_sorted].
Qed.
End Claims.

Set Default Proof Using "Type".

Section InsertFind.
Context {L R : Type}.
Local Abbreviation world := (@world L R).
Local Abbreviation bimap := (@bimap L R).
Implicit Types (w : world) (b : bimap) (tl : tree L) (tr : tree R).

Lemma find_left_at w b tl tr fuel p l :
  inv w b tl tr → (count tl + 2 ≤ fuel)%nat → (p, l) ∈ inorder tl →
  find_left fuel b l w = Ok (Iterator (Some p)) w.
Proof.
  intros I Hf Hl. rewrite (find_left_spec _ _ _ _ _ l I Hf).
  by rewrite (find_t_self _ (inv_swo_left _ _ _ _ I) tl p l
                (inv_sorted_left _ _ _ _ I) Hl).
Qed.

Lemma find_right_at w b tl tr fuel p r :
  inv w b tl tr → (count tl + 2 ≤ fuel)%nat → (p, r) ∈ inorder tr →
  find_right fuel b r w = Ok (Iterator (Some p)) w.
Proof.
  intros I Hf Hr. rewrite (find_right_spec _ _ _ _ _ r I Hf).
  by rewrite (find_t_self _ (inv_swo_right _ _ _ _ I) tr p r
                (inv_sorted_right _ _ _ _ I) Hr).
Qed.

Lemma contains_left_false w b tl tr fuel l :
  inv w b tl tr → (count tl + 2 ≤ fuel)%nat →
  contains_left fuel b l w = Ok false w →
  find_t (cmp (treap_left b)) tl l = None.
Proof.
  intros I Hf Hc. rewrite (contains_left_spec _ _ _ _ _ l I Hf) in Hc.
  destruct (find_t _ tl l); [|done].
  rewrite bool_decide_eq_true_2 in Hc by eauto. done.
Qed.

Lemma contains_right_false w b tl tr fuel r :
  inv w b tl tr → (count tl + 2 ≤ fuel)%nat →
  contains_right fuel b r w = Ok false w →
  find_t (cmp (treap_right b)) tr r = None.
Proof.
  intros I Hf Hc. rewrite (contains_right_spec _ _ _ _ _ r I Hf) in Hc.
  destruct (find_t _ tr r); [|done].
  rewrite bool_decide_eq_true_2 in Hc by eauto. done.
Qed.

Lemma insert_then_find w b tl tr fuel k1 k2 :
  inv w b tl tr → enough fuel b → allocation_succeeds w →
  find_t (cmp (treap_left b)) tl k1 = None →
  find_t (cmp (treap_right b)) tr k2 = None →
  ∃ w' b' it,
    bimap_insert fuel k1 k2 (w, b) = Ok it (w', b') ∧
    find_left fuel b' k1 w' = Ok it w' ∧
    star_right (flip it) w' = Ok k2 w' ∧
    find_right fuel b' k2 w' = Ok (flip it) w' ∧
    star_left it w' = Ok k1 w'.
Proof.
  intros I He Ha Hl Hr. pose proof (enough_count _ _ _ _ _ I He) as Hc.
  assert (count tl + 2 ≤ fuel)%nat as Hf by lia.
  destruct (insert_obs w b tl tr fuel k1 k2 I Hf Hl Hr Ha)
    as (w' & b' & Hi & I' & _ & _ & _ & _ & Hinl & Hinr & _).
  eexists w', b', _. split; [exact Hi|].
  assert (count (insert_t (cmp (treap_left b)) tl (fresh (dom (mem w))) k1
                   (rand w (seed w))) + 2 ≤ fuel)%nat as Hf'
      by (rewrite count_insert_t; lia).
  split; [by eapply find_left_at|].
  split; [by eapply star_right_spec|].
  split; [by eapply find_right_at|].
  by eapply star_left_spec.
Qed.
End InsertFind.

(** ** Bimaps of integers under [<] *)

Lemma Z_ltb_swo : strict_weak_order Z.ltb.
Proof.
  split.
  - intros a. apply Z.ltb_irrefl.
  - intros a b c H1%Z.ltb_lt H2%Z.ltb_lt. apply Z.ltb_lt. lia.
  - intros a b c [H1%Z.ltb_ge H2%Z.ltb_ge] [H3%Z.ltb_ge H4%Z.ltb_ge].
    split; apply Z.ltb_ge; lia.
Qed.

Lemma Z_equiv_eq (a b : Z) : equiv_key Z.ltb a b ↔ a = b.
Proof.
  unfold equiv_key. rewrite !Z.ltb_ge. lia.
Qed.

Section Integers.
Local Abbreviation world := (@world Z Z).
Local Abbreviation bimap := (@bimap Z Z).
Implicit Types (w : world) (b : bimap) (tl tr : tree Z).

Lemma holds_new w b0 w0 :
  bimap_ctor Z.ltb Z.ltb w = Ok b0 w0 → holds w0 b0 [].
Proof.
  intros Hc.
  destruct (decide (fresh (dom (mem w)) < addr_limit)%positive) as [Hlt|Hn].
  2:{ by rewrite (bimap_ctor_throw _ _ _ Hn) in Hc. }
  pose proof (bimap_ctor_ok Z.ltb Z.ltb w Hlt) as E.
  assert (b0 = newborn Z.ltb Z.ltb w ∧ w0 = born w) as [-> ->]
      by (split; congruence).
  exists Leaf, Leaf. split; [|done].
  exact (inv_born _ _ _ Z_ltb_swo Z_ltb_swo Hlt).
Qed.

Lemma holds_size w b ps : holds w b ps → size_ b = Z.of_nat (length ps).
Proof.
  intros (tl & tr & I & _ & _ & Hp).
  by rewrite (inv_size _ _ _ _ I), <- Hp, (pairs_of_length _ _ _ _ I).
Qed.

Lemma holds_insert w b ps fuel l r it w' b' :
  holds w b ps → (length ps + 3 ≤ fuel)%nat →
  (∀ x, x ∈ ps → x.1 ≠ l ∧ x.2 ≠ r) →
  bimap_insert fuel l r (w, b) = Ok it (w', b') →
  holds w' b' ((l, r) :: ps).
Proof.
  intros (tl & tr & I & Cl & Cr & Hp) Hlen Hnew Hi.
  assert (count tl + 2 ≤ fuel)%nat as Hf.
  { rewrite <- (pairs_of_length _ _ _ _ I), Hp. lia. }
  assert (find_t (cmp (treap_left b)) tl l = None) as Fl.
  { apply (find_left_view _ _ _ _ l I). intros x Hx. rewrite Cl, Z_equiv_eq.
    rewrite Hp in Hx. by apply Hnew. }
  assert (find_t (cmp (treap_right b)) tr r = None) as Fr.
  { apply (find_right_view _ _ _ _ r I). intros x Hx. rewrite Cr, Z_equiv_eq.
    rewrite Hp in Hx. by apply Hnew. }
  destruct (allocation_cases w) as [Ha|Ha].
  2:{ unfold bimap_insert in Hi.
      by rewrite (insert_throw w b tl tr fuel l r I Hf Fl Fr Ha) in Hi. }
  destruct (insert_obs w b tl tr fuel l r I Hf Fl Fr Ha)
    as (w1 & b1 & Hi1 & I1 & (_ & C1 & C2 & _) & _ & _ & _ & _ & _
        & (pre & post & V1 & V2) & _).
  unfold bimap_insert in Hi. rewrite Hi1 in Hi. injection Hi as _ <- <-.
  eexists _, _. split; [exact I1|]. split; [congruence|].
  split; [congruence|].
  rewrite V2, <- Hp, V1. by rewrite Permutation_middle.
Qed.

Lemma holds_find_right w b ps fuel l r :
  holds w b ps → (length ps + 2 ≤ fuel)%nat → (l, r) ∈ ps →
  ∃ it, find_right fuel b r w = Ok it w ∧
        star_left (flip it) w = Ok l w ∧ star_right it w = Ok r w.
Proof.
  intros (tl & tr & I & Cl & Cr & Hp) Hlen Hin.
  assert (count tl + 2 ≤ fuel)%nat as Hf.
  { rewrite <- (pairs_of_length _ _ _ _ I), Hp. lia. }
  rewrite <- Hp in Hin.
  apply (view_left_elem _ _ _ _ _ _ I) in Hin as (p & Hl & Hr).
  exists (Iterator (Some p)). split; [by eapply find_right_at|].
  split; [by eapply star_left_spec|by eapply star_right_spec].
Qed.

Lemma holds_find_left w b ps fuel l r :
  holds w b ps → (length ps + 2 ≤ fuel)%nat → (l, r) ∈ ps →
  ∃ it, find_left fuel b l w = Ok it w ∧
        star_left it w = Ok l w ∧ star_right (flip it) w = Ok r w.
Proof.
  intros (tl & tr & I & Cl & Cr & Hp) Hlen Hin.
  assert (count tl + 2 ≤ fuel)%nat as Hf.
  { rewrite <- (pairs_of_length _ _ _ _ I), Hp. lia. }
  rewrite <- Hp in Hin.
  apply (view_left_elem _ _ _ _ _ _ I) in Hin as (p & Hl & Hr).
  exists (Iterator (Some p)). split; [by eapply find_left_at|].
  split; [by eapply star_left_spec|by eapply star_right_spec].
Qed.

Lemma holds_find_left_absent w b ps fuel k :
  holds w b ps → (length ps + 2 ≤ fuel)%nat →
  (∀ x, x ∈ ps → x.1 ≠ k) →
  find_left fuel b k w = Ok (end_left b) w.
Proof.
  intros (tl & tr & I & Cl & Cr & Hp) Hlen Hno.
  assert (count tl + 2 ≤ fuel)%nat as Hf.
  { rewrite <- (pairs_of_length _ _ _ _ I), Hp. lia. }
  rewrite (find_left_spec _ _ _ _ _ k I Hf).
  rewrite (proj2 (find_left_view _ _ _ _ k I)).
  - simpl. by rewrite (end_left_eq _ _ _ _ I).
  - intros x Hx. rewrite Cl, Z_equiv_eq. rewrite Hp in Hx. by apply Hno.
Qed.

Lemma scenario_insert_find w b0 w0 fuel it1 w1 b1 it2 w2 b2 it3 w3 b3 :
  (6 ≤ fuel)%nat →
  bimap_ctor Z.ltb Z.ltb w = Ok b0 w0 →
  bimap_insert fuel 1 2 (w0, b0) = Ok it1 (w1, b1) →
  bimap_insert fuel 2 3 (w1, b1) = Ok it2 (w2, b2) →
  bimap_insert fuel 42 1000 (w2, b2) = Ok it3 (w3, b3) →
  (∃ it, find_right fuel b3 1000 w3 = Ok it w3 ∧
         star_left (flip it) w3 = Ok 42 w3) ∧
  find_left fuel b3 3436 w3 = Ok (end_left b3) w3.
Proof.
  intros Hfuel Hc H1 H2 H3.
  pose proof (holds_new _ _ _ Hc) as S0.
  pose proof (holds_insert _ _ _ fuel 1 2 _ _ _ S0 ltac:(simpl; lia)
                ltac:(intros x Hx; by apply elem_of_nil in Hx) H1) as S1.
  assert (holds w2 b2 [(2, 3); (1, 2)]) as S2.
  { eapply (holds_insert _ _ _ fuel); [exact S1|simpl; lia| |exact H2].
    intros x Hx. apply list_elem_of_singleton in Hx as ->. done. }
  assert (holds w3 b3 [(42, 1000); (2, 3); (1, 2)]) as S3.
  { eapply (holds_insert _ _ _ fuel); [exact S2|simpl; lia| |exact H3].
    intros x Hx. repeat (apply elem_of_cons in Hx as [->|Hx]; [done|]).
    by apply elem_of_nil in Hx. }
  split.
  - destruct (holds_find_right _ _ _ fuel 42 1000 S3 ltac:(simpl; lia)
                ltac:(left)) as (it & F & G & _).
    by exists it.
  - eapply holds_find_left_absent; [exact S3|simpl; lia|].
    intros x Hx. repeat (apply elem_of_cons in Hx as [->|Hx]; [done|]).
    by apply elem_of_nil in Hx.
Qed.
End Integers.

Set Default Proof Using "Type".

Section AtView.
Context {L R : Type}.
Local Abbreviation world := (@world L R).
Local Abbreviation bimap := (@bimap L R).
Implicit Types (w : world) (b : bimap) (tl : tree L) (tr : tree R).

Lemma at_left_view w b tl tr fuel k l r :
  inv w b tl tr → (count tl + 2 ≤ fuel)%nat →
  (l, r) ∈ pairs_of (mem w) (inorder tl).*1 →
  equiv_key (cmp (treap_left b)) l k →
  at_left fuel b k w = Ok r w.
Proof.
  intros I Hf Hin Heq.
  apply (view_left_elem _ _ _ _ _ _ I) in Hin as (p & Hl & Hr).
  eapply at_left_found; [done|done| |done].
  eapply find_t_complete; [apply I|apply I|done|done].
Qed.

Lemma at_right_view w b tl tr fuel k l r :
  inv w b tl tr → (count tl + 2 ≤ fuel)%nat →
  (l, r) ∈ pairs_of (mem w) (inorder tl).*1 →
  equiv_key (cmp (treap_right b)) r k →
  at_right fuel b k w = Ok l w.
Proof.
  intros I Hf Hin Heq.
  apply (view_left_elem _ _ _ _ _ _ I) in Hin as (p & Hl & Hr).
  eapply at_right_found; [done|done| |done].
  eapply find_t_complete; [apply I|apply I|done|done].
Qed.



Lemma added_elem {A} (x : A) (before after : list A) :
  added x before after → x ∈ after.
Proof. intros (pre & post & _ & ->). set_solver. Qed.

Lemma count_of_size w b tl tr w' b' tl' tr' fuel (d : Z) :
  inv w b tl tr → inv w' b' tl' tr' → enough fuel b →
  size_ b' ≤ size_ b + 1 → (count tl' + 2 ≤ fuel)%nat.
Proof.
  intros I I' He Hs. pose proof (enough_count _ _ _ _ _ I He).
  rewrite (inv_size _ _ _ _ I), (inv_size _ _ _ _ I') in Hs. lia.
Qed.

Lemma at_left_or_default_full d w b tl tr fuel k :
  inv w b tl tr → enough fuel b → allocation_succeeds w →
  ∃ c, contains_left fuel b k w = Ok c w ∧
    if c then
      ∃ r, at_left fuel b k w = Ok r w ∧
           at_left_or_default d fuel (ref_object k) (w, b) = Ok r (w, b)
    else
      ∃ w' b' tl' tr' ml mr,
        at_left_or_default d fuel (ref_object k) (w, b) = Ok d (w', b') ∧
        inv w' b' tl' tr' ∧ (count tl' + 2 ≤ fuel)%nat ∧
        ((∃ l0 r0, equiv_key (cmp (treap_right b)) r0 d ∧
            removed (l0, r0) (pairs_of (mem w) (inorder tl).*1) ml ∧
            removed (l0, r0) (pairs_of (mem w) (inorder tr).*1) mr ∧
            size_ b' = size_ b) ∨
         ((∀ x, x ∈ pairs_of (mem w) (inorder tl).*1 →
                ¬ equiv_key (cmp (treap_right b)) x.2 d) ∧
          ml = pairs_of (mem w) (inorder tl).*1 ∧
          mr = pairs_of (mem w) (inorder tr).*1 ∧
          size_ b' = size_ b + 1)) ∧
        added (k, d) ml (pairs_of (mem w') (inorder tl').*1) ∧
        added (k, d) mr (pairs_of (mem w') (inorder tr').*1) ∧
        at_left fuel b' k w' = Ok d w'.
Proof.
  intros I He Ha. pose proof (enough_fuel _ _ _ _ _ I He) as Hf.
  eexists. split; [by eapply contains_left_spec|].
  destruct (find_t (cmp (treap_left b)) tl k) as [p|] eqn:Ek.
  - rewrite bool_decide_eq_true_2 by eauto.
    pose proof Ek as Ek'. apply find_t_in in Ek' as (l & Hl & _).
    destruct (inv_partner_right _ _ _ _ _ _ I Hl) as [r Hr].
    exists r. split; [by eapply at_left_found|].
    exact (at_left_or_default_present d w b tl tr fuel (ref_object k) k p r
             I Hf eq_refl Ek Hr).
  - rewrite bool_decide_eq_false_2 by (by intros [? ?]).
    destruct (at_left_or_default_obs d w b tl tr fuel k I Hf Ek Ha)
      as (w' & b' & tl' & tr' & ml & mr & Hr & I' & Fr & Hcase & A1 & A2).
    assert (size_ b' ≤ size_ b + 1) as Hsz.
    { destruct (find_t _ tr d); [destruct Hcase as (? & ? & _ & _ & _ & ->)
                                |destruct Hcase as (_ & _ & ->)]; lia. }
    pose proof (count_of_size _ _ _ _ _ _ _ _ _ 0 I I' He Hsz) as Hf'.
    exists w', b', tl', tr', ml, mr.
    split; [exact Hr|]. split; [exact I'|]. split; [exact Hf'|].
    split.
    { destruct (find_t (cmp (treap_right b)) tr d) eqn:Ed.
      - left. destruct Hcase as (l0 & r0 & ? & ? & ? & ?). by exists l0, r0.
      - right. destruct Hcase as (? & ? & ?).
        split; [by apply (find_right_view _ _ _ _ d I)|done]. }
    split; [exact A1|]. split; [exact A2|].
    eapply at_left_view; [done|done|by eapply added_elem|].
    apply equiv_key_refl, I'.
Qed.

Lemma at_right_or_default_full d w b tl tr fuel k :
  inv w b tl tr → enough fuel b → allocation_succeeds w →
  ∃ c, contains_right fuel b k w = Ok c w ∧
    if c then
      ∃ l, at_right fuel b k w = Ok l w ∧
           at_right_or_default d fuel (ref_object k) (w, b) = Ok l (w, b)
    else
      ∃ w' b' tl' tr' ml mr,
        at_right_or_default d fuel (ref_object k) (w, b) = Ok d (w', b') ∧
        inv w' b' tl' tr' ∧ (count tl' + 2 ≤ fuel)%nat ∧
        ((∃ l0 r0, equiv_key (cmp (treap_left b)) l0 d ∧
            removed (l0, r0) (pairs_of (mem w) (inorder tl).*1) ml ∧
            removed (l0, r0) (pairs_of (mem w) (inorder tr).*1) mr ∧
            size_ b' = size_ b) ∨
         ((∀ x, x ∈ pairs_of (mem w) (inorder tl).*1 →
                ¬ equiv_key (cmp (treap_left b)) x.1 d) ∧
          ml = pairs_of (mem w) (inorder tl).*1 ∧
          mr = pairs_of (mem w) (inorder tr).*1 ∧
          size_ b' = size_ b + 1)) ∧
        added (d, k) ml (pairs_of (mem w') (inorder tl').*1) ∧
        added (d, k) mr (pairs_of (mem w') (inorder tr').*1) ∧
        at_right fuel b' k w' = Ok d w'.
Proof.
  intros I He Ha. pose proof (enough_fuel _ _ _ _ _ I He) as Hf.
  eexists. split; [by eapply contains_right_spec|].
  destruct (find_t (cmp (treap_right b)) tr k) as [p|] eqn:Ek.
  - rewrite bool_decide_eq_true_2 by eauto.
    pose proof Ek as Ek'. apply find_t_in in Ek' as (r & Hr & _).
    destruct (inv_partner_left _ _ _ _ _ _ I Hr) as [l Hl].
    exists l. split; [by eapply at_right_found|].
    exact (at_right_or_default_present d w b tl tr fuel (ref_object k) k p l
             I Hf eq_refl Ek Hl).
  - rewrite bool_decide_eq_false_2 by (by intros [? ?]).
    destruct (at_right_or_default_obs d w b tl tr fuel k I Hf Ek Ha)
      as (w' & b' & tl' & tr' & ml & mr & Hr & I' & Fr & Hcase & A1 & A2).
    assert (size_ b' ≤ size_ b + 1) as Hsz.
    { destruct (find_t _ tl d); [destruct Hcase as (? & ? & _ & _ & _ & ->)
                                |destruct Hcase as (_ & _ & ->)]; lia. }
    pose proof (count_of_size _ _ _ _ _ _ _ _ _ 0 I I' He Hsz) as Hf'.
    exists w', b', tl', tr', ml, mr.
    split; [exact Hr|]. split; [exact I'|]. split; [exact Hf'|].
    split.
    { destruct (find_t (cmp (treap_left b)) tl d) eqn:Ed.
      - left. destruct Hcase as (l0 & r0 & ? & ? & ? & ?). by exists l0, r0.
      - right. destruct Hcase as (? & ? & ?).
        split; [by apply (find_left_view _ _ _ _ d I)|done]. }
    split; [exact A1|]. split; [exact A2|].
    eapply at_right_view; [done|done|by eapply added_elem|].
    apply equiv_key_refl, I'.
Qed.
End AtView.

Set Default Proof Using "Type".

Section FindAbsent.
Context {L R : Type}.
Local Abbreviation world := (@world L R).
Local Abbreviation bimap := (@bimap L R).
Implicit Types (w : world) (b : bimap) (tl : tree L) (tr : tree R).



End FindAbsent.

(** C4: in every reached state in which [operator new] finds memory, and
    for keys [k1], [k2] that the bimap does not contain, [insert k1 k2]
    succeeds, and right after it [find_left k1] gives a cursor whose flip
    dereferences to [k2], and [find_right k2] one whose flip
    dereferences to [k1]. In particular, for a [bimap<int, int>] under
    [<] just constructed, after the inserts of (1,2), (2,3) and
    (42,1000) the flip of [find_right 1000] dereferences to 42 and
    [find_left 3436] is [end_left]. *)
Theorem insert_then_find_gives_the_partner :
  (∀ (L R : Type) (default_left : L) (default_right : R)
     (w : @world L R) bs i (b : @bimap L R) fuel k1 k2,
     reachable default_left default_right w bs → bs !! i = Some b →
     enough fuel b → allocation_succeeds w →
     contains_left fuel b k1 w = Ok false w →
     contains_right fuel b k2 w = Ok false w →
     ∃ w' b' it itl itr,
       bimap_insert fuel k1 k2 (w, b) = Ok it (w', b') ∧
       find_left fuel b' k1 w' = Ok itl w' ∧
       star_right (flip itl) w' = Ok k2 w' ∧
       find_right fuel b' k2 w' = Ok itr w' ∧
       star_left (flip itr) w' = Ok k1 w') ∧
  (∀ (w : @world Z Z) b0 w0 fuel it1 w1 b1 it2 w2 b2 it3 w3 b3,
     (6 ≤ fuel)%nat →
     bimap_ctor Z.ltb Z.ltb w = Ok b0 w0 →
     bimap_insert fuel 1 2 (w0, b0) = Ok it1 (w1, b1) →
     bimap_insert fuel 2 3 (w1, b1) = Ok it2 (w2, b2) →
     bimap_insert fuel 42 1000 (w2, b2) = Ok it3 (w3, b3) →
     (∃ it, find_right fuel b3 1000 w3 = Ok it w3 ∧
            star_left (flip it) w3 = Ok 42 w3) ∧
     find_left fuel b3 3436 w3 = Ok (end_left b3) w3).
Proof.
  split.
  - intros L R dl dr w bs i b fuel k1 k2 Hre Hb He Ha Hc1 Hc2.
    destruct (reachable_wf _ _ _ _ _ _ Hre Hb) as (tl & tr & I).
    pose proof (enough_fuel _ _ _ _ _ I He) as Hf.
    destruct (insert_then_find w b tl tr fuel k1 k2 I He Ha
                (contains_left_false _ _ _ _ _ _ I Hf Hc1)
                (contains_right_false _ _ _ _ _ _ I Hf Hc2))
      as (w' & b' & it & H1 & H2 & H3 & H4 & H5).
    exists w', b', it, it, (flip it). done.
  - intros. by eapply scenario_insert_find.
Qed.

Section Claims.
Context {L R : Type}.
Variables (default_left : L) (default_right : R).
Local Abbreviation world := (@world L R).
Local Abbreviation bimap := (@bimap L R).
Local Abbreviation reachable := (reachable default_left default_right).

(** [at_or_default] on a key that is an object of its own, in a state
    reached without assignments in which [operator new] finds memory:
    [at_left_or_default k] on a key the left view contains returns the
    right key paired with it and changes nothing. On a key it does not
    contain, with [d] the default right key: the pair whose right key
    is found equivalent to [d], if there is one, is taken out of both
    views, then [(k, d)] is put into both views, and [d], the partner
    of [k] from then on, is returned. [at_right_or_default] does the
    same with the sides exchanged. *)
Lemma at_or_default_on_an_own_key w bs i b fuel :
  reachable w bs → bs !! i = Some b → enough fuel b →
  allocation_succeeds w →
  (∀ k, ∃ c vl vr,
     contains_left fuel b k w = Ok c w ∧
     view_left fuel b w = Ok vl w ∧ view_right fuel b w = Ok vr w ∧
     if c then
       ∃ r, at_left fuel b k w = Ok r w ∧
            at_left_or_default default_right fuel (ref_object k) (w, b) = Ok r (w, b)
     else
       ∃ w' b' ml mr vl' vr',
         at_left_or_default default_right fuel (ref_object k) (w, b)
         = Ok default_right (w', b') ∧
         ((∃ l0 r0,
              equiv_key (cmp (treap_right b)) r0 default_right ∧
              removed (l0, r0) vl ml ∧ removed (l0, r0) vr mr ∧
              bimap_size b' = bimap_size b) ∨
          ((∀ x, x ∈ vl →
                 ¬ equiv_key (cmp (treap_right b)) x.2 default_right) ∧
           ml = vl ∧ mr = vr ∧ bimap_size b' = bimap_size b + 1)) ∧
         view_left fuel b' w' = Ok vl' w' ∧
         added (k, default_right) ml vl' ∧
         view_right fuel b' w' = Ok vr' w' ∧
         added (k, default_right) mr vr' ∧
         at_left fuel b' k w' = Ok default_right w') ∧
  (∀ k, ∃ c vl vr,
     contains_right fuel b k w = Ok c w ∧
     view_left fuel b w = Ok vl w ∧ view_right fuel b w = Ok vr w ∧
     if c then
       ∃ l, at_right fuel b k w = Ok l w ∧
            at_right_or_default default_left fuel (ref_object k) (w, b) = Ok l (w, b)
     else
       ∃ w' b' ml mr vl' vr',
         at_right_or_default default_left fuel (ref_object k) (w, b)
         = Ok default_left (w', b') ∧
         ((∃ l0 r0,
              equiv_key (cmp (treap_left b)) l0 default_left ∧
              removed (l0, r0) vl ml ∧ removed (l0, r0) vr mr ∧
              bimap_size b' = bimap_size b) ∨
          ((∀ x, x ∈ vl →
                 ¬ equiv_key (cmp (treap_left b)) x.1 default_left) ∧
           ml = vl ∧ mr = vr ∧ bimap_size b' = bimap_size b + 1)) ∧
         view_left fuel b' w' = Ok vl' w' ∧
         added (default_left, k) ml vl' ∧
         view_right fuel b' w' = Ok vr' w' ∧
         added (default_left, k) mr vr' ∧
         at_right fuel b' k w' = Ok default_left w').
Proof.
  intros Hre Hb He Ha.
  destruct (reachable_wf _ _ _ _ _ _ Hre Hb) as (tl & tr & I).
  pose proof (enough_fuel _ _ _ _ _ I He) as Hf.
  split; intros k.
  - destruct (at_left_or_default_full default_right w b tl tr fuel k I He Ha)
      as (c & Hc & Hcase).
    exists c. eexists _, _. split; [exact Hc|].
    split; [by eapply view_left_spec|]. split; [by eapply view_right_spec|].
    destruct c; [exact Hcase|].
    destruct Hcase as (w' & b' & tl' & tr' & ml & mr & H1 & I' & Hf' & H2
                       & H3 & H4 & H5).
    exists w', b', ml, mr. eexists _, _.
    split; [exact H1|]. split; [exact H2|].
    split; [by eapply view_left_spec|]. split; [exact H3|].
    split; [by eapply view_right_spec|]. split; [exact H4|exact H5].
  - destruct (at_right_or_default_full default_left w b tl tr fuel k I He Ha)
      as (c & Hc & Hcase).
    exists c. eexists _, _. split; [exact Hc|].
    split; [by eapply view_left_spec|]. split; [by eapply view_right_spec|].
    destruct c; [exact Hcase|].
    destruct Hcase as (w' & b' & tl' & tr' & ml & mr & H1 & I' & Hf' & H2
                       & H3 & H4 & H5).
    exists w', b', ml, mr. eexists _, _.
    split; [exact H1|]. split; [exact H2|].
    split; [by eapply view_left_spec|]. split; [exact H3|].
    split; [by eapply view_right_spec|]. split; [exact H4|exact H5].
Qed.
End Claims.

Set Default Proof Using "Type".



Set Default Proof Using "Type".

Section CopyFull.
Context {L R : Type}.
Local Abbreviation world := (@world L R).
Local Abbreviation bimap := (@bimap L R).
Implicit Types (w : world) (b : bimap) (tl : tree L) (tr : tree R).

Lemma pairs_of_frame (h h' : heap L R) (ps : list ptr) :
  (∀ q, q ∈ ps → h' !! q = h !! q) → pairs_of h' ps = pairs_of h ps.
Proof.
  intros H. apply pairs_of_agree. intros q Hq. unfold pair_at.
  by rewrite (H q Hq).
Qed.

Lemma views_kept w w' b tl tr :
  inv w b tl tr →
  (∀ q, q ∈ dom (mem w) → mem w' !! q = mem w !! q) →
  inv w' b tl tr ∧
  pairs_of (mem w') (inorder tl).*1 = pairs_of (mem w) (inorder tl).*1 ∧
  pairs_of (mem w') (inorder tr).*1 = pairs_of (mem w) (inorder tr).*1.
Proof.
  intros I Hag. pose proof (inv_footprint_dom _ _ _ _ I) as Hfp.
  split; [|split].
  - eapply inv_frame; [done|]. intros p Hp. by apply Hag, Hfp.
  - apply pairs_of_frame. intros q Hq. apply Hag, Hfp.
    unfold footprint. apply tset_fst in Hq. set_solver.
  - apply pairs_of_frame. intros q Hq. apply Hag, Hfp.
    unfold footprint. apply tset_fst in Hq.
    rewrite <- (inv_same _ _ _ _ I) in Hq. set_solver.
Qed.

(** Two bimaps under the same right comparator whose left views agree
    have the same right view. *)
Lemma right_views_agree w b tl tr w' b' tl' tr' :
  inv w b tl tr → inv w' b' tl' tr' →
  cmp (treap_right b') = cmp (treap_right b) →
  pairs_of (mem w') (inorder tl').*1 = pairs_of (mem w) (inorder tl).*1 →
  pairs_of (mem w') (inorder tr').*1 = pairs_of (mem w) (inorder tr).*1.
Proof.
  intros I I' Hc Hv.
  pose proof (inv_swo_right _ _ _ _ I) as [Hirr Htr _].
  eapply (sorted_perm_eq (λ x y, cmp (treap_right b) x.2 y.2 = true)).
  - intros x. by rewrite Hirr.
  - intros x y z. apply Htr.
  - rewrite <- Hc. by eapply view_right_sorted.
  - by eapply view_right_sorted.
  - rewrite (views_perm _ _ _ _ I'), Hv. symmetry. by eapply views_perm.
Qed.

Lemma copy_assign_failed w b other fuel w' :
  end_node other ≠ end_node b →
  bimap_copy_ctor fuel other w = Throw bad_alloc w' →
  bimap_copy_assign fuel other (w, b) = Throw bad_alloc (w', b).
Proof.
  intros Hne Hc. unfold bimap_copy_assign.
  change (bind get_this ?k (w, b)) with (k b (w, b)). cbv beta.
  rewrite decide_False by done.
  apply bind_throw. by apply in_world_throw.
Qed.

Lemma copy_full w other tlo tro fuel :
  inv w other tlo tro → enough fuel other →
  let vl := pairs_of (mem w) (inorder tlo).*1 in
  let vr := pairs_of (mem w) (inorder tro).*1 in
  (∃ b0 w0 b' w' tl' tr',
      bimap_ctor (cmp (treap_left other)) (cmp (treap_right other)) w
      = Ok b0 w0 ∧
      insert_list fuel vl (w0, b0) = Ok tt (w', b') ∧
      bimap_copy_ctor fuel other w = Ok b' w' ∧
      inv w' b' tl' tr' ∧ (count tl' + 2 ≤ fuel)%nat ∧
      inv w' other tlo tro ∧
      (end_node b' ∉ dom (mem w)) ∧
      (∀ q, q ∈ dom (mem w) → mem w' !! q = mem w !! q) ∧
      pairs_of (mem w') (inorder tl').*1 = vl ∧
      pairs_of (mem w') (inorder tr').*1 = vr ∧
      size_ b' = size_ other ∧
      pairs_of (mem w') (inorder tlo).*1 = vl ∧
      pairs_of (mem w') (inorder tro).*1 = vr) ∨
  (∃ w',
      bimap_copy_ctor fuel other w = Throw bad_alloc w' ∧
      mem w' = mem w ∧
      (bimap_ctor (cmp (treap_left other)) (cmp (treap_right other)) w
       = Throw bad_alloc w ∨
       ∃ b0 w0 w1 b1,
         bimap_ctor (cmp (treap_left other)) (cmp (treap_right other)) w
         = Ok b0 w0 ∧
         insert_list fuel vl (w0, b0) = Throw bad_alloc (w1, b1))).
Proof.
  intros Io He vl vr. pose proof (enough_fuel _ _ _ _ _ Io He) as Hf.
  destruct (decide (fresh (dom (mem w)) < addr_limit)%positive) as [Hlt|Hn].
  2:{ right. exists w. split; [by apply copy_ctor_no_room|]. split; [done|].
      left. by apply bimap_ctor_throw. }
  destruct (copy_ctor_obs w other tlo tro fuel Io Hf Hlt)
    as [(w' & b' & tl' & tr' & Hil & Hr & I' & Io' & Hdis & Hdom & Hag & Cl
         & Cr & Hv)
       |(w1 & b1 & w' & Hil & Hr & Hm)].
  - left. eexists _, _, b', w', tl', tr'.
    split; [by apply bimap_ctor_ok|]. split; [exact Hil|].
    split; [exact Hr|]. split; [exact I'|].
    destruct (views_kept w w' other tlo tro Io Hag) as (_ & K1 & K2).
    assert (count tl' = count tlo) as Hcnt.
    { rewrite <- (pairs_of_length _ _ _ _ I'), Hv.
      apply (pairs_of_length _ _ _ _ Io). }
    split; [rewrite Hcnt; exact Hf|]. split; [exact Io'|].
    split. { unfold footprint in Hdis. clear -Hdis. set_solver. }
    split; [exact Hag|]. split; [exact Hv|].
    split.
    { fold vl in Hv. unfold vr. rewrite <- K2.
      eapply right_views_agree; [exact Io'|exact I'|done|].
      rewrite Hv. by rewrite K1. }
    split.
    { rewrite (inv_size _ _ _ _ I'), (inv_size _ _ _ _ Io). by rewrite Hcnt. }
    done.
  - right. exists w'. split; [exact Hr|]. split; [exact Hm|].
    right. eexists _, _, w1, b1. split; [by apply bimap_ctor_ok|exact Hil].
Qed.
End CopyFull.

Set Default Proof Using "Type".

Section Moves.
Context {L R : Type}.
Local Abbreviation world := (@world L R).
Local Abbreviation bimap := (@bimap L R).
Implicit Types (w : world) (b : bimap) (tl : tree L) (tr : tree R).

(** The move constructor builds its treaps from [treap_storage(treap_storage
    &&)], which swaps with an [end_elem] that is still null. *)
Lemma move_ctor_outcome (other : bimap) dl dr w :
  bimap_move_ctor other dl dr w
  = if decide (fresh (dom (mem w)) < addr_limit)%positive
    then UB else Throw bad_alloc w.
Proof.
  unfold bimap_move_ctor, place_object, bind.
  destruct (decide (fresh (dom (mem w)) < addr_limit)%positive); done.
Qed.

Lemma swap_ok {K} tg (t1 t2 : treap K) e1 e2 c1 c2 (h : heap L R) :
  end_elem t1 = Some e1 → end_elem t2 = Some e2 → e1 ≠ e2 →
  h !! e1 = Some c1 → h !! e2 = Some c2 →
  swap tg t1 t2 h
  = Ok (Treap (cmp t2) (Some e1), Treap (cmp t1) (Some e2))
       (<[e2 := upd_left tg (left (sub tg c1)) c2]>
          (<[e1 := upd_left tg (left (sub tg c2)) c1]> h)).
Proof.
  intros E1 E2 Hne H1 H2. unfold swap. rewrite E1, E2. cbn [deref].
  rewrite !bind_ret.
  rewrite (run_get_left tg H1), (run_get_left tg H2).
  rewrite (run_put_left tg H1).
  assert (<[e1:=upd_left tg (left (sub tg c2)) c1]> h !! e2 = Some c2) as H2'
      by (by rewrite lookup_insert_ne).
  rewrite (run_put_left tg H2'). done.
Qed.

(** Move assignment exchanges the roots of the two sentinels and leaves
    the parent link of each root as it was. *)
Lemma move_assign_stale w this tl1 tr1 other tlo tro :
  inv w this tl1 tr1 → inv w other tlo tro →
  footprint this tl1 ## footprint other tlo →
  size_ other ≠ 0 →
  ∃ w' this' other' root c croot,
    bimap_move_assign other (w, this) = Ok other' (w', this') ∧
    end_node this' = end_node this ∧
    size_ this' = size_ other ∧
    mem w' !! end_node this' = Some c ∧
    left (sub tag_left c) = Some root ∧
    mem w' !! root = Some croot ∧
    parent (sub tag_left croot) = Some (end_node other) ∧
    end_node other ≠ end_node this'.
Proof.
  intros I1 I2 Hdis Hsz.
  pose proof (inv_left _ _ _ _ I1) as ((S1 & _) & _).
  pose proof (inv_left _ _ _ _ I2) as ((S2 & Sh2 & P2 & _ & Hn2) & _).
  destruct S1 as (c1 & Hc1 & _). destruct S2 as (c2 & Hc2 & Hl2 & _).
  assert (end_node this ≠ end_node other) as Hne.
  { unfold footprint in Hdis. clear -Hdis. set_solver. }
  destruct tlo as [|l root k pr r].
  { rewrite (inv_size _ _ _ _ I2) in Hsz. done. }
  simpl in Hl2. unfold parent_is in P2. simpl in P2.
  destruct P2 as (croot & Hcr & Hpar).
  assert (root ≠ end_node this ∧ root ≠ end_node other) as [Hr1 Hr2].
  { simpl in Hn2. unfold footprint in Hdis. simpl in Hdis.
    clear -Hdis Hn2. set_solver. }
  unfold bimap_move_assign, treap_move_assign.
  change (bind get_this ?k (w, this)) with (k this (w, this)). cbv beta.
  erewrite bind_ok.
  2:{ eapply in_world_ok, lift_ok.
      eapply (swap_ok tag_left); [apply I1|apply I2|done|done|done]. }
  erewrite bind_ok.
  2:{ eapply in_world_ok, lift_ok. simpl.
      eapply (swap_ok tag_right); [apply I1|apply I2|done| |].
      - rewrite lookup_insert_ne by done. apply lookup_insert_eq.
      - apply lookup_insert_eq. }
  unfold set_this, bind, ret. simpl.
  eexists _, _, _, root, _, croot.
  split; [done|]. split; [done|]. split; [done|]. simpl.
  split. { rewrite lookup_insert_ne by done. apply lookup_insert_eq. }
  split. { simpl. exact Hl2. }
  split. { by rewrite !lookup_insert_ne. }
  split; [exact Hpar|]. done.
Qed.
End Moves.

Set Default Proof Using "Type".

Section Claims.
Context {L R : Type}.
Variables (default_left : L) (default_right : R).
Variables (eq_left : L → L → bool) (eq_right : R → R → bool).
Local Abbreviation world := (@world L R).
Local Abbreviation bimap := (@bimap L R).
Local Abbreviation reachable := (reachable default_left default_right).

(** Where no bimap has been assigned to: for two bimaps of a state
    reached by construction, copy construction, [insert], [erase] and
    [at_or_default], [operator==] returns true exactly when their sizes are equal and their left
    views hold, place by place, left keys equal under [==] and right
    keys equal under [==]. In particular two bimaps that hold the same
    pairs compare equal, whatever their tree shapes, if they order
    left keys by the same comparator and [==] is reflexive on the
    keys. *)
Lemma equality_compares_left_views w bs i j b1 b2 fuel :
  reachable w bs → bs !! i = Some b1 → bs !! j = Some b2 →
  enough fuel b1 → enough fuel b2 →
  ∃ v1 v2 res,
    view_left fuel b1 w = Ok v1 w ∧ view_left fuel b2 w = Ok v2 w ∧
    bimap_eq eq_left eq_right fuel b1 b2 w = Ok res w ∧
    (res = true ↔
     bimap_size b1 = bimap_size b2 ∧
     Forall2 (λ x y, eq_left x.1 y.1 = true ∧ eq_right x.2 y.2 = true)
       v1 v2) ∧
    (cmp (treap_left b1) = cmp (treap_left b2) →
     (∀ x, eq_left x x = true) → (∀ y, eq_right y y = true) →
     v1 ≡ₚ v2 → res = true).
Proof.
  intros Hre Hb1 Hb2 He1 He2.
  destruct (reachable_wf _ _ _ _ _ _ Hre Hb1) as (tl1 & tr1 & I1).
  destruct (reachable_wf _ _ _ _ _ _ Hre Hb2) as (tl2 & tr2 & I2).
  pose proof (enough_fuel _ _ _ _ _ I1 He1) as Hf1.
  pose proof (enough_fuel _ _ _ _ _ I2 He2) as Hf2.
  eexists _, _, _.
  split; [by eapply view_left_spec|]. split; [by eapply view_left_spec|].
  split; [by eapply bimap_eq_spec|].
  split.
  - rewrite andb_true_iff, bool_decide_eq_true, same_pairs_Forall2. done.
  - intros Hc Hl Hr Hp.
    assert (pairs_of (mem w) (inorder tl1).*1
            = pairs_of (mem w) (inorder tl2).*1) as Hv.
    { pose proof (inv_swo_left _ _ _ _ I1) as [Hirr Htr _].
      eapply (sorted_perm_eq (λ x y, cmp (treap_left b1) x.1 y.1 = true));
        [| | | |exact Hp].
      - intros x. by rewrite Hirr.
      - intros x y z. apply Htr.
      - by eapply view_left_sorted.
      - rewrite Hc. by eapply view_left_sorted. }
    rewrite Hv, same_pairs_refl by done.
    rewrite bool_decide_eq_true_2; [done|]. unfold bimap_size.
    rewrite (inv_size _ _ _ _ I1), (inv_size _ _ _ _ I2).
    rewrite <- (pairs_of_length _ _ _ _ I1), <- (pairs_of_length _ _ _ _ I2).
    by rewrite Hv.
Qed.

(** Where no bimap has been assigned to: in every state reached by
    construction, copy construction, [insert], [erase] and
    [at_or_default], the copy constructor either returns or throws [std::bad_alloc]. When it returns, the copy is what [insert]
    of the pairs of the source's left view, in that order, makes of a
    newly constructed bimap with the source's comparators; its sentinel
    is storage that was free before, no record that was there before is
    changed, and both views of the copy give the pairs of the source.
    When it throws, the storage of the copy was not to be had or an
    [insert] threw, and then the heap is as before the call, all
    records of the half-built copy destroyed; a copy assignment to
    another object then throws as well and leaves that object as it
    was. In both cases the source gives the same views afterwards. *)
Lemma copy_is_all_or_nothing w bs i other fuel :
  reachable w bs → bs !! i = Some other → enough fuel other →
  ∃ vl vr,
    view_left fuel other w = Ok vl w ∧ view_right fuel other w = Ok vr w ∧
    ((∃ b0 w0 b' w',
        bimap_ctor (cmp (treap_left other)) (cmp (treap_right other)) w
        = Ok b0 w0 ∧
        insert_list fuel vl (w0, b0) = Ok tt (w', b') ∧
        bimap_copy_ctor fuel other w = Ok b' w' ∧
        (end_node b' ∉ dom (mem w)) ∧
        (∀ q, q ∈ dom (mem w) → mem w' !! q = mem w !! q) ∧
        view_left fuel b' w' = Ok vl w' ∧
        view_right fuel b' w' = Ok vr w' ∧
        bimap_size b' = bimap_size other ∧
        view_left fuel other w' = Ok vl w' ∧
        view_right fuel other w' = Ok vr w') ∨
     (∃ w',
        bimap_copy_ctor fuel other w = Throw bad_alloc w' ∧
        mem w' = mem w ∧
        (bimap_ctor (cmp (treap_left other)) (cmp (treap_right other)) w
         = Throw bad_alloc w ∨
         ∃ b0 w0 w1 b1,
           bimap_ctor (cmp (treap_left other)) (cmp (treap_right other)) w
           = Ok b0 w0 ∧
           insert_list fuel vl (w0, b0) = Throw bad_alloc (w1, b1)) ∧
        view_left fuel other w' = Ok vl w' ∧
        view_right fuel other w' = Ok vr w' ∧
        (∀ this, end_node other ≠ end_node this →
           bimap_copy_assign fuel other (w, this)
           = Throw bad_alloc (w', this)))).
Proof.
  intros Hre Hb He.
  destruct (reachable_wf _ _ _ _ _ _ Hre Hb) as (tlo & tro & Io).
  pose proof (enough_fuel _ _ _ _ _ Io He) as Hf.
  eexists _, _.
  split; [by eapply view_left_spec|]. split; [by eapply view_right_spec|].
  destruct (copy_full w other tlo tro fuel Io He)
    as [(b0 & w0 & b' & w' & tl' & tr' & H1 & H2 & H3 & I' & Hf' & Io' & H4
         & H5 & H6 & H7 & H8 & H9 & H10)
       |(w' & H1 & H2 & H3)].
  - left. exists b0, w0, b', w'.
    split; [exact H1|]. split; [exact H2|]. split; [exact H3|].
    split; [exact H4|]. split; [exact H5|].
    split. { rewrite <- H6. by eapply view_left_spec. }
    split. { rewrite <- H7. by eapply view_right_spec. }
    split; [exact H8|].
    split. { rewrite <- H9. by eapply view_left_spec. }
    rewrite <- H10. by eapply view_right_spec.
  - right. exists w'. split; [exact H1|]. split; [exact H2|].
    split; [exact H3|].
    destruct (views_kept w w' other tlo tro Io) as (Io' & K1 & K2).
    { intros q _. by rewrite H2. }
    split. { rewrite <- K1. by eapply view_left_spec. }
    split. { rewrite <- K2. by eapply view_right_spec. }
    intros this Hne. by apply copy_assign_failed.
Qed.

(** C10, which the code does not meet: the move constructor never
    returns. It dereferences the null [end_elem] of the treaps it
    builds, which is undefined behaviour, unless the storage of the new
    object was not to be had. Move assignment from a bimap that is not
    empty returns, and the target has the size and the root of the
    source, but the root still names the sentinel of the source as its
    parent: the sentinel is not repointed to the new owner. *)
Theorem move_does_not_transfer_ownership :
  (∀ (other : bimap) dl dr w,
     bimap_move_ctor other dl dr w
     = if decide (fresh (dom (mem w)) < addr_limit)%positive
       then UB else Throw bad_alloc w) ∧
  (∀ w bs i j this other,
     reachable w bs → bs !! i = Some this → bs !! j = Some other →
     i ≠ j → bimap_size other ≠ 0 →
     ∃ w' this' other' root c croot,
       bimap_move_assign other (w, this) = Ok other' (w', this') ∧
       end_node this' = end_node this ∧
       bimap_size this' = bimap_size other ∧
       mem w' !! end_node this' = Some c ∧
       left (sub tag_left c) = Some root ∧
       mem w' !! root = Some croot ∧
       parent (sub tag_left croot) = Some (end_node other) ∧
       end_node other ≠ end_node this').
Proof.
  split; [apply move_ctor_outcome|].
  intros w bs i j this other Hre Hb1 Hb2 Hne Hsz.
  destruct (reachable_sys_inv _ _ _ _ Hre) as (ts & Hlen & Hinv & Hdis).
  destruct (lookup_lt_is_Some_2 ts i) as [t1 Ht1].
  { rewrite Hlen. by eapply lookup_lt_Some. }
  destruct (lookup_lt_is_Some_2 ts j) as [t2 Ht2].
  { rewrite Hlen. by eapply lookup_lt_Some. }
  eapply move_assign_stale; [by eapply Hinv|by eapply Hinv| |done].
  by eapply (Hdis i j).
Qed.
End Claims.

Set Default Proof Using "Type".

Section Populating.
Context {L R : Type}.
Variables (default_left : L) (default_right : R).
Local Abbreviation world := (@world L R).
Local Abbreviation bimap := (@bimap L R).
Local Abbreviation reachable := (reachable default_left default_right).
Implicit Types (w : world) (b : bimap) (tl : tree L) (tr : tree R).

Lemma bind_ok_inv {S A B} (m : M S A) (k : A → M S B) s res s' :
  bind m k s = Ok res s' → ∃ a s1, m s = Ok a s1 ∧ k a s1 = Ok res s'.
Proof. unfold bind. destruct (m s) as [a s1| | |]; [eauto|done..]. Qed.

Lemma insert_size w b tl tr fuel l r it w' b' :
  inv w b tl tr → (count tl + 2 ≤ fuel)%nat →
  insert_impl fuel l r (w, b) = Ok it (w', b') →
  size_ b ≤ size_ b' ≤ size_ b + 1.
Proof.
  intros I Hf Hi.
  destruct (find_t_is_Some_dec (cmp (treap_left b)) tl l) as [Hl|[p Hl]].
  2:{ rewrite (insert_reject w b tl tr fuel l r I Hf) in Hi
        by (left; eauto).
      injection Hi as _ _ <-. lia. }
  destruct (find_t_is_Some_dec (cmp (treap_right b)) tr r) as [Hr|[p Hr]].
  2:{ rewrite (insert_reject w b tl tr fuel l r I Hf) in Hi
        by (right; eauto).
      injection Hi as _ _ <-. lia. }
  destruct (allocation_cases w) as [Ha|Ha].
  - destruct (insert_obs w b tl tr fuel l r I Hf Hl Hr Ha)
      as (w1 & b1 & Hi1 & _ & _ & Hsz & _).
    rewrite Hi1 in Hi. injection Hi as _ _ <-. lia.
  - by rewrite (insert_throw w b tl tr fuel l r I Hf Hl Hr Ha) in Hi.
Qed.

Lemma reachable_insert_list fuel ps :
  ∀ w bs i b w' b',
  reachable w bs → bs !! i = Some b →
  (Z.to_nat (size_ b) + length ps + 3 ≤ fuel)%nat →
  insert_list fuel ps (w, b) = Ok tt (w', b') →
  reachable w' (<[i := b']> bs).
Proof.
  induction ps as [|[l r] ps IH]; intros w bs i b w' b' Hre Hb Hfuel Hrun.
  - injection Hrun as <- <-. by rewrite list_insert_id.
  - simpl in Hrun. apply bind_ok_inv in Hrun as (it & [w1 b1] & Hi & Hrest).
    destruct (reachable_wf _ _ _ _ _ _ Hre Hb) as (tl & tr & I).
    assert (enough fuel b) as He by (unfold enough; simpl in Hfuel; lia).
    pose proof (enough_fuel _ _ _ _ _ I He) as Hf.
    pose proof (insert_size _ _ _ _ _ _ _ _ _ _ I Hf Hi) as Hsz.
    assert (reachable w1 (<[i := b1]> bs)) as Hre1.
    { eapply (reach_call _ _ _ _ _ _ fuel (op_insert l r));
        [exact Hre|exact Hb|exact He|done|].
      left. exists tt. simpl. unfold bimap_insert. by rewrite (bind_ok Hi). }
    pose proof (lookup_lt_Some _ _ _ Hb) as Hlt.
    rewrite <- (list_insert_insert_eq bs i b' b1).
    eapply IH; [exact Hre1|by apply list_lookup_insert_eq| |exact Hrest].
    pose proof (inv_size_range _ _ _ _ I). simpl in Hfuel. lia.
Qed.
End Populating.

Section Built.
Local Abbreviation world := (@world Z Z).
Local Abbreviation bimap := (@bimap Z Z).

Lemma populate_inv fuel ps (w : world) b w' :
  populate fuel ps w = Ok b w' →
  ∃ b0 w0, bimap_ctor Z.ltb Z.ltb w = Ok b0 w0 ∧
           insert_list fuel ps (w0, b0) = Ok tt (w', b).
Proof.
  unfold populate, bind, call_on, ret.
  destruct (bimap_ctor Z.ltb Z.ltb w) as [b0 w0| | |];
    [|intros; discriminate..].
  destruct (insert_list fuel ps (w0, b0)) as [[] [w2 b2]| | |] eqn:E;
    [|intros; discriminate..].
  simpl. intros H. injection H as <- <-. by exists b0, w0.
Qed.

Lemma populate_reachable (dl dr : Z) fuel ps (w : world) bs b w' :
  reachable dl dr w bs → (length ps + 3 ≤ fuel)%nat →
  populate fuel ps w = Ok b w' →
  reachable dl dr w' (bs ++ [b]).
Proof.
  intros Hre Hfuel Hp. apply populate_inv in Hp as (b0 & w0 & Hc & E).
  pose proof (reach_ctor dl dr _ _ _ _ _ _ Hre Z_ltb_swo Z_ltb_swo Hc) as Hre0.
  pose proof (holds_size _ _ _ (holds_new _ _ _ Hc)) as Hsz.
  assert (Z.to_nat (size_ b0) + length ps + 3 ≤ fuel)%nat as Hfuel'.
  { rewrite Hsz. simpl. lia. }
  pose proof (reachable_insert_list dl dr fuel ps w0 (bs ++ [b0])
                (length bs) b0 w' b Hre0
                (list_lookup_middle bs [] b0 _ eq_refl) Hfuel' E) as Hre1.
  rewrite insert_app_r_alt in Hre1 by done.
  by rewrite Nat.sub_diag in Hre1.
Qed.

Lemma two_pairs_ok :
  populate 8 [(1, 2); (5, 6)] first_world = Ok b_two w_two.
Proof. vm_compute. reflexivity. Qed.

Lemma one_more_ok : populate 8 [(3, 4)] w_two = Ok b_one w_three.
Proof. vm_compute. reflexivity. Qed.



Lemma reachable_two : reachable 0 0 w_two [b_two].
Proof.
  exact (populate_reachable 0 0 8 [(1, 2); (5, 6)] first_world [] b_two w_two
           (reach_start 0 0 first_world) ltac:(simpl; lia) two_pairs_ok).
Qed.

Lemma reachable_three : reachable 0 0 w_three [b_two; b_one].
Proof.
  exact (populate_reachable 0 0 8 [(3, 4)] w_two [b_two] b_one w_three
           reachable_two ltac:(simpl; lia) one_more_ok).
Qed.


End Built.

Set Default Proof Using "Type".

(** * The claims at work *)

Lemma enough_two : enough 8 b_two.
Proof. unfold enough. vm_compute. lia. Qed.

Lemma allocation_two : allocation_succeeds w_two.
Proof. split; vm_compute; [discriminate|reflexivity]. Qed.

Lemma valid_first_of_two :
  valid_left 8 w_two b_two (Iterator (Some 2%positive)) 1 2.
Proof. split; [|split; [|split]]; vm_compute; reflexivity. Qed.

Lemma valid_right_first_of_two :
  valid_right 8 w_two b_two (Iterator (Some 2%positive)) 1 2.
Proof. split; [|split; [|split]]; vm_compute; reflexivity. Qed.

Lemma erase_cursor_removes_the_pair_witness :
  reachable 0 0 w_two [b_two] ∧ [b_two] !! 0%nat = Some b_two ∧
  enough 8 b_two ∧
  valid_left 8 w_two b_two (Iterator (Some 2%positive)) 1 2 ∧
  valid_right 8 w_two b_two (Iterator (Some 2%positive)) 1 2 ∧
  (∃ w' b' nxt,
      erase_left 8 (Iterator (Some 2%positive)) (w_two, b_two)
      = Ok nxt (w', b') ∧
      find_left 8 b' 1 w' = Ok (end_left b') w') ∧
  (∃ w' b' nxt,
      erase_right 8 (Iterator (Some 2%positive)) (w_two, b_two)
      = Ok nxt (w', b') ∧
      find_right 8 b' 2 w' = Ok (end_right b') w').
Proof.
  pose proof (erase_cursor_removes_the_pair 0 0 w_two [b_two] 0 b_two 8
                reachable_two eq_refl enough_two) as [Hl Hr].
  split; [exact reachable_two|]. split; [reflexivity|].
  split; [exact enough_two|]. split; [exact valid_first_of_two|].
  split; [exact valid_right_first_of_two|]. split.
  - destruct (Hl _ _ _ valid_first_of_two)
      as (w' & b' & nxt & _ & _ & _ & _ & H1 & _ & H2 & _).
    exists w', b', nxt. split; [exact H1|exact H2].
  - destruct (Hr _ _ _ valid_right_first_of_two)
      as (w' & b' & nxt & _ & _ & _ & _ & H1 & _ & _ & H2 & _).
    exists w', b', nxt. split; [exact H1|exact H2].
Defined.


Lemma reached_bimaps_are_ordered_witness :
  reachable 0 0 w_two [b_two] ∧ [b_two] !! 0%nat = Some b_two ∧
  ∃ tl tr : tree Z,
    bst (cmp (treap_left b_two)) tl ∧ bst (cmp (treap_right b_two)) tr ∧
    bimap_size b_two = Z.of_nat (count tl).
Proof.
  split; [exact reachable_two|]. split; [reflexivity|].
  destruct (reached_bimaps_are_ordered 0 0 w_two [b_two] 0 b_two
              reachable_two eq_refl)
    as (tl & tr & _ & _ & _ & H1 & H2 & _ & _ & H3 & _).
  exists tl, tr. split; [exact H1|]. split; [exact H2|exact H3].
Defined.

Set Default Proof Using "Type".

Lemma absent_left_of_two : contains_left 8 b_two 7 w_two = Ok false w_two.
Proof. vm_compute. reflexivity. Qed.

Lemma absent_right_of_two : contains_right 8 b_two 8 w_two = Ok false w_two.
Proof. vm_compute. reflexivity. Qed.

Lemma insert_then_find_gives_the_partner_witness :
  (reachable 0 0 w_two [b_two] ∧ [b_two] !! 0%nat = Some b_two ∧
   enough 8 b_two ∧ allocation_succeeds w_two ∧
   contains_left 8 b_two 7 w_two = Ok false w_two ∧
   contains_right 8 b_two 8 w_two = Ok false w_two ∧
   ∃ w' b' it itl,
     bimap_insert 8 7 8 (w_two, b_two) = Ok it (w', b') ∧
     find_left 8 b' 7 w' = Ok itl w' ∧
     star_right (flip itl) w' = Ok 8 w') ∧
  ((∃ it, find_right 8 (bimap_of three_pairs) 1000 (world_of three_pairs)
          = Ok it (world_of three_pairs) ∧
          star_left (flip it) (world_of three_pairs)
          = Ok 42 (world_of three_pairs)) ∧
   find_left 8 (bimap_of three_pairs) 3436 (world_of three_pairs)
   = Ok (end_left (bimap_of three_pairs)) (world_of three_pairs)).
Proof.
  split.
  - split; [exact reachable_two|]. split; [reflexivity|].
    split; [exact enough_two|]. split; [exact allocation_two|].
    split; [exact absent_left_of_two|]. split; [exact absent_right_of_two|].
    destruct (proj1 insert_then_find_gives_the_partner Z Z 0 0 w_two [b_two]
                0%nat b_two 8%nat 7 8 reachable_two eq_refl enough_two
                allocation_two absent_left_of_two absent_right_of_two)
      as (w' & b' & it & itl & itr & G1 & G2 & G3 & _).
    exists w', b', it, itl. split; [exact G1|]. split; [exact G2|exact G3].
  - eapply (proj2 insert_then_find_gives_the_partner first_world _ _ 8%nat).
    + lia.
    + vm_compute. reflexivity.
    + vm_compute. reflexivity.
    + vm_compute. reflexivity.
    + vm_compute. reflexivity.
Defined.

Lemma at_or_default_on_an_own_key_witness :
  reachable 0 0 w_two [b_two] ∧ [b_two] !! 0%nat = Some b_two ∧
  enough 8 b_two ∧ allocation_succeeds w_two ∧
  (∃ c, contains_left 8 b_two 9 w_two = Ok c w_two) ∧
  (∃ c, contains_right 8 b_two 9 w_two = Ok c w_two).
Proof.
  pose proof (at_or_default_on_an_own_key 0 0 w_two [b_two] 0 b_two 8
                reachable_two eq_refl enough_two allocation_two) as [Hl Hr].
  split; [exact reachable_two|]. split; [reflexivity|].
  split; [exact enough_two|]. split; [exact allocation_two|]. split.
  - destruct (Hl 9) as (c & vl & vr & H & _). exists c. exact H.
  - destruct (Hr 9) as (c & vl & vr & H & _). exists c. exact H.
Defined.









Set Default Proof Using "Type".

Lemma enough_two_later : enough 8 b_two.
Proof. exact enough_two. Qed.

Lemma enough_one : enough 8 b_one.
Proof. unfold enough. vm_compute. lia. Qed.

Lemma equality_compares_left_views_witness :
  reachable 0 0 w_three [b_two; b_one] ∧
  [b_two; b_one] !! 0%nat = Some b_two ∧
  [b_two; b_one] !! 1%nat = Some b_one ∧
  enough 8 b_two ∧ enough 8 b_one ∧
  ∃ res, bimap_eq Z.eqb Z.eqb 8 b_two b_one w_three = Ok res w_three.
Proof.
  split; [exact reachable_three|]. split; [reflexivity|].
  split; [reflexivity|]. split; [exact enough_two|]. split; [exact enough_one|].
  destruct (equality_compares_left_views 0 0 Z.eqb Z.eqb w_three
              [b_two; b_one] 0 1 b_two b_one 8 reachable_three eq_refl eq_refl
              enough_two enough_one) as (v1 & v2 & res & _ & _ & H & _).
  exists res. exact H.
Defined.

Lemma copy_is_all_or_nothing_witness :
  reachable 0 0 w_two [b_two] ∧ [b_two] !! 0%nat = Some b_two ∧
  enough 8 b_two ∧
  ∃ vl vr, view_left 8 b_two w_two = Ok vl w_two ∧
           view_right 8 b_two w_two = Ok vr w_two.
Proof.
  split; [exact reachable_two|]. split; [reflexivity|].
  split; [exact enough_two|].
  destruct (copy_is_all_or_nothing 0 0 w_two [b_two] 0 b_two 8
              reachable_two eq_refl enough_two) as (vl & vr & H1 & H2 & _).
  exists vl, vr. split; [exact H1|exact H2].
Defined.

Lemma size_one : bimap_size b_one ≠ 0.
Proof. vm_compute. discriminate. Qed.

Lemma move_does_not_transfer_ownership_witness :
  reachable 0 0 w_three [b_two; b_one] ∧
  [b_two; b_one] !! 0%nat = Some b_two ∧
  [b_two; b_one] !! 1%nat = Some b_one ∧
  0%nat ≠ 1%nat ∧ bimap_size b_one ≠ 0 ∧
  ∃ w' this' other',
    bimap_move_assign b_one (w_three, b_two) = Ok other' (w', this').
Proof.
  split; [exact reachable_three|]. split; [reflexivity|].
  split; [reflexivity|]. split; [discriminate|]. split; [exact size_one|].
  destruct (proj2 (move_does_not_transfer_ownership 0 0) w_three
              [b_two; b_one] 0%nat 1%nat b_two b_one reachable_three
              eq_refl eq_refl ltac:(discriminate) size_one)
    as (w' & this' & other' & root & c & croot & H & _).
  exists w', this', other'. exact H.
Defined.

Set Default Proof Using "Type".

(** * The claims that assignment breaks *)

Ltac run := vm_compute; reflexivity.

Lemma zero_pairs_ok :
  populate 8 [(1, 0); (5, 6)] first_world = Ok b_zero w_zero.
Proof. run. Qed.

Lemma zero_more_ok : populate 8 [(3, 0)] w_two = Ok c_zero w_more.
Proof. run. Qed.

Lemma reachable_zero : reachable 0 0 w_zero [b_zero].
Proof.
  exact (populate_reachable 0 0 8 [(1, 0); (5, 6)] first_world [] b_zero
           w_zero (reach_start 0 0 first_world) ltac:(simpl; lia)
           zero_pairs_ok).
Qed.

Lemma reachable_more : reachable 0 0 w_more [b_two; c_zero].
Proof.
  exact (populate_reachable 0 0 8 [(3, 0)] w_two [b_two] c_zero w_more
           reachable_two ltac:(simpl; lia) zero_more_ok).
Qed.

Lemma moved_ok :
  bimap_move_assign b_one (w_three, b_two) = Ok c_moved (w_moved, a_moved).
Proof. run. Qed.

Lemma valid_at_three : valid_left 8 w_moved a_moved at_three 3 4.
Proof. split; [|split; [|split]]; run. Qed.

(** C1, which the code does not meet once a bimap has been assigned to.
    [a] holds (1,2) and (5,6), [c] holds (3,4), and [a = std::move(c)]
    has returned: [a] has size 1, [a.find_left(3)] is a valid cursor at
    (3,4), and [c] holds (1,2) and (5,6). Then
    [a.erase_left(a.find_left(3))] returns the end cursor of [c], which
    is not [a.end_left()]; [a.find_left(3)] is undefined afterwards
    instead of giving [a.end_left()]; and the pairs (1,2) and (5,6) are
    gone from [c]. *)
Theorem erase_after_move_assignment_goes_astray :
  reachable 0 0 w_three [b_two; b_one] ∧
  bimap_move_assign b_one (w_three, b_two) = Ok c_moved (w_moved, a_moved) ∧
  bimap_size a_moved = 1 ∧
  valid_left 8 w_moved a_moved at_three 3 4 ∧
  at_left 8 c_moved 1 w_moved = Ok 2 w_moved ∧
  at_left 8 c_moved 5 w_moved = Ok 6 w_moved ∧
  erase_left 8 at_three (w_moved, a_moved)
  = Ok (end_left c_moved) (w_gone, a_gone) ∧
  end_left c_moved ≠ end_left a_gone ∧
  find_left 8 a_gone 3 w_gone = UB ∧
  at_left 8 c_moved 1 w_gone = Throw out_of_range w_gone ∧
  at_left 8 c_moved 5 w_gone = Throw out_of_range w_gone.
Proof.
  split; [exact reachable_three|]. split; [exact moved_ok|].
  split; [run|]. split; [exact valid_at_three|].
  split; [run|]. split; [run|]. split; [run|].
  split; [vm_compute; discriminate|].
  split; [run|]. split; run.
Qed.

(** C3, which the code does not meet once a bimap has been assigned to.
    After [a = std::move(c)] as above, [a] has size 1 and
    [a.begin_left()] is at (3,4), but [++] from there gives the end
    cursor of [c], not [a.end_left()]: the walk from [a.begin_left()] to
    [a.end_left()] goes on and dereferences a sentinel, which is
    undefined, and so are the walks of the right view and of [c]. *)
Theorem walk_after_move_assignment_misses_the_end :
  reachable 0 0 w_three [b_two; b_one] ∧
  bimap_move_assign b_one (w_three, b_two) = Ok c_moved (w_moved, a_moved) ∧
  bimap_size a_moved = 1 ∧
  begin_left 8 a_moved w_moved = Ok at_three w_moved ∧
  star_left at_three w_moved = Ok 3 w_moved ∧
  incr 8 at_three w_moved = Ok (end_left c_moved) w_moved ∧
  end_left c_moved ≠ end_left a_moved ∧
  star_left (end_left c_moved) w_moved = UB ∧
  view_left 8 a_moved w_moved = UB ∧
  view_right 8 a_moved w_moved = UB ∧
  view_left 8 c_moved w_moved = UB.
Proof.
  split; [exact reachable_three|]. split; [exact moved_ok|].
  split; [run|]. split; [run|]. split; [run|]. split; [run|].
  split; [vm_compute; discriminate|].
  split; [run|]. split; [run|]. split; run.
Qed.

Set Default Proof Using "Type".

(** C5, which the code does not meet in two cases. First, the key is
    handed over as a reference and is read again by [insert] after the
    pair that holds the default has been erased: with [b] holding (1,0)
    and (5,6), [b.at_left_or_default] on the key [*b.find_right(0)],
    which is absent on the left, erases (1,0) and then reads the key in
    the deleted record, which is undefined; the same call on a key 0
    that is an object of its own returns 0 and leaves (0,0) and (5,6).
    Second, after [a = std::move(c)] with [a] holding (1,2) and (5,6)
    and [c] holding (3,0), [a.at_left_or_default(9)] on the absent key 9
    is undefined. *)
Theorem at_or_default_reads_what_is_gone :
  reachable 0 0 w_zero [b_zero] ∧
  find_right 8 b_zero 0 w_zero = Ok at_zero w_zero ∧
  star_right at_zero w_zero = Ok 0 w_zero ∧
  read key_at_zero w_zero = Ok 0 w_zero ∧
  contains_left 8 b_zero 0 w_zero = Ok false w_zero ∧
  at_left_or_default 0 8 key_at_zero (w_zero, b_zero) = UB ∧
  (∃ w' b',
      at_left_or_default 0 8 (ref_object 0) (w_zero, b_zero)
      = Ok 0 (w', b') ∧
      view_left 8 b' w' = Ok [(0, 0); (5, 6)] w') ∧
  reachable 0 0 w_more [b_two; c_zero] ∧
  view_left 8 c_zero w_more = Ok [(3, 0)] w_more ∧
  (∃ c', bimap_move_assign c_zero (w_more, b_two)
         = Ok c' (w_moved_zero, a_moved_zero)) ∧
  contains_left 8 a_moved_zero 9 w_moved_zero = Ok false w_moved_zero ∧
  at_left_or_default 0 8 (ref_object 9) (w_moved_zero, a_moved_zero) = UB.
Proof.
  split; [exact reachable_zero|].
  split; [run|]. split; [run|]. split; [run|]. split; [run|].
  split; [run|].
  split.
  { exists (fst (left_by (at_left_or_default 0 8 (ref_object 0)
                            (w_zero, b_zero)))),
           (snd (left_by (at_left_or_default 0 8 (ref_object 0)
                            (w_zero, b_zero)))).
    split; run. }
  split; [exact reachable_more|]. split; [run|].
  split.
  { exists (match moved_zero with Ok c _ => c | _ => no_bimap end). run. }
  split; run.
Qed.

(** C8, which the code does not meet once a bimap has been assigned to.
    After [a = std::move(c)] as above, [a == a] is undefined. After
    [b = b1] with [b1] holding (3,4) and [b] empty, both have size 1
    and [b.at_left(3)] is 4, but [b == b1] and [b1 == b] are
    undefined. *)
Theorem equality_after_assignment_is_undefined :
  reachable 0 0 w_three [b_two; b_one] ∧
  bimap_move_assign b_one (w_three, b_two) = Ok c_moved (w_moved, a_moved) ∧
  bimap_eq Z.eqb Z.eqb 8 a_moved a_moved w_moved = UB ∧
  into_empty first_world = Ok (b_assigned, b_source) w_assigned ∧
  bimap_size b_assigned = 1 ∧ bimap_size b_source = 1 ∧
  view_left 8 b_source w_assigned = Ok [(3, 4)] w_assigned ∧
  at_left 8 b_assigned 3 w_assigned = Ok 4 w_assigned ∧
  bimap_eq Z.eqb Z.eqb 8 b_assigned b_source w_assigned = UB ∧
  bimap_eq Z.eqb Z.eqb 8 b_source b_assigned w_assigned = UB.
Proof.
  split; [exact reachable_three|]. split; [exact moved_ok|].
  split; [run|]. split; [run|]. split; [run|]. split; [run|].
  split; [run|]. split; [run|]. split; run.
Qed.

(** C9, which the code does not meet for copy assignment and for sources
    that have been assigned to. In the repository's [TEST(bimap, copies)]
    [b] holds (3,4) and [b1] holds (3,4), (4,5) and (10,-10) when
    [b = b1] is reached, and that assignment is undefined. [b = b1] with
    [b1] holding (3,4) and [b] empty returns and leaves [b1] as it was,
    but the walk of [b] is undefined. After [a = std::move(c)] as
    above, the copy constructor on [a] is undefined. *)
Theorem copy_assignment_leaves_no_copy :
  (∃ b b1 w,
      copies_setup first_world = Ok (b, b1) w ∧
      view_left 8 b w = Ok [(3, 4)] w ∧
      view_left 8 b1 w = Ok [(3, 4); (4, 5); (10, -10)] w) ∧
  copies first_world = UB ∧
  into_empty first_world = Ok (b_assigned, b_source) w_assigned ∧
  view_left 8 b_source w_assigned = Ok [(3, 4)] w_assigned ∧
  bimap_size b_assigned = 1 ∧
  view_left 8 b_assigned w_assigned = UB ∧
  reachable 0 0 w_three [b_two; b_one] ∧
  bimap_move_assign b_one (w_three, b_two) = Ok c_moved (w_moved, a_moved) ∧
  bimap_copy_ctor 8 a_moved w_moved = UB.
Proof.
  split.
  { exists (match copies_setup first_world with
            | Ok p _ => fst p | _ => no_bimap end),
           (match copies_setup first_world with
            | Ok p _ => snd p | _ => no_bimap end),
           (world_of (copies_setup first_world)).
    split; [run|]. split; run. }
  split; [run|]. split; [run|]. split; [run|]. split; [run|].
  split; [run|]. split; [exact reachable_three|].
  split; [exact moved_ok|]. run.
Qed.
